(** * lpm: longest-prefix-match over a binary (Patricia-style) trie

    A shallow embedding of [bitarray.h] (class [BitArray<N>]) and [bintrie.h]
    (class [BinaryTrie<N,T>]) together with the properties of the two classes.

    - A [BitArray<N>] is its byte buffer ([unsigned char bits[N]], a list of
      byte values held in [Z]) and its [bitCount].
    - A [BinaryTrie] is a store of heap-allocated nodes addressed by pointers,
      a [root] pointer, the [numNodes] counter ([size_t], wrap-around written
      out) and a log of the [delete]s performed so far.  Null is [None].
      Dereferencing a pointer that is null or no longer live has no defined
      behaviour in C++; the embedding returns [None] there. *)

From Stdlib Require Import ZArith List Lia Bool.
From stdpp Require Import gmap list.

Local Open Scope nat_scope.

(** ** bitarray.h *)

Module BitArray.

(** [unsigned char bits[N]; size_t bitCount;] *)
Record t := mk { bits : list Z; bitCount : nat }.

Definition WORD_BITS : nat := 8.

(** [bits[i]]; the index is always inside the buffer for a well-formed array
    and an index no larger than [N - 1]. *)
Definition byte (a : t) (i : nat) : Z := nth i (bits a) 0%Z.

(** The class invariant of [BitArray<N>]: a buffer of [N] unsigned chars and
    [bitCount <= N * 8] (constructor check, [setSize] assertion). *)
Definition wf (N : nat) (a : t) : Prop :=
  length (bits a) = N /\
  Forall (fun b => (0 <= b < 256)%Z) (bits a) /\
  bitCount a <= N * 8.

(** [getByteCount(nbits)]: [(nbits + 7) >> 3]. *)
Definition getByteCount (nbits : nat) : nat := Nat.shiftr (nbits + 7) 3.

Definition empty (a : t) : bool := bitCount a =? 0.
Definition size (a : t) : nat := bitCount a.

(** [setSize(nbits)]: storage untouched. *)
Definition setSize (a : t) (nbits : nat) : t := mk (bits a) nbits.

(** [operator[](pos) const]: byte [pos / 8], mask [(1 << 7) >> (pos % 8)],
    read through [Reference::operator bool]. *)
Definition get (a : t) (pos : nat) : bool :=
  let n := pos / WORD_BITS in
  let offset := pos mod WORD_BITS in
  let mask := Z.shiftr (Z.shiftl 1 (Z.of_nat (WORD_BITS - 1))) (Z.of_nat offset) in
  negb (Z.land (byte a n) mask =? 0)%Z.

(** [__builtin_clz] on a non-zero 32-bit [unsigned int]. *)
Definition builtin_clz (r : Z) : nat := Z.to_nat (31 - Z.log2 r).

(** The [for] loop of [firstDifferentBit]; [i] is the loop counter and
    [result] the running result.  The loop ends by its own condition within
    [n] rounds, so [n] is enough fuel. *)
Fixpoint firstDifferentBit_loop (fuel : nat) (a other : t) (n i result : nat) : nat :=
  match fuel with
  | O => result
  | S fuel' =>
      if i * 8 <? n then
        let r := Z.lxor (byte a i) (byte other i) in
        if (r =? 0)%Z then
          firstDifferentBit_loop fuel' a other n (i + 1) ((i + 1) * 8)
        else
          i * 8 + (builtin_clz r - (4 - 1) * 8)
      else result
  end.

Definition firstDifferentBit (a other : t) (n : nat) : nat :=
  let result := firstDifferentBit_loop n a other n 0 0 in
  if n <? result then n else result.

(** [memcmp] over the first [n] bytes of two buffers (sign of the first
    differing pair, as unsigned chars). *)
Fixpoint memcmp (a b : list Z) (n : nat) {struct n} : Z :=
  match n with
  | O => 0
  | S n' =>
      match a, b with
      | x :: a', y :: b' => if (x =? y)%Z then memcmp a' b' n' else (x - y)%Z
      | _, _ => 0%Z
      end
  end.

(** [strncmp]: like [memcmp] but it stops after a NUL byte. *)
Fixpoint strncmp (a b : list Z) (n : nat) {struct n} : Z :=
  match n with
  | O => 0
  | S n' =>
      match a, b with
      | x :: a', y :: b' =>
          if (x =? y)%Z then (if (x =? 0)%Z then 0%Z else strncmp a' b' n')
          else (x - y)%Z
      | _, _ => 0%Z
      end
  end.

(** [storage_type mask = (~0) << (WORD_BITS - offset)], truncated to an
    unsigned char. *)
Definition high_mask (offset : nat) : Z :=
  (Z.shiftl (Z.lnot 0) (Z.of_nat (WORD_BITS - offset)) mod 256)%Z.

Definition compareBits (a other : t) (nbits : nat) : bool :=
  if (bitCount a <? nbits) || (bitCount other <? nbits) then false
  else
    let n := nbits / WORD_BITS in
    let offset := nbits mod WORD_BITS in
    if negb (memcmp (bits a) (bits other) n =? 0)%Z then false
    else if negb (offset =? 0) then
      let lhsLastByte := byte a n in
      let rhsLastByte := byte other n in
      let mask := high_mask offset in
      if negb (Z.land lhsLastByte mask =? Z.land rhsLastByte mask)%Z then false
      else true
    else true.

(** [operator<] *)
Definition lt (lhs rhs : t) : bool :=
  if bitCount lhs <? bitCount rhs then true
  else if bitCount rhs <? bitCount lhs then false
  else
    let c := strncmp (bits lhs) (bits rhs) (getByteCount (bitCount lhs)) in
    if (c <? 0)%Z then true
    else if (0 <? c)%Z then false
    else false.

(** [operator==] *)
Definition eqb (lhs rhs : t) : bool :=
  if bitCount lhs =? bitCount rhs then compareBits lhs rhs (bitCount lhs)
  else false.

(** Two arrays agree on their first [n] bits. *)
Definition agree (n : nat) (a b : t) : Prop :=
  forall i, i < n -> get a i = get b i.

(** Lexicographic order on the first [n] bytes, the order the documentation
    of [operator<] refers to. *)
Fixpoint bytes_lex_lt (a b : list Z) (n : nat) {struct n} : bool :=
  match n with
  | O => false
  | S n' =>
      match a, b with
      | x :: a', y :: b' =>
          if (x <? y)%Z then true
          else if (y <? x)%Z then false
          else bytes_lex_lt a' b' n'
      | _, _ => false
      end
  end.

End BitArray.

(** ** bintrie.h *)

(** A node pointer; [None : option ptr] is [NULL]. *)
Abbreviation ptr := nat (only parsing).

(** [size_t] arithmetic on the node counter wraps modulo [2^64]. *)
Definition size_t_wrap (z : Z) : Z := (z mod 2 ^ 64)%Z.

(** What a public member function hands back: a value, or the
    [std::out_of_range] exception. *)
Inductive result (A : Type) : Type :=
| Ok (a : A)
| out_of_range.
Arguments Ok {A} a.
Arguments out_of_range {A}.

Section BinaryTrie.

(** [template <size_t N, class T>], the value a default-initialised
    [mapped_type] holds and the bytes a default-constructed key holds
    ([BitArray()] sets [bitCount] only; its buffer is indeterminate). *)
Context {T : Type}.
Variable N : nat.
Variable data_init : T.
Variable key_init_bytes : list Z.

(** [struct Node] *)
Record Node := mkNode {
  n_left : option ptr;
  n_right : option ptr;
  n_parent : option ptr;
  n_data : T;
  n_key : BitArray.t;
  n_bits : nat
}.

(** [key_type()] *)
Definition key_default : BitArray.t := BitArray.mk key_init_bytes 0.

(** [Node()] *)
Definition Node_default : Node := mkNode None None None data_init key_default 0.

(** [Node(key, bits)] *)
Definition Node_key (key : BitArray.t) (bits : nat) : Node :=
  mkNode None None None data_init key bits.

Definition with_left (v : option ptr) (n : Node) : Node :=
  mkNode v (n_right n) (n_parent n) (n_data n) (n_key n) (n_bits n).
Definition with_right (v : option ptr) (n : Node) : Node :=
  mkNode (n_left n) v (n_parent n) (n_data n) (n_key n) (n_bits n).
Definition with_parent (v : option ptr) (n : Node) : Node :=
  mkNode (n_left n) (n_right n) v (n_data n) (n_key n) (n_bits n).
Definition with_data (v : T) (n : Node) : Node :=
  mkNode (n_left n) (n_right n) (n_parent n) v (n_key n) (n_bits n).
Definition with_key (v : BitArray.t) (n : Node) : Node :=
  mkNode (n_left n) (n_right n) (n_parent n) (n_data n) v (n_bits n).
Definition with_bits (v : nat) (n : Node) : Node :=
  mkNode (n_left n) (n_right n) (n_parent n) (n_data n) (n_key n) v.

(** The trie object and the free store behind it: [root], [numNodes], the
    live nodes by address, the next address [new] hands out, and every
    pointer passed to [delete] so far (most recent first). *)
Record Trie := mkTrie {
  root : option ptr;
  numNodes : Z;
  heap : gmap nat Node;
  next : ptr;
  deleted : list ptr
}.

(** [BinaryTrie()] *)
Definition BinaryTrie : Trie := mkTrie None 0 ∅ 1 [].

Definition set_root (r : option ptr) (s : Trie) : Trie :=
  mkTrie r (numNodes s) (heap s) (next s) (deleted s).
Definition set_numNodes (c : Z) (s : Trie) : Trie :=
  mkTrie (root s) c (heap s) (next s) (deleted s).
Definition set_heap (h : gmap nat Node) (s : Trie) : Trie :=
  mkTrie (root s) (numNodes s) h (next s) (deleted s).

(** [numNodes++] and [numNodes--] *)
Definition incr_numNodes (s : Trie) : Trie := set_numNodes (size_t_wrap (numNodes s + 1)) s.
Definition decr_numNodes (s : Trie) : Trie := set_numNodes (size_t_wrap (numNodes s - 1)) s.

(** [new Node(...)]: a fresh address. *)
Definition new_node (nd : Node) (s : Trie) : ptr * Trie :=
  (next s, mkTrie (root s) (numNodes s) (<[next s := nd]> (heap s)) (S (next s)) (deleted s)).

(** [delete p]: the node leaves the store and the call is logged.  A second
    [delete] of the same pointer is undefined behaviour in C++; here it is
    not a stop but a repeat in [deleted], so that it can be stated.  A state
    whose log repeats a pointer stands for a run that has left defined
    behaviour; a run stays inside it as long as [deleted] has no repeat. *)
Definition delete_node (p : ptr) (s : Trie) : Trie :=
  mkTrie (root s) (numNodes s) (delete p (heap s)) (next s) (p :: deleted s).

(** The number of live nodes. *)
Definition live (s : Trie) : nat := size (heap s).

(** A write [p->field = v] through a live pointer. *)
Definition store (p : ptr) (f : Node -> Node) (s : Trie) : option Trie :=
  nd ← heap s !! p; Some (set_heap (<[p := f nd]> (heap s)) s).

(** No path of a trie over [N]-byte keys is longer than this; it is the
    size of the scratch stacks in [clear] and [searchBest]. *)
Definition max_depth : nat := N * 8 + 1.

(** *** [lookupNode] *)

(** The first [while] loop: walk to the nearest data node. *)
Fixpoint lookup_descend (fuel : nat) (key : BitArray.t) (h : gmap nat Node) (node : ptr)
  : option ptr :=
  match fuel with
  | O => None
  | S fuel' =>
      nd ← h !! node;
      if (n_bits nd <? BitArray.size key) || BitArray.empty (n_key nd) then
        if BitArray.get key (n_bits nd) then
          match n_right nd with
          | None => Some node
          | Some r => lookup_descend fuel' key h r
          end
        else
          match n_left nd with
          | None => Some node
          | Some l => lookup_descend fuel' key h l
          end
      else Some node
  end.

(** The second [while] loop: walk back before the different bit. *)
Fixpoint lookup_ascend (fuel : nat) (h : gmap nat Node) (diffBit : nat) (node : ptr)
  : option ptr :=
  match fuel with
  | O => None
  | S fuel' =>
      nd ← h !! node;
      match n_parent nd with
      | None => Some node
      | Some parent =>
          pd ← h !! parent;
          if diffBit <=? n_bits pd then lookup_ascend fuel' h diffBit parent
          else Some node
      end
  end.

(** The splice shared by the last two cases of [lookupNode]: the slot that
    held [node] under [parent] (or [root]) now holds [repl]. *)
Definition replace_child (parent : option ptr) (node : ptr) (repl : option ptr) (s : Trie)
  : option Trie :=
  match parent with
  | None => Some (set_root repl s)
  | Some q =>
      qd ← heap s !! q;
      if decide (n_right qd = Some node) then store q (with_right repl) s
      else store q (with_left repl) s
  end.

Definition lookupNode (key : BitArray.t) (s : Trie) : option (ptr * Trie) :=
  match root s with
  | None =>
      let '(node, s) := new_node (Node_key key (BitArray.size key)) s in
      Some (node, incr_numNodes (set_root (Some node) s))
  | Some r =>
      let bitLen := BitArray.size key in
      node ← lookup_descend max_depth key (heap s) r;
      nd ← heap s !! node;
      let tmpKey := n_key nd in
      let checkBit := if n_bits nd <? bitLen then n_bits nd else bitLen in
      let diffBit := BitArray.firstDifferentBit key (n_key nd) checkBit in
      node ← lookup_ascend max_depth (heap s) diffBit node;
      nd ← heap s !! node;
      if (diffBit =? bitLen) && (n_bits nd =? bitLen) then
        if BitArray.empty (n_key nd) then
          s ← store node (with_key key) s; Some (node, s)
        else Some (node, s)
      else
        let '(newNode, s) := new_node (Node_key key (BitArray.size key)) s in
        let s := incr_numNodes s in
        if n_bits nd =? diffBit then
          s ← store newNode (with_parent (Some node)) s;
          s ← (if BitArray.get key (n_bits nd)
               then store node (with_right (Some newNode)) s
               else store node (with_left (Some newNode)) s);
          Some (newNode, s)
        else if bitLen =? diffBit then
          s ← (if BitArray.get tmpKey bitLen
               then store newNode (with_right (Some node)) s
               else store newNode (with_left (Some node)) s);
          s ← store newNode (with_parent (n_parent nd)) s;
          s ← replace_child (n_parent nd) node (Some newNode) s;
          s ← store node (with_parent (Some newNode)) s;
          Some (newNode, s)
        else
          let '(glue, s) := new_node Node_default s in
          s ← store glue (with_bits diffBit) s;
          s ← store glue (with_parent (n_parent nd)) s;
          let s := incr_numNodes s in
          s ← (if BitArray.get key diffBit
               then s ← store glue (with_right (Some newNode)) s;
                    store glue (with_left (Some node)) s
               else s ← store glue (with_right (Some node)) s;
                    store glue (with_left (Some newNode)) s);
          s ← store newNode (with_parent (Some glue)) s;
          s ← replace_child (n_parent nd) node (Some glue) s;
          s ← store node (with_parent (Some glue)) s;
          Some (newNode, s)
  end.

(** *** [searchExact] *)

(** The [while] loop; [Some None] is the [return NULL] inside it. *)
Fixpoint searchExact_loop (fuel : nat) (key : BitArray.t) (h : gmap nat Node) (node : ptr)
  : option (option ptr) :=
  match fuel with
  | O => None
  | S fuel' =>
      nd ← h !! node;
      if n_bits nd <? BitArray.size key then
        match (if BitArray.get key (n_bits nd) then n_right nd else n_left nd) with
        | None => Some None
        | Some c => searchExact_loop fuel' key h c
        end
      else Some (Some node)
  end.

Definition searchExact (key : BitArray.t) (s : Trie) : option (option ptr) :=
  match root s with
  | None => Some None
  | Some r =>
      found ← searchExact_loop max_depth key (heap s) r;
      match found with
      | None => Some None
      | Some node =>
          nd ← heap s !! node;
          if (BitArray.size key <? n_bits nd) || BitArray.empty (n_key nd) then Some None
          else if BitArray.compareBits key (n_key nd) (BitArray.size key) then Some (Some node)
          else Some None
      end
  end.

(** *** [searchBest] *)

(** The walk; the stack is a list with its top at the head.  The result is
    the node the loop stopped at ([None] after the [break]) and the stack. *)
Fixpoint searchBest_loop (fuel : nat) (key : BitArray.t) (h : gmap nat Node)
  (node : ptr) (stack : list ptr) : option (option ptr * list ptr) :=
  match fuel with
  | O => None
  | S fuel' =>
      nd ← h !! node;
      if n_bits nd <? BitArray.size key then
        let stack := if negb (BitArray.empty (n_key nd)) then node :: stack else stack in
        match (if BitArray.get key (n_bits nd) then n_right nd else n_left nd) with
        | None => Some (None, stack)
        | Some c => searchBest_loop fuel' key h c stack
        end
      else Some (Some node, stack)
  end.

(** The final [while (--cnt >= 0)] loop. *)
Fixpoint searchBest_pop (key : BitArray.t) (h : gmap nat Node) (stack : list ptr)
  : option (option ptr) :=
  match stack with
  | [] => Some None
  | node :: stack' =>
      nd ← h !! node;
      if BitArray.compareBits key (n_key nd) (BitArray.size (n_key nd))
         && (BitArray.size (n_key nd) <=? BitArray.size key)
      then Some (Some node)
      else searchBest_pop key h stack'
  end.

(** The push after the walk: [if (node && !node->key.empty())]. *)
Definition searchBest_push (h : gmap nat Node) (node : option ptr) (stack : list ptr)
  : option (list ptr) :=
  match node with
  | None => Some stack
  | Some p =>
      nd ← h !! p;
      Some (if negb (BitArray.empty (n_key nd)) then p :: stack else stack)
  end.

Definition searchBest (key : BitArray.t) (s : Trie) : option (option ptr) :=
  match root s with
  | None => Some None
  | Some r =>
      '(node, stack) ← searchBest_loop max_depth key (heap s) r [];
      stack ← searchBest_push (heap s) node stack;
      searchBest_pop key (heap s) stack
  end.

(** *** [removeNode] *)

Definition removeNode (node : ptr) (s : Trie) : option Trie :=
  nd ← heap s !! node;
  if bool_decide (n_right nd ≠ None) && bool_decide (n_left nd ≠ None) then
    store node (with_key key_default) s
  else if bool_decide (n_right nd = None) && bool_decide (n_left nd = None) then
    let parent := n_parent nd in
    let s := delete_node node s in
    let s := decr_numNodes s in
    match parent with
    | None =>
        let s := set_root None s in
        let s := delete_node node s in
        Some s
    | Some parent =>
        pd ← heap s !! parent;
        '(child, s) ← (if decide (n_right pd = Some node)
                       then s ← store parent (with_right None) s; Some (n_left pd, s)
                       else s ← store parent (with_left None) s; Some (n_right pd, s));
        if negb (BitArray.empty (n_key pd)) then Some s
        else
          s ← replace_child (n_parent pd) parent child s;
          c ← child;
          s ← store c (with_parent (n_parent pd)) s;
          let s := delete_node parent s in
          Some (decr_numNodes s)
    end
  else
    c ← (match n_right nd with Some r => Some r | None => n_left nd end);
    let parent := n_parent nd in
    s ← store c (with_parent parent) s;
    let s := delete_node node s in
    let s := decr_numNodes s in
    match parent with
    | None => Some (set_root (Some c) s)
    | Some p =>
        pd ← heap s !! p;
        if decide (n_right pd = Some node) then store p (with_right (Some c)) s
        else store p (with_left (Some c)) s
    end.

(** *** [clear], [empty], [size] *)

(** The [while (node)] loop of [clear]; the stack is a list, top first. *)
Fixpoint clear_loop (fuel : nat) (node : option ptr) (stack : list ptr) (s : Trie)
  : option Trie :=
  match node with
  | None => Some s
  | Some p =>
      match fuel with
      | O => None
      | S fuel' =>
          nd ← heap s !! p;
          let right := n_right nd in
          let left := n_left nd in
          let s := delete_node p s in
          match left with
          | Some l =>
              clear_loop fuel' (Some l)
                (match right with Some r => r :: stack | None => stack end) s
          | None =>
              match right with
              | Some r => clear_loop fuel' (Some r) stack s
              | None =>
                  match stack with
                  | q :: stack' => clear_loop fuel' (Some q) stack' s
                  | [] => clear_loop fuel' None stack s
                  end
              end
          end
      end
  end.

(** Every round of the loop deletes one live node, so one round per live
    node (and one more for the exit test) is enough fuel. *)
Definition clear (s : Trie) : option Trie :=
  match root s with
  | Some r =>
      s ← clear_loop (S (live s)) (Some r) [] s;
      Some (set_numNodes 0 s)
  | None => Some s
  end.

Definition empty (s : Trie) : bool := bool_decide (root s = None).

Definition size (s : Trie) : Z := numNodes s.

(** *** The public members *)

(** [operator[]]: the reference [node->data] is the node's address. *)
Definition index (key : BitArray.t) (s : Trie) : option (result ptr * Trie) :=
  '(node, s) ← lookupNode key s;
  Some (Ok node, s).

(** [trie[key] = v], the way the loader uses [operator[]]. *)
Definition assign (key : BitArray.t) (v : T) (s : Trie) : option Trie :=
  '(node, s) ← lookupNode key s;
  store node (with_data v) s.

Definition at_ (key : BitArray.t) (s : Trie) : option (result ptr) :=
  node ← searchExact key s;
  match node with
  | Some p => Some (Ok p)
  | None => Some out_of_range
  end.

Definition best (key : BitArray.t) (s : Trie) : option (result ptr) :=
  node ← searchBest key s;
  match node with
  | Some p => Some (Ok p)
  | None => Some out_of_range
  end.

(** Reading through a returned reference. *)
Definition deref (s : Trie) (p : ptr) : option T := n_data <$> heap s !! p.

(** [erase]: the exception leaves the trie as it is. *)
Definition erase (key : BitArray.t) (s : Trie) : option (result unit * Trie) :=
  node ← searchExact key s;
  match node with
  | Some p => s ← removeNode p s; Some (Ok tt, s)
  | None => Some (out_of_range, s)
  end.

(** ** The shape of a trie

    The invariant every member function keeps.  [rep p] is a ghost bit
    string for node [p]: its first [n_bits] bits are the prefix all keys at
    and below [p] share. *)

(** The link a search for [key] follows out of a node. *)
Definition kchild (key : BitArray.t) (nd : Node) : option ptr :=
  if BitArray.get key (n_bits nd) then n_right nd else n_left nd.

(** [t] is reached from [a] by following [key]. *)
Inductive kpath (h : gmap nat Node) (key : BitArray.t) : ptr -> ptr -> Prop :=
| kpath_refl a : kpath h key a a
| kpath_step a nd c t :
    h !! a = Some nd -> kchild key nd = Some c -> kpath h key c t -> kpath h key a t.

(** A data node carries a key; a node whose key is empty is glue. *)
Definition is_data (nd : Node) : Prop := BitArray.bitCount (n_key nd) <> 0.

(** The child [oc] on side [b] of node [p]. *)
Definition child_ok (h : gmap nat Node) (rep : ptr -> nat -> bool)
  (p : ptr) (nd : Node) (b : bool) (oc : option ptr) : Prop :=
  match oc with
  | None => True
  | Some c =>
      exists cd, h !! c = Some cd /\ n_parent cd = Some p /\ n_bits nd < n_bits cd /\
                 (forall i, i < n_bits nd -> rep c i = rep p i) /\
                 rep c (n_bits nd) = b
  end.

Record node_ok (s : Trie) (rep : ptr -> nat -> bool) (p : ptr) (nd : Node) : Prop := {
  ok_left : child_ok (heap s) rep p nd false (n_left nd);
  ok_right : child_ok (heap s) rep p nd true (n_right nd);
  ok_parent :
    match n_parent nd with
    | None => root s = Some p
    | Some q => exists qd, heap s !! q = Some qd /\ (n_left qd = Some p \/ n_right qd = Some p)
    end;
  ok_key :
    BitArray.bitCount (n_key nd) = 0 \/
    (BitArray.bitCount (n_key nd) = n_bits nd /\ BitArray.wf N (n_key nd) /\
     forall i, i < n_bits nd -> BitArray.get (n_key nd) i = rep p i);
  ok_glue :
    BitArray.bitCount (n_key nd) = 0 ->
    (n_left nd <> None /\ n_right nd <> None) \/ n_bits nd = 0;
  ok_bits : n_bits nd <= N * 8;
  ok_fresh : p < next s
}.

Definition inv_with (rep : ptr -> nat -> bool) (s : Trie) : Prop :=
  match root s with
  | None => heap s = ∅
  | Some r => exists rd, heap s !! r = Some rd /\ n_parent rd = None
  end /\
  (forall p nd, heap s !! p = Some nd -> node_ok s rep p nd) /\
  numNodes s = size_t_wrap (Z.of_nat (live s)).

Definition inv (s : Trie) : Prop := exists rep, inv_with rep s.

(** No glue node has fewer than two children. *)
Definition glue_full (s : Trie) : Prop :=
  forall p nd, heap s !! p = Some nd -> BitArray.bitCount (n_key nd) = 0 ->
               n_left nd <> None /\ n_right nd <> None.

(** [k] is a key of the trie: some data node holds it. *)
Definition key_eq (a b : BitArray.t) : Prop :=
  BitArray.bitCount a = BitArray.bitCount b /\ BitArray.agree (BitArray.bitCount a) a b.

(** [a] is a prefix of [b]. *)
Definition is_prefix (a b : BitArray.t) : Prop :=
  BitArray.bitCount a <= BitArray.bitCount b /\ BitArray.agree (BitArray.bitCount a) a b.

Definition stored (s : Trie) (k : BitArray.t) : Prop :=
  exists p nd, heap s !! p = Some nd /\ is_data nd /\ key_eq (n_key nd) k.

(** The scratch stack of [searchBest]: live data nodes, the deepest first,
    all of them above depth [bound]. *)
Fixpoint stack_ok (h : gmap nat Node) (bound : nat) (stack : list ptr) : Prop :=
  match stack with
  | [] => True
  | m :: rest =>
      exists md, h !! m = Some md /\ is_data md /\ n_bits md < bound /\
                 stack_ok h (n_bits md) rest
  end.

(** The state of [lookupNode] once both walks are done. *)
Record walk (rep : nat -> nat -> bool) (s : Trie) (key : BitArray.t)
  (r t : ptr) (td : Node) (diffBit : nat) (node : ptr) (nd : Node) : Prop := {
  w_descend : lookup_descend max_depth key (heap s) r = Some t;
  w_t : heap s !! t = Some td;
  w_diff : diffBit =
           BitArray.firstDifferentBit key (n_key td)
             (if n_bits td <? BitArray.size key then n_bits td else BitArray.size key);
  w_ascend : lookup_ascend max_depth (heap s) diffBit t = Some node;
  w_node : heap s !! node = Some nd;
  w_root_node : kpath (heap s) key r node;
  w_node_t : kpath (heap s) key node t;
  w_le_len : diffBit <= BitArray.size key;
  w_le_bits : diffBit <= n_bits nd;
  w_key : forall i, i < diffBit -> BitArray.get key i = rep node i;
  w_parent :
    match n_parent nd with
    | None => True
    | Some q => exists qd, heap s !! q = Some qd /\ n_bits qd < diffBit
    end;
  w_below :
    n_bits nd = diffBit -> diffBit < BitArray.size key -> kchild key nd = None;
  w_tmpKey :
    diffBit < n_bits nd -> rep node diffBit = BitArray.get (n_key td) diffBit;
  w_side :
    diffBit < n_bits nd -> diffBit < BitArray.size key ->
    BitArray.get key diffBit <> rep node diffBit;
  w_stop :
    kchild key td = None \/ (BitArray.size key <= n_bits td /\ is_data td);
  w_full :
    (forall i, i < n_bits td -> i < BitArray.size key -> BitArray.get key i = rep t i) ->
    diffBit = Nat.min (n_bits td) (BitArray.size key)
}.

(** [p->left = v] or [p->right = v], by the side [b]. *)
Definition with_child (b : bool) (v : option ptr) (n : Node) : Node :=
  if b then with_right v n else with_left v n.

(** *** The store after [lookupNode], case by case

    [X] is the new data node and [G] the new glue node. *)

(** Put the new node after the current node. *)
Definition heap_below (h : gmap nat Node) (key : BitArray.t) (node X : ptr) (nd : Node)
  : gmap nat Node :=
  <[node := with_child (BitArray.get key (n_bits nd)) (Some X) nd]>
    (<[X := with_parent (Some node) (Node_key key (BitArray.size key))]> h).

(** The slot that held [node] under its parent now holds [repl]. *)
Definition splice (par : option ptr) (node : ptr) (repl : option ptr) (h : gmap nat Node)
  : gmap nat Node :=
  match par with
  | None => h
  | Some q =>
      match h !! q with
      | Some qd => <[q := with_child (bool_decide (n_right qd = Some node)) repl qd]> h
      | None => h
      end
  end.

(** Put the new node before the current node. *)
Definition heap_above (h : gmap nat Node) (key tmpKey : BitArray.t) (node X : ptr) (nd : Node)
  : gmap nat Node :=
  <[node := with_parent (Some X) nd]>
    (splice (n_parent nd) node (Some X)
       (<[X := with_parent (n_parent nd)
                 (with_child (BitArray.get tmpKey (BitArray.size key)) (Some node)
                    (Node_key key (BitArray.size key)))]> h)).

Definition glue_node (b : bool) (node X : ptr) (par : option ptr) (diffBit : nat) : Node :=
  mkNode (if b then Some node else Some X) (if b then Some X else Some node) par
    data_init key_default diffBit.

(** Put the new node next to the current node, under a glue node. *)
Definition heap_fork (h : gmap nat Node) (key : BitArray.t) (diffBit : nat)
  (node X G : ptr) (nd : Node) : gmap nat Node :=
  <[node := with_parent (Some G) nd]>
    (splice (n_parent nd) node (Some G)
       (<[X := with_parent (Some G) (Node_key key (BitArray.size key))]>
          (<[G := glue_node (BitArray.get key diffBit) node X (n_parent nd) diffBit]> h))).

(** What a member function keeps of the nodes it found: every old node is
    still there, at the same depth, with the same ghost prefix; links that do
    not involve [node] stay as they were. *)
Definition kept (h h' : gmap nat Node) (rep rep' : ptr -> nat -> bool) (node : ptr) : Prop :=
  forall c cd, h !! c = Some cd ->
    exists cd', h' !! c = Some cd' /\ n_bits cd' = n_bits cd /\
      (c <> node -> n_parent cd' = n_parent cd) /\
      (forall x, x <> node -> n_left cd = Some x -> n_left cd' = Some x) /\
      (forall x, x <> node -> n_right cd = Some x -> n_right cd' = Some x) /\
      (forall i, rep' c i = rep c i).

(** The ghost prefix of the nodes [lookupNode] allocates is the key. *)
Definition rep_insert (rep : ptr -> nat -> bool) (key : BitArray.t) (X : ptr)
  : ptr -> nat -> bool :=
  fun p i => if decide (p = X \/ p = S X) then BitArray.get key i else rep p i.

(** [key] is already in the trie: a data node holds it, or it is the empty
    key and the root sits at depth 0. *)
Definition present (s : Trie) (key : BitArray.t) : Prop :=
  stored s key \/
  (BitArray.bitCount key = 0 /\
   exists r rd, root s = Some r /\ heap s !! r = Some rd /\ n_bits rd = 0).

(** What [lookupNode key] does to a trie: [p] is the node it returns. *)
Record insert_post (s s' : Trie) (key : BitArray.t) (p : ptr) : Prop := {
  ip_inv : inv s';
  ip_result :
    exists pd, heap s' !! p = Some pd /\ n_bits pd = BitArray.size key /\
               key_eq (n_key pd) key;
  ip_old :
    forall q qd, heap s !! q = Some qd ->
      exists qd', heap s' !! q = Some qd' /\ n_bits qd' = n_bits qd /\
                  n_data qd' = n_data qd /\
                  (n_left qd <> None -> n_left qd' <> None) /\
                  (n_right qd <> None -> n_right qd' <> None) /\
                  (n_key qd' = n_key qd \/ (q = p /\ BitArray.bitCount (n_key qd) = 0));
  ip_new :
    forall q qd', heap s' !! q = Some qd' -> heap s !! q = None ->
      q = p \/
      (BitArray.bitCount (n_key qd') = 0 /\ n_left qd' <> None /\ n_right qd' <> None);
  ip_live :
    (is_Some (heap s !! p) /\ live s' = live s) \/
    (heap s !! p = None /\ ~ present s key /\ live s < live s' <= live s + 2);
  ip_next : next s <= next s';
  ip_deleted : deleted s' = deleted s;
  ip_root :
    forall r rd, root s = Some r -> heap s !! r = Some rd ->
      exists r' rd', root s' = Some r' /\ heap s' !! r' = Some rd' /\
                     n_bits rd' <= n_bits rd;
  ip_root0 :
    BitArray.bitCount key = 0 ->
    exists r' rd', root s' = Some r' /\ heap s' !! r' = Some rd' /\ n_bits rd' = 0
}.

(** What [removeNode] keeps: the nodes it does not free are still there, at
    the same depth and with the same key; the parent link of every node but
    [node] and the child links to nodes that were not freed are unchanged. *)
Definition kept_but (gone : ptr -> Prop) (node : ptr) (h h' : gmap nat Node) : Prop :=
  forall x xd, h !! x = Some xd -> ~ gone x ->
    exists xd', h' !! x = Some xd' /\ n_bits xd' = n_bits xd /\
      (x <> node -> n_parent xd' = n_parent xd) /\
      (forall y, ~ gone y -> n_left xd = Some y -> n_left xd' = Some y) /\
      (forall y, ~ gone y -> n_right xd = Some y -> n_right xd' = Some y).

(** *** The state after [removeNode], case by case *)

(** The node has two children: it stays, as glue. *)
Definition remove_demote (node : ptr) (nd : Node) (s : Trie) : Trie :=
  set_heap (<[node := with_key key_default nd]> (heap s)) s.

(** The node was the last one. *)
Definition remove_last (node : ptr) (s : Trie) : Trie :=
  mkTrie None (size_t_wrap (numNodes s - 1)) (delete node (delete node (heap s)))
    (next s) (node :: node :: deleted s).

(** A leaf under a data node [P]. *)
Definition remove_leaf (node P : ptr) (pd : Node) (s : Trie) : Trie :=
  mkTrie (root s) (size_t_wrap (numNodes s - 1))
    (<[P := with_child (bool_decide (n_right pd = Some node)) None pd]>
       (delete node (heap s)))
    (next s) (node :: deleted s).

(** A leaf under a glue node [P]: the glue node goes too, and the sibling
    [c] takes its place. *)
Definition remove_leaf_glue (node P : ptr) (pd : Node) (c : ptr) (cd : Node) (s : Trie)
  : Trie :=
  mkTrie (match n_parent pd with None => Some c | Some _ => root s end)
    (size_t_wrap (size_t_wrap (numNodes s - 1) - 1))
    (delete P
       (<[c := with_parent (n_parent pd) cd]>
          (splice (n_parent pd) P (Some c)
             (<[P := with_child (bool_decide (n_right pd = Some node)) None pd]>
                (delete node (heap s))))))
    (next s) (P :: node :: deleted s).

(** The node has one child [c], which takes its place. *)
Definition remove_single (node : ptr) (nd : Node) (c : ptr) (cd : Node) (s : Trie) : Trie :=
  mkTrie (match n_parent nd with None => Some c | Some _ => root s end)
    (size_t_wrap (numNodes s - 1))
    (splice (n_parent nd) node (Some c)
       (delete node (<[c := with_parent (n_parent nd) cd]> (heap s))))
    (next s) (node :: deleted s).

(** What [removeNode] does to a trie. *)
Record remove_post (s s' : Trie) : Prop := {
  rp_inv : inv s';
  rp_glue : glue_full s -> glue_full s';
  rp_dom : forall q, is_Some (heap s' !! q) -> is_Some (heap s !! q);
  rp_live : live s' <= live s;
  rp_next : next s' = next s
}.

(** ** States built by the public members *)

Inductive op : Type :=
| OpIndex (key : BitArray.t)
| OpAssign (key : BitArray.t) (v : T)
| OpErase (key : BitArray.t).

Definition op_key (o : op) : BitArray.t :=
  match o with OpIndex k | OpAssign k _ | OpErase k => k end.

Definition run_op (o : op) (s : Trie) : option Trie :=
  match o with
  | OpIndex k => snd <$> index k s
  | OpAssign k v => assign k v s
  | OpErase k => snd <$> erase k s
  end.

Fixpoint run (ops : list op) (s : Trie) : option Trie :=
  match ops with
  | [] => Some s
  | o :: ops' => s' ← run_op o s; run ops' s'
  end.

Definition is_insert (o : op) : bool :=
  match o with OpErase _ => false | _ => true end.

End BinaryTrie.

(** ** Programs over a trie *)

Section Runs.
Context {T : Type}.
Variable N : nat.
Variable data_init : T.
Variable key_init_bytes : list Z.

Local Abbreviation Node := (@Node T).
Local Abbreviation Trie := (@Trie T).
Local Abbreviation op := (@op T).

(** The keys of an operation fit the key type. *)
Definition wf_op (o : op) : Prop := BitArray.wf N (op_key o).

(** The key of an operation has at least one bit. *)
Definition keyed_op (o : op) : Prop := BitArray.bitCount (op_key o) <> 0.

(** The tries a program can reach from [BinaryTrie()]. *)
Definition reachable (s : Trie) : Prop :=
  exists ops, Forall wf_op ops /\ run N data_init key_init_bytes ops BinaryTrie = Some s.

(** A key with at least one bit that one of the operations inserted. *)
Definition inserted (ops : list op) (k : BitArray.t) : Prop :=
  exists o, In o ops /\ is_insert o = true /\ keyed_op o /\ key_eq (op_key o) k.

(** Two nodes that differ in their payload only. *)
Definition same_links (a b : Node) : Prop :=
  n_left b = n_left a /\ n_right b = n_right a /\ n_parent b = n_parent a /\
  n_key b = n_key a /\ n_bits b = n_bits a.

(** Two tries that differ in payloads only. *)
Definition data_eq (s s' : Trie) : Prop :=
  root s' = root s /\ numNodes s' = numNodes s /\ next s' = next s /\
  live s' = live s /\
  (forall q a, heap s !! q = Some a -> exists b, heap s' !! q = Some b /\ same_links a b) /\
  (forall q b, heap s' !! q = Some b -> exists a, heap s !! q = Some a /\ same_links a b).

(** The number of different keys in a list, each counted where it first
    shows up; keys are compared with [operator==]. *)
Fixpoint distinct_from (seen ks : list BitArray.t) : nat :=
  match ks with
  | [] => 0
  | k :: rest =>
      if existsb (BitArray.eqb k) seen then distinct_from seen rest
      else S (distinct_from (k :: seen) rest)
  end.

Definition distinct (ks : list BitArray.t) : nat := distinct_from [] ks.

End Runs.

(** [wf] as a test. *)
Definition wfb (N : nat) (a : BitArray.t) : bool :=
  (length (BitArray.bits a) =? N) &&
  forallb (fun b => (0 <=? b)%Z && (b <? 256)%Z) (BitArray.bits a) &&
  (BitArray.bitCount a <=? N * 8).

(** ** The IPv4 side of main.cpp: [BinaryTrie<4, int>] *)

Module V4.

Definition N : nat := 4.

(** The key main.cpp builds for [a.b.c.d/len]. *)
Definition prefix (a b c d : Z) (len : nat) : BitArray.t := BitArray.mk [a; b; c; d] len.

(** The key main.cpp builds for the address [a.b.c.d]. *)
Definition addr (a b c d : Z) : BitArray.t := prefix a b c d 32.

Definition run4 (ops : list (@op Z)) (s : @Trie Z) : option (@Trie Z) :=
  run N 0%Z [0; 0; 0; 0]%Z ops s.

(** The IPv4 table of the documentation. *)
Definition table : list (@op Z) :=
  [ OpAssign (prefix 10 0 0 0 8) 100%Z;
    OpAssign (prefix 10 1 0 0 16) 101%Z;
    OpAssign (prefix 10 1 2 0 24) 102%Z;
    OpAssign (prefix 192 168 0 0 16) 200%Z ].

(** The table, then two entries taken out again. *)
Definition table_edits : list (@op Z) :=
  table ++ [ OpErase (prefix 10 1 0 0 16); OpErase (prefix 10 1 2 0 24);
             OpAssign (prefix 10 0 0 0 8) 111%Z ].

(** The trie main.cpp holds once the table is loaded. *)
Definition loaded : @Trie Z := default BinaryTrie (run4 table BinaryTrie).

(** A trie with the single entry [10.0.0.0/8]. *)
Definition single : @Trie Z :=
  default BinaryTrie (run4 [OpAssign (prefix 10 0 0 0 8) 100%Z] BinaryTrie).

(** The default route [0.0.0.0/0]. *)
Definition default_route : BitArray.t := prefix 0 0 0 0 0.

(** What main.cpp prints for an address: the payload [best] returns, or
    [None] when it throws. *)
Definition answer (s : @Trie Z) (q : BitArray.t) : option (option Z) :=
  r ← best N q s;
  match r with
  | Ok p => v ← deref s p; Some (Some v)
  | out_of_range => Some None
  end.

End V4.

(** Side conditions on concrete keys and tables. *)
Ltac wf_solve :=
  repeat first [ lia | reflexivity | discriminate | split | constructor ].

(** ** bitarray.h: the other members of [BitArray<N>] *)

Module BitOps.
Import BitArray.

(** Conversion of an [int] result to [unsigned char]. *)
Definition uchar (z : Z) : Z := (z mod 256)%Z.

(** [getByteCount] as the machine computes it: [nbits + 7] wraps like any
    [size_t] sum. *)
Definition getByteCount_wrap (nbits : nat) : nat :=
  Z.to_nat (Z.shiftr (size_t_wrap (Z.of_nat nbits + 7)) 3).

(** [BitArray(bits, nbits)]: [None] is the [std::runtime_error].  [init] is
    what the buffer of the new object holds before the [memcpy], [buf] the
    bytes behind the argument pointer. *)
Definition construct (N : nat) (init buf : list Z) (nbits : nat) : option t :=
  let byteCount := getByteCount_wrap nbits in
  if N <? byteCount then None
  else Some (mk (take byteCount buf ++ drop byteCount init) nbits).

(** [a[pos] = x]: [operator[]] makes a [Reference] to byte [pos / 8] with
    mask [(1 << 7) >> (pos % 8)], and [Reference::operator=(bool)] sets or
    clears the masked bit. *)
Definition set (a : t) (pos : nat) (x : bool) : t :=
  let n := pos / WORD_BITS in
  let offset := pos mod WORD_BITS in
  let mask := uchar (Z.shiftr (Z.shiftl 1 (Z.of_nat (WORD_BITS - 1))) (Z.of_nat offset)) in
  let p := byte a n in
  mk (<[n := if x then uchar (Z.lor p mask) else uchar (Z.land p (Z.lnot mask))]> (bits a))
     (bitCount a).

(** [for (size_t i = 0; i < byteSize(); i++) body]: [n] rounds from [i]. *)
Fixpoint for_each_byte (n i : nat) (body : nat -> list Z -> list Z) (bs : list Z) : list Z :=
  match n with
  | O => bs
  | S n' => for_each_byte n' (i + 1) body (body i bs)
  end.





(** [operator>], [operator>=], [operator<=], [operator!=] *)
Definition gt (lhs rhs : t) : bool := lt rhs lhs.
Definition ge (lhs rhs : t) : bool := negb (lt lhs rhs).
Definition le (lhs rhs : t) : bool := gt lhs rhs.
Definition neqb (lhs rhs : t) : bool := negb (eqb lhs rhs).

(** *** Iterators

    [IteratorBase]: [p] is the byte the iterator points into, counted from
    the start of the buffer, and [offset] (a [storage_type]) the bit inside
    it.  The iterator arithmetic is [ptrdiff_t] arithmetic; it is written on
    [Z] and the properties below are stated where it does not overflow. *)
Record IteratorBase := mkIter { it_p : Z; it_offset : Z }.

(** [if (offset++ == WORD_BITS - 1) { offset = 0; ++p; }] *)
Definition bumpUp (it : IteratorBase) : IteratorBase :=
  if (it_offset it =? Z.of_nat WORD_BITS - 1)%Z then mkIter (it_p it + 1) 0
  else mkIter (it_p it) (uchar (it_offset it + 1)).

(** [if (offset-- == 0) { offset = WORD_BITS - 1; --p; }] *)
Definition bumpDown (it : IteratorBase) : IteratorBase :=
  if (it_offset it =? 0)%Z then mkIter (it_p it - 1) (Z.of_nat WORD_BITS - 1)
  else mkIter (it_p it) (uchar (it_offset it - 1)).

(** [incr(i)]: [/] and [%] truncate towards zero. *)
Definition incr (it : IteratorBase) (i : Z) : IteratorBase :=
  let n := (i + it_offset it)%Z in
  let p := (it_p it + Z.quot n (Z.of_nat WORD_BITS))%Z in
  let n := Z.rem n (Z.of_nat WORD_BITS) in
  if (n <? 0)%Z then mkIter (p - 1) (uchar (n + Z.of_nat WORD_BITS))
  else mkIter p (uchar n).

(** [diff(other)], which is [operator-] on iterators. *)
Definition diff (it other : IteratorBase) : Z :=
  (Z.of_nat WORD_BITS * (it_p it - it_p other) + it_offset it - it_offset other)%Z.

(** [operator==] and [operator<] on iterators. *)
Definition it_eqb (a b : IteratorBase) : bool :=
  (it_p a =? it_p b)%Z && (it_offset a =? it_offset b)%Z.
Definition it_ltb (a b : IteratorBase) : bool :=
  (it_p a <? it_p b)%Z || ((it_p a =? it_p b)%Z && (it_offset a <? it_offset b)%Z).



(** [ConstIterator::operator+] and [ConstIterator::operator-] *)
Definition it_plus (it : IteratorBase) (i : Z) : IteratorBase := incr it i.
Definition it_minus (it : IteratorBase) (i : Z) : IteratorBase := incr it (- i).

(** The bit position an iterator stands for. *)
Definition it_pos (it : IteratorBase) : Z := (8 * it_p it + it_offset it)%Z.

(** An iterator as the class makes them: the bit offset is inside a byte. *)
Definition it_valid (it : IteratorBase) : Prop := (0 <= it_offset it < 8)%Z.

(** *** [operator<<=]

    [for (size_t i = byteSize() - 1; i >= lo; i--) body]: [k] rounds, from
    index [lo + k - 1] down to [lo]. *)
Fixpoint for_each_byte_down (lo k : nat) (body : nat -> list Z -> list Z) (bs : list Z)
  : list Z :=
  match k with
  | O => bs
  | S k' => for_each_byte_down lo k' body (body (lo + k') bs)
  end.

(** [std::fill(bits, bits + n, 0)] *)
Definition fill_zero (n : nat) (bs : list Z) : list Z :=
  for_each_byte n 0 (fun i bs => <[i := 0%Z]> bs) bs.

(** [operator<<=(pos)], in place.  [None] is a read or write outside the
    buffer: with [N = 0] the loops start at [byteSize() - 1], which wraps;
    with [n > N] the [std::fill] runs past the end; with [offset != 0] and
    [n >= N] the store to [bits[n]] is outside. *)
Definition shl_assign (N : nat) (a : t) (pos : nat) : option t :=
  if pos =? 0 then Some a
  else
    let n := pos / WORD_BITS in
    let offset := pos mod WORD_BITS in
    if N =? 0 then None
    else if offset =? 0 then
      if N <? n then None
      else
        let bs := for_each_byte_down n (N - n)
                    (fun i bs => <[i := nth (i - n) bs 0%Z]> bs) (bits a) in
        Some (mk (fill_zero n bs) (bitCount a))
    else
      if N <=? n then None
      else
        let suboffset := WORD_BITS - offset in
        let bs := for_each_byte_down (n + 1) (N - (n + 1))
                    (fun i bs =>
                       <[i := uchar (Z.lor (Z.shiftl (nth (i - n) bs 0%Z) (Z.of_nat offset))
                                           (Z.shiftr (nth (i - n - 1) bs 0%Z)
                                                     (Z.of_nat suboffset)))]> bs)
                    (bits a) in
        let bs := <[n := uchar (Z.shiftl (nth 0 bs 0%Z) (Z.of_nat offset))]> bs in
        Some (mk (fill_zero n bs) (bitCount a)).

(** The byte [operator<<=] leaves at index [i], from the bytes [bs] it
    started with; [n] is [pos / 8] and [o] is [pos % 8]. *)
Definition shl_byte (bs : list Z) (n o i : nat) : Z :=
  if i <? n then 0%Z
  else if o =? 0 then nth (i - n) bs 0%Z
  else if i =? n then uchar (Z.shiftl (nth 0 bs 0%Z) (Z.of_nat o))
  else uchar (Z.lor (Z.shiftl (nth (i - n) bs 0%Z) (Z.of_nat o))
                    (Z.shiftr (nth (i - n - 1) bs 0%Z) (Z.of_nat (8 - o)))).

(** The number a buffer holds when byte 0 is read as the least significant
    byte. *)
Fixpoint le_value (bs : list Z) : Z :=
  match bs with
  | [] => 0%Z
  | b :: bs' => (b + 256 * le_value bs')%Z
  end.

End BitOps.

(** ** What a program leaves in a trie, read off the program alone *)

Section Abstract.
Context {T : Type}.
Local Abbreviation Trie := (@Trie T).
Local Abbreviation op := (@op T).

(** Key [k] is held with payload [v]. *)
Definition holds (s : Trie) (k : BitArray.t) (v : T) : Prop :=
  exists p pd, heap s !! p = Some pd /\ is_data pd /\ key_eq (n_key pd) k /\ n_data pd = v.

(** The set of keys after one more operation. *)
Definition keys_step (K : BitArray.t -> Prop) (o : op) : BitArray.t -> Prop :=
  fun k => if is_insert o then K k \/ key_eq (op_key o) k
           else K k /\ ~ key_eq (op_key o) k.

Definition keys_after (ops : list op) : BitArray.t -> Prop :=
  fold_left keys_step ops (fun _ => False).

(** The map from keys to payloads after one more operation. *)
Definition vals_step (R : BitArray.t -> T -> Prop) (o : op) : BitArray.t -> T -> Prop :=
  match o with
  | OpAssign k' v' => fun k v => (key_eq k' k /\ v = v') \/ (~ key_eq k' k /\ R k v)
  | OpErase k' => fun k v => R k v /\ ~ key_eq k' k
  | OpIndex _ => R
  end.

Definition vals_after (ops : list op) : BitArray.t -> T -> Prop :=
  fold_left vals_step ops (fun _ _ => False).

(** No pointer went to [delete] twice, and no freed pointer is in use or
    will be handed out by [new] again. *)
Definition tidy (s : Trie) : Prop :=
  NoDup (deleted s) /\
  forall q, In q (deleted s) -> heap s !! q = None /\ q < next s.

(** No [erase] of the program takes out the last key of the trie; [K] is
    the set of keys the program starts with. *)
Fixpoint keeps_a_key (K : BitArray.t -> Prop) (ops : list op) : Prop :=
  match ops with
  | [] => True
  | o :: ops' =>
      (is_insert o = false -> K (op_key o) -> exists k', keys_step K o k') /\
      keeps_a_key (keys_step K o) ops'
  end.

(** [trie[k] = v] or [erase(k)]: not a bare [operator[]]. *)
Definition is_update (o : op) : bool :=
  match o with OpIndex _ => false | _ => true end.

(** The loop of [clear] part way: [h] is what is left of the store [h0],
    and [pend] are the roots of the subtrees still to delete (the current
    node and the stack). *)
Definition forest (h0 h : gmap nat (@Node T)) (pend : list ptr) : Prop :=
  (forall q x, h !! q = Some x -> h0 !! q = Some x) /\
  (forall q x c, h !! q = Some x -> n_left x = Some c \/ n_right x = Some c ->
                 is_Some (h !! c)) /\
  (forall q x, h !! q = Some x ->
               In q pend \/ exists par, n_parent x = Some par /\ is_Some (h !! par)) /\
  (forall q, In q pend ->
             exists x, h !! q = Some x /\ forall par, n_parent x = Some par -> h !! par = None) /\
  NoDup pend.

(** One round of the [while (node)] loop of [clear]: the node to visit
    next, the scratch stack and the trie after the round. *)
Definition clear_round (p : ptr) (stack : list ptr) (s : Trie)
  : option (option ptr * list ptr * Trie) :=
  nd ← heap s !! p;
  let right := n_right nd in
  let left := n_left nd in
  let s := delete_node p s in
  match left with
  | Some l => Some (Some l, match right with Some r => r :: stack | None => stack end, s)
  | None =>
      match right with
      | Some r => Some (Some r, stack, s)
      | None =>
          match stack with
          | q :: stack' => Some (Some q, stack', s)
          | [] => Some (None, stack, s)
          end
      end
  end.

(** The loop of [clear] after [k] rounds (fewer when it ends before). *)
Fixpoint clear_rounds (k : nat) (node : option ptr) (stack : list ptr) (s : Trie)
  : option (option ptr * list ptr * Trie) :=
  match k, node with
  | S k', Some p =>
      '(node', stack', s') ← clear_round p stack s; clear_rounds k' node' stack' s'
  | _, _ => Some (node, stack, s)
  end.

(** The scratch stack of [clear]: each entry hangs under a node of the
    store [h0] the loop started with, the top entry under the deepest, and
    all these nodes are above depth [bound]. *)
Fixpoint pend_ok (h0 : gmap nat (@Node T)) (bound : nat) (stack : list ptr) : Prop :=
  match stack with
  | [] => True
  | q :: rest =>
      exists qd a ad, h0 !! q = Some qd /\ n_parent qd = Some a /\ h0 !! a = Some ad /\
                      n_bits ad < bound /\ pend_ok h0 (n_bits ad) rest
  end.

End Abstract.

(** The IPv4 table with [10.1.2.0/24] taken out again. *)
Definition loaded_less : @Trie Z :=
  default BinaryTrie (V4.run4 (V4.table ++ [OpErase (V4.prefix 10 1 2 0 24)]) BinaryTrie).

(** The keys of the IPv4 table but [10.0.0.0/8]. *)
Definition table_rest : list BitArray.t :=
  [V4.prefix 10 1 2 0 24; V4.prefix 10 1 0 0 16; V4.prefix 192 168 0 0 16].
(** ** Facts about [BitArray] *)

Module BitArrayFacts.
Import BitArray.

Lemma land_pow2_eqb (x : Z) (k : Z) :
  (0 <= k)%Z -> (Z.land x (2 ^ k) =? 0)%Z = negb (Z.testbit x k).
Proof.
  intros Hk.
  assert (E : Z.land x (2 ^ k) = if Z.testbit x k then (2 ^ k)%Z else 0%Z).
  { apply Z.bits_inj'. intros n Hn.
    rewrite Z.land_spec, Z.pow2_bits_eqb by lia.
    destruct (Z.eqb_spec k n) as [->|Hne].
    - destruct (Z.testbit x n); simpl.
      + now rewrite Z.pow2_bits_eqb, Z.eqb_refl by lia.
      + now rewrite Z.bits_0.
    - rewrite andb_false_r. destruct (Z.testbit x k).
      + rewrite Z.pow2_bits_eqb by lia. symmetry. now apply Z.eqb_neq.
      + now rewrite Z.bits_0. }
  rewrite E. destruct (Z.testbit x k); simpl; [|reflexivity].
  apply Z.eqb_neq. pose proof (Z.pow_pos_nonneg 2 k). lia.
Qed.

(** Bit [pos] of the string is bit [7 - pos mod 8] (counted from the least
    significant end) of byte [pos / 8]: the order is MSB first. *)
Lemma get_testbit (a : t) (pos : nat) :
  get a pos = Z.testbit (byte a (pos / 8)) (7 - Z.of_nat (pos mod 8)).
Proof.
  unfold get, WORD_BITS.
  pose proof (Nat.mod_upper_bound pos 8 ltac:(lia)) as Hlt.
  assert (Hm : Z.shiftr (Z.shiftl 1 (Z.of_nat (8 - 1))) (Z.of_nat (pos mod 8))
               = (2 ^ (7 - Z.of_nat (pos mod 8)))%Z).
  { rewrite Z.shiftl_1_l, Z.shiftr_div_pow2 by lia.
    replace (Z.of_nat (8 - 1)) with (7 - Z.of_nat (pos mod 8) + Z.of_nat (pos mod 8))%Z by lia.
    rewrite Z.pow_add_r by lia.
    rewrite Z.div_mul; [reflexivity|].
    apply Z.pow_nonzero; lia. }
  rewrite Hm, land_pow2_eqb by lia.
  now rewrite negb_involutive.
Qed.

Lemma get_split (a : t) (j o : nat) :
  o < 8 -> get a (j * 8 + o) = Z.testbit (byte a j) (7 - Z.of_nat o).
Proof.
  intros Ho. rewrite get_testbit.
  replace ((j * 8 + o) / 8) with j.
  2:{ apply Nat.div_unique with o; lia. }
  replace ((j * 8 + o) mod 8) with o.
  2:{ apply Nat.mod_unique with j; lia. }
  reflexivity.
Qed.

Lemma byte_range (N : nat) (a : t) (i : nat) :
  wf N a -> (0 <= byte a i < 256)%Z.
Proof.
  intros (Hl & Hb & _). unfold byte.
  destruct (Nat.lt_ge_cases i (length (bits a))) as [Hi|Hi].
  - rewrite Forall_forall in Hb. apply Hb. apply list_elem_of_In. now apply nth_In.
  - rewrite nth_overflow by lia. lia.
Qed.

Lemma byte_high_bit (x k : Z) :
  (0 <= x < 256)%Z -> (8 <= k)%Z -> Z.testbit x k = false.
Proof.
  intros Hx Hk. rewrite <- (Z.mod_small x (2 ^ 8)) by (simpl; lia).
  apply Z.mod_pow2_bits_high. lia.
Qed.

(** Two unsigned chars are equal iff their eight bits are. *)
Lemma byte_eq_bits (x y : Z) :
  (0 <= x < 256)%Z -> (0 <= y < 256)%Z ->
  (x = y <-> forall o, o < 8 -> Z.testbit x (7 - Z.of_nat o) = Z.testbit y (7 - Z.of_nat o)).
Proof.
  intros Hx Hy. split; [now intros ->|].
  intros H. apply Z.bits_inj'. intros n Hn.
  destruct (Z.lt_ge_cases n 8) as [Hlt|Hge].
  - specialize (H (Z.to_nat (7 - n)) ltac:(lia)).
    now replace (7 - Z.of_nat (Z.to_nat (7 - n)))%Z with n in H by lia.
  - now rewrite (byte_high_bit x), (byte_high_bit y) by lia.
Qed.

Lemma memcmp_eq (a b : list Z) (n : nat) :
  n <= length a -> n <= length b ->
  (memcmp a b n = 0%Z <-> forall j, j < n -> nth j a 0%Z = nth j b 0%Z).
Proof.
  revert a b. induction n as [|n IH]; intros a b Ha Hb; simpl.
  - split; [intros _ j Hj; lia|reflexivity].
  - destruct a as [|x a]; [simpl in Ha; lia|].
    destruct b as [|y b]; [simpl in Hb; lia|].
    simpl in Ha, Hb.
    destruct (Z.eqb_spec x y) as [->|Hne].
    + rewrite IH by lia. split.
      * intros H [|j] Hj; simpl; [reflexivity|apply H; lia].
      * intros H j Hj. apply (H (S j)). lia.
    + split.
      * intros H. lia.
      * intros H. specialize (H 0 ltac:(lia)). simpl in H. contradiction.
Qed.

Lemma high_mask_bits (offset : nat) (k : Z) :
  0 < offset -> offset < 8 -> (0 <= k)%Z ->
  Z.testbit (high_mask offset) k = ((8 - Z.of_nat offset <=? k)%Z && (k <? 8)%Z).
Proof.
  intros H0 H8 Hk. unfold high_mask, WORD_BITS.
  change 256%Z with (2 ^ 8)%Z.
  destruct (Z.ltb_spec k 8) as [Hlt|Hge].
  - rewrite Z.mod_pow2_bits_low by lia. rewrite andb_true_r.
    destruct (Z.leb_spec (8 - Z.of_nat offset) k) as [Hle|Hgt].
    + rewrite Z.shiftl_spec_high by lia.
      change (Z.lnot 0) with (-1)%Z. apply Z.bits_m1. lia.
    + rewrite Z.shiftl_spec_low by lia. reflexivity.
  - rewrite Z.mod_pow2_bits_high by lia. now rewrite andb_false_r.
Qed.

Lemma masked_eq_bits (x y : Z) (offset : nat) :
  0 < offset -> offset < 8 ->
  (0 <= x < 256)%Z -> (0 <= y < 256)%Z ->
  (Z.land x (high_mask offset) = Z.land y (high_mask offset) <->
   forall o, o < offset -> Z.testbit x (7 - Z.of_nat o) = Z.testbit y (7 - Z.of_nat o)).
Proof.
  intros H0 H8 Hx Hy. split.
  - intros H o Ho.
    assert (Hb := f_equal (fun z => Z.testbit z (7 - Z.of_nat o)) H). simpl in Hb.
    rewrite !Z.land_spec, high_mask_bits in Hb by lia.
    replace (8 - Z.of_nat offset <=? 7 - Z.of_nat o)%Z with true in Hb
      by (symmetry; apply Z.leb_le; lia).
    replace (7 - Z.of_nat o <? 8)%Z with true in Hb by (symmetry; apply Z.ltb_lt; lia).
    now rewrite !andb_true_r in Hb.
  - intros H. apply Z.bits_inj'. intros n Hn.
    rewrite !Z.land_spec, high_mask_bits by lia.
    destruct (Z.leb_spec (8 - Z.of_nat offset) n) as [Hle|Hgt]; simpl;
      [|now rewrite !andb_false_r].
    destruct (Z.ltb_spec n 8) as [Hlt|Hge]; [|now rewrite !andb_false_r].
    rewrite !andb_true_r.
    specialize (H (Z.to_nat (7 - n)) ltac:(lia)).
    now replace (7 - Z.of_nat (Z.to_nat (7 - n)))%Z with n in H by lia.
Qed.

Lemma agree_bytes (N : nat) (a b : t) (n off : nat) :
  wf N a -> wf N b ->
  (agree (n * 8 + off) a b <->
   (forall j, j < n -> byte a j = byte b j) /\
   (forall o, o < off -> get a (n * 8 + o) = get b (n * 8 + o))).
Proof.
  intros Ha Hb. unfold agree. split.
  - intros H. split.
    + intros j Hj.
      apply (byte_eq_bits _ _ (byte_range N a j Ha) (byte_range N b j Hb)).
      intros o Ho. rewrite <- !get_split by lia. apply H. lia.
    + intros o Ho. apply H. lia.
  - intros [H1 H2] i Hi.
    destruct (Nat.lt_ge_cases i (n * 8)) as [Hlt|Hge].
    + rewrite (Nat.div_mod_eq i 8).
      pose proof (Nat.mod_upper_bound i 8 ltac:(lia)).
      replace (8 * (i / 8) + i mod 8) with ((i / 8) * 8 + i mod 8) by lia.
      rewrite !get_split by lia. rewrite H1; [reflexivity|].
      apply Nat.Div0.div_lt_upper_bound. lia.
    + replace i with (n * 8 + (i - n * 8)) by lia. apply H2. lia.
Qed.

Lemma compareBits_spec (N : nat) (a b : t) (nbits : nat) :
  wf N a -> wf N b ->
  (compareBits a b nbits = true <->
   nbits <= bitCount a /\ nbits <= bitCount b /\ agree nbits a b).
Proof.
  intros Ha Hb. unfold compareBits, WORD_BITS.
  pose proof (Nat.div_mod_eq nbits 8) as Hdm.
  pose proof (Nat.mod_upper_bound nbits 8 ltac:(lia)) as Hoff.
  set (n := nbits / 8) in *. set (offset := nbits mod 8) in *.
  cbv zeta.
  destruct (Nat.ltb_spec (bitCount a) nbits) as [H1|H1]; simpl.
  { split; [discriminate|lia]. }
  destruct (Nat.ltb_spec (bitCount b) nbits) as [H2|H2]; simpl.
  { split; [discriminate|lia]. }
  assert (Hn : n <= N).
  { destruct Ha as (_ & _ & Hc). lia. }
  assert (Hag : agree nbits a b <->
                (forall j, j < n -> byte a j = byte b j) /\
                (forall o, o < offset -> get a (n * 8 + o) = get b (n * 8 + o))).
  { replace nbits with (n * 8 + offset) at 1 by lia. now apply (agree_bytes N). }
  rewrite Hag.
  assert (Hmem : memcmp (bits a) (bits b) n = 0%Z <-> forall j, j < n -> byte a j = byte b j).
  { apply memcmp_eq; [destruct Ha as (-> & _)|destruct Hb as (-> & _)]; lia. }
  destruct (Z.eqb_spec (memcmp (bits a) (bits b) n) 0) as [Hm|Hm]; simpl.
  2:{ split; [discriminate|]. intros (_ & _ & Hj & _). exfalso.
      apply Hm. apply (proj2 Hmem). exact Hj. }
  pose proof (proj1 Hmem Hm) as Hbytes.
  destruct (Nat.eqb_spec offset 0) as [H0|H0]; simpl.
  { split; [|reflexivity]. intros _. split; [exact H1|]. split; [exact H2|].
    split; [exact Hbytes|]. intros o Ho. lia. }
  pose proof (masked_eq_bits (byte a n) (byte b n) offset ltac:(lia) ltac:(lia)
                (byte_range N a n Ha) (byte_range N b n Hb)) as Hmask.
  destruct (Z.eqb_spec (Z.land (byte a n) (high_mask offset))
                       (Z.land (byte b n) (high_mask offset))) as [He|He]; simpl.
  - split; [|reflexivity]. intros _. split; [exact H1|]. split; [exact H2|].
    split; [exact Hbytes|].
    intros o Ho. rewrite !get_split by lia. apply (proj1 Hmask); [exact He|exact Ho].
  - split; [discriminate|]. intros (_ & _ & _ & Hbits). exfalso.
    apply He. apply (proj2 Hmask).
    intros o Ho. rewrite <- !get_split by lia. now apply Hbits.
Qed.

(** The position computed from [__builtin_clz] on the XOR of two differing
    bytes is the first (MSB-first) bit at which they differ. *)
Lemma clz_first_diff (x y : Z) :
  (0 <= x < 256)%Z -> (0 <= y < 256)%Z -> x <> y ->
  let c := builtin_clz (Z.lxor x y) - (4 - 1) * 8 in
  c < 8 /\
  (forall o, o < c -> Z.testbit x (7 - Z.of_nat o) = Z.testbit y (7 - Z.of_nat o)) /\
  Z.testbit x (7 - Z.of_nat c) <> Z.testbit y (7 - Z.of_nat c).
Proof.
  intros Hx Hy Hne. simpl.
  set (r := Z.lxor x y).
  assert (Hr0 : (0 <= r)%Z) by (apply Z.lxor_nonneg; lia).
  assert (Hrne : r <> 0%Z).
  { intros E. apply Hne. apply Z.lxor_eq. exact E. }
  assert (Hlog : (0 <= Z.log2 r < 8)%Z).
  { split; [apply Z.log2_nonneg|].
    apply Z.log2_lt_pow2; [lia|].
    destruct (Z.lt_ge_cases r (2 ^ 8)) as [?|Hge]; [assumption|exfalso].
    assert (Hb : Z.testbit r (Z.log2 r) = true) by (apply Z.bit_log2; lia).
    assert (Hl8 : (8 <= Z.log2 r)%Z) by (apply Z.log2_le_pow2; lia).
    unfold r in Hb at 1. rewrite Z.lxor_spec in Hb.
    rewrite (byte_high_bit x), (byte_high_bit y) in Hb by lia. discriminate. }
  unfold builtin_clz. fold r.
  replace (Z.to_nat (31 - Z.log2 r) - 24) with (Z.to_nat (7 - Z.log2 r)) by lia.
  split; [lia|]. split.
  - intros o Ho.
    assert (Hb : Z.testbit r (7 - Z.of_nat o) = false)
      by (apply Z.bits_above_log2; lia).
    unfold r in Hb. rewrite Z.lxor_spec in Hb.
    destruct (Z.testbit x _), (Z.testbit y _); simpl in Hb; congruence.
  - replace (7 - Z.of_nat (Z.to_nat (7 - Z.log2 r)))%Z with (Z.log2 r) by lia.
    assert (Hb : Z.testbit r (Z.log2 r) = true) by (apply Z.bit_log2; lia).
    unfold r in Hb at 1. rewrite Z.lxor_spec in Hb.
    destruct (Z.testbit x _), (Z.testbit y _); simpl in Hb; congruence.
Qed.

Lemma firstDifferentBit_loop_spec (N : nat) (a b : t) (n : nat) :
  wf N a -> wf N b ->
  forall fuel i,
    n <= (fuel + i) * 8 ->
    (forall j, j < i -> byte a j = byte b j) ->
    let res := firstDifferentBit_loop fuel a b n i (i * 8) in
    (forall p, p < res -> get a p = get b p) /\
    (n <= res \/ get a res <> get b res).
Proof.
  intros Ha Hb. induction fuel as [|fuel IH]; intros i Hfuel Hprev; simpl.
  - split.
    + intros p Hp. apply (proj2 (agree_bytes N a b i 0 Ha Hb)); [|lia].
      split; [exact Hprev|intros o Ho; lia].
    + left. lia.
  - destruct (Nat.ltb_spec (i * 8) n) as [Hlt|Hge].
    + destruct (Z.eqb_spec (Z.lxor (byte a i) (byte b i)) 0) as [He|He].
      * apply Z.lxor_eq in He.
        apply IH; [lia|].
        intros j Hj. destruct (Nat.eq_dec j i) as [->|Hji]; [exact He|apply Hprev; lia].
      * assert (Hne : byte a i <> byte b i).
        { intros E. apply He. rewrite E. apply Z.lxor_nilpotent. }
        destruct (clz_first_diff _ _ (byte_range N a i Ha) (byte_range N b i Hb) Hne)
          as (Hc & Hbefore & Hat).
        set (c := builtin_clz (Z.lxor (byte a i) (byte b i)) - (4 - 1) * 8) in *.
        split.
        -- intros p Hp. apply (proj2 (agree_bytes N a b i c Ha Hb)); [|lia].
           split; [exact Hprev|].
           intros o Ho. rewrite !get_split by lia. now apply Hbefore.
        -- right. rewrite !get_split by lia. exact Hat.
    + split.
      * intros p Hp. apply (proj2 (agree_bytes N a b i 0 Ha Hb)); [|lia].
        split; [exact Hprev|intros o Ho; lia].
      * left. lia.
Qed.

Lemma firstDifferentBit_spec (N : nat) (a b : t) (n : nat) :
  wf N a -> wf N b ->
  let d := firstDifferentBit a b n in
  d <= n /\ agree d a b /\ (d = n \/ get a d <> get b d).
Proof.
  intros Ha Hb. unfold firstDifferentBit.
  destruct (firstDifferentBit_loop_spec N a b n Ha Hb n 0 ltac:(lia)
              ltac:(intros j Hj; lia)) as [Hag Hend].
  simpl in Hag, Hend.
  set (res := firstDifferentBit_loop n a b n 0 0) in *.
  destruct (Nat.ltb_spec n res) as [Hlt|Hge]; simpl.
  - split; [lia|]. split; [|now left].
    intros p Hp. apply Hag. lia.
  - split; [lia|]. split; [exact Hag|].
    destruct Hend as [Hn|Hd]; [left; lia|now right].
Qed.

End BitArrayFacts.


(** ** Facts about the trie: paths and searches *)

Import BitArrayFacts.

Section PathFacts.
Context {T : Type} (N : nat) (data_init : T) (key_init_bytes : list Z).
Local Abbreviation Node := (@Node T).
Local Abbreviation Trie := (@Trie T).
Local Abbreviation node_ok := (@node_ok T N).
Local Abbreviation inv_with := (@inv_with T N).
Local Abbreviation inv := (@inv T N).

Implicit Types (s : Trie) (h : gmap nat Node) (nd : Node) (key : BitArray.t)
  (rep : nat -> nat -> bool).

Lemma store_live s p f nd :
  heap s !! p = Some nd -> store p f s = Some (set_heap (<[p := f nd]> (heap s)) s).
Proof. intros H. unfold store. now rewrite H. Qed.

Lemma store_inv_Some s p f s' :
  store p f s = Some s' ->
  exists nd, heap s !! p = Some nd /\ s' = set_heap (<[p := f nd]> (heap s)) s.
Proof.
  unfold store. destruct (heap s !! p) as [nd|] eqn:E; simpl; [|discriminate].
  intros [= <-]. eauto.
Qed.

(** *** Paths *)

Lemma kpath_snoc h key a y yd t :
  kpath h key a y -> h !! y = Some yd -> kchild key yd = Some t -> kpath h key a t.
Proof.
  induction 1 as [a|a nd c y Ha Hc _ IH]; intros Hy Hk.
  - eapply kpath_step; eauto. apply kpath_refl.
  - eapply kpath_step; eauto.
Qed.

Lemma kpath_snoc_inv h key a t :
  kpath h key a t ->
  a = t \/ exists y yd, kpath h key a y /\ h !! y = Some yd /\ kchild key yd = Some t.
Proof.
  induction 1 as [a|a nd c t Ha Hc Hp IH]; [now left|right].
  destruct IH as [->|(y & yd & Hy & Hyd & Hk)].
  - exists a, nd. split; [apply kpath_refl|]. now split.
  - exists y, yd. split; [|now split]. eapply kpath_step; eauto.
Qed.

Lemma kpath_trans h key a b c :
  kpath h key a b -> kpath h key b c -> kpath h key a c.
Proof.
  induction 1 as [a|a nd x b Ha Hc _ IH]; intros Hbc; [assumption|].
  eapply kpath_step; eauto.
Qed.

Section WithShape.
Variables (s : Trie) (rep : nat -> nat -> bool).
Hypothesis Hnodes : forall p nd, heap s !! p = Some nd -> node_ok s rep p nd.

Lemma kchild_ok key p nd c :
  heap s !! p = Some nd -> kchild key nd = Some c ->
  exists cd, heap s !! c = Some cd /\ n_parent cd = Some p /\ n_bits nd < n_bits cd /\
             (forall i, i < n_bits nd -> rep c i = rep p i) /\
             rep c (n_bits nd) = BitArray.get key (n_bits nd).
Proof.
  intros Hp Hk. pose proof (Hnodes p nd Hp) as Hok.
  unfold kchild in Hk. destruct (BitArray.get key (n_bits nd)).
  - pose proof (ok_right _ _ _ _ _ Hok) as H. rewrite Hk in H. exact H.
  - pose proof (ok_left _ _ _ _ _ Hok) as H. rewrite Hk in H. exact H.
Qed.

(** Along a path the discriminating position grows and the ghost prefixes
    extend each other. *)
Lemma kpath_rep key a t ad :
  kpath (heap s) key a t -> heap s !! a = Some ad ->
  exists td, heap s !! t = Some td /\ n_bits ad <= n_bits td /\
             (forall i, i < n_bits ad -> rep t i = rep a i) /\
             (a <> t -> n_bits ad < n_bits td /\
                        rep t (n_bits ad) = BitArray.get key (n_bits ad)).
Proof.
  intros Hp. revert ad. induction Hp as [a|a nd c t Ha Hc Hp IH]; intros ad Had.
  - exists ad. repeat split; try assumption; try lia; contradiction.
  - rewrite Ha in Had. injection Had as <-.
    destruct (kchild_ok key a nd c Ha Hc) as (cd & Hcd & Hpar & Hlt & Hrep & Hside).
    destruct (IH cd Hcd) as (td & Htd & Hle & Hag & Hne).
    exists td. split; [assumption|]. split; [lia|]. split.
    + intros i Hi. rewrite Hag by lia. apply Hrep. exact Hi.
    + intros _. split; [lia|]. rewrite Hag by lia. exact Hside.
Qed.

Lemma kpath_neq_bits key a t ad td :
  kpath (heap s) key a t -> heap s !! a = Some ad -> heap s !! t = Some td ->
  n_bits ad = n_bits td -> a = t.
Proof.
  intros Hp Ha Ht Hb. destruct (decide (a = t)) as [|Hne]; [assumption|exfalso].
  destruct (kpath_rep key a t ad Hp Ha) as (td' & Htd' & _ & _ & Hlt).
  rewrite Ht in Htd'. injection Htd' as <-. destruct (Hlt Hne). lia.
Qed.

(** *** The loops of [lookupNode] *)

Lemma lookup_descend_spec key fuel a t :
  lookup_descend fuel key (heap s) a = Some t ->
  kpath (heap s) key a t /\
  exists td, heap s !! t = Some td /\
             (kchild key td = None \/
              (BitArray.size key <= n_bits td /\ BitArray.bitCount (n_key td) <> 0)).
Proof.
  revert a. induction fuel as [|fuel IH]; intros a; simpl; [discriminate|].
  destruct (heap s !! a) as [nd|] eqn:Ha; simpl; [|discriminate].
  destruct ((n_bits nd <? BitArray.size key) || BitArray.empty (n_key nd)) eqn:Hcond.
  - destruct (BitArray.get key (n_bits nd)) eqn:Hbit.
    + destruct (n_right nd) as [r|] eqn:Hr.
      * intros H. destruct (IH _ H) as [Hp Hstop]. split; [|exact Hstop].
        eapply kpath_step; eauto. unfold kchild. now rewrite Hbit.
      * intros [= <-]. split; [apply kpath_refl|]. exists nd. split; [assumption|].
        left. unfold kchild. now rewrite Hbit.
    + destruct (n_left nd) as [l|] eqn:Hl.
      * intros H. destruct (IH _ H) as [Hp Hstop]. split; [|exact Hstop].
        eapply kpath_step; eauto. unfold kchild. now rewrite Hbit.
      * intros [= <-]. split; [apply kpath_refl|]. exists nd. split; [assumption|].
        left. unfold kchild. now rewrite Hbit.
  - intros [= <-]. split; [apply kpath_refl|]. exists nd. split; [assumption|].
    right. apply orb_false_iff in Hcond as [H1 H2].
    apply Nat.ltb_ge in H1. unfold BitArray.empty in H2. apply Nat.eqb_neq in H2.
    split; assumption.
Qed.

Lemma lookup_descend_total key fuel a ad :
  heap s !! a = Some ad -> N * 8 - n_bits ad < fuel ->
  exists t, lookup_descend fuel key (heap s) a = Some t.
Proof.
  revert a ad. induction fuel as [|fuel IH]; intros a ad Ha Hfuel; [lia|]. simpl.
  rewrite Ha. simpl.
  destruct ((n_bits ad <? BitArray.size key) || BitArray.empty (n_key ad)); [|eauto].
  assert (Hgo : forall c, kchild key ad = Some c ->
                exists t, lookup_descend fuel key (heap s) c = Some t).
  { intros c Hc.
    destruct (kchild_ok key a ad c Ha Hc) as (cd & Hcd & _ & Hlt & _).
    pose proof (ok_bits _ _ _ _ _ (Hnodes c cd Hcd)).
    apply (IH c cd Hcd). lia. }
  unfold kchild in Hgo.
  destruct (BitArray.get key (n_bits ad)).
  - destruct (n_right ad); eauto.
  - destruct (n_left ad); eauto.
Qed.

Lemma parent_ok p nd q :
  heap s !! p = Some nd -> n_parent nd = Some q ->
  exists qd, heap s !! q = Some qd /\ n_bits qd < n_bits nd /\
             (forall i, i < n_bits qd -> rep p i = rep q i) /\
             ((n_left qd = Some p /\ rep p (n_bits qd) = false) \/
              (n_right qd = Some p /\ rep p (n_bits qd) = true)).
Proof.
  intros Hp Hq. pose proof (ok_parent _ _ _ _ _ (Hnodes p nd Hp)) as Hpar.
  rewrite Hq in Hpar. destruct Hpar as (qd & Hqd & Hch).
  exists qd. split; [assumption|].
  pose proof (Hnodes q qd Hqd) as Hokq.
  destruct Hch as [Hl|Hr].
  - pose proof (ok_left _ _ _ _ _ Hokq) as H. rewrite Hl in H.
    destruct H as (cd & Hcd & _ & Hlt & Hrep & Hside).
    rewrite Hp in Hcd. injection Hcd as <-. auto.
  - pose proof (ok_right _ _ _ _ _ Hokq) as H. rewrite Hr in H.
    destruct H as (cd & Hcd & _ & Hlt & Hrep & Hside).
    rewrite Hp in Hcd. injection Hcd as <-. auto 6.
Qed.

(** A node is not both children of its parent. *)
Lemma left_right_distinct q qd p :
  heap s !! q = Some qd -> n_left qd = Some p -> n_right qd = Some p -> False.
Proof.
  intros Hq Hl Hr. pose proof (Hnodes q qd Hq) as Hok.
  pose proof (ok_left _ _ _ _ _ Hok) as H1. rewrite Hl in H1.
  pose proof (ok_right _ _ _ _ _ Hok) as H2. rewrite Hr in H2.
  destruct H1 as (_ & _ & _ & _ & _ & E1). destruct H2 as (_ & _ & _ & _ & _ & E2).
  congruence.
Qed.

Lemma lookup_ascend_spec key diffBit r t :
  (exists rd, heap s !! r = Some rd /\ n_parent rd = None) ->
  forall fuel x node,
  kpath (heap s) key r x -> kpath (heap s) key x t ->
  lookup_ascend fuel (heap s) diffBit x = Some node ->
  kpath (heap s) key r node /\ kpath (heap s) key node t /\
  exists nd, heap s !! node = Some nd /\
             match n_parent nd with
             | None => True
             | Some q => exists qd, heap s !! q = Some qd /\ n_bits qd < diffBit
             end.
Proof.
  intros (rd & Hrd & Hrpar).
  induction fuel as [|fuel' IH]; intros x node Hrx Hxt; simpl; [discriminate|].
  destruct (heap s !! x) as [xd|] eqn:Hx; simpl; [|discriminate].
  destruct (n_parent xd) as [q|] eqn:Hq.
  - destruct (heap s !! q) as [qd|] eqn:Hqd; simpl; [|discriminate].
    destruct (Nat.leb_spec diffBit (n_bits qd)) as [Hle|Hgt].
    + intros H.
      destruct (kpath_snoc_inv _ _ _ _ Hrx) as [->|(y & yd & Hry & Hyd & Hk)].
      * congruence.
      * destruct (kchild_ok key y yd x Hyd Hk) as (xd' & Hxd' & Hpar & _).
        rewrite Hx in Hxd'. injection Hxd' as <-.
        rewrite Hq in Hpar. injection Hpar as ->.
        apply (IH y node Hry); [|exact H].
        eapply kpath_step; eauto.
    + intros [= <-]. split; [assumption|]. split; [assumption|].
      exists xd. split; [assumption|]. rewrite Hq. exists qd. split; [assumption|lia].
  - intros [= <-]. split; [assumption|]. split; [assumption|].
    exists xd. split; [assumption|]. now rewrite Hq.
Qed.

Lemma lookup_ascend_total diffBit fuel x xd :
  heap s !! x = Some xd -> n_bits xd < fuel ->
  exists node, lookup_ascend fuel (heap s) diffBit x = Some node.
Proof.
  revert x xd. induction fuel as [|fuel IH]; intros x xd Hx Hfuel; [lia|]. simpl.
  rewrite Hx. simpl. destruct (n_parent xd) as [q|] eqn:Hq; [|eauto].
  destruct (parent_ok x xd q Hx Hq) as (qd & Hqd & Hlt & _).
  rewrite Hqd. simpl. destruct (diffBit <=? n_bits qd); [|eauto].
  apply (IH q qd Hqd). lia.
Qed.

(** Every node whose ghost prefix the key follows lies on the key's path
    from the root. *)
Lemma kpath_to_node key r :
  root s = Some r ->
  forall b p nd, heap s !! p = Some nd -> n_bits nd = b ->
    (forall i, i < n_bits nd -> BitArray.get key i = rep p i) ->
    kpath (heap s) key r p.
Proof.
  intros Hroot. induction b as [b IH] using lt_wf_ind. intros p nd Hp Hb Hag.
  destruct (n_parent nd) as [q|] eqn:Hq.
  - destruct (parent_ok p nd q Hp Hq) as (qd & Hqd & Hlt & Hrep & Hside).
    assert (Hrq : kpath (heap s) key r q).
    { apply (IH (n_bits qd) ltac:(lia) q qd Hqd eq_refl).
      intros i Hi. rewrite Hag by lia. apply Hrep. exact Hi. }
    apply (kpath_snoc _ _ _ _ _ _ Hrq Hqd).
    unfold kchild. rewrite Hag by lia.
    destruct Hside as [[Hl ->]|[Hr ->]]; assumption.
  - pose proof (ok_parent _ _ _ _ _ (Hnodes p nd Hp)) as Hpar.
    rewrite Hq, Hroot in Hpar. injection Hpar as ->. apply kpath_refl.
Qed.

(** *** [searchExact] *)

Lemma searchExact_loop_total key fuel a ad :
  heap s !! a = Some ad -> N * 8 - n_bits ad < fuel ->
  exists res, searchExact_loop fuel key (heap s) a = Some res.
Proof.
  revert a ad. induction fuel as [|fuel IH]; intros a ad Ha Hfuel; [lia|]. simpl.
  rewrite Ha. simpl. destruct (n_bits ad <? BitArray.size key); [|eauto].
  destruct (if BitArray.get key (n_bits ad) then n_right ad else n_left ad) as [c|] eqn:Hc;
    [|eauto].
  destruct (kchild_ok key a ad c Ha Hc) as (cd & Hcd & _ & Hlt & _).
  pose proof (ok_bits _ _ _ _ _ (Hnodes c cd Hcd)).
  apply (IH c cd Hcd). lia.
Qed.

Lemma searchExact_loop_exit key fuel a t :
  searchExact_loop fuel key (heap s) a = Some (Some t) ->
  exists td, heap s !! t = Some td /\ BitArray.size key <= n_bits td.
Proof.
  revert a. induction fuel as [|fuel IH]; intros a; simpl; [discriminate|].
  destruct (heap s !! a) as [ad|] eqn:Ha; simpl; [|discriminate].
  destruct (Nat.ltb_spec (n_bits ad) (BitArray.size key)) as [Hlt|Hge].
  - destruct (if BitArray.get key (n_bits ad) then n_right ad else n_left ad) as [c|];
      [apply IH|discriminate].
  - intros [= <-]. eauto.
Qed.

(** The loop follows the key's path down to a node at depth [size key]. *)
Lemma searchExact_loop_follows key a p :
  kpath (heap s) key a p ->
  forall fuel ad pd, heap s !! a = Some ad -> heap s !! p = Some pd ->
    n_bits pd = BitArray.size key -> N * 8 - n_bits ad < fuel ->
    searchExact_loop fuel key (heap s) a = Some (Some p).
Proof.
  induction 1 as [a|a nd c p Ha Hc Hp IH]; intros fuel ad pd Had Hpd Hbits Hfuel.
  - destruct fuel as [|fuel]; [lia|]. simpl. rewrite Had. simpl.
    rewrite Hpd in Had. injection Had as <-.
    destruct (Nat.ltb_spec (n_bits pd) (BitArray.size key)); [lia|reflexivity].
  - rewrite Ha in Had. injection Had as <-.
    destruct (kchild_ok key a nd c Ha Hc) as (cd & Hcd & _ & Hlt & _).
    destruct (kpath_rep key c p cd Hp Hcd) as (pd' & Hpd' & Hle & _).
    rewrite Hpd in Hpd'. injection Hpd' as <-.
    pose proof (ok_bits _ _ _ _ _ (Hnodes c cd Hcd)).
    destruct fuel as [|fuel]; [lia|]. simpl. rewrite Ha. simpl.
    destruct (Nat.ltb_spec (n_bits nd) (BitArray.size key)); [|lia].
    unfold kchild in Hc. rewrite Hc.
    apply (IH fuel cd pd Hcd Hpd Hbits). lia.
Qed.

(** *** [searchBest] *)

Lemma stack_ok_weaken b b' stack : b <= b' -> stack_ok (heap s) b stack -> stack_ok (heap s) b' stack.
Proof.
  destruct stack as [|m rest]; simpl; [auto|].
  intros Hle (md & Hm & Hd & Hlt & Hrest). exists md. repeat split; try assumption. lia.
Qed.

Lemma stack_ok_elem bound stack m :
  stack_ok (heap s) bound stack -> m ∈ stack ->
  exists md, heap s !! m = Some md /\ is_data md /\ n_bits md < bound.
Proof.
  revert bound. induction stack as [|x rest IH]; intros bound Hok Hin.
  - inversion Hin.
  - simpl in Hok. destruct Hok as (xd & Hx & Hd & Hlt & Hrest).
    apply elem_of_cons in Hin as [->|Hin]; [eauto|].
    destruct (IH _ Hrest Hin) as (md & Hm & Hmd & Hlt').
    exists md. repeat split; try assumption. lia.
Qed.

Lemma empty_false_data nd : BitArray.empty (n_key nd) = false <-> is_data nd.
Proof. unfold BitArray.empty, is_data. now rewrite Nat.eqb_neq. Qed.

Lemma searchBest_loop_total key fuel a ad stack :
  heap s !! a = Some ad -> N * 8 - n_bits ad < fuel ->
  exists res st, searchBest_loop fuel key (heap s) a stack = Some (res, st) /\
                 is_Some (searchBest_push (heap s) res st).
Proof.
  revert a ad stack. induction fuel as [|fuel IH]; intros a ad stack Ha Hfuel; [lia|].
  simpl. rewrite Ha. simpl. destruct (n_bits ad <? BitArray.size key).
  - destruct (if BitArray.get key (n_bits ad) then n_right ad else n_left ad) as [c|] eqn:Hc.
    + destruct (kchild_ok key a ad c Ha Hc) as (cd & Hcd & _ & Hlt & _).
      pose proof (ok_bits _ _ _ _ _ (Hnodes c cd Hcd)).
      apply (IH c cd _ Hcd). lia.
    + eexists _, _. split; [reflexivity|]. unfold searchBest_push. simpl. eauto.
  - eexists _, _. split; [reflexivity|]. unfold searchBest_push. simpl. rewrite Ha. simpl. eauto.
Qed.

Lemma searchBest_loop_sorted key fuel a ad stack res st fin :
  heap s !! a = Some ad -> stack_ok (heap s) (n_bits ad) stack ->
  searchBest_loop fuel key (heap s) a stack = Some (res, st) ->
  searchBest_push (heap s) res st = Some fin ->
  exists bound, stack_ok (heap s) bound fin.
Proof.
  revert a ad stack. induction fuel as [|fuel IH]; intros a ad stack Ha Hok; simpl;
    [discriminate|].
  rewrite Ha. simpl.
  destruct (BitArray.empty (n_key ad)) eqn:He; simpl.
  - destruct (n_bits ad <? BitArray.size key).
    + destruct (if BitArray.get key (n_bits ad) then n_right ad else n_left ad) as [c|] eqn:Hc.
      * destruct (kchild_ok key a ad c Ha Hc) as (cd & Hcd & _ & Hlt & _).
        apply (IH c cd stack Hcd). eapply stack_ok_weaken; [|exact Hok]. lia.
      * intros [= <- <-]. unfold searchBest_push. simpl. intros [= <-]. eauto.
    + intros [= <- <-]. unfold searchBest_push. simpl. rewrite Ha. simpl. rewrite He. simpl.
      intros [= <-]. eauto.
  - apply empty_false_data in He.
    destruct (n_bits ad <? BitArray.size key).
    + destruct (if BitArray.get key (n_bits ad) then n_right ad else n_left ad) as [c|] eqn:Hc.
      * destruct (kchild_ok key a ad c Ha Hc) as (cd & Hcd & _ & Hlt & _).
        apply (IH c cd (a :: stack) Hcd). simpl. exists ad. auto.
      * intros [= <- <-]. unfold searchBest_push. simpl. intros [= <-].
        exists (S (n_bits ad)). simpl. exists ad. auto.
    + intros [= <- <-]. unfold searchBest_push. simpl. rewrite Ha. simpl.
      apply empty_false_data in He as He'. rewrite He'. simpl.
      intros [= <-]. exists (S (n_bits ad)). simpl. exists ad. auto.
Qed.

Lemma searchBest_loop_mono key fuel a stack res st fin m :
  m ∈ stack ->
  searchBest_loop fuel key (heap s) a stack = Some (res, st) ->
  searchBest_push (heap s) res st = Some fin -> m ∈ fin.
Proof.
  revert a stack. induction fuel as [|fuel IH]; intros a stack Hin; simpl; [discriminate|].
  destruct (heap s !! a) as [ad|] eqn:Ha; simpl; [|discriminate].
  assert (Hfin : forall st', m ∈ st' -> forall res', searchBest_push (heap s) res' st' = Some fin -> m ∈ fin).
  { intros st' Hin' res'. unfold searchBest_push. simpl. destruct res' as [p|].
    - destruct (heap s !! p) as [pd|]; simpl; [|discriminate].
      intros [= <-]. destruct (negb _); [now apply elem_of_cons; right|assumption].
    - now intros [= <-]. }
  destruct (n_bits ad <? BitArray.size key).
  - destruct (if BitArray.get key (n_bits ad) then n_right ad else n_left ad) as [c|].
    + apply IH. destruct (negb _); [now apply elem_of_cons; right|assumption].
    + intros [= <- <-]. apply Hfin.
      destruct (negb _); [now apply elem_of_cons; right|assumption].
  - intros [= <- <-]. now apply Hfin.
Qed.

(** Every data node on the key's path, not deeper than the key is long, is
    on the final stack. *)
Lemma searchBest_loop_complete key a d :
  kpath (heap s) key a d ->
  forall fuel stack dd res st fin,
    heap s !! d = Some dd -> is_data dd -> n_bits dd <= BitArray.size key ->
    searchBest_loop fuel key (heap s) a stack = Some (res, st) ->
    searchBest_push (heap s) res st = Some fin -> d ∈ fin.
Proof.
  induction 1 as [a|a nd c d Ha Hc Hp IH]; intros fuel stack dd res st fin Hd Hdata Hle.
  - destruct fuel as [|fuel]; simpl; [discriminate|]. rewrite Hd. simpl.
    apply empty_false_data in Hdata as He. rewrite He. simpl.
    destruct (n_bits dd <? BitArray.size key).
    + destruct (if BitArray.get key (n_bits dd) then n_right dd else n_left dd) as [c|].
      * apply searchBest_loop_mono. apply elem_of_cons. now left.
      * intros [= <- <-]. unfold searchBest_push. simpl. intros [= <-]. apply elem_of_cons. now left.
    + intros [= <- <-]. unfold searchBest_push. simpl. rewrite Hd. simpl. rewrite He. simpl.
      intros [= <-]. apply elem_of_cons. now left.
  - destruct (kchild_ok key a nd c Ha Hc) as (cd & Hcd & _ & Hlt & _).
    destruct (kpath_rep key c d cd Hp Hcd) as (dd' & Hdd' & Hle' & _).
    rewrite Hd in Hdd'. injection Hdd' as <-.
    destruct fuel as [|fuel]; simpl; [discriminate|]. rewrite Ha. simpl.
    destruct (Nat.ltb_spec (n_bits nd) (BitArray.size key)); [|lia].
    unfold kchild in Hc. rewrite Hc.
    apply (IH fuel _ dd res st fin Hd Hdata Hle).
Qed.

(** The pop loop returns the first node on the stack whose key is a prefix
    of the query. *)
Lemma searchBest_pop_spec key bound stack :
  BitArray.wf N key -> stack_ok (heap s) bound stack ->
  exists res, searchBest_pop key (heap s) stack = Some res /\
    match res with
    | Some m =>
        m ∈ stack /\
        exists md, heap s !! m = Some md /\ is_data md /\ is_prefix (n_key md) key /\
          forall d dd, d ∈ stack -> heap s !! d = Some dd ->
                       is_prefix (n_key dd) key -> n_bits dd <= n_bits md
    | None =>
        forall d dd, d ∈ stack -> heap s !! d = Some dd -> ~ is_prefix (n_key dd) key
    end.
Proof.
  intros Hkey. revert bound. induction stack as [|m rest IH]; intros bound Hok; simpl.
  - exists None. split; [reflexivity|]. intros d dd Hin. inversion Hin.
  - destruct Hok as (md & Hm & Hdata & Hlt & Hrest). rewrite Hm. simpl.
    pose proof (ok_key _ _ _ _ _ (Hnodes m md Hm)) as Hk.
    destruct Hk as [Hk|(Hcnt & Hwf & Hrep)]; [contradiction|].
    assert (Htest : BitArray.compareBits key (n_key md) (BitArray.size (n_key md))
                    && (BitArray.size (n_key md) <=? BitArray.size key) = true
                    <-> is_prefix (n_key md) key).
    { rewrite andb_true_iff, (compareBits_spec N _ _ _ Hkey Hwf), Nat.leb_le.
      unfold is_prefix, BitArray.size, BitArray.agree. split.
      - intros [(H1 & H2 & H3) H4]. split; [assumption|].
        intros i Hi. symmetry. now apply H3.
      - intros [H1 H2]. repeat split; try lia.
        intros i Hi. symmetry. now apply H2. }
    destruct (BitArray.compareBits key (n_key md) (BitArray.size (n_key md))
              && (BitArray.size (n_key md) <=? BitArray.size key)) eqn:Ht.
    + exists (Some m). split; [reflexivity|]. split; [apply elem_of_cons; now left|].
      exists md. split; [assumption|]. split; [assumption|].
      split; [now apply Htest|].
      intros d dd Hin Hd _. apply elem_of_cons in Hin as [->|Hin].
      * rewrite Hm in Hd. injection Hd as <-. lia.
      * destruct (stack_ok_elem _ _ _ Hrest Hin) as (dd' & Hdd' & _ & Hlt').
        rewrite Hd in Hdd'. injection Hdd' as <-. lia.
    + destruct (IH _ Hrest) as (res & Hres & Hspec). exists res. split; [assumption|].
      destruct res as [x|].
      * destruct Hspec as (Hin & xd & Hx & Hxd & Hpre & Hmax).
        split; [apply elem_of_cons; now right|].
        exists xd. split; [assumption|]. split; [assumption|]. split; [assumption|].
        intros d dd Hind Hd Hp. apply elem_of_cons in Hind as [->|Hind].
        -- rewrite Hm in Hd. injection Hd as <-.
           apply Htest in Hp. congruence.
        -- eapply Hmax; eauto.
      * intros d dd Hind Hd Hp. apply elem_of_cons in Hind as [->|Hind].
        -- rewrite Hm in Hd. injection Hd as <-. apply Htest in Hp. congruence.
        -- eapply Hspec; eauto.
Qed.

End WithShape.
End PathFacts.

(** ** Facts about the trie: what the searches find *)

Import BitArrayFacts.

Section SearchFacts.
Context {T : Type} (N : nat).
Local Abbreviation Node := (@Node T).
Local Abbreviation Trie := (@Trie T).
Local Abbreviation node_ok := (@node_ok T N).
Local Abbreviation inv_with := (@inv_with T N).
Local Abbreviation inv := (@inv T N).
Local Abbreviation searchExact := (@searchExact T N).
Local Abbreviation searchBest := (@searchBest T N).

Implicit Types (s : Trie) (nd : Node) (key : BitArray.t) (rep : nat -> nat -> bool).

Lemma inv_live_root rep s p nd :
  inv_with rep s -> heap s !! p = Some nd ->
  exists r rd, root s = Some r /\ heap s !! r = Some rd /\ n_parent rd = None.
Proof.
  intros (Hroot & _ & _) Hp. destruct (root s) as [r|].
  - destruct Hroot as (rd & Hrd & Hpar). eauto.
  - rewrite Hroot in Hp. rewrite lookup_empty in Hp. discriminate.
Qed.

(** A data node's key, when it is a prefix of [key], is followed by [key]. *)
Lemma data_prefix_follows rep s key p nd :
  inv_with rep s -> heap s !! p = Some nd -> is_data nd -> is_prefix (n_key nd) key ->
  n_bits nd = BitArray.bitCount (n_key nd) /\
  forall i, i < n_bits nd -> BitArray.get key i = rep p i.
Proof.
  intros (_ & Hnodes & _) Hp Hdata [Hle Hag].
  destruct (ok_key _ _ _ _ _ (Hnodes p nd Hp)) as [Hk|(Hcnt & Hwf & Hrep)];
    [contradiction|].
  split; [now symmetry|]. intros i Hi. rewrite <- Hrep by assumption.
  symmetry. apply Hag. lia.
Qed.

Lemma searchExact_total rep s key :
  inv_with rep s -> exists res, searchExact key s = Some res.
Proof.
  intros Hinv. pose proof Hinv as (Hroot & Hnodes & _). unfold searchExact.
  destruct (root s) as [r|]; [|eauto].
  destruct Hroot as (rd & Hrd & _).
  destruct (searchExact_loop_total N s rep Hnodes key (max_depth N) r rd Hrd) as (res & Hres).
  { unfold max_depth. lia. }
  rewrite Hres. simpl. destruct res as [t|]; [|eauto].
  destruct (searchExact_loop_exit s key _ _ _ Hres) as (td & Htd & _).
  rewrite Htd. simpl.
  destruct (_ || _); [eauto|]. destruct (BitArray.compareBits _ _ _); eauto.
Qed.

Lemma searchExact_sound rep s key p :
  inv_with rep s -> BitArray.wf N key -> searchExact key s = Some (Some p) ->
  exists nd, heap s !! p = Some nd /\ is_data nd /\ key_eq (n_key nd) key.
Proof.
  intros (Hroot & Hnodes & _) Hkey. unfold searchExact.
  destruct (root s) as [r|]; [|discriminate].
  destruct (searchExact_loop (max_depth N) key (heap s) r) as [[t|]|] eqn:Hloop; simpl;
    try discriminate.
  destruct (searchExact_loop_exit s key _ _ _ Hloop) as (td & Htd & Hge).
  rewrite Htd. simpl.
  destruct (Nat.ltb_spec (BitArray.size key) (n_bits td)) as [Hlt|Hle]; simpl;
    [discriminate|].
  destruct (BitArray.empty (n_key td)) eqn:He; [discriminate|].
  destruct (BitArray.compareBits key (n_key td) (BitArray.size key)) eqn:Hcmp;
    [|discriminate].
  intros [= <-]. exists td. split; [assumption|].
  apply empty_false_data in He. split; [assumption|].
  destruct (ok_key _ _ _ _ _ (Hnodes t td Htd)) as [Hk|(Hcnt & Hwf & Hrep)];
    [contradiction|].
  apply (compareBits_spec N _ _ _ Hkey Hwf) in Hcmp as (_ & _ & Hag).
  unfold BitArray.size in *. split; [lia|].
  intros i Hi. symmetry. apply Hag. lia.
Qed.

Lemma searchExact_complete rep s key p nd :
  inv_with rep s -> BitArray.wf N key ->
  heap s !! p = Some nd -> is_data nd -> key_eq (n_key nd) key ->
  searchExact key s = Some (Some p).
Proof.
  intros Hinv Hkey Hp Hdata [Hcnt Hag].
  destruct (inv_live_root _ _ _ _ Hinv Hp) as (r & rd & Hr & Hrd & _).
  pose proof Hinv as (_ & Hnodes & _).
  destruct (data_prefix_follows rep s key p nd Hinv Hp Hdata) as [Hbits Hfol].
  { split; [lia|assumption]. }
  unfold searchExact. rewrite Hr.
  rewrite (searchExact_loop_follows N s rep Hnodes key r p
             (kpath_to_node N s rep Hnodes key r Hr _ p nd Hp eq_refl Hfol)
             (max_depth N) rd nd Hrd Hp).
  2:{ unfold BitArray.size. lia. }
  2:{ unfold max_depth. lia. }
  simpl. rewrite Hp. simpl.
  destruct (Nat.ltb_spec (BitArray.size key) (n_bits nd)) as [Hlt|_]; simpl.
  { unfold BitArray.size in Hlt. lia. }
  apply empty_false_data in Hdata as He. rewrite He.
  destruct (ok_key _ _ _ _ _ (Hnodes p nd Hp)) as [Hk|(_ & Hwf & _)]; [contradiction|].
  assert (Hcmp : BitArray.compareBits key (n_key nd) (BitArray.size key) = true).
  { apply (compareBits_spec N _ _ _ Hkey Hwf). unfold BitArray.size.
    split; [lia|]. split; [lia|]. intros i Hi. symmetry. apply Hag. lia. }
  now rewrite Hcmp.
Qed.

(** [searchBest] returns a data node whose key is the longest of the data
    keys that are prefixes of the query, and [NULL] when there is none. *)
Lemma searchBest_spec rep s key :
  inv_with rep s -> BitArray.wf N key ->
  exists res, searchBest key s = Some res /\
    match res with
    | Some m =>
        exists md, heap s !! m = Some md /\ is_data md /\ is_prefix (n_key md) key /\
          forall d dd, heap s !! d = Some dd -> is_data dd -> is_prefix (n_key dd) key ->
                       BitArray.bitCount (n_key dd) <= BitArray.bitCount (n_key md)
    | None =>
        forall d dd, heap s !! d = Some dd -> is_data dd -> ~ is_prefix (n_key dd) key
    end.
Proof.
  intros Hinv Hkey. pose proof Hinv as (Hroot & Hnodes & _).
  unfold searchBest. destruct (root s) as [r|] eqn:Hr.
  2:{ exists None. split; [reflexivity|]. intros d dd Hd. rewrite Hroot in Hd.
      rewrite lookup_empty in Hd. discriminate. }
  destruct Hroot as (rd & Hrd & _).
  destruct (searchBest_loop_total N s rep Hnodes key (max_depth N) r rd [] Hrd)
    as (res & st & Hloop & [fin Hfin]).
  { unfold max_depth. lia. }
  rewrite Hloop. simpl. rewrite Hfin. simpl.
  destruct (searchBest_loop_sorted N s rep Hnodes key _ r rd [] res st fin Hrd I Hloop Hfin)
    as (bound & Hsorted).
  destruct (searchBest_pop_spec N s rep Hnodes key bound fin Hkey Hsorted)
    as (out & Hout & Hspec).
  exists out. split; [assumption|].
  assert (Hon : forall d dd, heap s !! d = Some dd -> is_data dd ->
                  is_prefix (n_key dd) key -> d ∈ fin /\ n_bits dd = BitArray.bitCount (n_key dd)).
  { intros d dd Hd Hdata Hpre.
    destruct (data_prefix_follows rep s key d dd Hinv Hd Hdata Hpre) as [Hbits Hfol].
    split; [|assumption].
    eapply (searchBest_loop_complete N s rep Hnodes key r d); eauto.
    - eapply kpath_to_node; eauto.
    - rewrite Hbits. apply Hpre. }
  destruct out as [m|].
  - destruct Hspec as (Hin & md & Hm & Hmd & Hpre & Hmax).
    exists md. split; [assumption|]. split; [assumption|]. split; [assumption|].
    intros d dd Hd Hdata Hp. destruct (Hon d dd Hd Hdata Hp) as [Hdin Hdb].
    destruct (Hon m md Hm Hmd Hpre) as [_ Hmb].
    rewrite <- Hdb, <- Hmb. eapply Hmax; eauto.
  - intros d dd Hd Hdata Hp. destruct (Hon d dd Hd Hdata Hp) as [Hdin _].
    eapply Hspec; eauto.
Qed.

End SearchFacts.

(** ** Facts about [lookupNode]: where the two walks end *)

Import BitArrayFacts.

Section WalkFacts.
Context {T : Type} (N : nat).
Local Abbreviation Node := (@Node T).
Local Abbreviation Trie := (@Trie T).
Local Abbreviation node_ok := (@node_ok T N).
Local Abbreviation inv_with := (@inv_with T N).
Local Abbreviation walk := (@walk T N).

Implicit Types (s : Trie) (nd : Node) (key : BitArray.t) (rep : nat -> nat -> bool).

Lemma firstDifferentBit_0 (a b : BitArray.t) : BitArray.firstDifferentBit a b 0 = 0.
Proof. reflexivity. Qed.

Lemma lookup_ascend_bits s rep diffBit :
  (forall p nd, heap s !! p = Some nd -> node_ok s rep p nd) ->
  forall fuel x xd node,
    heap s !! x = Some xd -> diffBit <= n_bits xd ->
    lookup_ascend fuel (heap s) diffBit x = Some node ->
    exists nd, heap s !! node = Some nd /\ diffBit <= n_bits nd.
Proof.
  intros Hnodes. induction fuel as [|fuel IH]; intros x xd node Hx Hle; simpl;
    [discriminate|].
  rewrite Hx. simpl. destruct (n_parent xd) as [q|] eqn:Hq.
  - destruct (heap s !! q) as [qd|] eqn:Hqd; simpl; [|discriminate].
    destruct (Nat.leb_spec diffBit (n_bits qd)) as [Hle'|Hgt].
    + apply (IH q qd node Hqd Hle').
    + intros [= <-]. eauto.
  - intros [= <-]. eauto.
Qed.

(** A node with a missing child is a data node, or sits at depth 0. *)
Lemma missing_child_data s rep key p nd :
  node_ok s rep p nd -> kchild key nd = None -> is_data nd \/ n_bits nd = 0.
Proof.
  intros Hok Hk. unfold is_data.
  destruct (Nat.eq_dec (BitArray.bitCount (n_key nd)) 0) as [E|E]; [|now left].
  destruct (ok_glue _ _ _ _ _ Hok E) as [[Hl Hr]|H0]; [|now right].
  unfold kchild in Hk. destruct (BitArray.get key (n_bits nd)); congruence.
Qed.

Lemma lookup_walk rep s key r :
  inv_with rep s -> BitArray.wf N key -> root s = Some r ->
  exists t td diffBit node nd, walk rep s key r t td diffBit node nd.
Proof.
  intros (Hroot & Hnodes & _) Hkey Hr. rewrite Hr in Hroot.
  destruct Hroot as (rd & Hrd & Hrpar).
  destruct (lookup_descend_total N s rep Hnodes key (max_depth N) r rd Hrd) as (t & Hdesc).
  { unfold max_depth. lia. }
  destruct (lookup_descend_spec s key _ _ _ Hdesc) as (Hrt & td & Htd & Hstop).
  set (checkBit := if n_bits td <? (BitArray.size key) then n_bits td else (BitArray.size key)).
  set (diffBit := BitArray.firstDifferentBit key (n_key td) checkBit).
  pose proof (ok_bits _ _ _ _ _ (Hnodes t td Htd)) as Htbits.
  destruct (lookup_ascend_total N s rep Hnodes diffBit (max_depth N) t td Htd)
    as (node & Hasc).
  { unfold max_depth. lia. }
  destruct (lookup_ascend_spec N s rep Hnodes key diffBit r t (ex_intro _ rd (conj Hrd Hrpar))
              _ t node Hrt (kpath_refl _ _ _) Hasc) as (Hrn & Hnt & nd & Hnd & Hpar).
  assert (Hcheck : checkBit = Nat.min (n_bits td) (BitArray.size key)).
  { unfold checkBit. destruct (Nat.ltb_spec (n_bits td) (BitArray.size key)); lia. }
  (* the terminal node carries a key, or everything happens at depth 0 *)
  assert (Hterm : is_data td \/ n_bits td = 0).
  { destruct Hstop as [Hnone|[_ Hd]]; [|now left].
    eapply missing_child_data; eauto. }
  assert (Hfdb : diffBit <= checkBit /\
                 (forall i, i < diffBit -> BitArray.get key i = rep t i) /\
                 (diffBit < checkBit -> BitArray.get key diffBit <> rep t diffBit) /\
                 (forall i, i < n_bits td -> 0 < n_bits td ->
                            BitArray.get (n_key td) i = rep t i)).
  { destruct (ok_key _ _ _ _ _ (Hnodes t td Htd)) as [Hk|(Hcnt & Hwf & Hrep)].
    - destruct Hterm as [Hd|H0]; [contradiction|].
      assert (checkBit = 0) as Hc0 by lia.
      assert (diffBit = 0) as Hd0.
      { unfold diffBit. rewrite Hc0. apply firstDifferentBit_0. }
      rewrite Hd0. repeat split; try lia; intros; lia.
    - destruct (firstDifferentBit_spec N key (n_key td) checkBit Hkey Hwf)
        as (Hle & Hag & Hend).
      fold diffBit in Hle, Hag, Hend.
      split; [assumption|]. split; [|split].
      + intros i Hi. rewrite <- Hrep by lia. now apply Hag.
      + intros Hlt. destruct Hend as [E|Hne]; [lia|].
        rewrite <- Hrep by lia. exact Hne.
      + intros i Hi _. now apply Hrep. }
  destruct Hfdb as (Hdle & Hagree & Hdiffer & Htkey).
  destruct (lookup_ascend_bits s rep diffBit Hnodes _ t td node Htd ltac:(lia) Hasc)
    as (nd' & Hnd' & Hge).
  rewrite Hnd in Hnd'. injection Hnd' as <-.
  destruct (kpath_rep N s rep Hnodes key node t nd Hnt Hnd)
    as (td' & Htd' & Hbits_le & Hrep_nt & Hproper).
  rewrite Htd in Htd'. injection Htd' as <-.
  exists t, td, diffBit, node, nd. constructor; try assumption; try reflexivity; try lia.
  - intros i Hi. rewrite Hagree by assumption. apply Hrep_nt. lia.
  - (* extend below: the slot is free *)
    intros Hb Hlt. destruct (decide (node = t)) as [->|Hne].
    + rewrite Htd in Hnd. injection Hnd as <-.
      destruct Hstop as [Hnone|[Hge' _]]; [assumption|]. lia.
    + exfalso. destruct (Hproper Hne) as [Hlt' Hdir].
      apply Hdiffer; [lia|]. rewrite <- Hb. symmetry. exact Hdir.
  - intros Hlt. rewrite Htkey by lia. symmetry. apply Hrep_nt. lia.
  - intros Hlt1 Hlt2. rewrite <- Hrep_nt by lia. apply Hdiffer. lia.
  - (* a key the terminal node's prefix follows is met in full *)
    intros Hfol.
    destruct (ok_key _ _ _ _ _ (Hnodes t td Htd)) as [Hk|(Hcnt & Hwf & Hrep)].
    + destruct Hterm as [Hd|H0]; [contradiction|].
      transitivity checkBit; [|exact Hcheck].
      assert (checkBit = 0) as Hc0 by (rewrite Hcheck, H0; reflexivity).
      unfold diffBit. rewrite Hc0. apply firstDifferentBit_0.
    + destruct (firstDifferentBit_spec N key (n_key td) checkBit Hkey Hwf)
        as (_ & _ & Hend).
      fold diffBit in Hend. rewrite <- Hcheck.
      destruct Hend as [E|Hne]; [exact E|].
      destruct (Nat.lt_ge_cases diffBit checkBit) as [Hlt|Hge']; [exfalso|].
      * apply Hne. rewrite Hrep by lia. apply Hfol; lia.
      * apply Nat.le_antisymm; assumption.
Qed.

End WalkFacts.

(** ** Facts about [lookupNode]: the state it leaves, case by case *)

Import BitArrayFacts.

Section InsertState.
Context {T : Type} (N : nat) (data_init : T) (key_init_bytes : list Z).
Local Abbreviation Node := (@Node T).
Local Abbreviation Trie := (@Trie T).
Local Abbreviation node_ok := (@node_ok T N).
Local Abbreviation inv_with := (@inv_with T N).
Local Abbreviation walk := (@walk T N).
Local Abbreviation lookupNode := (@lookupNode T N data_init key_init_bytes).
Local Abbreviation Node_key := (@Node_key T data_init).
Local Abbreviation Node_default := (@Node_default T data_init key_init_bytes).

Implicit Types (s : Trie) (nd : Node) (key : BitArray.t) (rep : nat -> nat -> bool).

Lemma store_child s (p : nat) (b : bool) (v : option nat) :
  (if b then store p (with_right v) s else store p (with_left v) s)
  = store p (with_child b v) s.
Proof. now destruct b. Qed.

Lemma replace_child_some s q qd node repl :
  heap s !! q = Some qd ->
  replace_child (Some q) node repl s
  = store q (with_child (bool_decide (n_right qd = Some node)) repl) s.
Proof.
  intros Hq. unfold replace_child. rewrite Hq. simpl.
  destruct (decide (n_right qd = Some node)) as [E|E].
  - now rewrite bool_decide_true.
  - now rewrite bool_decide_false.
Qed.

Lemma live_lt_next rep s p nd :
  (forall p nd, heap s !! p = Some nd -> node_ok s rep p nd) ->
  heap s !! p = Some nd -> p < next s.
Proof. intros Hnodes Hp. exact (ok_fresh _ _ _ _ _ (Hnodes p nd Hp)). Qed.

Lemma next_not_live rep s k :
  (forall p nd, heap s !! p = Some nd -> node_ok s rep p nd) ->
  heap s !! (next s + k) = None.
Proof.
  intros Hnodes. destruct (heap s !! (next s + k)) as [nd|] eqn:E; [|reflexivity].
  pose proof (live_lt_next rep s _ nd Hnodes E). lia.
Qed.

(** [lookupNode] after the two walks. *)
Lemma lookupNode_walk rep s key r t td diffBit node nd :
  root s = Some r -> walk rep s key r t td diffBit node nd ->
  lookupNode key s =
    let bitLen := BitArray.size key in
    let tmpKey := n_key td in
    if (diffBit =? bitLen) && (n_bits nd =? bitLen) then
      if BitArray.empty (n_key nd) then
        s ← store node (with_key key) s; Some (node, s)
      else Some (node, s)
    else
      let '(newNode, s) := new_node (Node_key key (BitArray.size key)) s in
      let s := incr_numNodes s in
      if n_bits nd =? diffBit then
        s ← store newNode (with_parent (Some node)) s;
        s ← (if BitArray.get key (n_bits nd)
             then store node (with_right (Some newNode)) s
             else store node (with_left (Some newNode)) s);
        Some (newNode, s)
      else if bitLen =? diffBit then
        s ← (if BitArray.get tmpKey bitLen
             then store newNode (with_right (Some node)) s
             else store newNode (with_left (Some node)) s);
        s ← store newNode (with_parent (n_parent nd)) s;
        s ← replace_child (n_parent nd) node (Some newNode) s;
        s ← store node (with_parent (Some newNode)) s;
        Some (newNode, s)
      else
        let '(glue, s) := new_node Node_default s in
        s ← store glue (with_bits diffBit) s;
        s ← store glue (with_parent (n_parent nd)) s;
        let s := incr_numNodes s in
        s ← (if BitArray.get key diffBit
             then s ← store glue (with_right (Some newNode)) s;
                  store glue (with_left (Some node)) s
             else s ← store glue (with_right (Some node)) s;
                  store glue (with_left (Some newNode)) s);
        s ← store newNode (with_parent (Some glue)) s;
        s ← replace_child (n_parent nd) node (Some glue) s;
        s ← store node (with_parent (Some glue)) s;
        Some (newNode, s).
Proof.
  intros Hr W. unfold lookupNode. rewrite Hr.
  destruct W as [Hdesc Ht Hdiff Hasc Hnode _ _ _ _ _ _ _ _ _ _].
  cbv zeta. rewrite Hdesc. cbn [mbind option_bind]. rewrite Ht. cbn [mbind option_bind].
  rewrite <- Hdiff. rewrite Hasc. cbn [mbind option_bind]. rewrite Hnode.
  cbn [mbind option_bind]. reflexivity.
Qed.

Lemma replace_child_splice s par node repl :
  match par with
  | None => True
  | Some q => is_Some (heap s !! q)
  end ->
  replace_child par node repl s =
  Some (mkTrie (match par with None => repl | Some _ => root s end)
          (numNodes s) (splice par node repl (heap s)) (next s) (deleted s)).
Proof.
  intros Hpar. destruct par as [q|]; simpl.
  - destruct Hpar as [qd Hq]. rewrite Hq. simpl.
    destruct (decide (n_right qd = Some node)) as [E|E].
    + rewrite bool_decide_true by assumption. unfold store. rewrite Hq. reflexivity.
    + rewrite bool_decide_false by assumption. unfold store. rewrite Hq. reflexivity.
  - reflexivity.
Qed.

Lemma splice_lookup_ne (h : gmap nat Node) par node repl p :
  par <> Some p -> splice par node repl h !! p = h !! p.
Proof.
  intros Hne. unfold splice. destruct par as [q|]; [|reflexivity].
  destruct (h !! q) as [qd|]; [|reflexivity].
  apply lookup_insert_ne. congruence.
Qed.

Lemma splice_lookup_eq (h : gmap nat Node) q qd node repl :
  h !! q = Some qd ->
  splice (Some q) node repl h !! q
  = Some (with_child (bool_decide (n_right qd = Some node)) repl qd).
Proof. intros Hq. unfold splice. rewrite Hq. apply lookup_insert_eq. Qed.

Section Cases.
Variables (rep : nat -> nat -> bool) (s : Trie) (key : BitArray.t).
Variables (r t : ptr) (td : Node) (diffBit : nat) (node : ptr) (nd : Node).
Hypothesis Hinv : inv_with rep s.
Hypothesis Hroot : root s = Some r.
Hypothesis W : walk rep s key r t td diffBit node nd.

Let X := next s.
Let G := S (next s).

Lemma case_node_live : heap s !! node = Some nd.
Proof. now destruct W. Qed.

Lemma case_X_fresh : heap s !! X = None.
Proof.
  destruct Hinv as (_ & Hnodes & _).
  pose proof (next_not_live rep s 0 Hnodes) as H. now rewrite Nat.add_0_r in H.
Qed.

Lemma case_G_fresh : heap s !! G = None.
Proof.
  destruct Hinv as (_ & Hnodes & _).
  pose proof (next_not_live rep s 1 Hnodes) as H. now rewrite Nat.add_1_r in H.
Qed.

Lemma case_node_ne_X : node <> X.
Proof. intros E. pose proof case_node_live. pose proof case_X_fresh. congruence. Qed.

Lemma case_node_ne_G : node <> G.
Proof. intros E. pose proof case_node_live. pose proof case_G_fresh. congruence. Qed.

Lemma case_exact :
  diffBit = BitArray.size key -> n_bits nd = BitArray.size key ->
  lookupNode key s =
  Some (node, if BitArray.empty (n_key nd)
              then set_heap (<[node := with_key key nd]> (heap s)) s else s).
Proof.
  intros Hd Hb. rewrite (lookupNode_walk rep s key r t td diffBit node nd Hroot W).
  cbv zeta. rewrite Hd, Hb, !Nat.eqb_refl. cbn [andb].
  destruct (BitArray.empty (n_key nd)); [|reflexivity].
  now rewrite (store_live _ _ _ _ case_node_live).
Qed.

Lemma case_below :
  n_bits nd = diffBit -> diffBit < BitArray.size key ->
  lookupNode key s =
  Some (X, mkTrie (root s) (size_t_wrap (numNodes s + 1))
             (heap_below data_init (heap s) key node X nd) (S X) (deleted s)).
Proof.
  intros Hb Hlt. rewrite (lookupNode_walk rep s key r t td diffBit node nd Hroot W).
  cbv zeta. replace (diffBit =? BitArray.size key) with false
    by (symmetry; apply Nat.eqb_neq; lia).
  cbn [andb]. unfold new_node. cbv iota beta. rewrite Hb, Nat.eqb_refl.
  unfold incr_numNodes, set_numNodes. cbn [root numNodes heap next deleted].
  rewrite (store_live _ X _ (Node_key key (BitArray.size key)))
    by (cbn [heap]; apply lookup_insert_eq).
  cbn [mbind option_bind]. rewrite store_child.
  unfold set_heap. cbn [root numNodes heap next deleted].
  rewrite insert_insert_eq.
  rewrite (store_live _ node _ nd).
  2:{ cbn [heap]. rewrite lookup_insert_ne by (apply not_eq_sym, case_node_ne_X).
      apply case_node_live. }
  cbn [mbind option_bind]. unfold set_heap. cbn [root numNodes heap next deleted].
  rewrite <- Hb. reflexivity.
Qed.

Lemma case_parent :
  match n_parent nd with
  | None => True
  | Some q => exists qd, heap s !! q = Some qd /\ n_bits qd < diffBit /\
                         q <> node /\ q <> X /\ q <> G
  end.
Proof.
  destruct W as [_ _ _ _ Hnode _ _ _ Hle _ Hpar _ _ _ _].
  destruct (n_parent nd) as [q|]; [|exact I].
  destruct Hpar as (qd & Hq & Hlt). exists qd. split; [assumption|]. split; [assumption|].
  split; [|split].
  - intros ->. rewrite Hnode in Hq. injection Hq as <-. lia.
  - intros ->. pose proof case_X_fresh. congruence.
  - intros ->. pose proof case_G_fresh. congruence.
Qed.

Lemma case_parent_ne_node : n_parent nd <> Some node.
Proof.
  pose proof case_parent as H. destruct (n_parent nd) as [q|]; [|discriminate].
  destruct H as (_ & _ & _ & Hne & _). congruence.
Qed.

Lemma case_above :
  BitArray.size key = diffBit -> diffBit < n_bits nd ->
  lookupNode key s =
  Some (X, mkTrie (match n_parent nd with None => Some X | Some _ => root s end)
             (size_t_wrap (numNodes s + 1))
             (heap_above data_init (heap s) key (n_key td) node X nd) (S X) (deleted s)).
Proof.
  intros Hb Hlt. rewrite (lookupNode_walk rep s key r t td diffBit node nd Hroot W).
  cbv zeta. rewrite <- Hb, Nat.eqb_refl.
  replace (n_bits nd =? BitArray.size key) with false
    by (symmetry; apply Nat.eqb_neq; lia).
  cbn [andb]. unfold new_node. cbv iota beta.
  unfold incr_numNodes, set_numNodes. cbn [root numNodes heap next deleted].
  rewrite store_child.
  rewrite (store_live _ X _ (Node_key key (BitArray.size key)))
    by (cbn [heap]; apply lookup_insert_eq).
  cbn [mbind option_bind]. unfold set_heap. cbn [root numNodes heap next deleted].
  rewrite insert_insert_eq.
  rewrite (store_live _ X _
             (with_child (BitArray.get (n_key td) (BitArray.size key)) (Some node)
                (Node_key key (BitArray.size key))))
    by (cbn [heap]; apply lookup_insert_eq).
  cbn [mbind option_bind]. unfold set_heap. cbn [root numNodes heap next deleted].
  rewrite insert_insert_eq.
  rewrite replace_child_splice.
  2:{ cbn [heap]. pose proof case_parent as H. destruct (n_parent nd) as [q|]; [|exact I].
      destruct H as (qd & Hq & _ & _ & Hne & _).
      rewrite lookup_insert_ne by (apply not_eq_sym, Hne). eauto. }
  cbn [mbind option_bind root numNodes heap next deleted].
  rewrite (store_live _ node _ nd).
  2:{ cbn [heap]. rewrite splice_lookup_ne by apply case_parent_ne_node.
      rewrite lookup_insert_ne by (apply not_eq_sym, case_node_ne_X).
      apply case_node_live. }
  reflexivity.
Qed.

Lemma glue_node_eq (b : bool) (par : option nat) (d : nat) :
  (if b then with_left (Some node) (with_right (Some X)
                (with_parent par (with_bits d Node_default)))
   else with_left (Some X) (with_right (Some node)
                (with_parent par (with_bits d Node_default))))
  = glue_node data_init key_init_bytes b node X par d.
Proof. now destruct b. Qed.

Lemma case_fork :
  diffBit < BitArray.size key -> diffBit < n_bits nd ->
  lookupNode key s =
  Some (X, mkTrie (match n_parent nd with None => Some G | Some _ => root s end)
             (size_t_wrap (size_t_wrap (numNodes s + 1) + 1))
             (heap_fork data_init key_init_bytes (heap s) key diffBit node X G nd)
             (S G) (deleted s)).
Proof.
  intros Hlt1 Hlt2. rewrite (lookupNode_walk rep s key r t td diffBit node nd Hroot W).
  cbv zeta.
  replace (diffBit =? BitArray.size key) with false
    by (symmetry; apply Nat.eqb_neq; lia).
  replace (n_bits nd =? diffBit) with false by (symmetry; apply Nat.eqb_neq; lia).
  replace (BitArray.size key =? diffBit) with false
    by (symmetry; apply Nat.eqb_neq; lia).
  cbn [andb]. unfold new_node. cbv iota beta.
  unfold incr_numNodes, set_numNodes. cbn [root numNodes heap next deleted].
  fold G. fold X.
  rewrite (store_live _ G _ Node_default) by (cbn [heap]; apply lookup_insert_eq).
  cbn [mbind option_bind]. unfold set_heap. cbn [root numNodes heap next deleted].
  rewrite insert_insert_eq.
  rewrite (store_live _ G _ (with_bits diffBit Node_default))
    by (cbn [heap]; apply lookup_insert_eq).
  cbn [mbind option_bind]. unfold set_heap. cbn [root numNodes heap next deleted].
  rewrite insert_insert_eq.
  set (G0 := with_parent (n_parent nd) (with_bits diffBit Node_default)).
  assert (Hglue :
    (if BitArray.get key diffBit
     then s0 ← store G (with_right (Some X))
                 (mkTrie (root s) (size_t_wrap (size_t_wrap (numNodes s + 1) + 1))
                    (<[G := G0]> (<[X := Node_key key (BitArray.size key)]> (heap s)))
                    (S G) (deleted s));
          store G (with_left (Some node)) s0
     else s0 ← store G (with_right (Some node))
                 (mkTrie (root s) (size_t_wrap (size_t_wrap (numNodes s + 1) + 1))
                    (<[G := G0]> (<[X := Node_key key (BitArray.size key)]> (heap s)))
                    (S G) (deleted s));
          store G (with_left (Some X)) s0)
    = Some (mkTrie (root s) (size_t_wrap (size_t_wrap (numNodes s + 1) + 1))
              (<[G := glue_node data_init key_init_bytes (BitArray.get key diffBit)
                        node X (n_parent nd) diffBit]>
                 (<[X := Node_key key (BitArray.size key)]> (heap s)))
              (S G) (deleted s))).
  { rewrite <- glue_node_eq. fold G0.
    destruct (BitArray.get key diffBit).
    - rewrite (store_live _ G _ G0) by (cbn [heap]; apply lookup_insert_eq).
      cbn [mbind option_bind]. unfold set_heap. cbn [root numNodes heap next deleted].
      rewrite insert_insert_eq.
      rewrite (store_live _ G _ (with_right (Some X) G0))
        by (cbn [heap]; apply lookup_insert_eq).
      unfold set_heap. cbn [root numNodes heap next deleted].
      now rewrite insert_insert_eq.
    - rewrite (store_live _ G _ G0) by (cbn [heap]; apply lookup_insert_eq).
      cbn [mbind option_bind]. unfold set_heap. cbn [root numNodes heap next deleted].
      rewrite insert_insert_eq.
      rewrite (store_live _ G _ (with_right (Some node) G0))
        by (cbn [heap]; apply lookup_insert_eq).
      unfold set_heap. cbn [root numNodes heap next deleted].
      now rewrite insert_insert_eq. }
  rewrite Hglue. clear Hglue. cbn [mbind option_bind].
  assert (HXG : X <> G) by (unfold X, G; lia).
  rewrite (store_live _ X _ (Node_key key (BitArray.size key))).
  2:{ cbn [heap]. rewrite lookup_insert_ne by (apply not_eq_sym, HXG).
      apply lookup_insert_eq. }
  cbn [mbind option_bind]. unfold set_heap. cbn [root numNodes heap next deleted].
  rewrite (insert_insert_ne _ G X) by (apply not_eq_sym, HXG).
  rewrite insert_insert_eq.
  rewrite replace_child_splice.
  2:{ cbn [heap]. pose proof case_parent as H. destruct (n_parent nd) as [q|]; [|exact I].
      destruct H as (qd & Hq & _ & _ & HneX & HneG).
      rewrite lookup_insert_ne by (apply not_eq_sym, HneX).
      rewrite lookup_insert_ne by (apply not_eq_sym, HneG). eauto. }
  cbn [mbind option_bind root numNodes heap next deleted].
  rewrite (store_live _ node _ nd).
  2:{ cbn [heap]. rewrite splice_lookup_ne by apply case_parent_ne_node.
      rewrite lookup_insert_ne by (apply not_eq_sym, case_node_ne_X).
      rewrite lookup_insert_ne by (apply not_eq_sym, case_node_ne_G).
      apply case_node_live. }
  reflexivity.
Qed.

End Cases.
End InsertState.

(** ** Facts about [lookupNode]: the invariant is kept *)

Import BitArrayFacts.

Section KeptFacts.
Context {T : Type} (N : nat).
Local Abbreviation Node := (@Node T).
Local Abbreviation Trie := (@Trie T).
Local Abbreviation node_ok := (@node_ok T N).
Local Abbreviation inv_with := (@inv_with T N).

Implicit Types (s : Trie) (nd : Node) (key : BitArray.t) (rep : nat -> nat -> bool)
  (h : gmap nat Node).

Lemma size_t_wrap_succ (n : nat) :
  size_t_wrap (size_t_wrap (Z.of_nat n) + 1) = size_t_wrap (Z.of_nat (S n)).
Proof.
  unfold size_t_wrap. rewrite Zplus_mod_idemp_l. f_equal. lia.
Qed.

Lemma size_t_wrap_pred (n : nat) :
  size_t_wrap (size_t_wrap (Z.of_nat (S n)) - 1) = size_t_wrap (Z.of_nat n).
Proof.
  unfold size_t_wrap. rewrite Zminus_mod_idemp_l. f_equal. lia.
Qed.

Lemma size_insert_live h p (x y : Node) :
  h !! p = Some x -> base.size (<[p := y]> h) = base.size h.
Proof. intros H. apply map_size_insert_Some. eauto. Qed.

Lemma size_splice h par node repl : base.size (splice par node repl h) = base.size h.
Proof.
  unfold splice. destruct par as [q|]; [|reflexivity].
  destruct (h !! q) as [qd|] eqn:E; [|reflexivity].
  eapply size_insert_live; eauto.
Qed.

Lemma child_ok_kept h h' rep rep' node p pd pd' b oc :
  kept h h' rep rep' node ->
  child_ok h rep p pd b oc -> oc <> Some node ->
  (forall i, rep' p i = rep p i) -> n_bits pd' = n_bits pd ->
  child_ok h' rep' p pd' b oc.
Proof.
  intros Hk Hc Hne Hrep Hb. destruct oc as [c|]; [|exact I]. simpl in *.
  destruct Hc as (cd & Hcd & Hpar & Hlt & Hag & Hside).
  destruct (Hk c cd Hcd) as (cd' & Hcd' & Hbits & Hpar' & _ & _ & Hrc).
  exists cd'. split; [assumption|]. split; [|split; [|split]].
  - rewrite Hpar' by congruence. assumption.
  - lia.
  - intros i Hi. rewrite Hrc, Hrep. apply Hag. lia.
  - rewrite Hb, Hrc. assumption.
Qed.

Lemma parent_ok_kept h h' rep rep' node p (par : option nat) (rt rt' : option nat) :
  kept h h' rep rep' node -> p <> node ->
  (rt = Some p -> rt' = Some p) ->
  match par with
  | None => rt = Some p
  | Some q => exists qd, h !! q = Some qd /\ (n_left qd = Some p \/ n_right qd = Some p)
  end ->
  match par with
  | None => rt' = Some p
  | Some q => exists qd, h' !! q = Some qd /\ (n_left qd = Some p \/ n_right qd = Some p)
  end.
Proof.
  intros Hk Hne Hrt Hpar. destruct par as [q|]; [|auto].
  destruct Hpar as (qd & Hq & Hch).
  destruct (Hk q qd Hq) as (qd' & Hq' & _ & _ & Hl & Hr & _).
  exists qd'. split; [assumption|]. destruct Hch; [left|right]; auto.
Qed.

(** A node whose record did not change is still well formed. *)
Lemma node_ok_kept s s' rep rep' node p pd :
  kept (heap s) (heap s') rep rep' node ->
  node_ok s rep p pd -> heap s !! p = Some pd ->
  p <> node -> n_left pd <> Some node -> n_right pd <> Some node ->
  (root s = Some p -> root s' = Some p) ->
  next s <= next s' ->
  node_ok s' rep' p pd.
Proof.
  intros Hk Hok Hp Hne Hl Hr Hroot Hnext.
  destruct (Hk p pd Hp) as (_ & _ & _ & _ & _ & _ & Hrep).
  destruct Hok as [Hleft Hright Hpar Hkey Hglue Hbits Hfresh].
  constructor; try assumption.
  - eapply child_ok_kept; eauto.
  - eapply child_ok_kept; eauto.
  - eapply parent_ok_kept; eauto.
  - destruct Hkey as [Hk0|(Hc & Hwf & Hag)]; [now left|right].
    split; [assumption|]. split; [assumption|].
    intros i Hi. rewrite Hrep. now apply Hag.
  - lia.
Qed.

Lemma rep_insert_old rep key X p i :
  p < X -> rep_insert rep key X p i = rep p i.
Proof.
  intros Hlt. unfold rep_insert. destruct (decide (p = X \/ p = S X)) as [[E|E]|E];
    try lia. reflexivity.
Qed.

Lemma rep_insert_X rep key X i : rep_insert rep key X X i = BitArray.get key i.
Proof.
  unfold rep_insert. destruct (decide (X = X \/ X = S X)) as [E|E]; [reflexivity|].
  exfalso. apply E. now left.
Qed.

Lemma rep_insert_G rep key X i : rep_insert rep key X (S X) i = BitArray.get key i.
Proof.
  unfold rep_insert. destruct (decide (S X = X \/ S X = S X)) as [E|E]; [reflexivity|].
  exfalso. apply E. now right.
Qed.

End KeptFacts.

(** ** Facts about [lookupNode]: a key that is present is found *)

Import BitArrayFacts.

Section HitFacts.
Context {T : Type} (N : nat).
Local Abbreviation Node := (@Node T).
Local Abbreviation Trie := (@Trie T).
Local Abbreviation node_ok := (@node_ok T N).
Local Abbreviation inv_with := (@inv_with T N).
Local Abbreviation walk := (@walk T N).

Implicit Types (s : Trie) (nd : Node) (key : BitArray.t) (rep : nat -> nat -> bool)
  (h : gmap nat Node).

(** Two nodes on the key's path from the same start lie one above the other. *)
Lemma kpath_linear h key a x y :
  kpath h key a x -> kpath h key a y -> kpath h key x y \/ kpath h key y x.
Proof.
  intros Hx. revert y. induction Hx as [a|a nd c x Ha Hc Hx IH]; intros y Hy.
  - now left.
  - inversion Hy as [|a' nd' c' y' Ha' Hc' Hy']; subst.
    + right. eapply kpath_step; eauto.
    + rewrite Ha in Ha'. injection Ha' as <-. rewrite Hc in Hc'. injection Hc' as <-.
      now apply IH.
Qed.

Lemma key_eq_sym (a b : BitArray.t) : key_eq a b -> key_eq b a.
Proof.
  intros [Hc Hag]. split; [now symmetry|]. intros i Hi. symmetry. apply Hag. lia.
Qed.

Lemma key_eq_trans (a b c : BitArray.t) : key_eq a b -> key_eq b c -> key_eq a c.
Proof.
  intros [Hc1 Hag1] [Hc2 Hag2]. split; [congruence|].
  intros i Hi. rewrite Hag1 by assumption. apply Hag2. lia.
Qed.

Lemma key_eq_prefix (a b q : BitArray.t) : key_eq a b -> is_prefix a q -> is_prefix b q.
Proof.
  intros [Hc Hag] [Hle Hp]. split; [lia|].
  intros i Hi. rewrite <- Hag by lia. apply Hp. lia.
Qed.

(** The walks end on the node that holds the key, when there is one. *)
Lemma walk_hit rep s key r t td diffBit node nd :
  inv_with rep s -> root s = Some r ->
  walk rep s key r t td diffBit node nd ->
  present s key ->
  diffBit = BitArray.size key /\ n_bits nd = BitArray.size key.
Proof.
  intros Hinv Hr W Hpres. pose proof Hinv as (Hroot & Hnodes & _).
  destruct W as [_ Ht _ _ Hnode Hrn Hnt Hle_len Hle_bits _ Hpar _ _ _ Hstop Hfull].
  destruct Hpres as [(d & dd & Hd & Hdata & Heq)|(H0 & r0 & rd & Hr0 & Hrd & Hb0)].
  - (* a data node holds the key *)
    destruct (data_prefix_follows N rep s key d dd Hinv Hd Hdata) as [Hbits Hfol].
    { destruct Heq as [Hc Hag]. split; [lia|assumption]. }
    assert (Hdbits : n_bits dd = BitArray.size key).
    { destruct Heq as [Hc _]. unfold BitArray.size. lia. }
    pose proof (kpath_to_node N s rep Hnodes key r Hr _ d dd Hd eq_refl Hfol) as Hrd.
    pose proof (kpath_trans _ _ _ _ _ Hrn Hnt) as Hrt.
    (* the data node is on the path, at or above the terminal node *)
    assert (Hdt : kpath (heap s) key d t).
    { destruct (kpath_linear _ _ _ _ _ Hrd Hrt) as [H|H]; [assumption|].
      destruct (decide (t = d)) as [->|Hne]; [apply kpath_refl|exfalso].
      destruct (kpath_rep N s rep Hnodes key t d td H Ht) as (dd' & Hdd' & _ & _ & Hprop).
      rewrite Hd in Hdd'. injection Hdd' as <-.
      destruct (Hprop Hne) as [Hlt _].
      destruct Hstop as [Hnone|[Hge _]]; [|lia].
      inversion H as [|a' nd' c' y' Ha' Hc' Hy']; subst; [congruence|].
      rewrite Ht in Ha'. injection Ha' as <-. congruence. }
    destruct (kpath_rep N s rep Hnodes key d t dd Hdt Hd) as (td' & Htd' & Hdle & Hag & _).
    rewrite Ht in Htd'. injection Htd' as <-.
    assert (Hdiff : diffBit = BitArray.size key).
    { rewrite Hfull; [lia|]. intros i Hi1 Hi2. rewrite Hag by lia. apply Hfol. lia. }
    split; [assumption|].
    (* the second walk stops on the data node *)
    assert (Hnd : node = d).
    { destruct (kpath_linear _ _ _ _ _ Hrn Hrd) as [H|H].
      - destruct (decide (node = d)) as [|Hne]; [assumption|exfalso].
        destruct (kpath_rep N s rep Hnodes key node d nd H Hnode)
          as (dd' & Hdd' & _ & _ & Hprop).
        rewrite Hd in Hdd'. injection Hdd' as <-.
        destruct (Hprop Hne) as [Hlt _]. lia.
      - destruct (kpath_snoc_inv _ _ _ _ H) as [E|(y & yd & Hdy & Hyd & Hk)];
          [now symmetry|exfalso].
        destruct (kchild_ok N s rep Hnodes key y yd node Hyd Hk) as (nd' & Hnd' & Hp & _).
        rewrite Hnode in Hnd'. injection Hnd' as <-. rewrite Hp in Hpar.
        destruct Hpar as (yd' & Hyd' & Hlt). rewrite Hyd in Hyd'. injection Hyd' as <-.
        destruct (kpath_rep N s rep Hnodes key d y dd Hdy Hd) as (yd' & Hyd' & Hle & _).
        rewrite Hyd in Hyd'. injection Hyd' as <-. lia. }
    subst node. rewrite Hd in Hnode. injection Hnode as <-. assumption.
  - (* the empty key, with the root at depth 0 *)
    unfold BitArray.size in *. assert (diffBit = 0) as -> by lia.
    split; [lia|]. rewrite H0.
    destruct (n_parent nd) as [q|] eqn:Hq.
    + destruct Hpar as (qd & _ & Hlt). lia.
    + pose proof (ok_parent _ _ _ _ _ (Hnodes node nd Hnode)) as Hp.
      rewrite Hq, Hr0 in Hp. injection Hp as ->.
      rewrite Hrd in Hnode. injection Hnode as <-. assumption.
Qed.

End HitFacts.

(** ** Facts about [lookupNode]: the invariant, case by case *)

Import BitArrayFacts.

Section InsertCases.
Context {T : Type} (N : nat) (data_init : T) (key_init_bytes : list Z).
Local Abbreviation Node := (@Node T).
Local Abbreviation Trie := (@Trie T).
Local Abbreviation node_ok := (@node_ok T N).
Local Abbreviation inv_with := (@inv_with T N).
Local Abbreviation walk := (@walk T N).

Implicit Types (s : Trie) (nd : Node) (key : BitArray.t) (rep : nat -> nat -> bool)
  (h : gmap nat Node).

Lemma with_child_bits (b : bool) (v : option nat) (n : Node) :
  n_bits (with_child b v n) = n_bits n.
Proof. now destruct b. Qed.

Lemma with_child_key (b : bool) (v : option nat) (n : Node) :
  n_key (with_child b v n) = n_key n.
Proof. now destruct b. Qed.

Lemma with_child_parent (b : bool) (v : option nat) (n : Node) :
  n_parent (with_child b v n) = n_parent n.
Proof. now destruct b. Qed.

Lemma child_live s rep p pd c :
  node_ok s rep p pd -> n_left pd = Some c \/ n_right pd = Some c ->
  exists cd, heap s !! c = Some cd /\ n_parent cd = Some p /\ n_bits pd < n_bits cd.
Proof.
  intros Hok [Hl|Hr].
  - pose proof (ok_left _ _ _ _ _ Hok) as H. rewrite Hl in H.
    destruct H as (cd & ? & ? & ? & _). eauto.
  - pose proof (ok_right _ _ _ _ _ Hok) as H. rewrite Hr in H.
    destruct H as (cd & ? & ? & ? & _). eauto.
Qed.

(** The empty trie: the new node becomes the root. *)
Lemma inv_first rep s key :
  inv_with rep s -> BitArray.wf N key -> root s = None ->
  inv_with (rep_insert rep key (next s))
    (mkTrie (Some (next s)) (size_t_wrap (numNodes s + 1))
       (<[next s := Node_key data_init key (BitArray.size key)]> (heap s)) (S (next s)) (deleted s)).
Proof.
  intros (Hroot & Hnodes & Hnum) Hkey Hr. rewrite Hr in Hroot.
  split; [|split]; cbn [root heap numNodes next deleted].
  - exists (Node_key data_init key (BitArray.size key)). split; [apply lookup_insert_eq|reflexivity].
  - intros p pd. rewrite Hroot, lookup_insert.
    destruct (decide (next s = p)) as [<-|Hne]; [|rewrite lookup_empty; discriminate].
    intros [= <-]. destruct Hkey as (Hlen & Hbytes & Hcnt).
    constructor; cbn [root heap numNodes next deleted n_left n_right n_parent n_key n_bits
                      Node_key]; try exact I; try reflexivity.
    + right. split; [reflexivity|]. split; [now repeat split|].
      intros i _. now rewrite rep_insert_X.
    + intros E. right. exact E.
    + exact Hcnt.
    + lia.
  - unfold live. cbn [heap]. rewrite Hroot, Hnum. unfold live. rewrite Hroot.
    rewrite map_size_insert_None by apply lookup_empty.
    rewrite map_size_empty. reflexivity.
Qed.

Section Cases.
Variables (rep : nat -> nat -> bool) (s : Trie) (key : BitArray.t).
Variables (r t : ptr) (td : Node) (diffBit : nat) (node : ptr) (nd : Node).
Hypothesis Hinv : inv_with rep s.
Hypothesis Hkey : BitArray.wf N key.
Hypothesis Hroot : root s = Some r.
Hypothesis W : walk rep s key r t td diffBit node nd.

Let X := next s.
Let rep' := rep_insert rep key X.

Lemma Hnodes_ : forall p pd, heap s !! p = Some pd -> node_ok s rep p pd.
Proof. now destruct Hinv as (_ & H & _). Qed.

Lemma rep'_old p pd i : heap s !! p = Some pd -> rep' p i = rep p i.
Proof.
  intros Hp. apply rep_insert_old. exact (ok_fresh _ _ _ _ _ (Hnodes_ p pd Hp)).
Qed.

Lemma not_child_fresh p pd c :
  heap s !! p = Some pd -> heap s !! c = None ->
  n_left pd <> Some c /\ n_right pd <> Some c.
Proof.
  intros Hp Hc. split; intros E.
  - destruct (child_live s rep p pd c (Hnodes_ p pd Hp) (or_introl E)) as (cd & Hcd & _).
    congruence.
  - destruct (child_live s rep p pd c (Hnodes_ p pd Hp) (or_intror E)) as (cd & Hcd & _).
    congruence.
Qed.

Lemma live_ne_X p pd : heap s !! p = Some pd -> p <> X.
Proof.
  intros Hp E. pose proof (ok_fresh _ _ _ _ _ (Hnodes_ p pd Hp)). unfold X in E. lia.
Qed.

Lemma X_fresh : heap s !! X = None.
Proof. exact (case_X_fresh N rep s Hinv). Qed.

Lemma root_live : exists rd, heap s !! r = Some rd /\ n_parent rd = None.
Proof. destruct Hinv as (H & _ & _). now rewrite Hroot in H. Qed.

Ltac kept_child Hk Hc Hne Hp :=
  eapply (child_ok_kept _ _ _ _ _ _ _ _ _ _ Hk Hc);
  [exact Hne | intros; eapply rep'_old; exact Hp | reflexivity].

Ltac kept_parent Hk Hpar Hne :=
  eapply (parent_ok_kept _ _ _ _ _ _ _ _ _ Hk Hne); [|exact Hpar]; auto.

(** *** Exact hit on a glue node: the node takes the key *)

Lemma kept_exact :
  kept (heap s) (<[node := with_key key nd]> (heap s)) rep rep X.
Proof.
  intros c cd Hc. rewrite lookup_insert.
  destruct (decide (node = c)) as [<-|Hne].
  - rewrite (case_node_live N rep s key r t td diffBit node nd W) in Hc.
    injection Hc as <-. exists (with_key key nd). repeat split; auto.
  - exists cd. repeat split; auto.
Qed.

Lemma inv_exact :
  diffBit = BitArray.size key -> n_bits nd = BitArray.size key ->
  inv_with rep (set_heap (<[node := with_key key nd]> (heap s)) s).
Proof.
  intros Hd Hb. pose proof Hinv as (_ & Hnodes & Hnum).
  pose proof (case_node_live N rep s key r t td diffBit node nd W) as Hnode.
  pose proof X_fresh as HX.
  destruct W as [_ _ _ _ _ _ _ _ _ Hwkey _ _ _ _ _].
  split; [|split]; cbn [root heap numNodes next deleted set_heap].
  - rewrite Hroot. destruct root_live as (rd & Hrd & Hpar).
    destruct (kept_exact r rd Hrd) as (rd' & Hrd' & _ & Hp & _).
    exists rd'. split; [assumption|]. rewrite Hp; [assumption|]. eapply live_ne_X; eauto.
  - intros p pd. rewrite lookup_insert. destruct (decide (node = p)) as [<-|Hne].
    + intros [= <-]. pose proof (Hnodes node nd Hnode) as Hok.
      destruct (not_child_fresh node nd X Hnode HX) as [HlX HrX].
      destruct Hok as [Hleft Hright Hpar Hk Hglue Hbits Hfresh].
      constructor; cbn [n_left n_right n_parent n_key n_bits with_key heap root next set_heap];
        try assumption.
      * eapply (child_ok_kept _ _ _ _ _ _ _ _ _ _ kept_exact Hleft); auto.
      * eapply (child_ok_kept _ _ _ _ _ _ _ _ _ _ kept_exact Hright); auto.
      * eapply (parent_ok_kept _ _ _ _ _ _ _ _ _ kept_exact);
          [eapply live_ne_X; eauto| |exact Hpar]; auto.
      * right. destruct Hkey as (? & ? & ?). split; [unfold BitArray.size in Hb; lia|].
        split; [now repeat split|]. intros i Hi. apply Hwkey. lia.
      * intros E. right. unfold BitArray.size in Hb. lia.
    + intros Hp. destruct (not_child_fresh p pd X Hp HX) as [HlX HrX].
      eapply (node_ok_kept N s _ rep rep X); cbn [heap root next set_heap];
        eauto using kept_exact. eapply live_ne_X; eauto.
  - unfold live in *. cbn [heap]. rewrite Hnum. f_equal. f_equal. symmetry.
    eapply size_insert_live; eauto.
Qed.

(** *** Extend below: the new node hangs under the current node *)

Let below_state : Trie :=
  mkTrie (root s) (size_t_wrap (numNodes s + 1))
    (heap_below data_init (heap s) key node X nd) (S X) (deleted s).

Lemma kept_below :
  n_bits nd = diffBit -> diffBit < BitArray.size key ->
  kept (heap s) (heap_below data_init (heap s) key node X nd) rep rep' X.
Proof.
  intros Hb Hlt c cd Hc. unfold heap_below. rewrite !lookup_insert.
  pose proof X_fresh as HX.
  pose proof (case_node_live N rep s key r t td diffBit node nd W) as Hnode.
  destruct (decide (node = c)) as [<-|Hne].
  - rewrite Hnode in Hc. injection Hc as <-.
    pose proof (w_below _ _ _ _ _ _ _ _ _ _ W Hb Hlt) as Hfree. unfold kchild in Hfree.
    exists (with_child (BitArray.get key (n_bits nd)) (Some X) nd).
    split; [reflexivity|].
    destruct (BitArray.get key (n_bits nd)); cbn [with_child with_left with_right
      n_left n_right n_parent n_bits]; repeat split; auto; try congruence;
      intros; eapply rep'_old; eauto.
  - destruct (decide (X = c)) as [<-|HneX]; [congruence|].
    exists cd. repeat split; auto. intros; eapply rep'_old; eauto.
Qed.

Lemma inv_below :
  n_bits nd = diffBit -> diffBit < BitArray.size key ->
  inv_with rep' below_state.
Proof.
  intros Hb Hlt. pose proof Hinv as (_ & Hnodes & Hnum).
  pose proof (case_node_live N rep s key r t td diffBit node nd W) as Hnode.
  pose proof X_fresh as HX.
  pose proof (kept_below Hb Hlt) as Hkept.
  pose proof (w_key _ _ _ _ _ _ _ _ _ _ W) as Hwkey.
  assert (HnX : node <> X) by (eapply live_ne_X; eauto).
  split; [|split]; cbn [root heap numNodes next deleted below_state].
  - rewrite Hroot. destruct root_live as (rd & Hrd & Hpar).
    destruct (Hkept r rd Hrd) as (rd' & Hrd' & _ & Hp & _).
    exists rd'. split; [assumption|]. rewrite Hp; [assumption|]. eapply live_ne_X; eauto.
  - intros p pd. unfold heap_below. rewrite !lookup_insert.
    destruct (decide (node = p)) as [<-|Hne]; [|destruct (decide (X = p)) as [<-|HneX]].
    + (* the current node, with its new child *)
      intros [= <-]. pose proof (Hnodes node nd Hnode) as Hok.
      destruct (not_child_fresh node nd X Hnode HX) as [HlX HrX].
      pose proof (w_below _ _ _ _ _ _ _ _ _ _ W Hb Hlt) as Hfree. unfold kchild in Hfree.
      assert (Hnew : child_ok (heap below_state) rep' node nd
                       (BitArray.get key (n_bits nd)) (Some X)).
      { exists (with_parent (Some node) (Node_key data_init key (BitArray.size key))).
        cbn [heap below_state]. unfold heap_below.
        rewrite lookup_insert_ne by assumption. rewrite lookup_insert_eq.
        split; [reflexivity|]. split; [reflexivity|].
        cbn [n_bits with_parent Node_key]. split; [lia|]. split.
        - intros i Hi. unfold rep'. rewrite rep_insert_X. fold rep'.
          rewrite (rep'_old node nd i Hnode). apply Hwkey. lia.
        - unfold rep'. now rewrite rep_insert_X. }
      destruct Hok as [Hleft Hright Hpar Hk Hglue Hbits Hfresh].
      destruct (BitArray.get key (n_bits nd)) eqn:Hbit;
        constructor; cbn [n_left n_right n_parent n_key n_bits with_child with_left
                          with_right heap root next below_state];
        try assumption; try lia.
      * kept_child Hkept Hleft HlX Hnode.
      * kept_parent Hkept Hpar HnX.
      * destruct Hk as [Hk0|(Hc & Hwf & Hag)]; [now left|right].
        split; [assumption|]. split; [assumption|].
        intros i Hi. rewrite (rep'_old node nd i Hnode). now apply Hag.
      * intros E. destruct (Hglue E) as [[Hl Hr]|H0]; [left|now right]. split; congruence.
      * kept_child Hkept Hright HrX Hnode.
      * kept_parent Hkept Hpar HnX.
      * destruct Hk as [Hk0|(Hc & Hwf & Hag)]; [now left|right].
        split; [assumption|]. split; [assumption|].
        intros i Hi. rewrite (rep'_old node nd i Hnode). now apply Hag.
      * intros E. destruct (Hglue E) as [[Hl Hr]|H0]; [left|now right]. split; congruence.
    + (* the new node *)
      intros [= <-]. destruct Hkey as (Hlen & Hbytes & Hcnt).
      constructor; cbn [n_left n_right n_parent n_key n_bits with_parent Node_key
                        heap root next below_state]; try exact I.
      * exists (with_child (BitArray.get key (n_bits nd)) (Some X) nd).
        unfold heap_below. rewrite lookup_insert_eq. split; [reflexivity|].
        destruct (BitArray.get key (n_bits nd)); [right|left]; reflexivity.
      * right. split; [reflexivity|]. split; [now repeat split|].
        intros i _. unfold rep'. now rewrite rep_insert_X.
      * intros E. unfold BitArray.size in Hlt. lia.
      * exact Hcnt.
      * lia.
    + intros Hp. destruct (not_child_fresh p pd X Hp HX) as [HlX HrX].
      eapply (node_ok_kept N s below_state rep rep' X); cbn [heap root next below_state];
        eauto; try lia.
  - unfold live in *. unfold below_state. cbn [heap]. unfold heap_below.
    rewrite (size_insert_live _ node nd)
      by (rewrite lookup_insert_ne by congruence; exact Hnode).
    rewrite map_size_insert_None by exact HX.
    rewrite Hnum. apply (size_t_wrap_succ (base.size (heap s))).
Qed.

(** *** A new node [R] spliced in above the current node

    The part shared by "split above" ([R] is the new data node) and "fork"
    ([R] is the new glue node). *)

Section SplicedAbove.
Variables (R : ptr) (Rrec : Node) (h0 : gmap nat Node) (s' : Trie).
Hypothesis Hlt : diffBit < n_bits nd.
Hypothesis Hh0_old : forall p pd, heap s !! p = Some pd -> h0 !! p = Some pd.
Hypothesis Hh0_R : h0 !! R = Some Rrec.
Hypothesis HR_fresh : heap s !! R = None.
Hypothesis HR_par : n_parent Rrec = n_parent nd.
Hypothesis HR_bits : n_bits Rrec = diffBit.
Hypothesis HR_child :
  (n_left Rrec = Some node /\ rep node diffBit = false) \/
  (n_right Rrec = Some node /\ rep node diffBit = true).
Hypothesis HR_rep : forall i, rep' R i = BitArray.get key i.
Hypothesis Hheap' :
  heap s' = <[node := with_parent (Some R) nd]> (splice (n_parent nd) node (Some R) h0).
Hypothesis Hroot' :
  root s' = match n_parent nd with None => Some R | Some _ => root s end.
Hypothesis Hnext' : next s <= next s'.

Lemma above_node_live : heap s !! node = Some nd.
Proof using All. exact (case_node_live N rep s key r t td diffBit node nd W). Qed.

Lemma above_R_ne p pd : heap s !! p = Some pd -> p <> R.
Proof using All. intros Hp E. rewrite E in Hp. congruence. Qed.

Lemma above_parent q :
  n_parent nd = Some q ->
  exists qd, heap s !! q = Some qd /\ n_bits qd < diffBit /\ q <> node /\
             (forall i, i < n_bits qd -> rep node i = rep q i) /\
             ((n_left qd = Some node /\ n_right qd <> Some node /\
               rep node (n_bits qd) = false) \/
              (n_right qd = Some node /\ n_left qd <> Some node /\
               rep node (n_bits qd) = true)).
Proof using All.
  intros Hq. pose proof (w_parent _ _ _ _ _ _ _ _ _ _ W) as Hp. rewrite Hq in Hp.
  destruct Hp as (qd & Hqd & Hltq).
  destruct (parent_ok N s rep Hnodes_ node nd q above_node_live Hq)
    as (qd' & Hqd' & Hbits & Hag & Hside).
  rewrite Hqd in Hqd'. injection Hqd' as <-.
  exists qd. split; [assumption|]. split; [assumption|]. split.
  { intros E. pose proof above_node_live as Hn. rewrite <- E, Hqd in Hn.
    injection Hn as Hn. rewrite <- Hn in Hlt. lia. }
  split; [assumption|].
  destruct Hside as [[Hl Hs]|[Hr Hs]]; [left|right]; repeat split; try assumption.
  - intros Hr. exact (left_right_distinct N s rep Hnodes_ q qd node Hqd Hl Hr).
  - intros Hl. exact (left_right_distinct N s rep Hnodes_ q qd node Hqd Hl Hr).
Qed.

Lemma above_lookup_node : heap s' !! node = Some (with_parent (Some R) nd).
Proof using All. rewrite Hheap'. apply lookup_insert_eq. Qed.

Lemma above_lookup_parent q qd :
  n_parent nd = Some q -> heap s !! q = Some qd ->
  heap s' !! q = Some (with_child (bool_decide (n_right qd = Some node)) (Some R) qd).
Proof using All.
  intros Hq Hqd. destruct (above_parent q Hq) as (qd' & Hqd' & _ & Hne & _).
  rewrite Hheap', lookup_insert_ne by congruence.
  rewrite Hq. apply splice_lookup_eq. now apply Hh0_old.
Qed.

Lemma above_lookup_other p :
  p <> node -> n_parent nd <> Some p -> heap s' !! p = h0 !! p.
Proof using All.
  intros Hne Hnp. rewrite Hheap', lookup_insert_ne by congruence.
  now apply splice_lookup_ne.
Qed.

Lemma above_lookup_R : heap s' !! R = Some Rrec.
Proof using All.
  rewrite above_lookup_other; [exact Hh0_R| |].
  - intros E. pose proof above_node_live as Hn. rewrite <- E in Hn. congruence.
  - intros Hq. destruct (above_parent R Hq) as (qd & Hqd & _). congruence.
Qed.

Lemma above_kept : kept (heap s) (heap s') rep rep' node.
Proof using All.
  intros c cd Hc.
  assert (Hrc : forall i, rep' c i = rep c i) by (intros; eapply rep'_old; eauto).
  destruct (decide (c = node)) as [->|Hne].
  - pose proof above_node_live as Hn. rewrite Hn in Hc. injection Hc as <-.
    exists (with_parent (Some R) nd). split; [apply above_lookup_node|].
    repeat split; auto. congruence.
  - destruct (decide (n_parent nd = Some c)) as [Hq|Hnq].
    + destruct (above_parent c Hq) as (qd & Hqd & _ & _ & _ & Hside).
      rewrite Hc in Hqd. injection Hqd as <-.
      exists (with_child (bool_decide (n_right cd = Some node)) (Some R) cd).
      split; [now apply above_lookup_parent|].
      destruct Hside as [(Hl & Hr & _)|(Hr & Hl & _)].
      * rewrite bool_decide_false by assumption. cbn [with_child with_left n_bits n_parent
          n_left n_right]. repeat split; auto. intros x Hx E. congruence.
      * rewrite bool_decide_true by assumption. cbn [with_child with_right n_bits n_parent
          n_left n_right]. repeat split; auto. intros x Hx E. congruence.
    + exists cd. split; [|repeat split; auto].
      rewrite above_lookup_other by assumption. now apply Hh0_old.
Qed.

Lemma above_key_rep i : i < diffBit -> rep' R i = rep node i.
Proof using All.
  intros Hi. rewrite HR_rep. exact (w_key _ _ _ _ _ _ _ _ _ _ W i Hi).
Qed.

(** Every old node is well formed in the new state. *)
Lemma above_old_ok p pd :
  heap s !! p = Some pd ->
  exists pd', heap s' !! p = Some pd' /\ node_ok s' rep' p pd'.
Proof using All.
  intros Hp. pose proof above_kept as Hkept. pose proof above_node_live as Hnode.
  pose proof (Hnodes_ p pd Hp) as Hok.
  destruct (decide (p = node)) as [->|Hne]; [|destruct (decide (n_parent nd = Some p)) as [Hq|Hnq]].
  - (* the current node: its parent is now R *)
    rewrite Hnode in Hp. injection Hp as <-.
    exists (with_parent (Some R) nd). split; [apply above_lookup_node|].
    assert (HlN : n_left nd <> Some node).
    { intros E. destruct (child_live s rep node nd node Hok (or_introl E)) as (cd & Hcd & _ & Hb).
      rewrite Hnode in Hcd. injection Hcd as <-. lia. }
    assert (HrN : n_right nd <> Some node).
    { intros E. destruct (child_live s rep node nd node Hok (or_intror E)) as (cd & Hcd & _ & Hb).
      rewrite Hnode in Hcd. injection Hcd as <-. lia. }
    destruct Hok as [Hleft Hright Hpar Hk Hglue Hbits Hfresh].
    constructor; cbn [n_left n_right n_parent n_key n_bits with_parent]; try assumption.
    + kept_child Hkept Hleft HlN Hnode.
    + kept_child Hkept Hright HrN Hnode.
    + exists Rrec. split; [apply above_lookup_R|].
      destruct HR_child as [[Hl _]|[Hr _]]; auto.
    + destruct Hk as [Hk0|(Hc & Hwf & Hag)]; [now left|right].
      split; [assumption|]. split; [assumption|].
      intros i Hi. rewrite (rep'_old node nd i Hnode). now apply Hag.
    + lia.
  - (* the parent: the slot that held the current node now holds R *)
    destruct (above_parent p Hq) as (qd & Hqd & Hltq & _ & Hag & Hside).
    rewrite Hp in Hqd. injection Hqd as <-.
    exists (with_child (bool_decide (n_right pd = Some node)) (Some R) pd).
    split; [now apply above_lookup_parent|].
    assert (Hnew : forall b, rep node (n_bits pd) = b ->
              child_ok (heap s') rep' p pd b (Some R)).
    { intros b Hb. exists Rrec. split; [apply above_lookup_R|].
      split; [congruence|]. split; [lia|]. split.
      - intros i Hi. rewrite above_key_rep by lia. rewrite (rep'_old p pd i Hp).
        now apply Hag.
      - rewrite above_key_rep by lia. exact Hb. }
    assert (Hroot_p : root s = Some p -> root s' = Some p).
    { rewrite Hroot', Hq. auto. }
    destruct Hok as [Hleft Hright Hpar Hk Hglue Hbits Hfresh].
    destruct Hside as [(Hl & Hr & Hs)|(Hr & Hl & Hs)].
    + rewrite bool_decide_false by assumption.
      constructor; cbn [n_left n_right n_parent n_key n_bits with_child with_left];
        try assumption; try lia.
      * apply (Hnew false Hs).
      * kept_child Hkept Hright Hr Hp.
      * kept_parent Hkept Hpar Hne.
      * destruct Hk as [Hk0|(Hc & Hwf & Hag')]; [now left|right].
        split; [assumption|]. split; [assumption|].
        intros i Hi. rewrite (rep'_old p pd i Hp). now apply Hag'.
      * intros E. destruct (Hglue E) as [[Hl' Hr']|H0]; [left|now right].
        split; congruence.
    + rewrite bool_decide_true by assumption.
      constructor; cbn [n_left n_right n_parent n_key n_bits with_child with_right];
        try assumption; try lia.
      * kept_child Hkept Hleft Hl Hp.
      * apply (Hnew true Hs).
      * kept_parent Hkept Hpar Hne.
      * destruct Hk as [Hk0|(Hc & Hwf & Hag')]; [now left|right].
        split; [assumption|]. split; [assumption|].
        intros i Hi. rewrite (rep'_old p pd i Hp). now apply Hag'.
      * intros E. destruct (Hglue E) as [[Hl' Hr']|H0]; [left|now right].
        split; congruence.
  - (* any other node *)
    exists pd. split.
    { rewrite above_lookup_other by assumption. now apply Hh0_old. }
    assert (Hnc : forall c, n_left pd = Some c \/ n_right pd = Some c -> c <> node).
    { intros c Hc ->. destruct (child_live s rep p pd node Hok Hc) as (cd & Hcd & Hpar & _).
      rewrite Hnode in Hcd. injection Hcd as <-. congruence. }
    eapply (node_ok_kept N s s' rep rep' node); eauto.
    + intros E. eapply Hnc; eauto.
    + intros E. eapply Hnc; eauto.
    + intros Hrp. rewrite Hroot'. destruct (n_parent nd) as [q|] eqn:Hq; [assumption|].
      pose proof (ok_parent _ _ _ _ _ (Hnodes_ node nd Hnode)) as Hpn.
      rewrite Hq in Hpn. congruence.
Qed.

(** The new node [R] has its place under the old parent (or as root), and
    the current node is its child. *)
Lemma above_R_parent :
  match n_parent Rrec with
  | None => root s' = Some R
  | Some q => exists qd, heap s' !! q = Some qd /\ (n_left qd = Some R \/ n_right qd = Some R)
  end.
Proof using All.
  pose proof above_parent as HP. pose proof above_lookup_parent as HLP.
  rewrite HR_par, Hroot'. destruct (n_parent nd) as [q|] eqn:Hq; [|reflexivity].
  destruct (HP q eq_refl) as (qd & Hqd & _).
  exists (with_child (bool_decide (n_right qd = Some node)) (Some R) qd).
  split; [now apply HLP|].
  destruct (bool_decide (n_right qd = Some node)); [right|left]; reflexivity.
Qed.

Lemma above_R_child :
  child_ok (heap s') rep' R Rrec (rep node diffBit) (Some node).
Proof using All.
  exists (with_parent (Some R) nd). split; [apply above_lookup_node|].
  split; [reflexivity|]. cbn [n_bits with_parent]. split; [lia|]. rewrite HR_bits. split.
  - intros i Hi. rewrite above_key_rep by assumption.
    eapply rep'_old. apply above_node_live.
  - eapply rep'_old. apply above_node_live.
Qed.

Lemma above_root :
  match root s' with
  | None => heap s' = ∅
  | Some r' => exists rd, heap s' !! r' = Some rd /\ n_parent rd = None
  end.
Proof using All.
  pose proof above_kept as HK. pose proof above_node_live as Hnode.
  pose proof above_lookup_R as HLR.
  rewrite Hroot'. destruct (n_parent nd) as [q|] eqn:Hq.
  - rewrite Hroot. destruct root_live as (rd & Hrd & Hpar).
    destruct (HK r rd Hrd) as (rd' & Hrd' & _ & Hp & _).
    exists rd'. split; [assumption|]. rewrite Hp; [assumption|].
    intros ->. congruence.
  - exists Rrec. split; [apply HLR|]. congruence.
Qed.

Lemma above_old_fields p pd :
  heap s !! p = Some pd ->
  exists pd', heap s' !! p = Some pd' /\ n_bits pd' = n_bits pd /\
              n_data pd' = n_data pd /\
              (n_left pd <> None -> n_left pd' <> None) /\
              (n_right pd <> None -> n_right pd' <> None) /\
              n_key pd' = n_key pd.
Proof using All.
  intros Hp. pose proof above_node_live as Hnode.
  destruct (decide (p = node)) as [E|Hne];
    [|destruct (decide (n_parent nd = Some p)) as [Hq|Hnq]].
  - rewrite E in Hp. rewrite Hnode in Hp. injection Hp as Hp. rewrite <- Hp.
    exists (with_parent (Some R) nd). rewrite E. split; [apply above_lookup_node|].
    repeat split; auto.
  - exists (with_child (bool_decide (n_right pd = Some node)) (Some R) pd).
    split; [now apply above_lookup_parent|].
    rewrite with_child_bits, with_child_key.
    destruct (bool_decide (n_right pd = Some node)); cbn; repeat split; auto; discriminate.
  - exists pd. split; [|repeat split; auto].
    rewrite above_lookup_other by assumption. now apply Hh0_old.
Qed.

Lemma above_root_bits r0 rd :
  root s = Some r0 -> heap s !! r0 = Some rd ->
  exists r' rd', root s' = Some r' /\ heap s' !! r' = Some rd' /\ n_bits rd' <= n_bits rd.
Proof using All.
  intros Hr0 Hrd. pose proof above_node_live as Hnode. pose proof above_lookup_R as HLR.
  pose proof above_old_fields as HF.
  pose proof (ok_parent _ _ _ _ _ (Hnodes_ node nd Hnode)) as Hpn.
  destruct (n_parent nd) as [q|] eqn:Hq.
  - destruct (HF r0 rd Hrd) as (rd' & Hrd' & Hb & _).
    exists r0, rd'. rewrite Hroot'. repeat split; try assumption. lia.
  - exists R, Rrec. rewrite Hroot'. split; [reflexivity|]. split; [assumption|].
    rewrite Hr0 in Hpn. injection Hpn as Hpn. rewrite Hpn, Hnode in Hrd.
    injection Hrd as Hrd. rewrite <- Hrd. lia.
Qed.

End SplicedAbove.

(** *** Split above: the new data node takes the current node's place *)

Let Xabove : Node :=
  with_parent (n_parent nd)
    (with_child (BitArray.get (n_key td) (BitArray.size key)) (Some node)
       (Node_key data_init key (BitArray.size key))).

Let above_state : Trie :=
  mkTrie (match n_parent nd with None => Some X | Some _ => root s end)
    (size_t_wrap (numNodes s + 1))
    (heap_above data_init (heap s) key (n_key td) node X nd) (S X) (deleted s).

Lemma inv_above :
  BitArray.size key = diffBit -> diffBit < n_bits nd ->
  inv_with rep' above_state /\ live above_state = S (live s) /\
  (forall p pd, heap s !! p = Some pd ->
     exists pd', heap above_state !! p = Some pd' /\ n_bits pd' = n_bits pd /\
                 n_data pd' = n_data pd /\
                 (n_left pd <> None -> n_left pd' <> None) /\
                 (n_right pd <> None -> n_right pd' <> None) /\
                 n_key pd' = n_key pd) /\
  (forall r0 rd, root s = Some r0 -> heap s !! r0 = Some rd ->
     exists r' rd', root above_state = Some r' /\ heap above_state !! r' = Some rd' /\
                    n_bits rd' <= n_bits rd) /\
  (forall p pd', heap above_state !! p = Some pd' -> heap s !! p = None -> p = X) /\
  heap above_state !! X = Some Xabove.
Proof.
  intros Hb Hlt. pose proof Hinv as (_ & Hnodes & Hnum).
  pose proof (case_node_live N rep s key r t td diffBit node nd W) as Hnode.
  pose proof X_fresh as HX.
  assert (HnX : node <> X) by (eapply live_ne_X; eauto).
  pose proof (w_tmpKey _ _ _ _ _ _ _ _ _ _ W Hlt) as Htmp.
  assert (Hh0_old : forall p pd, heap s !! p = Some pd ->
                      (<[X := Xabove]> (heap s)) !! p = Some pd).
  { intros p pd Hp. rewrite lookup_insert_ne; [assumption|].
    apply not_eq_sym. eapply live_ne_X; eauto. }
  assert (Hchild : (n_left Xabove = Some node /\ rep node diffBit = false) \/
                   (n_right Xabove = Some node /\ rep node diffBit = true)).
  { unfold Xabove. rewrite Hb, <- Htmp. cbn [with_parent n_left n_right].
    destruct (rep node diffBit); [right|left]; split; reflexivity. }
  assert (HXkey : n_key Xabove = key).
  { unfold Xabove. cbn [with_parent n_key]. now rewrite with_child_key. }
  assert (HXbits : n_bits Xabove = diffBit).
  { unfold Xabove. cbn [with_parent n_bits]. now rewrite with_child_bits. }
  assert (HXpar : n_parent Xabove = n_parent nd) by reflexivity.
  assert (HXrep : forall i, rep' X i = BitArray.get key i).
  { intros i. unfold rep'. apply rep_insert_X. }
  assert (Hnext : next s <= next above_state) by (simpl; lia).
  pose proof (above_old_ok X Xabove (<[X := Xabove]> (heap s)) above_state Hlt Hh0_old (lookup_insert_eq _ _ _) HX HXpar HXbits Hchild HXrep eq_refl eq_refl Hnext) as Hold.
  pose proof (above_R_parent X Xabove (<[X := Xabove]> (heap s)) above_state Hlt Hh0_old (lookup_insert_eq _ _ _) HX HXpar HXbits Hchild HXrep eq_refl eq_refl Hnext) as HRpar.
  pose proof (above_R_child X Xabove (<[X := Xabove]> (heap s)) above_state Hlt Hh0_old (lookup_insert_eq _ _ _) HX HXpar HXbits Hchild HXrep eq_refl eq_refl Hnext) as HRchild.
  pose proof (above_root X Xabove (<[X := Xabove]> (heap s)) above_state Hlt Hh0_old (lookup_insert_eq _ _ _) HX HXpar HXbits Hchild HXrep eq_refl eq_refl Hnext) as HRroot.
  pose proof (above_lookup_other X Xabove (<[X := Xabove]> (heap s)) above_state Hlt Hh0_old (lookup_insert_eq _ _ _) HX HXpar HXbits Hchild HXrep eq_refl eq_refl Hnext) as Hother.
  pose proof (above_parent X Xabove (<[X := Xabove]> (heap s)) above_state Hlt Hh0_old (lookup_insert_eq _ _ _) HX HXpar HXbits Hchild HXrep eq_refl eq_refl Hnext) as Hparent.
  pose proof (above_old_fields X Xabove (<[X := Xabove]> (heap s)) above_state Hlt Hh0_old (lookup_insert_eq _ _ _) HX HXpar HXbits Hchild HXrep eq_refl eq_refl Hnext) as Hfields.
  pose proof (above_root_bits X Xabove (<[X := Xabove]> (heap s)) above_state Hlt Hh0_old (lookup_insert_eq _ _ _) HX HXpar HXbits Hchild HXrep eq_refl eq_refl Hnext) as Hrbits.
  pose proof (above_lookup_R X Xabove (<[X := Xabove]> (heap s)) above_state Hlt Hh0_old (lookup_insert_eq _ _ _) HX HXpar HXbits Hchild HXrep eq_refl eq_refl Hnext) as HlookX.
  assert (Hfresh_look : forall p, heap s !! p = None ->
            heap above_state !! p = (<[X := Xabove]> (heap s)) !! p).
  { intros p Hp. apply Hother; [congruence|].
    intros Hq. destruct (Hparent p Hq) as (qd & Hqd & _). congruence. }
  assert (Hlive : live above_state = S (live s)).
  { unfold live in *. unfold above_state. cbn [heap]. unfold heap_above.
    rewrite (size_insert_live _ node nd).
    2:{ rewrite splice_lookup_ne by (eapply case_parent_ne_node; eauto).
        rewrite lookup_insert_ne by congruence. exact Hnode. }
    now rewrite size_splice, map_size_insert_None by exact HX. }
  split; [|split; [exact Hlive|split; [exact Hfields|split; [exact Hrbits|split;
    [|exact HlookX]]]]].
  2:{ intros p pd' Hp' Hp. rewrite (Hfresh_look p Hp), lookup_insert in Hp'.
      destruct (decide (X = p)); [congruence|]. congruence. }
  split; [exact HRroot|]. split.
  - intros p pd' Hp'. destruct (heap s !! p) as [pd|] eqn:Hp.
    + destruct (Hold p pd Hp) as (pd'' & Hpd'' & Hok). congruence.
    + assert (Hlook : heap above_state !! p = (<[X := Xabove]> (heap s)) !! p).
      { apply Hother; [congruence|].
        intros Hq. destruct (Hparent p Hq) as (qd & Hqd & _). congruence. }
      rewrite Hlook, lookup_insert in Hp'.
      destruct (decide (X = p)) as [<-|HneX]; [|congruence].
      injection Hp' as <-. destruct Hkey as (Hlen & Hbytes & Hcnt).
      constructor; try exact HRpar.
      * destruct Hchild as [[Hl Hs]|[Hr Hs]].
        -- rewrite Hl, <- Hs. exact HRchild.
        -- unfold Xabove in *. destruct (BitArray.get (n_key td) (BitArray.size key));
             [exact I|discriminate].
      * destruct Hchild as [[Hl Hs]|[Hr Hs]].
        -- unfold Xabove in *. destruct (BitArray.get (n_key td) (BitArray.size key));
             [discriminate|exact I].
        -- rewrite Hr, <- Hs. exact HRchild.
      * right. rewrite HXkey, HXbits. split; [exact Hb|].
        split; [now repeat split|]. intros i _. symmetry. apply HXrep.
      * rewrite HXkey, HXbits. intros E. right. unfold BitArray.size in Hb. lia.
      * rewrite HXbits. unfold BitArray.size in Hb. lia.
      * cbn. lia.
  - cbn [numNodes above_state]. rewrite Hlive, Hnum.
    apply (size_t_wrap_succ (live s)).
Qed.

(** *** Fork: a glue node takes the current node's place, with the current
    node and the new data node as its children *)

Let G := S X.

Let Xfork : Node := with_parent (Some G) (Node_key data_init key (BitArray.size key)).

Let Grec : Node :=
  glue_node data_init key_init_bytes (BitArray.get key diffBit) node X (n_parent nd) diffBit.

Let fork_state : Trie :=
  mkTrie (match n_parent nd with None => Some G | Some _ => root s end)
    (size_t_wrap (size_t_wrap (numNodes s + 1) + 1))
    (heap_fork data_init key_init_bytes (heap s) key diffBit node X G nd) (S G) (deleted s).

Lemma inv_fork :
  diffBit < BitArray.size key -> diffBit < n_bits nd ->
  inv_with rep' fork_state /\ live fork_state = S (S (live s)) /\
  (forall p pd, heap s !! p = Some pd ->
     exists pd', heap fork_state !! p = Some pd' /\ n_bits pd' = n_bits pd /\
                 n_data pd' = n_data pd /\
                 (n_left pd <> None -> n_left pd' <> None) /\
                 (n_right pd <> None -> n_right pd' <> None) /\
                 n_key pd' = n_key pd) /\
  (forall r0 rd, root s = Some r0 -> heap s !! r0 = Some rd ->
     exists r' rd', root fork_state = Some r' /\ heap fork_state !! r' = Some rd' /\
                    n_bits rd' <= n_bits rd) /\
  (forall p pd', heap fork_state !! p = Some pd' -> heap s !! p = None ->
     (p = X /\ pd' = Xfork) \/ (p = G /\ pd' = Grec)) /\
  heap fork_state !! X = Some Xfork.
Proof.
  intros Hlen Hlt. pose proof Hinv as (_ & Hnodes & Hnum).
  pose proof (case_node_live N rep s key r t td diffBit node nd W) as Hnode.
  pose proof X_fresh as HX.
  assert (HG : heap s !! G = None) by exact (case_G_fresh N rep s Hinv).
  assert (HnX : node <> X) by (eapply live_ne_X; eauto).
  assert (HnG : node <> G) by congruence.
  assert (HXG : X <> G) by (unfold G; lia).
  pose proof (w_side _ _ _ _ _ _ _ _ _ _ W Hlt Hlen) as Hside.
  assert (Hh0_old : forall p pd, heap s !! p = Some pd ->
                      (<[X := Xfork]> (<[G := Grec]> (heap s))) !! p = Some pd).
  { intros p pd Hp. rewrite !lookup_insert_ne; [assumption| |]; congruence. }
  assert (Hh0_G : (<[X := Xfork]> (<[G := Grec]> (heap s))) !! G = Some Grec).
  { rewrite lookup_insert_ne by assumption. apply lookup_insert_eq. }
  assert (Hchild : (n_left Grec = Some node /\ rep node diffBit = false) \/
                   (n_right Grec = Some node /\ rep node diffBit = true)).
  { unfold Grec, glue_node. cbn [n_left n_right].
    destruct (BitArray.get key diffBit), (rep node diffBit); try congruence;
      [left|right]; split; reflexivity. }
  assert (HGbits : n_bits Grec = diffBit) by reflexivity.
  assert (HGpar : n_parent Grec = n_parent nd) by reflexivity.
  assert (HGrep : forall i, rep' G i = BitArray.get key i).
  { intros i. unfold rep', G. apply rep_insert_G. }
  assert (HXrep : forall i, rep' X i = BitArray.get key i).
  { intros i. unfold rep'. apply rep_insert_X. }
  assert (Hnext : next s <= next fork_state) by (simpl; lia).
  pose proof (above_old_ok G Grec (<[X := Xfork]> (<[G := Grec]> (heap s))) fork_state Hlt Hh0_old Hh0_G HG HGpar HGbits Hchild HGrep eq_refl eq_refl Hnext) as Hold.
  pose proof (above_R_parent G Grec (<[X := Xfork]> (<[G := Grec]> (heap s))) fork_state Hlt Hh0_old Hh0_G HG HGpar HGbits Hchild HGrep eq_refl eq_refl Hnext) as HRpar.
  pose proof (above_R_child G Grec (<[X := Xfork]> (<[G := Grec]> (heap s))) fork_state Hlt Hh0_old Hh0_G HG HGpar HGbits Hchild HGrep eq_refl eq_refl Hnext) as HRchild.
  pose proof (above_root G Grec (<[X := Xfork]> (<[G := Grec]> (heap s))) fork_state Hlt Hh0_old Hh0_G HG HGpar HGbits Hchild HGrep eq_refl eq_refl Hnext) as HRroot.
  pose proof (above_lookup_other G Grec (<[X := Xfork]> (<[G := Grec]> (heap s))) fork_state Hlt Hh0_old Hh0_G HG HGpar HGbits Hchild HGrep eq_refl eq_refl Hnext) as Hother.
  pose proof (above_parent G Grec (<[X := Xfork]> (<[G := Grec]> (heap s))) fork_state Hlt Hh0_old Hh0_G HG HGpar HGbits Hchild HGrep eq_refl eq_refl Hnext) as Hparent.
  pose proof (above_lookup_R G Grec (<[X := Xfork]> (<[G := Grec]> (heap s))) fork_state Hlt Hh0_old Hh0_G HG HGpar HGbits Hchild HGrep eq_refl eq_refl Hnext) as HlookG.
  assert (Hfresh_look : forall p, heap s !! p = None ->
            heap fork_state !! p = (<[X := Xfork]> (<[G := Grec]> (heap s))) !! p).
  { intros p Hp. apply Hother; [congruence|].
    intros Hq. destruct (Hparent p Hq) as (qd & Hqd & _). congruence. }
  assert (HlookX : heap fork_state !! X = Some Xfork).
  { rewrite Hfresh_look by assumption. apply lookup_insert_eq. }
  assert (HXchild : child_ok (heap fork_state) rep' G Grec (BitArray.get key diffBit) (Some X)).
  { exists Xfork. split; [assumption|]. split; [reflexivity|].
    split; [exact Hlen|]. split.
    - intros i _. now rewrite HXrep, HGrep.
    - rewrite HGbits. apply HXrep. }
  pose proof (above_old_fields G Grec (<[X := Xfork]> (<[G := Grec]> (heap s))) fork_state Hlt Hh0_old Hh0_G HG HGpar HGbits Hchild HGrep eq_refl eq_refl Hnext) as Hfields.
  pose proof (above_root_bits G Grec (<[X := Xfork]> (<[G := Grec]> (heap s))) fork_state Hlt Hh0_old Hh0_G HG HGpar HGbits Hchild HGrep eq_refl eq_refl Hnext) as Hrbits.
  assert (Hlive : live fork_state = S (S (live s))).
  { unfold live in *. unfold fork_state. cbn [heap]. unfold heap_fork.
    rewrite (size_insert_live _ node nd).
    2:{ rewrite splice_lookup_ne by (eapply case_parent_ne_node; eauto).
        rewrite !lookup_insert_ne by congruence. exact Hnode. }
    rewrite size_splice.
    rewrite map_size_insert_None by (rewrite lookup_insert_ne by congruence; exact HX).
    now rewrite map_size_insert_None by exact HG. }
  split; [|split; [exact Hlive|split; [exact Hfields|split; [exact Hrbits|split;
    [|exact HlookX]]]]].
  2:{ intros p pd' Hp' Hp. rewrite (Hfresh_look p Hp), !lookup_insert in Hp'.
      destruct (decide (X = p)) as [<-|HneX]; [left; split; congruence|].
      destruct (decide (G = p)) as [<-|HneG]; [right; split; congruence|]. congruence. }
  split; [exact HRroot|]. split.
  - intros p pd' Hp'. destruct (heap s !! p) as [pd|] eqn:Hp.
    + destruct (Hold p pd Hp) as (pd'' & Hpd'' & Hok). congruence.
    + rewrite (Hfresh_look p Hp), !lookup_insert in Hp'.
      destruct (decide (X = p)) as [<-|HneX]; [|destruct (decide (G = p)) as [<-|HneG]];
        [| |congruence].
      * (* the new data node *)
        injection Hp' as <-. destruct Hkey as (Hl & Hbytes & Hcnt).
        constructor; cbn [Xfork n_left n_right n_parent n_key n_bits with_parent Node_key];
          try exact I.
        -- exists Grec. split; [assumption|]. unfold Grec, glue_node. cbn [n_left n_right].
           destruct (BitArray.get key diffBit); [right|left]; reflexivity.
        -- right. split; [reflexivity|]. split; [now repeat split|].
           intros i _. symmetry. apply HXrep.
        -- intros E. unfold BitArray.size in Hlen. lia.
        -- exact Hcnt.
        -- cbn. unfold G in *. lia.
      * (* the glue node *)
        injection Hp' as <-. destruct Hkey as (Hl & Hbytes & Hcnt).
        constructor; try exact HRpar.
        -- destruct Hchild as [[Hcl Hs]|[Hcr Hs]].
           ++ rewrite Hcl, <- Hs. exact HRchild.
           ++ assert (Hb : BitArray.get key diffBit = false).
              { destruct (BitArray.get key diffBit); congruence. }
              replace (n_left Grec) with (Some X)
                by (unfold Grec, glue_node; cbn [n_left]; now rewrite Hb).
              rewrite <- Hb. exact HXchild.
        -- destruct Hchild as [[Hcl Hs]|[Hcr Hs]].
           ++ assert (Hb : BitArray.get key diffBit = true).
              { destruct (BitArray.get key diffBit); congruence. }
              replace (n_right Grec) with (Some X)
                by (unfold Grec, glue_node; cbn [n_right]; now rewrite Hb).
              rewrite <- Hb. exact HXchild.
           ++ rewrite Hcr, <- Hs. exact HRchild.
        -- left. reflexivity.
        -- intros _. left. unfold Grec, glue_node. cbn [n_left n_right].
           destruct (BitArray.get key diffBit); split; discriminate.
        -- rewrite HGbits. unfold BitArray.size in Hlen. lia.
        -- cbn. lia.
  - cbn [numNodes fork_state]. rewrite Hlive, Hnum, (size_t_wrap_succ (live s)).
    apply (size_t_wrap_succ (S (live s))).
Qed.

(** *** What each case does, in the terms of [insert_post] *)

Lemma key_eq_refl (k : BitArray.t) : key_eq k k.
Proof. split; [reflexivity|]. intros i _. reflexivity. Qed.

Lemma not_present_unless_exact :
  diffBit <> BitArray.size key \/ n_bits nd <> BitArray.size key -> ~ present s key.
Proof.
  intros Hcase Hpres.
  destruct (walk_hit N rep s key r t td diffBit node nd Hinv Hroot W Hpres) as [H1 H2].
  destruct Hcase; contradiction.
Qed.

Lemma exact_node_is_root :
  diffBit = 0 -> root s = Some node.
Proof.
  intros H0. pose proof (case_node_live N rep s key r t td diffBit node nd W) as Hnode.
  pose proof (w_parent _ _ _ _ _ _ _ _ _ _ W) as Hpar.
  pose proof (ok_parent _ _ _ _ _ (Hnodes_ node nd Hnode)) as Hp.
  destruct (n_parent nd) as [q|]; [|assumption].
  destruct Hpar as (qd & _ & Hlt). lia.
Qed.

Lemma post_exact :
  diffBit = BitArray.size key -> n_bits nd = BitArray.size key ->
  insert_post N s
    (if BitArray.empty (n_key nd)
     then set_heap (<[node := with_key key nd]> (heap s)) s else s) key node.
Proof.
  intros Hd Hb.
  pose proof (case_node_live N rep s key r t td diffBit node nd W) as Hnode.
  pose proof (w_key _ _ _ _ _ _ _ _ _ _ W) as Hwkey.
  destruct (BitArray.empty (n_key nd)) eqn:He.
  - (* a glue node takes the key *)
    apply Nat.eqb_eq in He.
    constructor; cbn [heap root next deleted set_heap].
    + exists rep. now apply inv_exact.
    + exists (with_key key nd). rewrite lookup_insert_eq.
      split; [reflexivity|]. split; [assumption|apply key_eq_refl].
    + intros q qd Hq. rewrite lookup_insert. destruct (decide (node = q)) as [<-|Hne].
      * rewrite Hnode in Hq. injection Hq as <-. exists (with_key key nd).
        repeat split; auto.
      * exists qd. repeat split; auto.
    + intros q qd'. rewrite lookup_insert. destruct (decide (node = q)) as [<-|Hne];
        [now left|congruence].
    + left. split; [eauto|]. unfold live. cbn [heap]. eapply size_insert_live; eauto.
    + lia.
    + reflexivity.
    + intros r0 rd Hr0 Hrd.
      destruct (decide (node = r0)) as [<-|Hne].
      * rewrite Hnode in Hrd. injection Hrd as <-. exists node, (with_key key nd).
        rewrite lookup_insert_eq. repeat split; auto.
      * exists r0, rd. rewrite lookup_insert_ne by assumption. repeat split; auto.
    + intros H0. unfold BitArray.size in *.
      rewrite (exact_node_is_root ltac:(lia)). exists node, (with_key key nd).
      split; [reflexivity|]. rewrite lookup_insert_eq. split; [reflexivity|].
      cbn [n_bits with_key]. lia.
  - (* the key is there already *)
    apply empty_false_data in He.
    assert (Hkeq : key_eq (n_key nd) key).
    { destruct (ok_key _ _ _ _ _ (Hnodes_ node nd Hnode)) as [Hk|(Hc & Hwf & Hag)];
        [contradiction|].
      unfold BitArray.size in *. split; [lia|].
      intros i Hi. rewrite Hag by lia. symmetry. apply Hwkey. lia. }
    constructor.
    + exists rep. exact Hinv.
    + exists nd. repeat split; try assumption; apply Hkeq.
    + intros q qd Hq. exists qd. repeat split; auto.
    + intros q qd' Hq Hq'. congruence.
    + left. split; [eauto|reflexivity].
    + lia.
    + reflexivity.
    + intros r0 rd Hr0 Hrd. exists r0, rd. repeat split; auto.
    + intros H0. exfalso. destruct Hkeq as [Hc _]. unfold is_data in He. lia.
Qed.

Lemma post_below :
  n_bits nd = diffBit -> diffBit < BitArray.size key ->
  insert_post N s below_state key X.
Proof.
  intros Hb Hlt.
  pose proof (case_node_live N rep s key r t td diffBit node nd W) as Hnode.
  pose proof X_fresh as HX.
  assert (HnX : node <> X) by (eapply live_ne_X; eauto).
  assert (Hlook : forall q, heap below_state !! q =
            if decide (node = q)
            then Some (with_child (BitArray.get key (n_bits nd)) (Some X) nd)
            else if decide (X = q)
                 then Some (with_parent (Some node) (Node_key data_init key (BitArray.size key)))
                 else heap s !! q).
  { intros q. unfold below_state. cbn [heap]. unfold heap_below.
    now rewrite !lookup_insert. }
  assert (Hold : forall q qd, heap s !! q = Some qd ->
            exists qd', heap below_state !! q = Some qd' /\ n_bits qd' = n_bits qd /\
                        n_data qd' = n_data qd /\
                        (n_left qd <> None -> n_left qd' <> None) /\
                        (n_right qd <> None -> n_right qd' <> None) /\
                        n_key qd' = n_key qd).
  { intros q qd Hq. rewrite Hlook. destruct (decide (node = q)) as [<-|Hne].
    - rewrite Hnode in Hq. injection Hq as <-.
      exists (with_child (BitArray.get key (n_bits nd)) (Some X) nd).
      rewrite with_child_bits, with_child_key.
      destruct (BitArray.get key (n_bits nd)); cbn; repeat split; auto; discriminate.
    - destruct (decide (X = q)) as [<-|HneX]; [congruence|].
      exists qd. repeat split; auto. }
  constructor.
  - exists rep'. now apply inv_below.
  - exists (with_parent (Some node) (Node_key data_init key (BitArray.size key))).
    rewrite Hlook. destruct (decide (node = X)); [contradiction|].
    destruct (decide (X = X)); [|contradiction].
    split; [reflexivity|]. split; [reflexivity|apply key_eq_refl].
  - intros q qd Hq. destruct (Hold q qd Hq) as (qd' & H1 & H2 & H3 & H4 & H5 & H6).
    exists qd'. repeat split; auto.
  - intros q qd'. rewrite Hlook. destruct (decide (node = q)) as [<-|Hne]; [congruence|].
    destruct (decide (X = q)) as [<-|HneX]; [now left|congruence].
  - right. split; [assumption|]. split.
    + apply not_present_unless_exact. left. lia.
    + unfold live, below_state. cbn [heap]. unfold heap_below.
      rewrite (size_insert_live _ node nd)
        by (rewrite lookup_insert_ne by congruence; exact Hnode).
      rewrite map_size_insert_None by exact HX. lia.
  - cbn. unfold X. lia.
  - reflexivity.
  - intros r0 rd Hr0 Hrd. destruct (Hold r0 rd Hrd) as (rd' & H1 & H2 & _).
    exists r0, rd'. repeat split; auto. lia.
  - intros H0. unfold BitArray.size in Hlt. lia.
Qed.

Lemma post_above :
  BitArray.size key = diffBit -> diffBit < n_bits nd ->
  insert_post N s above_state key X.
Proof.
  intros Hb Hlt.
  destruct (inv_above Hb Hlt) as (Hi & Hlive & Hfields & Hrbits & Hnew & HlookX).
  pose proof X_fresh as HX.
  constructor.
  - exists rep'. exact Hi.
  - exists Xabove. split; [assumption|]. unfold Xabove.
    cbn [with_parent n_bits n_key]. rewrite with_child_bits, with_child_key.
    split; [reflexivity|apply key_eq_refl].
  - intros q qd Hq. destruct (Hfields q qd Hq) as (qd' & H1 & H2 & H3 & H4 & H5 & H6).
    exists qd'. repeat split; auto.
  - intros q qd' Hq' Hq. left. eapply Hnew; eauto.
  - right. split; [assumption|]. split.
    + apply not_present_unless_exact. right. lia.
    + rewrite Hlive. lia.
  - cbn. unfold X. lia.
  - reflexivity.
  - exact Hrbits.
  - intros H0. unfold BitArray.size in Hb.
    pose proof (exact_node_is_root ltac:(lia)) as Hrn.
    pose proof (case_node_live N rep s key r t td diffBit node nd W) as Hnode.
    pose proof (ok_parent _ _ _ _ _ (Hnodes_ node nd Hnode)) as Hp.
    pose proof (w_parent _ _ _ _ _ _ _ _ _ _ W) as Hpar.
    exists X, Xabove. split; [|split; [assumption|]].
    + unfold above_state. cbn [root]. destruct (n_parent nd) as [q|]; [|reflexivity].
      destruct Hpar as (qd & _ & Hq). lia.
    + unfold Xabove. cbn [with_parent n_bits]. rewrite with_child_bits. cbn.
      unfold BitArray.size. lia.
Qed.

Lemma post_fork :
  diffBit < BitArray.size key -> diffBit < n_bits nd ->
  insert_post N s fork_state key X.
Proof.
  intros Hlen Hlt.
  destruct (inv_fork Hlen Hlt) as (Hi & Hlive & Hfields & Hrbits & Hnew & HlookX).
  pose proof X_fresh as HX.
  constructor.
  - exists rep'. exact Hi.
  - exists Xfork. split; [assumption|]. split; [reflexivity|apply key_eq_refl].
  - intros q qd Hq. destruct (Hfields q qd Hq) as (qd' & H1 & H2 & H3 & H4 & H5 & H6).
    exists qd'. repeat split; auto.
  - intros q qd' Hq' Hq. destruct (Hnew q qd' Hq' Hq) as [[-> ->]|[-> ->]]; [now left|right].
    unfold Grec, glue_node. cbn [n_key n_left n_right key_default BitArray.bitCount].
    split; [reflexivity|]. destruct (BitArray.get key diffBit); split; discriminate.
  - right. split; [assumption|]. split.
    + apply not_present_unless_exact. left. lia.
    + rewrite Hlive. lia.
  - cbn. unfold X. lia.
  - reflexivity.
  - exact Hrbits.
  - intros H0. unfold BitArray.size in Hlen. lia.
Qed.

End Cases.

Lemma post_first rep s key :
  inv_with rep s -> BitArray.wf N key -> root s = None ->
  insert_post N s
    (mkTrie (Some (next s)) (size_t_wrap (numNodes s + 1))
       (<[next s := Node_key data_init key (BitArray.size key)]> (heap s))
       (S (next s)) (deleted s)) key (next s).
Proof.
  intros Hinv Hkey Hr. pose proof Hinv as (Hroot & _ & _). rewrite Hr in Hroot.
  constructor; cbn [heap root next deleted].
  - exists (rep_insert rep key (next s)). now apply inv_first.
  - exists (Node_key data_init key (BitArray.size key)). rewrite lookup_insert_eq.
    split; [reflexivity|]. split; [reflexivity|apply key_eq_refl].
  - intros q qd. rewrite Hroot, lookup_empty. discriminate.
  - intros q qd'. rewrite Hroot, lookup_insert.
    destruct (decide (next s = q)) as [<-|Hne]; [now left|].
    rewrite lookup_empty. discriminate.
  - right. rewrite Hroot, lookup_empty. split; [reflexivity|]. split.
    + intros [(d & dd & Hd & _)|(_ & r0 & rd & Hr0 & _)].
      * rewrite Hroot, lookup_empty in Hd. discriminate.
      * congruence.
    + unfold live. cbn [heap]. rewrite Hroot.
      rewrite map_size_insert_None by apply lookup_empty. rewrite map_size_empty. lia.
  - lia.
  - reflexivity.
  - intros r0 rd Hr0. congruence.
  - intros H0. exists (next s), (Node_key data_init key (BitArray.size key)).
    rewrite lookup_insert_eq. repeat split. exact H0.
Qed.
End InsertCases.

(** ** Facts about [lookupNode]: the result *)

Import BitArrayFacts.

Section InsertPost.
Context {T : Type} (N : nat) (data_init : T) (key_init_bytes : list Z).
Local Abbreviation Node := (@Node T).
Local Abbreviation Trie := (@Trie T).
Local Abbreviation inv := (@inv T N).
Local Abbreviation lookupNode := (@lookupNode T N data_init key_init_bytes).

Implicit Types (s : Trie) (nd : Node) (key : BitArray.t).

(** [lookupNode] always returns a node, and leaves a well-formed trie. *)
Lemma lookupNode_post s key :
  inv s -> BitArray.wf N key ->
  exists p s', lookupNode key s = Some (p, s') /\ insert_post N s s' key p.
Proof.
  intros [rep Hinv] Hkey. destruct (root s) as [r|] eqn:Hr.
  - destruct (lookup_walk N rep s key r Hinv Hkey Hr) as (t & td & diffBit & node & nd & W).
    pose proof (w_le_len _ _ _ _ _ _ _ _ _ _ W) as Hle1.
    pose proof (w_le_bits _ _ _ _ _ _ _ _ _ _ W) as Hle2.
    destruct (Nat.eq_dec (n_bits nd) diffBit) as [Hb|Hb].
    + destruct (Nat.eq_dec diffBit (BitArray.size key)) as [Hd|Hd].
      * eexists _, _. split.
        -- apply (case_exact N data_init key_init_bytes rep s key r t td diffBit node nd Hr W);
             congruence.
        -- eapply post_exact; eauto; congruence.
      * eexists _, _. split.
        -- apply (case_below N data_init key_init_bytes rep s key r t td diffBit node nd
                    Hinv Hr W); [assumption|lia].
        -- eapply post_below; eauto; lia.
    + destruct (Nat.eq_dec (BitArray.size key) diffBit) as [Hd|Hd].
      * eexists _, _. split.
        -- apply (case_above N data_init key_init_bytes rep s key r t td diffBit node nd
                    Hinv Hr W); [assumption|lia].
        -- eapply post_above; eauto; lia.
      * eexists _, _. split.
        -- apply (case_fork N data_init key_init_bytes rep s key r t td diffBit node nd
                    Hinv Hr W); lia.
        -- eapply post_fork; eauto; lia.
  - exists (next s),
      (mkTrie (Some (next s)) (size_t_wrap (numNodes s + 1))
         (<[next s := Node_key data_init key (BitArray.size key)]> (heap s))
         (S (next s)) (deleted s)).
    split.
    + unfold lookupNode. rewrite Hr. reflexivity.
    + eapply post_first; eauto.
Qed.

End InsertPost.

(** ** Facts about [lookupNode]: the nodes it makes are new *)

Import BitArrayFacts.

Section InsertFresh.
Context {T : Type} (N : nat) (data_init : T) (key_init_bytes : list Z).
Local Abbreviation Node := (@Node T).
Local Abbreviation Trie := (@Trie T).
Local Abbreviation inv := (@inv T N).
Local Abbreviation lookupNode := (@lookupNode T N data_init key_init_bytes).

Implicit Types (s : Trie) (nd : Node) (key : BitArray.t) (h : gmap nat Node).

Lemma insert_dom h (a : ptr) (v : Node) (q : ptr) :
  is_Some (<[a := v]> h !! q) -> q = a \/ is_Some (h !! q).
Proof.
  destruct (decide (a = q)) as [->|Hne]; [now left|].
  rewrite lookup_insert_ne by assumption. now right.
Qed.

Lemma splice_dom h (par : option ptr) (node : ptr) (repl : option ptr) (q : ptr) :
  is_Some (splice par node repl h !! q) -> is_Some (h !! q).
Proof.
  unfold splice. destruct par as [x|]; [|auto].
  destruct (h !! x) as [xd|] eqn:Hx; [|auto].
  intros H. apply insert_dom in H. destruct H as [->|H]; [eauto|assumption].
Qed.

Ltac dom_step H :=
  repeat match type of H with
         | is_Some (<[_ := _]> _ !! _) => apply insert_dom in H; destruct H as [H|H]
         | is_Some (splice _ _ _ _ !! _) => apply splice_dom in H
         end.

(** Every node [lookupNode] adds is at an address [new] had not handed out
    before. *)
Lemma lookupNode_fresh s key p s' :
  inv s -> BitArray.wf N key -> lookupNode key s = Some (p, s') ->
  forall q, is_Some (heap s' !! q) -> is_Some (heap s !! q) \/ next s <= q.
Proof.
  intros [rep Hinv] Hkey Hlook q Hq. destruct (root s) as [r|] eqn:Hr.
  - destruct (lookup_walk N rep s key r Hinv Hkey Hr) as (t & td & diffBit & node & nd & W).
    pose proof (w_le_len _ _ _ _ _ _ _ _ _ _ W) as Hle1.
    pose proof (w_le_bits _ _ _ _ _ _ _ _ _ _ W) as Hle2.
    pose proof (w_node _ _ _ _ _ _ _ _ _ _ W) as Hnode.
    destruct (Nat.eq_dec (n_bits nd) diffBit) as [Hb|Hb].
    + destruct (Nat.eq_dec diffBit (BitArray.size key)) as [Hd|Hd].
      * rewrite (case_exact N data_init key_init_bytes rep s key r t td diffBit node nd Hr W)
          in Hlook by congruence.
        injection Hlook as _ <-.
        destruct (BitArray.empty (n_key nd)); [|now left].
        cbn [heap set_heap] in Hq. dom_step Hq; subst; left; eauto.
      * rewrite (case_below N data_init key_init_bytes rep s key r t td diffBit node nd
                   Hinv Hr W) in Hlook by (assumption || lia).
        injection Hlook as _ <-. cbn [heap] in Hq. unfold heap_below in Hq.
        dom_step Hq; subst; [left; eauto|right; lia|now left].
    + destruct (Nat.eq_dec (BitArray.size key) diffBit) as [Hd|Hd].
      * rewrite (case_above N data_init key_init_bytes rep s key r t td diffBit node nd
                   Hinv Hr W) in Hlook by (assumption || lia).
        injection Hlook as _ <-. cbn [heap] in Hq. unfold heap_above in Hq.
        dom_step Hq; subst; [left; eauto|right; lia|now left].
      * rewrite (case_fork N data_init key_init_bytes rep s key r t td diffBit node nd
                   Hinv Hr W) in Hlook by lia.
        injection Hlook as _ <-. cbn [heap] in Hq. unfold heap_fork in Hq.
        dom_step Hq; subst; [left; eauto|right; lia|right; lia|now left].
  - unfold lookupNode in Hlook. rewrite Hr in Hlook.
    unfold new_node, incr_numNodes, set_numNodes, set_root in Hlook.
    cbn [root numNodes heap next deleted] in Hlook.
    injection Hlook as _ <-. cbn [heap] in Hq.
    dom_step Hq; subst; [right; lia|now left].
Qed.

End InsertFresh.

(** ** Facts about [removeNode]: the state it leaves, case by case *)

Import BitArrayFacts.

Section RemoveState.
Context {T : Type} (N : nat) (data_init : T) (key_init_bytes : list Z).
Local Abbreviation Node := (@Node T).
Local Abbreviation Trie := (@Trie T).
Local Abbreviation node_ok := (@node_ok T N).
Local Abbreviation inv_with := (@inv_with T N).
Local Abbreviation removeNode := (@removeNode T key_init_bytes).

Implicit Types (s : Trie) (nd : Node) (key : BitArray.t) (rep : nat -> nat -> bool)
  (h : gmap nat Node).

Lemma removeNode_demote s node nd :
  heap s !! node = Some nd -> n_right nd <> None -> n_left nd <> None ->
  removeNode node s = Some (remove_demote key_init_bytes node nd s).
Proof.
  intros Hn Hr Hl. unfold removeNode. rewrite Hn. cbn [mbind option_bind].
  rewrite !bool_decide_true by assumption. cbn [andb].
  now rewrite (store_live _ _ _ _ Hn).
Qed.

Lemma removeNode_last s node nd :
  heap s !! node = Some nd -> n_right nd = None -> n_left nd = None ->
  n_parent nd = None ->
  removeNode node s = Some (remove_last node s).
Proof.
  intros Hn Hr Hl Hp. unfold removeNode. rewrite Hn. cbn [mbind option_bind].
  rewrite (bool_decide_false (n_right nd <> None)) by (rewrite Hr; auto).
  cbn [andb]. rewrite !bool_decide_true by assumption. cbn [andb].
  rewrite Hp. reflexivity.
Qed.

Lemma removeNode_leaf s node nd P pd :
  heap s !! node = Some nd -> n_right nd = None -> n_left nd = None ->
  n_parent nd = Some P -> P <> node -> heap s !! P = Some pd ->
  BitArray.empty (n_key pd) = false ->
  removeNode node s = Some (remove_leaf node P pd s).
Proof.
  intros Hn Hr Hl Hp Hne HP He. unfold removeNode. rewrite Hn. cbn [mbind option_bind].
  rewrite (bool_decide_false (n_right nd <> None)) by (rewrite Hr; auto).
  cbn [andb]. rewrite !bool_decide_true by assumption. cbn [andb].
  rewrite Hp. unfold decr_numNodes, delete_node, set_numNodes.
  cbn [root numNodes heap next deleted].
  rewrite lookup_delete_ne by congruence. rewrite HP. cbn [mbind option_bind].
  rewrite He. cbn [negb].
  assert (HP' : delete node (heap s) !! P = Some pd)
    by (rewrite lookup_delete_ne by congruence; exact HP).
  unfold remove_leaf.
  destruct (decide (n_right pd = Some node)) as [E|E].
  - rewrite bool_decide_true by assumption.
    erewrite store_live by (cbn [heap]; exact HP'). reflexivity.
  - rewrite bool_decide_false by assumption.
    erewrite store_live by (cbn [heap]; exact HP'). reflexivity.
Qed.

Lemma removeNode_leaf_glue s node nd P pd c cd :
  heap s !! node = Some nd -> n_right nd = None -> n_left nd = None ->
  n_parent nd = Some P -> P <> node -> heap s !! P = Some pd ->
  BitArray.empty (n_key pd) = true ->
  (if bool_decide (n_right pd = Some node) then n_left pd else n_right pd) = Some c ->
  heap s !! c = Some cd -> c <> node -> c <> P ->
  match n_parent pd with
  | None => True
  | Some gp => is_Some (heap s !! gp) /\ gp <> node /\ gp <> P /\ gp <> c
  end ->
  removeNode node s = Some (remove_leaf_glue node P pd c cd s).
Proof.
  intros Hn Hr Hl Hp Hne HP He Hsib Hc Hcn HcP Hgp.
  unfold removeNode. rewrite Hn. cbn [mbind option_bind].
  rewrite (bool_decide_false (n_right nd <> None)) by (rewrite Hr; auto).
  cbn [andb]. rewrite !bool_decide_true by assumption. cbn [andb].
  rewrite Hp. unfold decr_numNodes, delete_node, set_numNodes.
  cbn [root numNodes heap next deleted].
  rewrite lookup_delete_ne by congruence. rewrite HP. cbn [mbind option_bind].
  assert (HP' : delete node (heap s) !! P = Some pd)
    by (rewrite lookup_delete_ne by congruence; exact HP).
  set (b := bool_decide (n_right pd = Some node)) in *.
  assert (Hstep :
    (if decide (n_right pd = Some node)
     then s0 ← store P (with_right None)
                 (mkTrie (root s) (size_t_wrap (numNodes s - 1)) (delete node (heap s))
                    (next s) (node :: deleted s));
          Some (n_left pd, s0)
     else s0 ← store P (with_left None)
                 (mkTrie (root s) (size_t_wrap (numNodes s - 1)) (delete node (heap s))
                    (next s) (node :: deleted s));
          Some (n_right pd, s0))
    = Some (Some c,
            mkTrie (root s) (size_t_wrap (numNodes s - 1))
              (<[P := with_child b None pd]> (delete node (heap s)))
              (next s) (node :: deleted s))).
  { unfold b in *. destruct (decide (n_right pd = Some node)) as [E|E].
    - rewrite bool_decide_true in * by assumption.
      erewrite store_live by (cbn [heap]; exact HP'). cbn [mbind option_bind].
      now rewrite Hsib.
    - rewrite bool_decide_false in * by assumption.
      erewrite store_live by (cbn [heap]; exact HP'). cbn [mbind option_bind].
      now rewrite Hsib. }
  rewrite Hstep. clear Hstep. cbn [mbind option_bind]. rewrite He. cbn [negb].
  rewrite replace_child_splice.
  2:{ cbn [heap]. destruct (n_parent pd) as [gp|]; [|exact I].
      destruct Hgp as ([gd Hgd] & Hg1 & Hg2 & Hg3).
      rewrite lookup_insert_ne by congruence. rewrite lookup_delete_ne by congruence. eauto. }
  cbn [mbind option_bind root numNodes heap next deleted].
  erewrite store_live.
  2:{ cbn [heap]. rewrite splice_lookup_ne.
      - rewrite lookup_insert_ne by congruence. rewrite lookup_delete_ne by congruence.
        exact Hc.
      - destruct (n_parent pd) as [gp|]; [|discriminate].
        destruct Hgp as (_ & _ & _ & Hg3). congruence. }
  reflexivity.
Qed.

(** A leaf under a glue node that has no other child: [child] is [NULL] and
    [child->parent] is read through it. *)
Lemma removeNode_leaf_stuck s node nd P pd :
  heap s !! node = Some nd -> n_right nd = None -> n_left nd = None ->
  n_parent nd = Some P -> P <> node -> heap s !! P = Some pd ->
  BitArray.empty (n_key pd) = true ->
  (if bool_decide (n_right pd = Some node) then n_left pd else n_right pd) = None ->
  removeNode node s = None.
Proof.
  intros Hn Hr Hl Hp Hne HP He Hsib.
  unfold removeNode. rewrite Hn. cbn [mbind option_bind].
  rewrite (bool_decide_false (n_right nd <> None)) by (rewrite Hr; auto).
  cbn [andb]. rewrite !bool_decide_true by assumption. cbn [andb].
  rewrite Hp. unfold decr_numNodes, delete_node, set_numNodes.
  cbn [root numNodes heap next deleted].
  rewrite lookup_delete_ne by congruence. rewrite HP. cbn [mbind option_bind].
  assert (HP' : delete node (heap s) !! P = Some pd)
    by (rewrite lookup_delete_ne by congruence; exact HP).
  destruct (decide (n_right pd = Some node)) as [E|E].
  - rewrite bool_decide_true in Hsib by assumption.
    erewrite store_live by (cbn [heap]; exact HP'). cbn [mbind option_bind].
    rewrite He, Hsib. cbn [negb].
    destruct (replace_child _ _ _ _); reflexivity.
  - rewrite bool_decide_false in Hsib by assumption.
    erewrite store_live by (cbn [heap]; exact HP'). cbn [mbind option_bind].
    rewrite He, Hsib. cbn [negb].
    destruct (replace_child _ _ _ _); reflexivity.
Qed.

Lemma removeNode_single s node nd c cd :
  heap s !! node = Some nd ->
  (n_right nd = None \/ n_left nd = None) ->
  match n_right nd with Some r => Some r | None => n_left nd end = Some c ->
  heap s !! c = Some cd -> c <> node ->
  match n_parent nd with
  | None => True
  | Some p => is_Some (heap s !! p) /\ p <> node /\ p <> c
  end ->
  removeNode node s = Some (remove_single node nd c cd s).
Proof.
  intros Hn Hone Hch Hc Hcn Hpar. unfold removeNode. rewrite Hn. cbn [mbind option_bind].
  assert (H2 : bool_decide (n_right nd <> None) && bool_decide (n_left nd <> None) = false).
  { destruct Hone as [E|E]; rewrite E.
    - now rewrite (bool_decide_false (None <> None)) by auto.
    - rewrite (bool_decide_false (None <> None)) by auto. apply andb_false_r. }
  rewrite H2.
  assert (H0 : bool_decide (n_right nd = None) && bool_decide (n_left nd = None) = false).
  { destruct (n_right nd) as [r|] eqn:Er.
    - now rewrite bool_decide_false by discriminate.
    - rewrite Hch. rewrite (bool_decide_false (Some c = None)) by discriminate.
      apply andb_false_r. }
  rewrite H0, Hch. cbn [mbind option_bind].
  rewrite (store_live _ _ _ _ Hc). cbn [mbind option_bind].
  unfold decr_numNodes, delete_node, set_numNodes, set_heap.
  cbn [root numNodes heap next deleted].
  unfold remove_single.
  destruct (n_parent nd) as [p|] eqn:Hp.
  - destruct Hpar as ([pd Hpd] & Hp1 & Hp2).
    assert (Hpd' : delete node (<[c := with_parent (Some p) cd]> (heap s)) !! p = Some pd).
    { rewrite lookup_delete_ne by congruence. rewrite lookup_insert_ne by congruence.
      exact Hpd. }
    rewrite Hpd'. cbn [mbind option_bind].
    unfold splice. rewrite Hpd'.
    destruct (decide (n_right pd = Some node)) as [E|E].
    + rewrite bool_decide_true by assumption.
      erewrite store_live by (cbn [heap]; exact Hpd'). reflexivity.
    + rewrite bool_decide_false by assumption.
      erewrite store_live by (cbn [heap]; exact Hpd'). reflexivity.
  - reflexivity.
Qed.

End RemoveState.

(** ** Facts about [removeNode]: the invariant is kept *)

Import BitArrayFacts.

Section RemoveKept.
Context {T : Type} (N : nat).
Local Abbreviation Node := (@Node T).
Local Abbreviation Trie := (@Trie T).
Local Abbreviation node_ok := (@node_ok T N).
Local Abbreviation inv_with := (@inv_with T N).

Implicit Types (s : Trie) (nd : Node) (key : BitArray.t) (rep : nat -> nat -> bool)
  (h : gmap nat Node).

Lemma size_delete_live h p (x : Node) :
  h !! p = Some x -> base.size h = S (base.size (delete p h)).
Proof.
  intros Hp. rewrite map_size_delete, Hp.
  assert (base.size h <> 0); [|simpl; lia].
  apply map_size_non_empty_iff. intros E. rewrite E, lookup_empty in Hp. discriminate.
Qed.

Lemma child_ok_kept_but gone node h h' rep p pd pd' b oc :
  kept_but gone node h h' ->
  child_ok h rep p pd b oc ->
  (forall y, oc = Some y -> ~ gone y /\ y <> node) ->
  n_bits pd' = n_bits pd ->
  child_ok h' rep p pd' b oc.
Proof.
  intros Hk Hc Hy Hb. destruct oc as [c|]; [|exact I]. simpl in *.
  destruct Hc as (cd & Hcd & Hpar & Hlt & Hag & Hside).
  destruct (Hy c eq_refl) as [Hng Hne].
  destruct (Hk c cd Hcd Hng) as (cd' & Hcd' & Hbits & Hpar' & _).
  exists cd'. split; [assumption|]. split; [|split; [|split]].
  - rewrite Hpar' by assumption. assumption.
  - lia.
  - intros i Hi. apply Hag. lia.
  - rewrite Hb. assumption.
Qed.

Lemma parent_ok_kept_but gone node h h' p (par : option nat) (rt rt' : option nat) :
  kept_but gone node h h' -> ~ gone p ->
  (forall q, par = Some q -> ~ gone q) ->
  (rt = Some p -> rt' = Some p) ->
  match par with
  | None => rt = Some p
  | Some q => exists qd, h !! q = Some qd /\ (n_left qd = Some p \/ n_right qd = Some p)
  end ->
  match par with
  | None => rt' = Some p
  | Some q => exists qd, h' !! q = Some qd /\ (n_left qd = Some p \/ n_right qd = Some p)
  end.
Proof.
  intros Hk Hng Hq Hrt Hpar. destruct par as [q|]; [|auto].
  destruct Hpar as (qd & Hqd & Hch).
  destruct (Hk q qd Hqd (Hq q eq_refl)) as (qd' & Hq' & _ & _ & Hl & Hr).
  exists qd'. split; [assumption|]. destruct Hch; [left|right]; auto.
Qed.

(** A node that [removeNode] did not touch is still well formed. *)
Lemma node_ok_kept_but gone node s s' rep p pd :
  kept_but gone node (heap s) (heap s') ->
  node_ok s rep p pd ->
  ~ gone p -> p <> node ->
  (forall y, n_left pd = Some y \/ n_right pd = Some y -> ~ gone y /\ y <> node) ->
  (forall q, n_parent pd = Some q -> ~ gone q) ->
  (root s = Some p -> root s' = Some p) ->
  next s <= next s' ->
  node_ok s' rep p pd.
Proof.
  intros Hk Hok Hng Hne Hch Hpar Hroot Hnext.
  destruct Hok as [Hleft Hright Hp Hkey Hglue Hbits Hfresh].
  constructor; try assumption.
  - eapply child_ok_kept_but; eauto.
  - eapply child_ok_kept_but; eauto.
  - eapply parent_ok_kept_but; eauto.
  - lia.
Qed.

(** In a trie whose root is a leaf, the root is the only node. *)
Lemma root_leaf_alone rep s r rd :
  inv_with rep s -> root s = Some r -> heap s !! r = Some rd ->
  n_left rd = None -> n_right rd = None ->
  forall p pd, heap s !! p = Some pd -> p = r.
Proof.
  intros (_ & Hnodes & _) Hr Hrd Hl Hrt.
  assert (Hgen : forall b p pd, heap s !! p = Some pd -> n_bits pd = b -> p = r).
  { induction b as [b IH] using lt_wf_ind. intros p pd Hp Hb.
    destruct (n_parent pd) as [q|] eqn:Hq.
    - destruct (parent_ok N s rep Hnodes p pd q Hp Hq) as (qd & Hqd & Hlt & _ & Hside).
      assert (q = r) as -> by (eapply (IH (n_bits qd)); eauto; lia).
      rewrite Hrd in Hqd. injection Hqd as <-.
      destruct Hside as [[E _]|[E _]]; congruence.
    - pose proof (ok_parent _ _ _ _ _ (Hnodes p pd Hp)) as Hpar.
      rewrite Hq, Hr in Hpar. now injection Hpar. }
  intros p pd Hp. eapply Hgen; eauto.
Qed.

End RemoveKept.

(** ** Facts about [removeNode]: the invariant, case by case *)

Import BitArrayFacts.

Section RemoveCases.
Context {T : Type} (N : nat) (key_init_bytes : list Z).
Local Abbreviation Node := (@Node T).
Local Abbreviation Trie := (@Trie T).
Local Abbreviation node_ok := (@node_ok T N).
Local Abbreviation inv_with := (@inv_with T N).

Implicit Types (nd : Node) (key : BitArray.t) (h : gmap nat Node).

Section Cases.
Variables (rep : nat -> nat -> bool) (s : Trie) (node : ptr) (nd : Node).
Hypothesis Hinv : inv_with rep s.
Hypothesis Hnode : heap s !! node = Some nd.

Lemma rm_nodes : forall p pd, heap s !! p = Some pd -> node_ok s rep p pd.
Proof. now destruct Hinv as (_ & H & _). Qed.

Lemma rm_num : numNodes s = size_t_wrap (Z.of_nat (live s)).
Proof. now destruct Hinv as (_ & _ & H). Qed.

Lemma rm_child_of p pd y :
  heap s !! p = Some pd -> n_left pd = Some y \/ n_right pd = Some y ->
  exists yd, heap s !! y = Some yd /\ n_parent yd = Some p /\ n_bits pd < n_bits yd.
Proof. intros Hp Hy. exact (child_live N s rep p pd y (rm_nodes p pd Hp) Hy). Qed.

Lemma rm_parent_of p pd q :
  heap s !! p = Some pd -> n_parent pd = Some q ->
  exists qd, heap s !! q = Some qd /\ n_bits qd < n_bits pd /\
             (forall i, i < n_bits qd -> rep p i = rep q i) /\
             ((n_left qd = Some p /\ n_right qd <> Some p /\ rep p (n_bits qd) = false) \/
              (n_right qd = Some p /\ n_left qd <> Some p /\ rep p (n_bits qd) = true)).
Proof.
  intros Hp Hq.
  destruct (parent_ok N s rep rm_nodes p pd q Hp Hq) as (qd & Hqd & Hlt & Hag & Hside).
  exists qd. split; [assumption|]. split; [assumption|]. split; [assumption|].
  destruct Hside as [[Hl Hs]|[Hr Hs]]; [left|right]; repeat split; try assumption.
  - intros Hr. exact (left_right_distinct N s rep rm_nodes q qd p Hqd Hl Hr).
  - intros Hl. exact (left_right_distinct N s rep rm_nodes q qd p Hqd Hl Hr).
Qed.

Lemma rm_root_live r :
  root s = Some r -> exists rd, heap s !! r = Some rd /\ n_parent rd = None.
Proof. intros Hr. destruct Hinv as (H & _ & _). now rewrite Hr in H. Qed.

(** *** The node has two children: it is demoted to glue *)

Lemma kept_demote :
  kept_but (fun _ => False) (next s) (heap s)
    (heap (remove_demote key_init_bytes node nd s)).
Proof.
  intros x xd Hx _. unfold remove_demote. cbn [heap set_heap]. rewrite lookup_insert.
  destruct (decide (node = x)) as [<-|Hne].
  - rewrite Hnode in Hx. injection Hx as <-. exists (with_key (key_default key_init_bytes) nd).
    repeat split; auto.
  - exists xd. repeat split; auto.
Qed.

Lemma live_ne_next p pd : heap s !! p = Some pd -> p <> next s.
Proof. intros Hp E. pose proof (ok_fresh _ _ _ _ _ (rm_nodes p pd Hp)). lia. Qed.

Lemma children_not_next p pd y :
  heap s !! p = Some pd -> n_left pd = Some y \/ n_right pd = Some y ->
  ~ False /\ y <> next s.
Proof.
  intros Hp Hy. split; [auto|]. destruct (rm_child_of p pd y Hp Hy) as (yd & Hyd & _).
  eapply live_ne_next; eauto.
Qed.

Lemma inv_demote :
  n_right nd <> None -> n_left nd <> None ->
  inv_with rep (remove_demote key_init_bytes node nd s).
Proof.
  intros Hr Hl. pose proof kept_demote as Hkept.
  split; [|split].
  - unfold remove_demote. cbn [root heap set_heap].
    destruct (root s) as [r|] eqn:Hroot.
    + destruct (rm_root_live r Hroot) as (rd & Hrd & Hpar).
      destruct (Hkept r rd Hrd ltac:(auto)) as (rd' & Hrd' & _ & Hp & _).
      exists rd'. split; [assumption|]. rewrite Hp; [assumption|].
      eapply live_ne_next; eauto.
    + destruct Hinv as (H & _ & _). rewrite Hroot in H. rewrite H in Hnode.
      rewrite lookup_empty in Hnode. discriminate.
  - intros p pd'. unfold remove_demote at 1. cbn [heap set_heap]. rewrite lookup_insert.
    destruct (decide (node = p)) as [<-|Hne].
    + intros [= <-]. pose proof (rm_nodes node nd Hnode) as Hok.
      destruct Hok as [Hleft Hright Hpar Hk Hglue Hbits Hfresh].
      constructor; cbn [n_left n_right n_parent n_key n_bits with_key]; try assumption.
      * eapply child_ok_kept_but; eauto.
        intros y Hy. eapply children_not_next; eauto.
      * eapply child_ok_kept_but; eauto.
        intros y Hy. eapply children_not_next; eauto.
      * eapply (parent_ok_kept_but _ _ _ _ _ _ (root s) _ Hkept); eauto.
      * left. reflexivity.
      * intros _. left. split; assumption.
    + intros Hp.
      eapply (node_ok_kept_but N (fun _ => False) (next s) s _ rep p pd' Hkept
                (rm_nodes p pd' Hp));
        [auto | eapply live_ne_next; eauto
        | intros y Hy; eapply children_not_next; eauto | auto | auto | cbn; lia].
  - unfold remove_demote, live. cbn [numNodes heap set_heap].
    rewrite rm_num. unfold live. f_equal. f_equal. symmetry.
    eapply size_insert_live; eauto.
Qed.

Lemma glue_demote :
  n_right nd <> None -> n_left nd <> None ->
  glue_full s -> glue_full (remove_demote key_init_bytes node nd s).
Proof.
  intros Hr Hl Hg p pd'. unfold remove_demote. cbn [heap set_heap]. rewrite lookup_insert.
  destruct (decide (node = p)) as [<-|Hne].
  - intros [= <-] _. split; assumption.
  - intros Hp. now apply (Hg p pd').
Qed.

(** *** The node was the last one *)

Lemma inv_last :
  n_right nd = None -> n_left nd = None -> n_parent nd = None ->
  inv_with rep (remove_last node s).
Proof.
  intros Hr Hl Hp.
  pose proof (ok_parent _ _ _ _ _ (rm_nodes node nd Hnode)) as Hroot. rewrite Hp in Hroot.
  pose proof (root_leaf_alone N rep s node nd Hinv Hroot Hnode Hl Hr) as Halone.
  assert (Hempty : delete node (heap s) = ∅).
  { apply map_eq. intros p. rewrite lookup_empty, lookup_delete.
    destruct (decide (node = p)) as [|Hne]; [reflexivity|].
    destruct (heap s !! p) as [pd|] eqn:Hpd; [|reflexivity].
    exfalso. apply Hne. symmetry. eapply Halone; eauto. }
  split; [|split]; unfold remove_last; cbn [root heap numNodes].
  - rewrite Hempty. apply delete_id. apply lookup_empty.
  - intros p pd. rewrite Hempty, (delete_id ∅) by apply lookup_empty.
    rewrite lookup_empty. discriminate.
  - unfold live. cbn [heap]. rewrite Hempty.
    rewrite (delete_id ∅) by apply lookup_empty. rewrite map_size_empty.
    rewrite rm_num. unfold live. rewrite (size_delete_live _ _ _ Hnode), Hempty, map_size_empty.
    reflexivity.
Qed.

(** *** A leaf under a data node *)

Section Leaf.
Variables (P : ptr) (pd : Node).
Hypothesis Hr : n_right nd = None.
Hypothesis Hl : n_left nd = None.
Hypothesis Hp : n_parent nd = Some P.
Hypothesis HP : heap s !! P = Some pd.

Lemma leaf_P_ne : P <> node.
Proof.
  intros E. destruct (rm_parent_of node nd P Hnode Hp) as (qd & Hqd & Hlt & _).
  rewrite E, Hnode in Hqd. injection Hqd as <-. lia.
Qed.

Lemma leaf_slot :
  (n_left pd = Some node /\ n_right pd <> Some node) \/
  (n_right pd = Some node /\ n_left pd <> Some node).
Proof.
  destruct (rm_parent_of node nd P Hnode Hp) as (qd & Hqd & _ & _ & Hside).
  rewrite HP in Hqd. injection Hqd as <-.
  destruct Hside as [(H1 & H2 & _)|(H1 & H2 & _)]; auto.
Qed.

Lemma leaf_not_child p qd :
  heap s !! p = Some qd -> p <> P ->
  forall y, n_left qd = Some y \/ n_right qd = Some y -> y <> node.
Proof.
  intros Hq Hne y Hy E. subst y.
  destruct (rm_child_of p qd node Hq Hy) as (yd & Hyd & Hpar & _).
  rewrite Hnode in Hyd. injection Hyd as <-. congruence.
Qed.

Lemma leaf_not_parent p qd : heap s !! p = Some qd -> n_parent qd <> Some node.
Proof.
  intros Hq E. destruct (rm_parent_of p qd node Hq E) as (nd' & Hnd' & _ & _ & Hside).
  rewrite Hnode in Hnd'. injection Hnd' as <-.
  destruct Hside as [(H1 & _)|(H1 & _)]; congruence.
Qed.

Lemma kept_leaf :
  kept_but (fun x => x = node) (next s) (heap s) (heap (remove_leaf node P pd s)).
Proof.
  intros x xd Hx Hng. unfold remove_leaf. cbn [heap]. rewrite lookup_insert.
  destruct (decide (P = x)) as [<-|Hne].
  - rewrite HP in Hx. injection Hx as <-.
    exists (with_child (bool_decide (n_right pd = Some node)) None pd).
    split; [reflexivity|]. rewrite with_child_bits, with_child_parent.
    split; [reflexivity|]. split; [reflexivity|].
    destruct leaf_slot as [[H1 H2]|[H1 H2]].
    + rewrite bool_decide_false by assumption. cbn [with_child with_left n_left n_right].
      split; [|auto]. intros y Hy E. congruence.
    + rewrite bool_decide_true by assumption. cbn [with_child with_right n_left n_right].
      split; [auto|]. intros y Hy E. congruence.
  - rewrite lookup_delete_ne by congruence. exists xd. repeat split; auto.
Qed.

Lemma inv_leaf :
  BitArray.empty (n_key pd) = false ->
  inv_with rep (remove_leaf node P pd s).
Proof.
  intros He. pose proof kept_leaf as Hkept. pose proof leaf_P_ne as HPn.
  apply empty_false_data in He.
  split; [|split].
  - unfold remove_leaf. cbn [root heap].
    destruct (root s) as [r|] eqn:Hroot.
    + destruct (rm_root_live r Hroot) as (rd & Hrd & Hpar).
      assert (r <> node) by (intros ->; congruence).
      destruct (Hkept r rd Hrd ltac:(auto)) as (rd' & Hrd' & _ & Hp' & _).
      exists rd'. split; [assumption|]. rewrite Hp'; [assumption|].
      eapply live_ne_next; eauto.
    + destruct Hinv as (H & _ & _). rewrite Hroot in H. rewrite H in Hnode.
      rewrite lookup_empty in Hnode. discriminate.
  - intros p pd'. unfold remove_leaf at 1. cbn [heap]. rewrite lookup_insert.
    destruct (decide (P = p)) as [<-|Hne].
    + (* the parent, with the slot cleared *)
      intros [= <-]. pose proof (rm_nodes P pd HP) as Hok.
      assert (Hother : forall y, n_left pd = Some y \/ n_right pd = Some y ->
                       y <> node -> ~ y = node /\ y <> next s).
      { intros y Hy Hyn. split; [assumption|].
        destruct (rm_child_of P pd y HP Hy) as (yd & Hyd & _).
        eapply live_ne_next; eauto. }
      destruct Hok as [Hleft Hright Hpar Hk Hglue Hbits Hfresh].
      assert (Hpar' :
        match n_parent pd with
        | None => root (remove_leaf node P pd s) = Some P
        | Some q => exists qd, heap (remove_leaf node P pd s) !! q = Some qd /\
                               (n_left qd = Some P \/ n_right qd = Some P)
        end).
      { eapply (parent_ok_kept_but _ _ _ _ _ _ (root s) _ Hkept); eauto.
        intros q Hq E. subst q. eapply leaf_not_parent; eauto. }
      destruct leaf_slot as [[H1 H2]|[H1 H2]].
      * rewrite bool_decide_false by assumption.
        constructor; cbn [with_child with_left n_left n_right n_parent n_key n_bits];
          try assumption; try exact I.
        -- eapply child_ok_kept_but; eauto.
           intros y Hy. apply Hother; [now right|congruence].
        -- intros E. unfold is_data in He. contradiction.
      * rewrite bool_decide_true by assumption.
        constructor; cbn [with_child with_right n_left n_right n_parent n_key n_bits];
          try assumption; try exact I.
        -- eapply child_ok_kept_but; eauto.
           intros y Hy. apply Hother; [now left|congruence].
        -- intros E. unfold is_data in He. contradiction.
    + rewrite lookup_delete. destruct (decide (node = p)) as [|Hnp]; [discriminate|].
      intros Hpd.
      eapply (node_ok_kept_but N (fun x => x = node) (next s) s _ rep p pd' Hkept
                (rm_nodes p pd' Hpd)).
      * congruence.
      * eapply live_ne_next; eauto.
      * intros y Hy. split.
        -- eapply leaf_not_child; eauto.
        -- destruct (rm_child_of p pd' y Hpd Hy) as (yd & Hyd & _).
           eapply live_ne_next; eauto.
      * intros q Hq E. subst q. eapply leaf_not_parent; eauto.
      * auto.
      * cbn. lia.
  - unfold remove_leaf, live. cbn [numNodes heap].
    rewrite (size_insert_live _ P pd)
      by (rewrite lookup_delete_ne by congruence; exact HP).
    rewrite rm_num. unfold live. rewrite (size_delete_live _ _ _ Hnode).
    apply size_t_wrap_pred.
Qed.

Lemma glue_leaf :
  BitArray.empty (n_key pd) = false ->
  glue_full s -> glue_full (remove_leaf node P pd s).
Proof.
  intros He Hg p pd'. unfold remove_leaf. cbn [heap]. rewrite lookup_insert.
  apply empty_false_data in He.
  destruct (decide (P = p)) as [<-|Hne].
  - intros [= <-]. rewrite with_child_key. intros E. unfold is_data in He. contradiction.
  - rewrite lookup_delete. destruct (decide (node = p)); [discriminate|].
    intros Hpd. now apply (Hg p pd').
Qed.

End Leaf.

End Cases.

End RemoveCases.

Section RemoveBypass.
Context {T : Type} (N : nat).
Local Abbreviation Node := (@Node T).
Local Abbreviation Trie := (@Trie T).
Local Abbreviation node_ok := (@node_ok T N).
Local Abbreviation inv_with := (@inv_with T N).

(** *** A node [M] with one surviving child [c] is cut out

    The part shared by "the node has one child" ([M] is the node) and "a leaf
    under a glue node" ([M] is the glue node and [L] the leaf). *)

Section Bypass.
Variables (rep : nat -> nat -> bool) (s : Trie).
Variables (M : ptr) (md : Node) (c : ptr) (cd : Node) (L : option ptr).
Hypothesis Hinv : inv_with rep s.
Hypothesis HM : heap s !! M = Some md.
Hypothesis Hc : heap s !! c = Some cd.
Hypothesis Hslots :
  (n_left md = Some c /\ n_right md = L) \/ (n_right md = Some c /\ n_left md = L).
Hypothesis HL :
  forall l, L = Some l ->
    exists ld, heap s !! l = Some ld /\ n_left ld = None /\ n_right ld = None.

Let gone (p : ptr) : Prop := p = M \/ L = Some p.

Lemma by_nodes : forall p pd, heap s !! p = Some pd -> node_ok s rep p pd.
Proof using All. now destruct Hinv as (_ & H & _). Qed.

Lemma by_c_child :
  n_parent cd = Some M /\ n_bits md < n_bits cd /\
  (forall i, i < n_bits md -> rep c i = rep M i).
Proof using All.
  assert (Hch : n_left md = Some c \/ n_right md = Some c)
    by (destruct Hslots as [[H _]|[H _]]; auto).
  pose proof (by_nodes M md HM) as Hok.
  destruct Hch as [E|E].
  - pose proof (ok_left _ _ _ _ _ Hok) as H. rewrite E in H.
    destruct H as (cd' & Hcd' & H1 & H2 & H3 & _).
    rewrite Hc in Hcd'. injection Hcd' as <-. auto.
  - pose proof (ok_right _ _ _ _ _ Hok) as H. rewrite E in H.
    destruct H as (cd' & Hcd' & H1 & H2 & H3 & _).
    rewrite Hc in Hcd'. injection Hcd' as <-. auto.
Qed.

Lemma by_M_children y :
  n_left md = Some y \/ n_right md = Some y -> y = c \/ L = Some y.
Proof using All.
  destruct Hslots as [[H1 H2]|[H1 H2]]; intros [E|E]; rewrite ?H1, ?H2 in *;
    try (left; congruence); right; congruence.
Qed.

Lemma by_c_not_gone : ~ gone c.
Proof using All.
  destruct by_c_child as (Hp & Hlt & _).
  intros [E|E].
  - rewrite E, HM in Hc. injection Hc as Hc. rewrite Hc in Hlt. lia.
  - destruct (HL c E) as (ld & Hld & _).
    pose proof (by_nodes M md HM) as Hok.
    destruct Hslots as [[H1 H2]|[H1 H2]].
    + rewrite <- H2 in E.
      exact (left_right_distinct N s rep by_nodes M md c HM H1 E).
    + rewrite <- H2 in E.
      exact (left_right_distinct N s rep by_nodes M md c HM E H1).
Qed.

Lemma by_L_parent l ld :
  L = Some l -> heap s !! l = Some ld -> n_parent ld = Some M.
Proof using All.
  intros El Hl.
  assert (Hch : n_left md = Some l \/ n_right md = Some l).
  { destruct Hslots as [[_ H]|[_ H]]; rewrite H; auto. }
  destruct (child_live N s rep M md l (by_nodes M md HM) Hch) as (ld' & Hld' & Hp & _).
  rewrite Hl in Hld'. now injection Hld' as <-.
Qed.

(** The links of a node that stays do not lead to a node that goes. *)
Lemma by_child_stays p pd y :
  heap s !! p = Some pd -> ~ gone p ->
  n_left pd = Some y \/ n_right pd = Some y ->
  (y = M /\ n_parent md = Some p) \/ (~ gone y /\ (y = c -> False)).
Proof using All.
  intros Hp Hng Hy.
  destruct (child_live N s rep p pd y (by_nodes p pd Hp) Hy) as (yd & Hyd & Hpar & _).
  destruct (decide (y = M)) as [->|HyM].
  - left. split; [reflexivity|]. rewrite HM in Hyd. now injection Hyd as <-.
  - right. split.
    + intros [E|E]; [contradiction|].
      rewrite (by_L_parent y yd E Hyd) in Hpar. injection Hpar as <-.
      apply Hng. now left.
    + intros ->. rewrite Hc in Hyd. injection Hyd as <-.
      destruct by_c_child as (Hp' & _). rewrite Hp' in Hpar. injection Hpar as <-.
      apply Hng. now left.
Qed.

Lemma by_parent_stays p pd q :
  heap s !! p = Some pd -> ~ gone p -> p <> c -> n_parent pd = Some q -> ~ gone q.
Proof using All.
  intros Hp Hng Hpc Hq [E|E].
  - subst q.
    destruct (parent_ok N s rep by_nodes p pd M Hp Hq) as (md' & Hmd' & _ & _ & Hside).
    rewrite HM in Hmd'. injection Hmd' as <-.
    assert (Hch : n_left md = Some p \/ n_right md = Some p)
      by (destruct Hside as [[H _]|[H _]]; auto).
    destruct (by_M_children p Hch) as [->|El]; [contradiction|].
    apply Hng. now right.
  - destruct (HL q E) as (ld & Hld & Hl1 & Hl2).
    destruct (parent_ok N s rep by_nodes p pd q Hp Hq) as (ld' & Hld' & _ & _ & Hside).
    rewrite Hld in Hld'. injection Hld' as <-.
    destruct Hside as [[H _]|[H _]]; congruence.
Qed.

Lemma by_grand gp :
  n_parent md = Some gp ->
  exists gd, heap s !! gp = Some gd /\ n_bits gd < n_bits md /\ ~ gone gp /\ gp <> c /\
             (forall i, i < n_bits gd -> rep M i = rep gp i) /\
             ((n_left gd = Some M /\ n_right gd <> Some M /\ rep M (n_bits gd) = false) \/
              (n_right gd = Some M /\ n_left gd <> Some M /\ rep M (n_bits gd) = true)).
Proof using All.
  intros Hg.
  destruct (rm_parent_of N rep s Hinv M md gp HM Hg) as (gd & Hgd & Hlt & Hag & Hside).
  exists gd. split; [assumption|]. split; [assumption|].
  destruct by_c_child as (Hcp & Hclt & _).
  split; [|split; [|split; assumption]].
  - intros [E|E].
    + rewrite E, HM in Hgd. injection Hgd as Hgd. rewrite Hgd in Hlt. lia.
    + destruct (HL gp E) as (ld & Hld & Hl1 & Hl2).
      rewrite Hgd in Hld. injection Hld as <-.
      destruct Hside as [(H & _)|(H & _)]; congruence.
  - intros E. rewrite E, Hc in Hgd. injection Hgd as Hgd. rewrite Hgd in Hclt. lia.
Qed.

Section After.
Variable s' : Trie.
Hypothesis Hlook :
  forall p, heap s' !! p =
    if decide (p = M \/ L = Some p) then None
    else if decide (p = c) then Some (with_parent (n_parent md) cd)
    else if decide (n_parent md = Some p)
         then (fun qd => with_child (bool_decide (n_right qd = Some M)) (Some c) qd)
                <$> heap s !! p
         else heap s !! p.
Hypothesis Hroot' : root s' = match n_parent md with None => Some c | Some _ => root s end.
Hypothesis Hnext' : next s <= next s'.

Lemma by_kept : kept_but gone c (heap s) (heap s').
Proof using All.
  intros x xd Hx Hng. rewrite Hlook.
  destruct (decide (x = M \/ L = Some x)) as [Hg|_]; [contradiction|].
  destruct (decide (x = c)) as [->|Hxc].
  - rewrite Hc in Hx. injection Hx as <-. exists (with_parent (n_parent md) cd).
    repeat split; auto. congruence.
  - destruct (decide (n_parent md = Some x)) as [Hg|Hng'].
    + destruct (by_grand x Hg) as (gd & Hgd & _ & _ & _ & _ & Hside).
      rewrite Hx in Hgd. injection Hgd as <-. rewrite Hx. cbn [fmap option_fmap option_map].
      eexists. split; [reflexivity|]. rewrite with_child_bits, with_child_parent.
      split; [reflexivity|]. split; [reflexivity|].
      destruct Hside as [(H1 & H2 & _)|(H1 & H2 & _)].
      * rewrite bool_decide_false by assumption. cbn [with_child with_left n_left n_right].
        split; [|auto]. intros y Hy E. exfalso. apply Hy. left. congruence.
      * rewrite bool_decide_true by assumption. cbn [with_child with_right n_left n_right].
        split; [auto|]. intros y Hy E. exfalso. apply Hy. left. congruence.
    + exists xd. repeat split; auto.
Qed.

Lemma by_lookup_c : heap s' !! c = Some (with_parent (n_parent md) cd).
Proof using All.
  rewrite Hlook. destruct (decide (c = M \/ L = Some c)) as [Hg|_].
  - exfalso. now apply by_c_not_gone.
  - destruct (decide (c = c)); [reflexivity|contradiction].
Qed.

Lemma by_lookup_grand gp gd :
  n_parent md = Some gp -> heap s !! gp = Some gd ->
  heap s' !! gp = Some (with_child (bool_decide (n_right gd = Some M)) (Some c) gd).
Proof using All.
  intros Hg Hgd. destruct (by_grand gp Hg) as (gd' & _ & _ & Hng & Hne & _).
  rewrite Hlook. destruct (decide (gp = M \/ L = Some gp)) as [Hg'|_]; [contradiction|].
  destruct (decide (gp = c)); [contradiction|].
  destruct (decide (n_parent md = Some gp)); [|contradiction].
  now rewrite Hgd.
Qed.

Lemma by_lookup_other p :
  ~ gone p -> p <> c -> n_parent md <> Some p -> heap s' !! p = heap s !! p.
Proof using All.
  intros Hng Hpc Hpg. rewrite Hlook.
  destruct (decide (p = M \/ L = Some p)) as [Hg'|_]; [contradiction|].
  destruct (decide (p = c)); [contradiction|].
  destruct (decide (n_parent md = Some p)); [contradiction|reflexivity].
Qed.

Lemma by_dom p : is_Some (heap s' !! p) -> is_Some (heap s !! p) /\ ~ gone p.
Proof using All.
  rewrite Hlook. destruct (decide (p = M \/ L = Some p)) as [Hg'|Hng].
  { intros [x Hx]. discriminate. }
  destruct (decide (p = c)) as [->|_]; [intros _; split; [eauto|assumption]|].
  destruct (decide (n_parent md = Some p)).
  - destruct (heap s !! p); cbn; [intros _; split; eauto|intros [x Hx]; discriminate].
  - intros H. split; assumption.
Qed.

Lemma by_node_ok p pd' : heap s' !! p = Some pd' -> node_ok s' rep p pd'.
Proof using All.
  intros Hp'. pose proof by_kept as Hkept. pose proof by_lookup_grand as Hlg.
  destruct (by_dom p ltac:(eauto)) as [[pd Hp] Hng].
  pose proof (by_nodes p pd Hp) as Hok.
  destruct by_c_child as (Hcp & Hclt & Hcrep).
  destruct (decide (p = c)) as [->|Hpc];
    [|destruct (decide (n_parent md = Some p)) as [Hg|Hng']].
  - (* the child: its parent is now the parent of M *)
    rewrite by_lookup_c in Hp'. injection Hp' as <-.
    rewrite Hc in Hp. injection Hp as <-.
    assert (Hch : forall y, n_left cd = Some y \/ n_right cd = Some y -> ~ gone y /\ y <> c).
    { intros y Hy. destruct (by_child_stays c cd y Hc Hng Hy) as [[-> Hg]|[H1 H2]].
      - exfalso. destruct (by_grand c Hg) as (_ & _ & _ & _ & Hne & _). contradiction.
      - split; [assumption|]. intros E. now apply H2. }
    destruct Hok as [Hleft Hright Hpar Hk Hglue Hbits Hfresh].
    constructor; cbn [with_parent n_left n_right n_parent n_key n_bits]; try assumption.
    + eapply child_ok_kept_but; eauto.
    + eapply child_ok_kept_but; eauto.
    + rewrite Hroot'. destruct (n_parent md) as [gp|] eqn:Hg; [|reflexivity].
      destruct (by_grand gp Hg) as (gd & Hgd & _).
      exists (with_child (bool_decide (n_right gd = Some M)) (Some c) gd).
      split; [now apply Hlg|].
      destruct (bool_decide (n_right gd = Some M)); [right|left]; reflexivity.
    + lia.
  - (* the parent of M: the slot that held M now holds the child *)
    destruct (by_grand p Hg) as (gd & Hgd & Hlt & _ & _ & Hag & Hside).
    rewrite Hp in Hgd. injection Hgd as <-.
    rewrite (by_lookup_grand p pd Hg Hp) in Hp'. injection Hp' as <-.
    assert (Hnew : forall b, rep M (n_bits pd) = b -> child_ok (heap s') rep p pd b (Some c)).
    { intros b Hb. exists (with_parent (n_parent md) cd). split; [apply by_lookup_c|].
      cbn [with_parent n_parent n_bits]. split; [assumption|]. split; [lia|]. split.
      - intros i Hi. rewrite Hcrep by lia. now apply Hag.
      - rewrite Hcrep by lia. exact Hb. }
    assert (Hch : forall y, n_left pd = Some y \/ n_right pd = Some y -> y <> M ->
                            ~ gone y /\ y <> c).
    { intros y Hy HyM. destruct (by_child_stays p pd y Hp Hng Hy) as [[-> _]|[H1 H2]];
        [contradiction|]. split; [assumption|]. intros E. now apply H2. }
    assert (Hpar' :
      match n_parent pd with
      | None => root s' = Some p
      | Some q => exists qd, heap s' !! q = Some qd /\ (n_left qd = Some p \/ n_right qd = Some p)
      end).
    { eapply (parent_ok_kept_but _ _ _ _ _ _ (root s) _ Hkept); eauto.
      - intros q Hq. eapply by_parent_stays; eauto.
      - rewrite Hroot', Hg. auto.
      - exact (ok_parent _ _ _ _ _ Hok). }
    destruct Hok as [Hleft Hright Hpar Hk Hglue Hbits Hfresh].
    destruct Hside as [(H1 & H2 & Hs)|(H1 & H2 & Hs)].
    + rewrite bool_decide_false by assumption.
      constructor; cbn [with_child with_left n_left n_right n_parent n_key n_bits];
        try assumption; try lia.
      * apply (Hnew false Hs).
      * eapply child_ok_kept_but; eauto. intros y Hy. apply Hch; [now right|congruence].
      * intros E. destruct (Hglue E) as [[Hl' Hr']|H0]; [left|now right].
        split; [discriminate|assumption].
    + rewrite bool_decide_true by assumption.
      constructor; cbn [with_child with_right n_left n_right n_parent n_key n_bits];
        try assumption; try lia.
      * eapply child_ok_kept_but; eauto. intros y Hy. apply Hch; [now left|congruence].
      * apply (Hnew true Hs).
      * intros E. destruct (Hglue E) as [[Hl' Hr']|H0]; [left|now right].
        split; [assumption|discriminate].
  - (* any other node *)
    rewrite by_lookup_other in Hp' by assumption.
    rewrite Hp in Hp'. injection Hp' as <-.
    eapply (node_ok_kept_but N gone c s s' rep p pd Hkept Hok); try assumption.
    + intros y Hy. destruct (by_child_stays p pd y Hp Hng Hy) as [[_ Hg]|[H1 H2]];
        [contradiction|]. split; [assumption|]. intros E. now apply H2.
    + intros q Hq. eapply by_parent_stays; eauto.
    + intros Hr. rewrite Hroot'. destruct (n_parent md) as [gp|] eqn:Hg; [assumption|].
      pose proof (ok_parent _ _ _ _ _ (by_nodes M md HM)) as HpM.
      rewrite Hg, Hr in HpM. injection HpM as ->. exfalso. apply Hng. now left.
Qed.

Lemma by_root :
  match root s' with
  | None => heap s' = ∅
  | Some r' => exists rd, heap s' !! r' = Some rd /\ n_parent rd = None
  end.
Proof using All.
  pose proof by_kept as Hkept. pose proof by_lookup_c as Hlc. pose proof by_grand as Hgr.
  pose proof (ok_parent _ _ _ _ _ (by_nodes M md HM)) as HpM.
  rewrite Hroot'. destruct (n_parent md) as [gp|] eqn:Hg.
  - destruct (Hgr gp eq_refl) as (gd & Hgd & _ & Hng & Hne & _).
    destruct (root s) as [r|] eqn:Hr.
    + destruct (rm_root_live N rep s Hinv r Hr) as (rd & Hrd & Hpar).
      assert (Hrg : ~ gone r).
      { intros [E|E].
        - rewrite E, HM in Hrd. injection Hrd as Hrd. rewrite <- Hrd in Hpar. congruence.
        - pose proof (by_L_parent r rd E Hrd) as HpL. congruence. }
      assert (Hrc : r <> c).
      { intros E. destruct by_c_child as (Hcp & _). rewrite E, Hc in Hrd.
        injection Hrd as Hrd. rewrite <- Hrd in Hpar. congruence. }
      destruct (Hkept r rd Hrd Hrg) as (rd' & Hrd' & _ & Hp' & _).
      exists rd'. split; [assumption|]. rewrite Hp'; assumption.
    + destruct Hinv as (H & _ & _). rewrite Hr in H. rewrite H, lookup_empty in HM.
      discriminate.
  - exists (with_parent None cd). split; [exact Hlc|reflexivity].
Qed.

Lemma by_glue : glue_full s -> glue_full s'.
Proof using All.
  intros Hg p pd' Hp' E.
  destruct (by_dom p ltac:(eauto)) as [[pd Hp] Hng].
  destruct (decide (p = c)) as [->|Hpc];
    [|destruct (decide (n_parent md = Some p)) as [Hgp|Hng']].
  - rewrite by_lookup_c in Hp'. injection Hp' as <-.
    rewrite Hc in Hp. injection Hp as <-. exact (Hg c cd Hc E).
  - rewrite (by_lookup_grand p pd Hgp Hp) in Hp'. injection Hp' as <-.
    rewrite with_child_key in E. destruct (Hg p pd Hp E) as [H1 H2].
    destruct (bool_decide (n_right pd = Some M)); cbn; split; auto; discriminate.
  - rewrite by_lookup_other in Hp' by assumption. rewrite Hp in Hp'. injection Hp' as <-.
    exact (Hg p pd Hp E).
Qed.

Lemma by_inv : numNodes s' = size_t_wrap (Z.of_nat (live s')) -> inv_with rep s'.
Proof using All.
  intros Hn. split; [exact by_root|]. split; [exact by_node_ok|exact Hn].
Qed.

End After.

End Bypass.

End RemoveBypass.

(** ** Facts about [removeNode]: what it does to a trie *)

Import BitArrayFacts.

Section RemovePost.
Context {T : Type} (N : nat) (key_init_bytes : list Z).
Local Abbreviation Node := (@Node T).
Local Abbreviation Trie := (@Trie T).
Local Abbreviation node_ok := (@node_ok T N).
Local Abbreviation inv_with := (@inv_with T N).
Local Abbreviation removeNode := (@removeNode T key_init_bytes).

Implicit Types (nd : Node) (key : BitArray.t) (h : gmap nat Node).

Section Node.
Variables (rep : nat -> nat -> bool) (s : Trie) (node : ptr) (nd : Node).
Hypothesis Hinv : inv_with rep s.
Hypothesis Hnode : heap s !! node = Some nd.

(** *** A leaf under a glue node *)

Section LeafGlue.
Variables (P : ptr) (pd : Node) (c : ptr) (cd : Node).
Hypothesis Hr : n_right nd = None.
Hypothesis Hl : n_left nd = None.
Hypothesis Hp : n_parent nd = Some P.
Hypothesis HP : heap s !! P = Some pd.
Hypothesis Hsib :
  (if bool_decide (n_right pd = Some node) then n_left pd else n_right pd) = Some c.
Hypothesis Hc : heap s !! c = Some cd.

Lemma lg_slots :
  (n_left pd = Some c /\ n_right pd = Some node) \/
  (n_right pd = Some c /\ n_left pd = Some node).
Proof using All.
  destruct (leaf_slot N rep s node nd Hinv Hnode P pd Hp HP) as [[H1 H2]|[H1 H2]].
  - rewrite bool_decide_false in Hsib by assumption. auto.
  - rewrite bool_decide_true in Hsib by assumption. auto.
Qed.

Lemma lg_leaf l :
  Some node = Some l ->
  exists ld, heap s !! l = Some ld /\ n_left ld = None /\ n_right ld = None.
Proof using All. intros [= <-]. eauto. Qed.

Lemma lg_distinct :
  P <> node /\ c <> node /\ c <> P /\
  match n_parent pd with
  | None => True
  | Some gp => is_Some (heap s !! gp) /\ gp <> node /\ gp <> P /\ gp <> c
  end.
Proof using All.
  pose proof (by_c_not_gone N rep s P pd c cd (Some node) Hinv HP Hc lg_slots lg_leaf) as Hcg.
  pose proof (by_grand N rep s P pd c cd (Some node) Hinv HP Hc lg_slots lg_leaf) as Hgr.
  split; [exact (leaf_P_ne N rep s node nd Hinv Hnode P Hp)|].
  split; [intros E; apply Hcg; right; congruence|].
  split; [intros E; apply Hcg; left; congruence|].
  destruct (n_parent pd) as [gp|]; [|exact I].
  destruct (Hgr gp eq_refl) as (gd & Hgd & _ & Hng & Hne & _).
  split; [eauto|]. split; [intros E; apply Hng; right; congruence|].
  split; [intros E; apply Hng; left; congruence|assumption].
Qed.

Lemma lg_lookup p :
  heap (remove_leaf_glue node P pd c cd s) !! p =
    if decide (p = P \/ Some node = Some p) then None
    else if decide (p = c) then Some (with_parent (n_parent pd) cd)
    else if decide (n_parent pd = Some p)
         then (fun qd => with_child (bool_decide (n_right qd = Some P)) (Some c) qd)
                <$> heap s !! p
         else heap s !! p.
Proof using All.
  destruct lg_distinct as (HPn & Hcn & HcP & Hgp).
  unfold remove_leaf_glue. cbn [heap].
  destruct (decide (p = P \/ Some node = Some p)) as [[->|E]|Hng].
  - apply lookup_delete_eq.
  - injection E as <-.
    rewrite lookup_delete_ne by congruence. rewrite lookup_insert_ne by congruence.
    rewrite splice_lookup_ne.
    + rewrite lookup_insert_ne by congruence. apply lookup_delete_eq.
    + destruct (n_parent pd) as [gp|]; [|discriminate].
      destruct Hgp as (_ & Hg & _). congruence.
  - assert (p <> P) by (intros ->; apply Hng; now left).
    assert (p <> node) by (intros ->; apply Hng; now right).
    rewrite lookup_delete_ne by congruence.
    destruct (decide (p = c)) as [->|Hpc]; [apply lookup_insert_eq|].
    rewrite lookup_insert_ne by congruence.
    destruct (decide (n_parent pd = Some p)) as [E|E].
    + rewrite E in *. destruct Hgp as ([gd Hgd] & _).
      rewrite Hgd. cbn [fmap option_fmap option_map]. apply splice_lookup_eq.
      rewrite lookup_insert_ne by congruence. rewrite lookup_delete_ne by congruence.
      exact Hgd.
    + rewrite splice_lookup_ne by assumption.
      rewrite lookup_insert_ne by congruence. now rewrite lookup_delete_ne by congruence.
Qed.

Lemma lg_live : live s = S (S (live (remove_leaf_glue node P pd c cd s))).
Proof using All.
  destruct lg_distinct as (HPn & Hcn & HcP & Hgp).
  assert (H1 : delete node (heap s) !! P = Some pd)
    by (rewrite lookup_delete_ne by congruence; exact HP).
  set (h1 := <[P := with_child (bool_decide (n_right pd = Some node)) None pd]>
               (delete node (heap s))).
  set (h2 := splice (n_parent pd) P (Some c) h1).
  set (h3 := <[c := with_parent (n_parent pd) cd]> h2).
  assert (H3 : exists x, h3 !! P = Some x).
  { unfold h3. rewrite lookup_insert_ne by congruence. unfold h2.
    destruct (n_parent pd) as [gp|] eqn:Eg.
    - destruct Hgp as (_ & _ & Hg & _). rewrite splice_lookup_ne by congruence.
      unfold h1. rewrite lookup_insert_eq. eauto.
    - cbn [splice]. unfold h1. rewrite lookup_insert_eq. eauto. }
  assert (H2 : exists x, h2 !! c = Some x).
  { unfold h2. destruct (n_parent pd) as [gp|] eqn:Eg.
    - destruct Hgp as (_ & _ & _ & Hg). rewrite splice_lookup_ne by congruence.
      unfold h1. rewrite lookup_insert_ne by congruence.
      rewrite lookup_delete_ne by congruence. eauto.
    - cbn [splice]. unfold h1. rewrite lookup_insert_ne by congruence.
      rewrite lookup_delete_ne by congruence. eauto. }
  destruct H3 as [x3 H3]. destruct H2 as [x2 H2].
  unfold live, remove_leaf_glue. cbn [heap]. fold h1. fold h2. fold h3.
  rewrite (size_delete_live _ _ _ Hnode). f_equal.
  rewrite <- (size_insert_live _ P pd (with_child (bool_decide (n_right pd = Some node)) None pd) H1).
  fold h1. rewrite <- (size_splice h1 (n_parent pd) P (Some c)). fold h2.
  rewrite <- (size_insert_live h2 c x2 (with_parent (n_parent pd) cd) H2). fold h3.
  apply (size_delete_live _ _ _ H3).
Qed.

Lemma inv_leaf_glue : inv_with rep (remove_leaf_glue node P pd c cd s).
Proof using All.
  apply (by_inv N rep s P pd c cd (Some node) Hinv HP Hc lg_slots lg_leaf _ lg_lookup).
  - reflexivity.
  - cbn. lia.
  - pose proof lg_live as Hlive. unfold remove_leaf_glue at 1. cbn [numNodes].
    destruct Hinv as (_ & _ & Hnum). rewrite Hnum, Hlive.
    now rewrite !size_t_wrap_pred.
Qed.

Lemma glue_leaf_glue : glue_full s -> glue_full (remove_leaf_glue node P pd c cd s).
Proof using All.
  apply (by_glue N rep s P pd c cd (Some node) Hinv HP Hc lg_slots lg_leaf _ lg_lookup).
  - reflexivity.
  - cbn. lia.
Qed.

Lemma dom_leaf_glue q :
  is_Some (heap (remove_leaf_glue node P pd c cd s) !! q) -> is_Some (heap s !! q).
Proof using All.
  intros H.
  apply (by_dom N rep s P pd c cd (Some node) Hinv HP Hc lg_slots lg_leaf _ lg_lookup) in H.
  - tauto.
  - reflexivity.
  - cbn. lia.
Qed.

End LeafGlue.

(** *** The node has one child *)

Section Single.
Variables (c : ptr) (cd : Node).
Hypothesis Hone : n_right nd = None \/ n_left nd = None.
Hypothesis Hch : match n_right nd with Some r => Some r | None => n_left nd end = Some c.
Hypothesis Hc : heap s !! c = Some cd.

Lemma sg_slots :
  (n_left nd = Some c /\ n_right nd = None) \/ (n_right nd = Some c /\ n_left nd = None).
Proof using All.
  destruct (n_right nd) as [r|] eqn:Er.
  - right. destruct Hone as [E|E]; [discriminate|]. split; [congruence|assumption].
  - left. auto.
Qed.

Lemma sg_leaf l :
  @None ptr = Some l ->
  exists ld, heap s !! l = Some ld /\ n_left ld = None /\ n_right ld = None.
Proof using All. discriminate. Qed.

Lemma sg_distinct :
  c <> node /\
  match n_parent nd with
  | None => True
  | Some p => is_Some (heap s !! p) /\ p <> node /\ p <> c
  end.
Proof using All.
  pose proof (by_c_not_gone N rep s node nd c cd None Hinv Hnode Hc sg_slots sg_leaf) as Hcg.
  pose proof (by_grand N rep s node nd c cd None Hinv Hnode Hc sg_slots sg_leaf) as Hgr.
  split; [intros E; apply Hcg; left; congruence|].
  destruct (n_parent nd) as [gp|]; [|exact I].
  destruct (Hgr gp eq_refl) as (gd & Hgd & _ & Hng & Hne & _).
  split; [eauto|]. split; [intros E; apply Hng; left; congruence|assumption].
Qed.

Lemma sg_lookup (L : option ptr) : L = None -> forall p,
  heap (remove_single node nd c cd s) !! p =
    if decide (p = node \/ L = Some p) then None
    else if decide (p = c) then Some (with_parent (n_parent nd) cd)
    else if decide (n_parent nd = Some p)
         then (fun qd => with_child (bool_decide (n_right qd = Some node)) (Some c) qd)
                <$> heap s !! p
         else heap s !! p.
Proof using All.
  intros -> p. destruct sg_distinct as (Hcn & Hgp).
  unfold remove_single. cbn [heap].
  destruct (decide (p = node \/ None = Some p)) as [[->|E]|Hng]; [|discriminate|].
  - rewrite splice_lookup_ne; [apply lookup_delete_eq|].
    destruct (n_parent nd) as [gp|]; [|discriminate].
    destruct Hgp as (_ & Hg & _). congruence.
  - assert (p <> node) by (intros ->; apply Hng; now left).
    destruct (decide (p = c)) as [->|Hpc].
    + rewrite splice_lookup_ne.
      * rewrite lookup_delete_ne by congruence. apply lookup_insert_eq.
      * destruct (n_parent nd) as [gp|]; [|discriminate].
        destruct Hgp as (_ & _ & Hg). congruence.
    + destruct (decide (n_parent nd = Some p)) as [E|E].
      * rewrite E in *. destruct Hgp as ([gd Hgd] & _).
        rewrite Hgd. cbn [fmap option_fmap option_map]. apply splice_lookup_eq.
        rewrite lookup_delete_ne by congruence. rewrite lookup_insert_ne by congruence.
        exact Hgd.
      * rewrite splice_lookup_ne by assumption.
        rewrite lookup_delete_ne by congruence. now rewrite lookup_insert_ne by congruence.
Qed.

Lemma sg_live : live s = S (live (remove_single node nd c cd s)).
Proof using All.
  destruct sg_distinct as (Hcn & _).
  unfold live, remove_single. cbn [heap]. rewrite size_splice.
  assert (H1 : <[c := with_parent (n_parent nd) cd]> (heap s) !! node = Some nd)
    by (rewrite lookup_insert_ne by congruence; exact Hnode).
  rewrite <- (size_delete_live _ _ _ H1). symmetry. eapply size_insert_live; eauto.
Qed.

Lemma inv_single : inv_with rep (remove_single node nd c cd s).
Proof using All.
  apply (by_inv N rep s node nd c cd None Hinv Hnode Hc sg_slots sg_leaf _ (sg_lookup None eq_refl)).
  - reflexivity.
  - cbn. lia.
  - pose proof sg_live as Hlive. unfold remove_single at 1. cbn [numNodes].
    destruct Hinv as (_ & _ & Hnum). rewrite Hnum, Hlive.
    now rewrite size_t_wrap_pred.
Qed.

Lemma glue_single : glue_full s -> glue_full (remove_single node nd c cd s).
Proof using All.
  apply (by_glue N rep s node nd c cd None Hinv Hnode Hc sg_slots sg_leaf _ (sg_lookup None eq_refl)).
  - reflexivity.
  - cbn. lia.
Qed.

Lemma dom_single q :
  is_Some (heap (remove_single node nd c cd s) !! q) -> is_Some (heap s !! q).
Proof using All.
  intros H.
  apply (by_dom N rep s node nd c cd None Hinv Hnode Hc sg_slots sg_leaf _ (sg_lookup None eq_refl)) in H.
  - tauto.
  - reflexivity.
  - cbn. lia.
Qed.

End Single.

(** *** All cases together *)

Lemma removeNode_cases :
  (exists s', removeNode node s = Some s' /\ inv_with rep s' /\
              (glue_full s -> glue_full s') /\
              (forall q, is_Some (heap s' !! q) -> is_Some (heap s !! q)) /\
              next s' = next s) \/
  (removeNode node s = None /\ ~ glue_full s).
Proof using All.
  destruct (n_right nd) as [r|] eqn:Hr; destruct (n_left nd) as [l|] eqn:Hl.
  - (* two children *)
    left. exists (remove_demote key_init_bytes node nd s).
    assert (H1 : n_right nd <> None) by congruence.
    assert (H2 : n_left nd <> None) by congruence.
    split; [now apply removeNode_demote|].
    split; [now apply inv_demote|]. split; [now apply glue_demote|].
    split; [|reflexivity].
    intros q. unfold remove_demote. cbn [heap set_heap]. rewrite lookup_insert.
    destruct (decide (node = q)) as [<-|]; eauto.
  - (* one child, on the right *)
    destruct (rm_child_of N rep s Hinv node nd r Hnode ltac:(auto)) as (cd & Hc & _).
    assert (Hone : n_right nd = None \/ n_left nd = None) by auto.
    assert (Hch : match n_right nd with Some x => Some x | None => n_left nd end = Some r)
      by now rewrite Hr.
    destruct (sg_distinct r cd Hone Hch Hc) as (Hcn & Hpar).
    left. exists (remove_single node nd r cd s).
    split; [now apply removeNode_single|].
    split; [now apply inv_single|]. split; [now apply glue_single|].
    split; [|reflexivity]. intros q. now apply dom_single.
  - (* one child, on the left *)
    destruct (rm_child_of N rep s Hinv node nd l Hnode ltac:(auto)) as (cd & Hc & _).
    assert (Hone : n_right nd = None \/ n_left nd = None) by auto.
    assert (Hch : match n_right nd with Some x => Some x | None => n_left nd end = Some l)
      by now rewrite Hr.
    destruct (sg_distinct l cd Hone Hch Hc) as (Hcn & Hpar).
    left. exists (remove_single node nd l cd s).
    split; [now apply removeNode_single|].
    split; [now apply inv_single|]. split; [now apply glue_single|].
    split; [|reflexivity]. intros q. now apply dom_single.
  - (* a leaf *)
    destruct (n_parent nd) as [P|] eqn:Hp.
    + destruct (rm_parent_of N rep s Hinv node nd P Hnode Hp) as (pd & HP & _).
      pose proof (leaf_P_ne N rep s node nd Hinv Hnode P Hp) as HPn.
      destruct (BitArray.empty (n_key pd)) eqn:He.
      * destruct (if bool_decide (n_right pd = Some node) then n_left pd else n_right pd)
          as [c|] eqn:Hsib.
        -- assert (Hc : exists cd, heap s !! c = Some cd).
           { assert (Hy : n_left pd = Some c \/ n_right pd = Some c)
               by (destruct (bool_decide (n_right pd = Some node)); auto).
             destruct (rm_child_of N rep s Hinv P pd c HP Hy) as (cd & Hc & _). eauto. }
           destruct Hc as [cd Hc].
           destruct (lg_distinct P pd c cd Hr Hl Hp HP Hsib Hc) as (_ & H1 & H2 & H3).
           left. exists (remove_leaf_glue node P pd c cd s).
           split; [now apply (removeNode_leaf_glue key_init_bytes s node nd P pd c cd)|].
           split; [now apply inv_leaf_glue|]. split; [now apply glue_leaf_glue|].
           split; [|reflexivity]. intros q. now apply dom_leaf_glue.
        -- right. split; [now apply (removeNode_leaf_stuck key_init_bytes s node nd P pd)|].
           intros Hg. unfold BitArray.empty in He. apply Nat.eqb_eq in He.
           destruct (Hg P pd HP He) as [H1 H2].
           destruct (bool_decide (n_right pd = Some node)); congruence.
      * left. exists (remove_leaf node P pd s).
        split; [now apply (removeNode_leaf key_init_bytes s node nd P pd)|].
        split; [now apply (inv_leaf N rep s node nd Hinv Hnode P pd)|].
        split; [eapply glue_leaf; eauto|].
        split; [|reflexivity].
        intros q. unfold remove_leaf. cbn [heap]. rewrite lookup_insert.
        destruct (decide (P = q)) as [<-|]; [eauto|].
        rewrite lookup_delete. destruct (decide (node = q)); [|auto].
        intros [x Hx]. discriminate.
    + left. exists (remove_last node s).
      split; [now apply (removeNode_last key_init_bytes s node nd)|].
      split; [now apply (inv_last N rep s node nd)|].
      split.
      { intros _ p pd. unfold remove_last. cbn [heap].
        pose proof (inv_last N rep s node nd Hinv Hnode Hr Hl Hp) as (He & _).
        unfold remove_last in He. cbn [root heap] in He. rewrite He, lookup_empty.
        discriminate. }
      split; [|reflexivity].
      intros q. unfold remove_last. cbn [heap]. rewrite !lookup_delete.
      destruct (decide (node = q)); [intros [x Hx]; discriminate|auto].
Qed.

End Node.

Lemma live_dom_le (h h' : gmap nat Node) :
  (forall q, is_Some (h' !! q) -> is_Some (h !! q)) -> base.size h' <= base.size h.
Proof.
  intros Hdom. rewrite <- !size_dom. apply subseteq_size.
  intros q. rewrite !elem_of_dom. apply Hdom.
Qed.

(** [removeNode] keeps the shape of the trie, frees without allocating, and
    leaves no glue node short of a child. *)
Lemma removeNode_post s node nd s' :
  inv N s -> heap s !! node = Some nd -> removeNode node s = Some s' ->
  remove_post N s s'.
Proof.
  intros [rep Hinv] Hnode Hrm.
  destruct (removeNode_cases rep s node nd Hinv Hnode)
    as [(s1 & H1 & Hinv' & Hglue & Hdom & Hnext)|[H1 _]]; [|congruence].
  rewrite Hrm in H1. injection H1 as <-.
  constructor; try assumption.
  - now exists rep.
  - now apply live_dom_le.
Qed.

(** In a trie whose glue nodes all have two children, [removeNode] goes
    through. *)
Lemma removeNode_total s node nd :
  inv N s -> glue_full s -> heap s !! node = Some nd -> is_Some (removeNode node s).
Proof.
  intros [rep Hinv] Hg Hnode.
  destruct (removeNode_cases rep s node nd Hinv Hnode)
    as [(s1 & H1 & _)|[_ H1]]; [eauto|contradiction].
Qed.

End RemovePost.

(** ** Facts about [removeNode]: the keys and payloads that stay *)

Import BitArrayFacts.

Section RemoveKeys.
Context {T : Type} (N : nat) (key_init_bytes : list Z).
Local Abbreviation Node := (@Node T).
Local Abbreviation Trie := (@Trie T).
Local Abbreviation node_ok := (@node_ok T N).
Local Abbreviation inv_with := (@inv_with T N).
Local Abbreviation removeNode := (@removeNode T key_init_bytes).

Implicit Types (nd : Node) (key : BitArray.t) (h : gmap nat Node).

Lemma with_child_data (b : bool) (v : option nat) (n : Node) :
  n_data (with_child b v n) = n_data n.
Proof. now destruct b. Qed.

(** Cutting a node out moves no key and no payload. *)
Lemma bypass_keys h h' (M : ptr) (md : Node) (c : ptr) (cd : Node) (L : option ptr) :
  h !! c = Some cd ->
  (forall p, h' !! p =
     if decide (p = M \/ L = Some p) then None
     else if decide (p = c) then Some (with_parent (n_parent md) cd)
     else if decide (n_parent md = Some p)
          then (fun qd => with_child (bool_decide (n_right qd = Some M)) (Some c) qd) <$> h !! p
          else h !! p) ->
  (forall q qd', h' !! q = Some qd' ->
     ~ (q = M \/ L = Some q) /\
     exists qd, h !! q = Some qd /\ n_key qd' = n_key qd /\ n_data qd' = n_data qd) /\
  (forall q qd, h !! q = Some qd -> ~ (q = M \/ L = Some q) ->
     exists qd', h' !! q = Some qd' /\ n_key qd' = n_key qd /\ n_data qd' = n_data qd).
Proof.
  intros Hc Hlook. split.
  - intros q qd'. rewrite Hlook.
    destruct (decide (q = M \/ L = Some q)) as [|Hng]; [discriminate|].
    destruct (decide (q = c)) as [->|_].
    { intros [= <-]. split; [assumption|]. exists cd. auto. }
    destruct (decide (n_parent md = Some q)) as [_|_].
    + destruct (h !! q) as [qd|]; cbn; [|discriminate]. intros [= <-].
      split; [assumption|]. exists qd. rewrite with_child_key, with_child_data. auto.
    + intros Hq. split; [assumption|]. eauto.
  - intros q qd Hq Hng. rewrite Hlook.
    destruct (decide (q = M \/ L = Some q)) as [|_]; [contradiction|].
    destruct (decide (q = c)) as [->|_].
    { rewrite Hc in Hq. injection Hq as <-. eexists. split; [reflexivity|]. auto. }
    destruct (decide (n_parent md = Some q)) as [_|_].
    + rewrite Hq. cbn. eexists. split; [reflexivity|].
      rewrite with_child_key, with_child_data. auto.
    + eauto.
Qed.

(** [removeNode] takes the node's key out and leaves every other data node
    with its key and its payload. *)
Lemma removeNode_keys rep (s : Trie) (node : ptr) (nd : Node) (s' : Trie) :
  inv_with rep s -> heap s !! node = Some nd -> removeNode node s = Some s' ->
  (forall q qd', heap s' !! q = Some qd' -> is_data qd' ->
     q <> node /\
     exists qd, heap s !! q = Some qd /\ n_key qd' = n_key qd /\ n_data qd' = n_data qd) /\
  (forall q qd, heap s !! q = Some qd -> is_data qd -> q <> node ->
     exists qd', heap s' !! q = Some qd' /\ n_key qd' = n_key qd /\ n_data qd' = n_data qd).
Proof.
  intros Hinv Hnode Hrm.
  destruct (n_right nd) as [r|] eqn:Hr; destruct (n_left nd) as [l|] eqn:Hl.
  - (* two children *)
    rewrite (removeNode_demote key_init_bytes s node nd Hnode) in Hrm by congruence.
    injection Hrm as <-. unfold remove_demote. cbn [heap set_heap]. split.
    + intros q qd'. rewrite lookup_insert. destruct (decide (node = q)) as [<-|Hne].
      * intros [= <-] Hd. unfold is_data in Hd. cbn in Hd. contradiction.
      * intros Hq _. split; [congruence|eauto].
    + intros q qd Hq _ Hne. rewrite lookup_insert_ne by congruence. eauto.
  - (* one child, on the right *)
    destruct (rm_child_of N rep s Hinv node nd r Hnode ltac:(auto)) as (cd & Hc & _).
    assert (Hone : n_right nd = None \/ n_left nd = None) by auto.
    assert (Hch : match n_right nd with Some x => Some x | None => n_left nd end = Some r)
      by now rewrite Hr.
    destruct (sg_distinct N key_init_bytes rep s node nd Hinv Hnode r cd Hone Hch Hc) as (Hcn & Hpar).
    rewrite (removeNode_single key_init_bytes s node nd r cd Hnode Hone Hch Hc Hcn Hpar) in Hrm.
    injection Hrm as <-.
    destruct (bypass_keys (heap s) _ node nd r cd None Hc
                (sg_lookup N key_init_bytes rep s node nd Hinv Hnode r cd Hone Hch Hc None eq_refl))
      as [H1 H2].
    split.
    + intros q qd' Hq _. destruct (H1 q qd' Hq) as [Hng Hex]. split; [|exact Hex].
      intros ->. apply Hng. now left.
    + intros q qd Hq _ Hne. apply (H2 q qd Hq). intros [E|E]; [contradiction|discriminate].
  - (* one child, on the left *)
    destruct (rm_child_of N rep s Hinv node nd l Hnode ltac:(auto)) as (cd & Hc & _).
    assert (Hone : n_right nd = None \/ n_left nd = None) by auto.
    assert (Hch : match n_right nd with Some x => Some x | None => n_left nd end = Some l)
      by now rewrite Hr.
    destruct (sg_distinct N key_init_bytes rep s node nd Hinv Hnode l cd Hone Hch Hc) as (Hcn & Hpar).
    rewrite (removeNode_single key_init_bytes s node nd l cd Hnode Hone Hch Hc Hcn Hpar) in Hrm.
    injection Hrm as <-.
    destruct (bypass_keys (heap s) _ node nd l cd None Hc
                (sg_lookup N key_init_bytes rep s node nd Hinv Hnode l cd Hone Hch Hc None eq_refl))
      as [H1 H2].
    split.
    + intros q qd' Hq _. destruct (H1 q qd' Hq) as [Hng Hex]. split; [|exact Hex].
      intros ->. apply Hng. now left.
    + intros q qd Hq _ Hne. apply (H2 q qd Hq). intros [E|E]; [contradiction|discriminate].
  - (* a leaf *)
    destruct (n_parent nd) as [P|] eqn:Hp.
    + destruct (rm_parent_of N rep s Hinv node nd P Hnode Hp) as (pd & HP & _).
      pose proof (leaf_P_ne N rep s node nd Hinv Hnode P Hp) as HPn.
      destruct (BitArray.empty (n_key pd)) eqn:He.
      * destruct (if bool_decide (n_right pd = Some node) then n_left pd else n_right pd)
          as [c|] eqn:Hsib.
        -- assert (Hc : exists cd, heap s !! c = Some cd).
           { assert (Hy : n_left pd = Some c \/ n_right pd = Some c)
               by (destruct (bool_decide (n_right pd = Some node)); auto).
             destruct (rm_child_of N rep s Hinv P pd c HP Hy) as (cd & Hc & _). eauto. }
           destruct Hc as [cd Hc].
           destruct (lg_distinct N key_init_bytes rep s node nd Hinv Hnode P pd c cd Hr Hl Hp HP Hsib Hc)
             as (_ & D1 & D2 & D3).
           rewrite (removeNode_leaf_glue key_init_bytes s node nd P pd c cd
                      Hnode Hr Hl Hp HPn HP He Hsib Hc D1 D2 D3) in Hrm.
           injection Hrm as <-.
           destruct (bypass_keys (heap s) _ P pd c cd (Some node) Hc
                       (lg_lookup N key_init_bytes rep s node nd Hinv Hnode P pd c cd Hr Hl Hp HP Hsib Hc))
             as [H1 H2].
           split.
           ++ intros q qd' Hq _. destruct (H1 q qd' Hq) as [Hng Hex]. split; [|exact Hex].
              intros ->. apply Hng. now right.
           ++ intros q qd Hq Hd Hne. apply (H2 q qd Hq). intros [E|E]; [|congruence].
              subst q. rewrite HP in Hq. injection Hq as <-.
              apply empty_false_data in Hd. congruence.
        -- rewrite (removeNode_leaf_stuck key_init_bytes s node nd P pd
                      Hnode Hr Hl Hp HPn HP He Hsib) in Hrm. discriminate.
      * rewrite (removeNode_leaf key_init_bytes s node nd P pd Hnode Hr Hl Hp HPn HP He) in Hrm.
        injection Hrm as <-. unfold remove_leaf. cbn [heap]. split.
        -- intros q qd'. rewrite lookup_insert. destruct (decide (P = q)) as [<-|Hne].
           ++ intros [= <-] _. split; [assumption|]. exists pd.
              rewrite with_child_key, with_child_data. auto.
           ++ rewrite lookup_delete. destruct (decide (node = q)) as [|Hnq]; [discriminate|].
              intros Hq _. split; [congruence|eauto].
        -- intros q qd Hq _ Hne. rewrite lookup_insert. destruct (decide (P = q)) as [<-|HPq].
           ++ rewrite HP in Hq. injection Hq as <-. eexists. split; [reflexivity|].
              rewrite with_child_key, with_child_data. auto.
           ++ rewrite lookup_delete_ne by congruence. eauto.
    + rewrite (removeNode_last key_init_bytes s node nd Hnode Hr Hl Hp) in Hrm.
      injection Hrm as <-. unfold remove_last. cbn [heap].
      pose proof (ok_parent _ _ _ _ _ (rm_nodes N rep s Hinv node nd Hnode)) as Hroot.
      rewrite Hp in Hroot.
      pose proof (root_leaf_alone N rep s node nd Hinv Hroot Hnode Hl Hr) as Halone.
      split.
      * intros q qd'. rewrite !lookup_delete.
        destruct (decide (node = q)); [discriminate|]. intros Hq.
        exfalso. apply n. symmetry. eapply Halone; eauto.
      * intros q qd Hq _ Hne. exfalso. apply Hne. eapply Halone; eauto.
Qed.

End RemoveKeys.
(** ** Facts about [removeNode]: the pointers it passes to [delete] *)

Import BitArrayFacts.

Section RemoveDeletes.
Context {T : Type} (N : nat) (key_init_bytes : list Z).
Local Abbreviation Node := (@Node T).
Local Abbreviation Trie := (@Trie T).
Local Abbreviation inv_with := (@inv_with T N).
Local Abbreviation removeNode := (@removeNode T key_init_bytes).

Implicit Types (nd : Node) (h : gmap nat Node).

(** Cutting a node out takes away the nodes cut and no other. *)
Lemma bypass_gone h h' (M : ptr) (md : Node) (c : ptr) (cd : Node) (L : option ptr) :
  h !! c = Some cd ->
  (forall p, h' !! p =
     if decide (p = M \/ L = Some p) then None
     else if decide (p = c) then Some (with_parent (n_parent md) cd)
     else if decide (n_parent md = Some p)
          then (fun qd => with_child (bool_decide (n_right qd = Some M)) (Some c) qd) <$> h !! p
          else h !! p) ->
  forall q, is_Some (h !! q) /\ h' !! q = None <-> is_Some (h !! q) /\ (q = M \/ L = Some q).
Proof.
  intros Hc Hlook q. rewrite Hlook.
  destruct (decide (q = M \/ L = Some q)) as [Hg|Hng]; [tauto|].
  split; [|tauto]. intros [[qd Hq] Hnone]. exfalso.
  destruct (decide (q = c)) as [->|_]; [discriminate|].
  destruct (decide (n_parent md = Some q)) as [_|_].
  - rewrite Hq in Hnone. discriminate.
  - congruence.
Qed.

(** [removeNode] passes to [delete] the nodes it takes out of the trie and
    no other pointer, at most two of them; it passes one pointer twice
    exactly when it leaves the trie without a root. *)
Lemma removeNode_deletes rep (s : Trie) (node : ptr) (nd : Node) (s' : Trie) :
  inv_with rep s -> heap s !! node = Some nd -> removeNode node s = Some s' ->
  exists ds, deleted s' = ds ++ deleted s /\ length ds <= 2 /\
    (forall q, In q ds <-> is_Some (heap s !! q) /\ heap s' !! q = None) /\
    (NoDup ds <-> root s' <> None).
Proof.
  intros Hinv Hnode Hrm.
  assert (Hroot : root s <> None).
  { destruct Hinv as (Hr & _). intros E. rewrite E in Hr.
    rewrite Hr, lookup_empty in Hnode. discriminate. }
  destruct (n_right nd) as [r|] eqn:Hr; destruct (n_left nd) as [l|] eqn:Hl.
  - (* two children *)
    rewrite (removeNode_demote key_init_bytes s node nd Hnode) in Hrm by congruence.
    injection Hrm as <-. exists []. unfold remove_demote. cbn [heap set_heap deleted root].
    split; [reflexivity|]. split; [cbn; lia|]. split.
    + intros q. cbn [In]. split; [tauto|]. intros [[qd Hq] Hnone].
      rewrite lookup_insert in Hnone. destruct (decide (node = q)); [discriminate|congruence].
    + split; [auto|]. intros _. constructor.
  - (* one child, on the right *)
    destruct (rm_child_of N rep s Hinv node nd r Hnode ltac:(auto)) as (cd & Hc & _).
    assert (Hone : n_right nd = None \/ n_left nd = None) by auto.
    assert (Hch : match n_right nd with Some x => Some x | None => n_left nd end = Some r)
      by now rewrite Hr.
    destruct (sg_distinct N key_init_bytes rep s node nd Hinv Hnode r cd Hone Hch Hc) as (Hcn & Hpar).
    rewrite (removeNode_single key_init_bytes s node nd r cd Hnode Hone Hch Hc Hcn Hpar) in Hrm.
    injection Hrm as <-.
    pose proof (bypass_gone (heap s) _ node nd r cd None Hc
                  (sg_lookup N key_init_bytes rep s node nd Hinv Hnode r cd Hone Hch Hc None eq_refl))
      as Hgone.
    exists [node]. split; [reflexivity|]. split; [cbn; lia|]. split.
    + intros q. rewrite Hgone. cbn [In]. split.
      * intros [<-|[]]. split; [eauto|now left].
      * intros [_ [->|E]]; [now left|discriminate].
    + split.
      * intros _. unfold remove_single. cbn [root]. destruct (n_parent nd); congruence.
      * intros _. apply NoDup_singleton.
  - (* one child, on the left *)
    destruct (rm_child_of N rep s Hinv node nd l Hnode ltac:(auto)) as (cd & Hc & _).
    assert (Hone : n_right nd = None \/ n_left nd = None) by auto.
    assert (Hch : match n_right nd with Some x => Some x | None => n_left nd end = Some l)
      by now rewrite Hr.
    destruct (sg_distinct N key_init_bytes rep s node nd Hinv Hnode l cd Hone Hch Hc) as (Hcn & Hpar).
    rewrite (removeNode_single key_init_bytes s node nd l cd Hnode Hone Hch Hc Hcn Hpar) in Hrm.
    injection Hrm as <-.
    pose proof (bypass_gone (heap s) _ node nd l cd None Hc
                  (sg_lookup N key_init_bytes rep s node nd Hinv Hnode l cd Hone Hch Hc None eq_refl))
      as Hgone.
    exists [node]. split; [reflexivity|]. split; [cbn; lia|]. split.
    + intros q. rewrite Hgone. cbn [In]. split.
      * intros [<-|[]]. split; [eauto|now left].
      * intros [_ [->|E]]; [now left|discriminate].
    + split.
      * intros _. unfold remove_single. cbn [root]. destruct (n_parent nd); congruence.
      * intros _. apply NoDup_singleton.
  - (* a leaf *)
    destruct (n_parent nd) as [P|] eqn:Hp.
    + destruct (rm_parent_of N rep s Hinv node nd P Hnode Hp) as (pd & HP & _).
      pose proof (leaf_P_ne N rep s node nd Hinv Hnode P Hp) as HPn.
      destruct (BitArray.empty (n_key pd)) eqn:He.
      * destruct (if bool_decide (n_right pd = Some node) then n_left pd else n_right pd)
          as [c|] eqn:Hsib.
        -- assert (Hc : exists cd, heap s !! c = Some cd).
           { assert (Hy : n_left pd = Some c \/ n_right pd = Some c)
               by (destruct (bool_decide (n_right pd = Some node)); auto).
             destruct (rm_child_of N rep s Hinv P pd c HP Hy) as (cd & Hc & _). eauto. }
           destruct Hc as [cd Hc].
           destruct (lg_distinct N key_init_bytes rep s node nd Hinv Hnode P pd c cd Hr Hl Hp HP Hsib Hc)
             as (_ & D1 & D2 & D3).
           rewrite (removeNode_leaf_glue key_init_bytes s node nd P pd c cd
                      Hnode Hr Hl Hp HPn HP He Hsib Hc D1 D2 D3) in Hrm.
           injection Hrm as <-.
           pose proof (bypass_gone (heap s) _ P pd c cd (Some node) Hc
                         (lg_lookup N key_init_bytes rep s node nd Hinv Hnode P pd c cd Hr Hl Hp HP Hsib Hc))
             as Hgone.
           exists [P; node]. split; [reflexivity|]. split; [cbn; lia|]. split.
           ++ intros q. rewrite Hgone. cbn [In]. split.
              ** intros [<-|[<-|[]]]; (split; [eauto|]); [now left|now right].
              ** intros [_ [->|[= ->]]]; auto.
           ++ split.
              ** intros _. unfold remove_leaf_glue. cbn [root]. destruct (n_parent pd); congruence.
              ** intros _. apply NoDup_cons. split; [|apply NoDup_singleton].
                 rewrite list_elem_of_singleton. exact HPn.
        -- rewrite (removeNode_leaf_stuck key_init_bytes s node nd P pd
                      Hnode Hr Hl Hp HPn HP He Hsib) in Hrm. discriminate.
      * rewrite (removeNode_leaf key_init_bytes s node nd P pd Hnode Hr Hl Hp HPn HP He) in Hrm.
        injection Hrm as <-. exists [node]. unfold remove_leaf. cbn [heap deleted root].
        split; [reflexivity|]. split; [cbn; lia|]. split.
        -- intros q. cbn [In]. rewrite lookup_insert. split.
           ++ intros [<-|[]]. split; [eauto|].
              destruct (decide (P = node)); [contradiction|]. apply lookup_delete_eq.
           ++ intros [[qd Hq] Hnone]. destruct (decide (P = q)); [discriminate|].
              rewrite lookup_delete in Hnone.
              destruct (decide (node = q)); [now left|congruence].
        -- split; [auto|]. intros _. apply NoDup_singleton.
    + rewrite (removeNode_last key_init_bytes s node nd Hnode Hr Hl Hp) in Hrm.
      injection Hrm as <-. exists [node; node]. unfold remove_last. cbn [heap deleted root].
      split; [reflexivity|]. split; [cbn; lia|]. split.
      * intros q. cbn [In]. rewrite !lookup_delete. split.
        -- intros [<-|[<-|[]]]; (split; [eauto|]); now destruct (decide (node = node)).
        -- intros [[qd Hq] Hnone]. destruct (decide (node = q)); [now left|congruence].
      * split; [|congruence]. intros Hnd. apply NoDup_cons in Hnd as [Hnin _].
        exfalso. apply Hnin. now left.
Qed.

End RemoveDeletes.

(** ** Facts about the public members *)

Import BitArrayFacts.

Section Members.
Context {T : Type} (N : nat) (data_init : T) (key_init_bytes : list Z).
Local Abbreviation Node := (@Node T).
Local Abbreviation Trie := (@Trie T).
Local Abbreviation op := (@op T).
Local Abbreviation node_ok := (@node_ok T N).
Local Abbreviation inv_with := (@inv_with T N).
Local Abbreviation inv := (@inv T N).
Local Abbreviation lookupNode := (@lookupNode T N data_init key_init_bytes).
Local Abbreviation removeNode := (@removeNode T key_init_bytes).
Local Abbreviation searchExact := (@searchExact T N).
Local Abbreviation erase := (@erase T N key_init_bytes).
Local Abbreviation run_op := (@run_op T N data_init key_init_bytes).
Local Abbreviation run := (@run T N data_init key_init_bytes).

Implicit Types (s : Trie) (nd : Node) (key k : BitArray.t) (o : op).

(** *** Writing a payload *)

Lemma same_links_refl (a : Node) : same_links a a.
Proof. repeat split. Qed.

Lemma data_eq_refl s : data_eq s s.
Proof. repeat split; eauto using same_links_refl. Qed.

Lemma store_data_eq s p pd (v : T) :
  heap s !! p = Some pd ->
  exists s', store p (with_data v) s = Some s' /\ data_eq s s' /\ deref s' p = Some v.
Proof.
  intros Hp. unfold store. rewrite Hp. cbn [mbind option_bind]. eexists. split; [reflexivity|].
  split; [|unfold deref; cbn [heap set_heap]; now rewrite lookup_insert_eq].
  unfold data_eq, set_heap. cbn [root numNodes next heap].
  split; [reflexivity|]. split; [reflexivity|]. split; [reflexivity|].
  split; [unfold live; cbn [heap]; eapply size_insert_live; eauto|]. split.
  - intros q a Hq. rewrite lookup_insert. destruct (decide (p = q)) as [<-|].
    + rewrite Hp in Hq. injection Hq as <-. eexists. split; [reflexivity|]. repeat split.
    + eauto using same_links_refl.
  - intros q b. rewrite lookup_insert. destruct (decide (p = q)) as [<-|].
    + intros [= <-]. exists pd. split; [assumption|]. repeat split.
    + eauto using same_links_refl.
Qed.

Section DataEq.
Variables (s s' : Trie).
Hypothesis Heq : data_eq s s'.

Lemma data_eq_inv_with rep : inv_with rep s -> inv_with rep s'.
Proof using Heq.
  destruct Heq as (Hroot & Hnum & Hnext & Hlive & Hfwd & Hbwd).
  intros (Hr & Hnodes & Hn). split; [|split].
  - rewrite Hroot. destruct (root s) as [r|].
    + destruct Hr as (rd & Hrd & Hpar). destruct (Hfwd r rd Hrd) as (b & Hb & Hl).
      exists b. split; [assumption|]. destruct Hl as (_ & _ & -> & _). assumption.
    + apply map_eq. intros q. rewrite lookup_empty.
      destruct (heap s' !! q) as [b|] eqn:E; [|reflexivity].
      destruct (Hbwd q b E) as (a & Ha & _). rewrite Hr, lookup_empty in Ha. discriminate.
  - intros p b Hb. destruct (Hbwd p b Hb) as (a & Ha & Hl1 & Hl2 & Hl3 & Hl4 & Hl5).
    destruct (Hnodes p a Ha) as [Hleft Hright Hpar Hk Hglue Hbits Hfresh].
    assert (Hch : forall side oc, child_ok (heap s) rep p a side oc ->
                                  child_ok (heap s') rep p b side oc).
    { intros side [c|]; [|auto]. cbn. intros (cd & Hcd & H1 & H2 & H3).
      destruct (Hfwd c cd Hcd) as (cd' & Hcd' & _ & _ & E3 & _ & E5).
      exists cd'. rewrite E3, E5, Hl5. auto. }
    constructor; rewrite ?Hl1, ?Hl2, ?Hl3, ?Hl4, ?Hl5, ?Hnext; auto.
    destruct (n_parent a) as [q|]; [|congruence].
    destruct Hpar as (qd & Hqd & Hside). destruct (Hfwd q qd Hqd) as (qd' & Hqd' & E1 & E2 & _).
    exists qd'. rewrite E1, E2. auto.
  - now rewrite Hnum, Hlive.
Qed.

Lemma data_eq_inv : inv s -> inv s'.
Proof using Heq. intros [rep H]. exists rep. now apply data_eq_inv_with. Qed.

Lemma data_eq_glue : glue_full s -> glue_full s'.
Proof using Heq.
  destruct Heq as (_ & _ & _ & _ & _ & Hbwd). intros Hg p b Hb E.
  destruct (Hbwd p b Hb) as (a & Ha & Hl1 & Hl2 & _ & Hl4 & _).
  rewrite Hl1, Hl2. apply (Hg p a Ha). now rewrite <- Hl4.
Qed.

Lemma data_eq_stored k : stored s k <-> stored s' k.
Proof using Heq.
  destruct Heq as (_ & _ & _ & _ & Hfwd & Hbwd). unfold stored, is_data. split.
  - intros (p & a & Ha & Hd & Hk). destruct (Hfwd p a Ha) as (b & Hb & _ & _ & _ & E & _).
    exists p, b. rewrite E. auto.
  - intros (p & b & Hb & Hd & Hk). destruct (Hbwd p b Hb) as (a & Ha & _ & _ & _ & E & _).
    exists p, a. rewrite <- E. auto.
Qed.

Lemma data_eq_present k : present s k <-> present s' k.
Proof using Heq.
  unfold present. rewrite data_eq_stored.
  destruct Heq as (Hroot & _ & _ & _ & Hfwd & Hbwd). rewrite Hroot.
  split; (intros [H|(H0 & r & rd & Hr & Hrd & Hb)]; [now left|right; split; [assumption|]]).
  - destruct (Hfwd r rd Hrd) as (b & Hb' & _ & _ & _ & _ & E). exists r, b. rewrite E. auto.
  - destruct (Hbwd r rd Hrd) as (a & Ha & _ & _ & _ & _ & E). exists r, a. rewrite <- E. auto.
Qed.

End DataEq.

(** *** What an insertion does to the stored keys *)

Section Inserted.
Variables (s s' : Trie) (key : BitArray.t) (p : ptr).
Hypothesis Hpost : insert_post N s s' key p.

Lemma ip_stored_old k : stored s k -> stored s' k.
Proof using Hpost.
  intros (q & qd & Hq & Hd & Hk).
  destruct (ip_old _ _ _ _ _ Hpost q qd Hq) as (qd' & Hq' & _ & _ & _ & _ & [E|[_ E]]).
  - exists q, qd'. unfold is_data. rewrite E. auto.
  - unfold is_data in Hd. contradiction.
Qed.

Lemma ip_stored_key : BitArray.bitCount key <> 0 -> stored s' key.
Proof using Hpost.
  intros Hk. destruct (ip_result _ _ _ _ _ Hpost) as (pd & Hp & _ & Heq).
  exists p, pd. split; [assumption|]. split; [|assumption].
  unfold is_data. destruct Heq as [E _]. congruence.
Qed.

Lemma ip_stored_new k :
  stored s' k -> stored s k \/ (BitArray.bitCount key <> 0 /\ key_eq key k).
Proof using Hpost.
  intros (q & qd' & Hq' & Hd & Hk).
  assert (Hp : q = p -> BitArray.bitCount key <> 0 /\ key_eq key k).
  { intros ->. destruct (ip_result _ _ _ _ _ Hpost) as (pd & Hp & _ & Heq).
    rewrite Hq' in Hp. injection Hp as <-. split.
    - destruct Heq as [E _]. unfold is_data in Hd. congruence.
    - eapply key_eq_trans; [apply key_eq_sym; exact Heq|exact Hk]. }
  destruct (heap s !! q) as [qd|] eqn:Hq.
  - destruct (ip_old _ _ _ _ _ Hpost q qd Hq) as (qd'' & Hq'' & _ & _ & _ & _ & [E|[E _]]).
    + rewrite Hq' in Hq''. injection Hq'' as <-. left. exists q, qd.
      unfold is_data in *. rewrite <- E. auto.
    + right. auto.
  - destruct (ip_new _ _ _ _ _ Hpost q qd' Hq' Hq) as [E|(E & _)].
    + right. auto.
    + unfold is_data in Hd. contradiction.
Qed.

Lemma ip_glue_full : BitArray.bitCount key <> 0 -> glue_full s -> glue_full s'.
Proof using Hpost.
  intros Hk Hg q qd' Hq' E0.
  assert (Hp : q <> p).
  { intros ->. destruct (ip_result _ _ _ _ _ Hpost) as (pd & Hp & _ & [E _]).
    rewrite Hq' in Hp. injection Hp as <-. congruence. }
  destruct (heap s !! q) as [qd|] eqn:Hq.
  - destruct (ip_old _ _ _ _ _ Hpost q qd Hq) as (qd'' & Hq'' & _ & _ & Hl & Hr & [E|[E _]]);
      [|contradiction].
    rewrite Hq' in Hq''. injection Hq'' as <-.
    destruct (Hg q qd Hq) as [H1 H2]; [congruence|]. auto.
  - destruct (ip_new _ _ _ _ _ Hpost q qd' Hq' Hq) as [E|(_ & H1 & H2)]; [contradiction|auto].
Qed.

Lemma ip_present_old k : present s k -> present s' k.
Proof using Hpost.
  intros [H|(H0 & r & rd & Hr & Hrd & Hb)]; [left; now apply ip_stored_old|].
  right. split; [assumption|].
  destruct (ip_root _ _ _ _ _ Hpost r rd Hr Hrd) as (r' & rd' & Hr' & Hrd' & Hle).
  exists r', rd'. repeat split; auto. lia.
Qed.

Lemma ip_present_key : present s' key.
Proof using Hpost.
  destruct (Nat.eq_dec (BitArray.bitCount key) 0) as [E|E].
  - right. split; [assumption|]. exact (ip_root0 _ _ _ _ _ Hpost E).
  - left. now apply ip_stored_key.
Qed.

Lemma ip_live_le : live s <= live s' <= live s + 2.
Proof using Hpost. destruct (ip_live _ _ _ _ _ Hpost) as [[_ E]|(_ & _ & H)]; lia. Qed.

Lemma ip_live_present : present s key -> live s' = live s.
Proof using Hpost.
  intros Hpr. destruct (ip_live _ _ _ _ _ Hpost) as [[_ E]|(_ & H & _)];
    [assumption|contradiction].
Qed.

End Inserted.

(** *** One inserting operation *)

Lemma insert_op_post o s :
  is_insert o = true -> inv s -> wf_op N o ->
  exists p s1 s2, run_op o s = Some s2 /\ insert_post N s s1 (op_key o) p /\ data_eq s1 s2.
Proof.
  intros Hins Hinv Hwf.
  destruct (lookupNode_post N data_init key_init_bytes s (op_key o) Hinv Hwf)
    as (p & s1 & Hlook & Hpost).
  destruct o as [k|k v|k]; [| |discriminate]; cbn [op_key] in *.
  - exists p, s1, s1. split; [|split; [assumption|apply data_eq_refl]].
    cbn [run_op]. unfold index. rewrite Hlook. reflexivity.
  - destruct (ip_result _ _ _ _ _ Hpost) as (pd & Hp & _).
    destruct (store_data_eq s1 p pd v Hp) as (s2 & Hst & Heq & _).
    exists p, s1, s2. split; [|split; assumption].
    cbn [run_op]. unfold assign. rewrite Hlook. exact Hst.
Qed.

Lemma insert_op_facts o s :
  is_insert o = true -> inv s -> wf_op N o ->
  exists s', run_op o s = Some s' /\ inv s' /\
    (keyed_op o -> glue_full s -> glue_full s') /\
    (forall k, stored s' k <-> stored s k \/ (keyed_op o /\ key_eq (op_key o) k)) /\
    (forall k, present s k -> present s' k) /\
    present s' (op_key o) /\
    live s <= live s' <= live s + 2 /\
    (present s (op_key o) -> live s' = live s).
Proof.
  intros Hins Hinv Hwf.
  destruct (insert_op_post o s Hins Hinv Hwf) as (p & s1 & s2 & Hrun & Hpost & Heq).
  pose proof Heq as (_ & _ & _ & Hlive & _).
  exists s2. split; [assumption|].
  split; [apply (data_eq_inv s1 s2 Heq), (ip_inv _ _ _ _ _ Hpost)|].
  split; [|split; [|split; [|split; [|split]]]].
  - intros Hk Hg. apply (data_eq_glue s1 s2 Heq). eapply ip_glue_full; eauto.
  - intros k. rewrite <- (data_eq_stored s1 s2 Heq). split.
    + apply (ip_stored_new s s1 _ p Hpost).
    + intros [H|[Hk Hke]]; [eapply ip_stored_old; eauto|].
      destruct (ip_stored_key s s1 _ p Hpost Hk) as (q & qd & Hq & Hd & Hqk).
      exists q, qd. split; [assumption|]. split; [assumption|].
      eapply key_eq_trans; eauto.
  - intros k Hpr. apply (data_eq_present s1 s2 Heq). eapply ip_present_old; eauto.
  - apply (data_eq_present s1 s2 Heq). eapply ip_present_key; eauto.
  - rewrite Hlive. eapply ip_live_le; eauto.
  - intros Hpr. rewrite Hlive. eapply ip_live_present; eauto.
Qed.

(** *** [erase] *)

Lemma not_stored_searchExact s key :
  inv s -> BitArray.wf N key -> ~ stored s key -> searchExact key s = Some None.
Proof.
  intros [rep Hinv] Hwf Hns.
  destruct (searchExact_total N rep s key Hinv) as ([p|] & Hres); [|assumption].
  exfalso. apply Hns.
  destruct (searchExact_sound N rep s key p Hinv Hwf Hres) as (nd & Hp & Hd & Hk).
  now exists p, nd.
Qed.

Lemma stored_searchExact s key :
  inv s -> BitArray.wf N key -> stored s key ->
  exists p nd, searchExact key s = Some (Some p) /\ heap s !! p = Some nd.
Proof.
  intros [rep Hinv] Hwf (p & nd & Hp & Hd & Hk). exists p, nd. split; [|assumption].
  eapply searchExact_complete; eauto.
Qed.

(** Whether a key is stored is decided by [searchExact]. *)
Lemma classic_stored s key :
  inv s -> BitArray.wf N key -> stored s key \/ ~ stored s key.
Proof.
  intros [rep Hinv] Hwf.
  destruct (searchExact_total N rep s key Hinv) as ([p|] & Hres).
  - left. destruct (searchExact_sound N rep s key p Hinv Hwf Hres) as (nd & Hp & Hd & Hk).
    now exists p, nd.
  - right. intros (p & nd & Hp & Hd & Hk).
    rewrite (searchExact_complete N rep s key p nd Hinv Hwf Hp Hd Hk) in Hres. discriminate.
Qed.

Lemma erase_missing s key :
  inv s -> BitArray.wf N key -> ~ stored s key -> erase key s = Some (out_of_range, s).
Proof.
  intros Hinv Hwf Hns. unfold erase.
  now rewrite (not_stored_searchExact s key Hinv Hwf Hns).
Qed.

Lemma erase_post s key r s' :
  inv s -> BitArray.wf N key -> erase key s = Some (r, s') ->
  (r = out_of_range /\ s' = s /\ ~ stored s key) \/
  (r = Ok tt /\ stored s key /\ remove_post N s s').
Proof.
  intros Hinv Hwf He.
  destruct (classic_stored s key Hinv Hwf) as [Hs|Hns].
  - right. destruct (stored_searchExact s key Hinv Hwf Hs) as (p & nd & Hse & Hp).
    unfold erase in He. rewrite Hse in He. cbn [mbind option_bind] in He.
    destruct (removeNode p s) as [s1|] eqn:Hrm; [|discriminate].
    injection He as <- <-. split; [reflexivity|]. split; [assumption|].
    eapply removeNode_post; eauto.
  - left. rewrite (erase_missing s key Hinv Hwf Hns) in He. injection He as <- <-. auto.
Qed.

Lemma erase_total s key :
  inv s -> glue_full s -> BitArray.wf N key -> is_Some (erase key s).
Proof.
  intros Hinv Hg Hwf.
  destruct (classic_stored s key Hinv Hwf) as [Hs|Hns].
  - destruct (stored_searchExact s key Hinv Hwf Hs) as (p & nd & Hse & Hp).
    unfold erase. rewrite Hse. cbn [mbind option_bind].
    destruct (removeNode_total N key_init_bytes s p nd Hinv Hg Hp) as [s1 Hrm].
    rewrite Hrm. eauto.
  - rewrite (erase_missing s key Hinv Hwf Hns). eauto.
Qed.

End Members.

(** ** Facts about programs *)

Import BitArrayFacts.

Section RunFacts.
Context {T : Type} (N : nat) (data_init : T) (key_init_bytes : list Z).
Local Abbreviation Node := (@Node T).
Local Abbreviation Trie := (@Trie T).
Local Abbreviation op := (@op T).
Local Abbreviation inv := (@inv T N).
Local Abbreviation erase := (@erase T N key_init_bytes).
Local Abbreviation run_op := (@run_op T N data_init key_init_bytes).
Local Abbreviation run := (@run T N data_init key_init_bytes).
Local Abbreviation reachable := (@reachable T N data_init key_init_bytes).

Implicit Types (s : Trie) (nd : Node) (key k : BitArray.t) (o : op) (ops : list op).

Lemma inv_BinaryTrie : inv BinaryTrie.
Proof.
  exists (fun _ _ => false). split; [reflexivity|]. split; [|reflexivity].
  intros p nd. cbn [heap BinaryTrie]. rewrite lookup_empty. discriminate.
Qed.

Lemma glue_full_BinaryTrie : glue_full (@BinaryTrie T).
Proof. intros p nd. cbn [heap BinaryTrie]. rewrite lookup_empty. discriminate. Qed.

Lemma not_stored_BinaryTrie k : ~ stored (@BinaryTrie T) k.
Proof. intros (p & nd & Hp & _). cbn [heap BinaryTrie] in Hp. now rewrite lookup_empty in Hp. Qed.

Lemma run_op_erase k s s' :
  run_op (OpErase k) s = Some s' -> exists r, erase k s = Some (r, s').
Proof.
  cbn [run_op]. destruct (erase k s) as [[r s1]|]; [|discriminate].
  cbn. intros [= <-]. eauto.
Qed.

Lemma run_op_inv o s s' : inv s -> wf_op N o -> run_op o s = Some s' -> inv s'.
Proof.
  intros Hinv Hwf Hrun. destruct (is_insert o) eqn:Hins.
  - destruct (insert_op_facts N data_init key_init_bytes o s Hins Hinv Hwf)
      as (s1 & Hrun1 & Hinv1 & _).
    rewrite Hrun in Hrun1. now injection Hrun1 as ->.
  - destruct o as [k|k v|k]; try discriminate.
    destruct (run_op_erase k s s' Hrun) as [r He].
    destruct (erase_post N key_init_bytes s k r s' Hinv Hwf He) as [(_ & -> & _)|(_ & _ & Hpost)];
      [assumption|exact (rp_inv _ _ _ Hpost)].
Qed.

Lemma run_inv ops : forall s s',
  inv s -> Forall (wf_op N) ops -> run ops s = Some s' -> inv s'.
Proof.
  induction ops as [|o ops IH]; intros s s' Hinv Hwf Hrun.
  - cbn in Hrun. now injection Hrun as <-.
  - inversion Hwf as [|? ? Ho Hrest]; subst. cbn [run] in Hrun.
    destruct (run_op o s) as [s1|] eqn:Ho1; [|discriminate]. cbn in Hrun.
    apply (IH s1 s'); [exact (run_op_inv o s s1 Hinv Ho Ho1)|assumption|assumption].
Qed.

(** Every trie a program reaches is well formed. *)
Lemma reachable_inv s : reachable s -> inv s.
Proof. intros (ops & Hwf & Hrun). eapply run_inv; eauto using inv_BinaryTrie. Qed.

(** *** Keys of at least one bit: glue nodes keep both children *)

Lemma run_op_glue o s :
  inv s -> glue_full s -> wf_op N o -> keyed_op o ->
  exists s', run_op o s = Some s' /\ inv s' /\ glue_full s'.
Proof.
  intros Hinv Hg Hwf Hk. destruct (is_insert o) eqn:Hins.
  - destruct (insert_op_facts N data_init key_init_bytes o s Hins Hinv Hwf)
      as (s1 & Hrun1 & Hinv1 & Hg1 & _).
    exists s1. auto.
  - destruct o as [k|k v|k]; try discriminate. cbn [op_key] in *.
    destruct (erase_total N key_init_bytes s k Hinv Hg Hwf) as [[r s1] He].
    exists s1. split; [cbn [run_op]; now rewrite He|].
    destruct (erase_post N key_init_bytes s k r s1 Hinv Hwf He) as [(_ & -> & _)|(_ & _ & Hpost)];
      [auto|].
    split; [exact (rp_inv _ _ _ Hpost)|exact (rp_glue _ _ _ Hpost Hg)].
Qed.

Lemma run_glue ops : forall s,
  inv s -> glue_full s -> Forall (fun o => wf_op N o /\ keyed_op o) ops ->
  exists s', run ops s = Some s' /\ inv s' /\ glue_full s'.
Proof.
  induction ops as [|o ops IH]; intros s Hinv Hg Hall.
  - exists s. auto.
  - inversion Hall as [|? ? [Hwf Hk] Hrest]; subst.
    destruct (run_op_glue o s Hinv Hg Hwf Hk) as (s1 & Hrun1 & Hinv1 & Hg1).
    destruct (IH s1 Hinv1 Hg1 Hrest) as (s' & Hrun & Hinv' & Hg').
    exists s'. cbn [run]. rewrite Hrun1. auto.
Qed.

(** *** Insertions only: the stored keys are the inserted keys *)

Lemma inserted_cons o ops k :
  inserted (o :: ops) k <->
  (is_insert o = true /\ keyed_op o /\ key_eq (op_key o) k) \/ inserted ops k.
Proof.
  unfold inserted. split.
  - intros (o' & [<-|Hin] & H); [left; assumption|right; eauto].
  - intros [H|(o' & Hin & H)]; [exists o|exists o']; cbn; auto.
Qed.

Lemma run_insert_stored ops : forall s,
  inv s -> Forall (fun o => is_insert o = true /\ wf_op N o) ops ->
  exists s', run ops s = Some s' /\ inv s' /\
             forall k, stored s' k <-> stored s k \/ inserted ops k.
Proof.
  induction ops as [|o ops IH]; intros s Hinv Hall.
  - exists s. split; [reflexivity|]. split; [assumption|]. intros k. split; [auto|].
    intros [H|(o & [] & _)]. assumption.
  - inversion Hall as [|? ? [Hins Hwf] Hrest]; subst.
    destruct (insert_op_facts N data_init key_init_bytes o s Hins Hinv Hwf)
      as (s1 & Hrun1 & Hinv1 & _ & Hst & _).
    destruct (IH s1 Hinv1 Hrest) as (s' & Hrun & Hinv' & Hst').
    exists s'. cbn [run]. rewrite Hrun1. split; [exact Hrun|]. split; [assumption|].
    intros k. rewrite Hst', Hst, inserted_cons. tauto.
Qed.

(** *** Insertions only: at most two nodes for each new key *)

Lemma eqb_key_eq (a b : BitArray.t) :
  BitArray.wf N a -> BitArray.wf N b -> BitArray.eqb a b = true -> key_eq a b.
Proof.
  intros Ha Hb. unfold BitArray.eqb.
  destruct (Nat.eqb_spec (BitArray.bitCount a) (BitArray.bitCount b)) as [E|]; [|discriminate].
  intros Hc. apply (compareBits_spec N a b _ Ha Hb) in Hc. split; tauto.
Qed.

Lemma present_key_eq s (a b : BitArray.t) : key_eq a b -> present s a -> present s b.
Proof.
  intros Hab [(p & nd & Hp & Hd & Hk)|(H0 & Hr)].
  - left. exists p, nd. eauto using key_eq_trans.
  - right. destruct Hab as [E _]. split; [congruence|assumption].
Qed.

Lemma run_insert_live ops : forall seen s,
  inv s -> Forall (fun o => is_insert o = true /\ wf_op N o) ops ->
  Forall (BitArray.wf N) seen -> (forall k, In k seen -> present s k) ->
  exists s', run ops s = Some s' /\
             live s' <= live s + 2 * distinct_from seen (map op_key ops).
Proof.
  induction ops as [|o ops IH]; intros seen s Hinv Hall Hseen Hpres.
  - exists s. split; [reflexivity|]. cbn. lia.
  - inversion Hall as [|? ? [Hins Hwf] Hrest]; subst.
    destruct (insert_op_facts N data_init key_init_bytes o s Hins Hinv Hwf)
      as (s1 & Hrun1 & Hinv1 & _ & _ & Hold & Hnew & Hlive & Hsame).
    cbn [map distinct_from run]. rewrite Hrun1. cbn [mbind option_bind].
    destruct (existsb (BitArray.eqb (op_key o)) seen) eqn:Hex.
    + apply existsb_exists in Hex. destruct Hex as (k0 & Hin & Heq).
      assert (Hk0 : BitArray.wf N k0)
        by (apply (proj1 (List.Forall_forall _ _) Hseen); assumption).
      assert (Hpr : present s (op_key o)).
      { apply (present_key_eq s k0); [|auto].
        apply key_eq_sym. now apply eqb_key_eq. }
      destruct (IH seen s1 Hinv1 Hrest Hseen) as (s' & Hrun & Hle); [auto|].
      exists s'. split; [assumption|]. rewrite (Hsame Hpr) in Hle. exact Hle.
    + destruct (IH (op_key o :: seen) s1 Hinv1 Hrest) as (s' & Hrun & Hle).
      * constructor; assumption.
      * intros k [<-|Hin]; auto.
      * exists s'. split; [assumption|]. lia.
Qed.

End RunFacts.

(** ** Facts about the keys and payloads of a trie *)

Import BitArrayFacts.

Section KeyFacts.
Context {T : Type} (N : nat) (data_init : T) (key_init_bytes : list Z).
Local Abbreviation Node := (@Node T).
Local Abbreviation Trie := (@Trie T).
Local Abbreviation op := (@op T).
Local Abbreviation node_ok := (@node_ok T N).
Local Abbreviation inv_with := (@inv_with T N).
Local Abbreviation inv := (@inv T N).
Local Abbreviation lookupNode := (@lookupNode T N data_init key_init_bytes).
Local Abbreviation removeNode := (@removeNode T key_init_bytes).
Local Abbreviation searchExact := (@searchExact T N).
Local Abbreviation erase := (@erase T N key_init_bytes).
Local Abbreviation assign := (@assign T N data_init key_init_bytes).
Local Abbreviation run_op := (@run_op T N data_init key_init_bytes).
Local Abbreviation run := (@run T N data_init key_init_bytes).

Implicit Types (s : Trie) (nd : Node) (key k : BitArray.t) (o : op).

Lemma data_key_wf rep s p nd :
  inv_with rep s -> heap s !! p = Some nd -> is_data nd -> BitArray.wf N (n_key nd).
Proof.
  intros (_ & Hnodes & _) Hp Hd.
  destruct (ok_key _ _ _ _ _ (Hnodes p nd Hp)) as [H0|(_ & Hwf & _)]; [contradiction|assumption].
Qed.

(** No two data nodes hold the same key. *)
Lemma data_key_unique rep s p pd q qd :
  inv_with rep s -> heap s !! p = Some pd -> heap s !! q = Some qd ->
  is_data pd -> is_data qd -> key_eq (n_key pd) (n_key qd) -> p = q.
Proof.
  intros Hinv Hp Hq Hdp Hdq Heq.
  pose proof (data_key_wf rep s q qd Hinv Hq Hdq) as Hwf.
  pose proof (searchExact_complete N rep s (n_key qd) p pd Hinv Hwf Hp Hdp Heq) as H1.
  pose proof (searchExact_complete N rep s (n_key qd) q qd Hinv Hwf Hq Hdq (key_eq_refl _)) as H2.
  congruence.
Qed.

(** [lookupNode] on a key that a data node holds returns that node and
    writes nothing. *)
Lemma lookupNode_stored rep s key d dd :
  inv_with rep s -> BitArray.wf N key ->
  heap s !! d = Some dd -> is_data dd -> key_eq (n_key dd) key ->
  lookupNode key s = Some (d, s).
Proof.
  intros Hinv Hkey Hd Hdata Heq. pose proof Hinv as (_ & Hnodes & _).
  destruct (inv_live_root N rep s d dd Hinv Hd) as (r & rd & Hr & Hrd & _).
  destruct (lookup_walk N rep s key r Hinv Hkey Hr) as (t & td & diffBit & node & nd & W).
  assert (Hpres : present s key) by (left; now exists d, dd).
  destruct (walk_hit N rep s key r t td diffBit node nd Hinv Hr W Hpres) as [Hdiff Hbits].
  pose proof (w_node _ _ _ _ _ _ _ _ _ _ W) as Hnode.
  assert (Hnd : node = d).
  { destruct (data_prefix_follows N rep s key d dd Hinv Hd Hdata) as [Hb Hfol].
    { destruct Heq as [Hc Hag]. split; [lia|assumption]. }
    pose proof (kpath_to_node N s rep Hnodes key r Hr _ d dd Hd eq_refl Hfol) as Hrd'.
    pose proof (w_root_node _ _ _ _ _ _ _ _ _ _ W) as Hrn.
    assert (Hsame : n_bits nd = n_bits dd).
    { destruct Heq as [Hc _]. unfold BitArray.size in Hbits. lia. }
    destruct (kpath_linear _ _ _ _ _ Hrn Hrd') as [H|H].
    - exact (kpath_neq_bits N s rep Hnodes key node d nd dd H Hnode Hd Hsame).
    - symmetry. exact (kpath_neq_bits N s rep Hnodes key d node dd nd H Hd Hnode (eq_sym Hsame)). }
  subst node. rewrite Hd in Hnode. injection Hnode as <-.
  rewrite (case_exact N data_init key_init_bytes rep s key r t td diffBit d dd Hr W Hdiff Hbits).
  apply empty_false_data in Hdata. now rewrite Hdata.
Qed.

(** *** [holds] and the lookups *)

Lemma holds_stored s k : stored s k <-> exists v, holds s k v.
Proof.
  split.
  - intros (p & pd & Hp & Hd & Hk). exists (n_data pd), p, pd. auto.
  - intros (v & p & pd & Hp & Hd & Hk & _). now exists p, pd.
Qed.

Lemma holds_at s k v :
  inv s -> BitArray.wf N k ->
  (holds s k v <-> exists p, at_ N k s = Some (Ok p) /\ deref s p = Some v).
Proof.
  intros [rep Hinv] Hk. unfold at_, deref. split.
  - intros (p & pd & Hp & Hd & Heq & Hv). exists p.
    rewrite (searchExact_complete N rep s k p pd Hinv Hk Hp Hd Heq). cbn.
    rewrite Hp. cbn. now rewrite Hv.
  - intros (p & Hat & Hv).
    destruct (searchExact k s) as [[p'|]|] eqn:Hse; cbn in Hat; try discriminate.
    injection Hat as ->.
    destruct (searchExact_sound N rep s k p Hinv Hk Hse) as (pd & Hp & Hd & Heq).
    rewrite Hp in Hv. cbn in Hv. injection Hv as <-. now exists p, pd.
Qed.

Lemma at_Ok_node s key p :
  inv s -> BitArray.wf N key -> at_ N key s = Some (Ok p) ->
  exists nd, heap s !! p = Some nd /\ is_data nd /\ key_eq (n_key nd) key.
Proof.
  intros [rep Hinv] Hkey. unfold at_.
  destruct (searchExact key s) as [[p'|]|] eqn:Hse; cbn; try discriminate.
  intros [= ->]. exact (searchExact_sound N rep s key p Hinv Hkey Hse).
Qed.

Lemma holds_fun rep s k v v' : inv_with rep s -> holds s k v -> holds s k v' -> v = v'.
Proof.
  intros Hinv (p & pd & Hp & Hd & Hk & <-) (q & qd & Hq & Hdq & Hkq & <-).
  assert (p = q) as ->.
  { eapply (data_key_unique rep s); eauto.
    eapply key_eq_trans; [exact Hk|]. now apply key_eq_sym. }
  congruence.
Qed.

Lemma holds_key_eq s k k' v : key_eq k k' -> holds s k v -> holds s k' v.
Proof.
  intros Hkk (p & pd & Hp & Hd & Hk & Hv). exists p, pd. eauto using key_eq_trans.
Qed.

(** *** One update *)

Lemma assign_holds s key (v' : T) :
  inv s -> BitArray.wf N key -> BitArray.bitCount key <> 0 ->
  exists s2 p,
    assign key v' s = Some s2 /\ inv s2 /\ (glue_full s -> glue_full s2) /\
    heap s2 !! p = (with_data v' <$> heap s2 !! p) /\
    forall k v, holds s2 k v <-> (key_eq key k /\ v = v') \/ (~ key_eq key k /\ holds s k v).
Proof.
  intros Hinv Hkey Hlen.
  destruct (lookupNode_post N data_init key_init_bytes s key Hinv Hkey)
    as (p & s1 & Hlook & Hpost).
  destruct (ip_result _ _ _ _ _ Hpost) as (pd & Hp & _ & Hpk).
  destruct (store_data_eq s1 p pd v' Hp) as (s2 & Hst & Heq & _).
  pose proof (store_live s1 p (with_data v') pd Hp) as Hst'.
  assert (Hs2 : s2 = set_heap (<[p := with_data v' pd]> (heap s1)) s1) by congruence.
  assert (Hdp : is_data pd) by (unfold is_data; destruct Hpk as [E _]; congruence).
  pose proof (ip_inv _ _ _ _ _ Hpost) as [rep1 Hinv1].
  exists s2, p. split; [unfold assign; rewrite Hlook; exact Hst|].
  split; [apply (data_eq_inv N s1 s2 Heq); now exists rep1|].
  split; [intros Hg; apply (data_eq_glue s1 s2 Heq), (ip_glue_full N s s1 key p Hpost Hlen Hg)|].
  split; [rewrite Hs2; cbn [heap set_heap]; now rewrite lookup_insert_eq|].
  intros k v. rewrite Hs2. unfold holds. cbn [heap set_heap]. split.
  - intros (q & qd2 & Hq & Hd & Hk & Hv). rewrite lookup_insert in Hq.
    destruct (decide (p = q)) as [<-|Hne].
    + injection Hq as <-. left. split; [|now symmetry].
      eapply key_eq_trans; [apply key_eq_sym; exact Hpk|exact Hk].
    + right. split.
      * intros Hkk. apply Hne.
        eapply (data_key_unique rep1 s1 p pd q qd2); eauto.
        eapply key_eq_trans; [exact Hpk|].
        eapply key_eq_trans; [exact Hkk|]. now apply key_eq_sym.
      * destruct (heap s !! q) as [qd|] eqn:Hq0.
        -- destruct (ip_old _ _ _ _ _ Hpost q qd Hq0) as (qd' & Hq' & _ & Hdat & _ & _ & Hkey').
           rewrite Hq in Hq'. injection Hq' as <-.
           destruct Hkey' as [E|[E _]]; [|congruence].
           exists q, qd. unfold is_data in *. rewrite <- E, <- Hdat. auto.
        -- destruct (ip_new _ _ _ _ _ Hpost q qd2 Hq Hq0) as [E|(E & _)]; [congruence|].
           unfold is_data in Hd. contradiction.
  - intros [[Hkk ->]|(Hnk & q & qd & Hq & Hd & Hk & Hv)].
    + exists p, (with_data v' pd). rewrite lookup_insert_eq.
      split; [reflexivity|]. split; [exact Hdp|]. split; [|reflexivity].
      eapply key_eq_trans; [exact Hpk|exact Hkk].
    + destruct (ip_old _ _ _ _ _ Hpost q qd Hq) as (qd' & Hq' & _ & Hdat & _ & _ & Hkey').
      destruct Hkey' as [E|[_ E]]; [|unfold is_data in Hd; contradiction].
      assert (Hne : p <> q).
      { intros <-. rewrite Hp in Hq'. injection Hq' as <-. apply Hnk.
        eapply key_eq_trans; [apply key_eq_sym; exact Hpk|]. now rewrite E. }
      exists q, qd'. rewrite lookup_insert_ne by assumption.
      unfold is_data. rewrite E, Hdat. auto.
Qed.

Lemma erase_holds s key r s' :
  inv s -> BitArray.wf N key -> erase key s = Some (r, s') ->
  forall k v, holds s' k v <-> holds s k v /\ ~ key_eq key k.
Proof.
  intros Hinv Hkey He k v.
  destruct (classic_stored N s key Hinv Hkey) as [Hs|Hns].
  - destruct Hinv as [rep Hinv].
    destruct (stored_searchExact N s key (ex_intro _ rep Hinv) Hkey Hs) as (p & nd0 & Hse & _).
    destruct (searchExact_sound N rep s key p Hinv Hkey Hse) as (pd & Hp & Hdp & Hpk).
    unfold erase in He. rewrite Hse in He. cbn [mbind option_bind] in He.
    destruct (removeNode p s) as [s1|] eqn:Hrm; [|discriminate].
    injection He as _ <-.
    destruct (removeNode_keys N key_init_bytes rep s p pd s1 Hinv Hp Hrm) as [H1 H2].
    unfold holds. split.
    + intros (q & qd' & Hq & Hd & Hk & Hv).
      destruct (H1 q qd' Hq Hd) as (Hne & qd & Hq0 & Ek & Ed).
      assert (Hdq : is_data qd) by (unfold is_data in *; now rewrite <- Ek).
      split; [exists q, qd; rewrite <- Ek, <- Ed; auto|].
      intros Hkk. apply Hne. symmetry.
      eapply (data_key_unique rep s p pd q qd); eauto.
      eapply key_eq_trans; [exact Hpk|].
      eapply key_eq_trans; [exact Hkk|]. apply key_eq_sym. now rewrite <- Ek.
    + intros [(q & qd & Hq & Hd & Hk & Hv) Hnk].
      assert (Hne : q <> p).
      { intros ->. rewrite Hp in Hq. injection Hq as <-. apply Hnk.
        eapply key_eq_trans; [apply key_eq_sym; exact Hpk|exact Hk]. }
      destruct (H2 q qd Hq Hd Hne) as (qd' & Hq' & Ek & Ed).
      exists q, qd'. unfold is_data in *. rewrite Ek, Ed. auto.
  - rewrite (erase_missing N key_init_bytes s key Hinv Hkey Hns) in He.
    injection He as _ <-. split; [|tauto].
    intros Hh. split; [assumption|]. intros Hkk. apply Hns.
    apply holds_stored. exists v. apply (holds_key_eq s k key v); [|assumption].
    now apply key_eq_sym.
Qed.

(** A successful [erase] is one [removeNode] of a live node. *)
Lemma erase_Ok_removeNode s key s' :
  inv s -> BitArray.wf N key -> erase key s = Some (Ok tt, s') ->
  exists rep p pd, inv_with rep s /\ heap s !! p = Some pd /\
                   removeNode p s = Some s'.
Proof.
  intros [rep Hinv] Hkey He. unfold erase in He.
  destruct (searchExact key s) as [[p|]|] eqn:Hse; cbn [mbind option_bind] in He;
    [|discriminate|discriminate].
  destruct (searchExact_sound N rep s key p Hinv Hkey Hse) as (pd & Hp & _).
  destruct (removeNode p s) as [s1|] eqn:Hrm; [|discriminate].
  injection He as <-. exists rep, p, pd. auto.
Qed.

Lemma erase_stored_iff s key r s' :
  inv s -> BitArray.wf N key -> erase key s = Some (r, s') ->
  forall k, stored s' k <-> stored s k /\ ~ key_eq key k.
Proof.
  intros Hinv Hkey He k. rewrite !holds_stored. split.
  - intros [v Hv]. apply (erase_holds s key r s' Hinv Hkey He) in Hv. destruct Hv. eauto.
  - intros [[v Hv] Hnk]. exists v. apply (erase_holds s key r s' Hinv Hkey He). auto.
Qed.

(** *** A whole program *)

Lemma run_keys (ops : list op) : forall s (K : BitArray.t -> Prop),
  inv s -> glue_full s -> Forall (fun o => wf_op N o /\ keyed_op o) ops ->
  (forall k, stored s k <-> K k) ->
  exists s', run ops s = Some s' /\ inv s' /\ glue_full s' /\
             forall k, stored s' k <-> fold_left keys_step ops K k.
Proof.
  induction ops as [|o ops IH]; intros s K Hinv Hg Hall HK.
  - exists s. cbn. auto.
  - inversion Hall as [|? ? [Hwf Hkd] Hrest]; subst.
    assert (Hstep : exists s1, run_op o s = Some s1 /\ inv s1 /\ glue_full s1 /\
                               forall k, stored s1 k <-> keys_step K o k).
    { unfold keys_step. destruct (is_insert o) eqn:Hins.
      - destruct (insert_op_facts N data_init key_init_bytes o s Hins Hinv Hwf)
          as (s1 & Hrun1 & Hinv1 & Hg1 & Hst & _).
        exists s1. split; [assumption|]. split; [assumption|]. split; [auto|].
        intros k. rewrite Hst, HK. unfold keyed_op in *. tauto.
      - destruct o as [k0|k0 v0|k0]; try discriminate. cbn [op_key] in *.
        destruct (erase_total N key_init_bytes s k0 Hinv Hg Hwf) as [[r s1] He].
        exists s1. split; [cbn [run_op]; now rewrite He|].
        destruct (erase_post N key_init_bytes s k0 r s1 Hinv Hwf He)
          as [(_ & E & _)|(_ & _ & Hpost)].
        + subst s1. split; [assumption|]. split; [assumption|].
          intros k. rewrite (erase_stored_iff s k0 r s Hinv Hwf He k), HK. tauto.
        + split; [exact (rp_inv _ _ _ Hpost)|]. split; [exact (rp_glue _ _ _ Hpost Hg)|].
          intros k. rewrite (erase_stored_iff s k0 r s1 Hinv Hwf He k), HK. tauto. }
    destruct Hstep as (s1 & Hrun1 & Hinv1 & Hg1 & HK1).
    destruct (IH s1 (keys_step K o) Hinv1 Hg1 Hrest HK1) as (s' & Hrun & Hinv' & Hg' & HK').
    exists s'. cbn [run fold_left]. rewrite Hrun1. auto.
Qed.

Lemma run_vals (ops : list op) : forall s (R : BitArray.t -> T -> Prop),
  inv s -> glue_full s ->
  Forall (fun o => wf_op N o /\ keyed_op o /\ is_update o = true) ops ->
  (forall k v, holds s k v <-> R k v) ->
  exists s', run ops s = Some s' /\ inv s' /\ glue_full s' /\
             forall k v, holds s' k v <-> fold_left vals_step ops R k v.
Proof.
  induction ops as [|o ops IH]; intros s R Hinv Hg Hall HR.
  - exists s. cbn. auto.
  - inversion Hall as [|? ? (Hwf & Hkd & Hup) Hrest]; subst.
    assert (Hstep : exists s1, run_op o s = Some s1 /\ inv s1 /\ glue_full s1 /\
                               forall k v, holds s1 k v <-> vals_step R o k v).
    { destruct o as [k0|k0 v0|k0]; [discriminate| |]; cbn [op_key vals_step run_op] in *.
      - destruct (assign_holds s k0 v0 Hinv Hwf Hkd) as (s1 & p & Has & Hinv1 & Hg1 & _ & Hh).
        exists s1. split; [assumption|]. split; [assumption|]. split; [auto|].
        intros k v. rewrite Hh, HR. tauto.
      - destruct (erase_total N key_init_bytes s k0 Hinv Hg Hwf) as [[r s1] He].
        exists s1. split; [now rewrite He|].
        destruct (erase_post N key_init_bytes s k0 r s1 Hinv Hwf He)
          as [(_ & E & _)|(_ & _ & Hpost)].
        + subst s1. split; [assumption|]. split; [assumption|].
          intros k v. rewrite (erase_holds s k0 r s Hinv Hwf He k v), HR. tauto.
        + split; [exact (rp_inv _ _ _ Hpost)|]. split; [exact (rp_glue _ _ _ Hpost Hg)|].
          intros k v. rewrite (erase_holds s k0 r s1 Hinv Hwf He k v), HR. tauto. }
    destruct Hstep as (s1 & Hrun1 & Hinv1 & Hg1 & HR1).
    destruct (IH s1 (vals_step R o) Hinv1 Hg1 Hrest HR1) as (s' & Hrun & Hinv' & Hg' & HR').
    exists s'. cbn [run fold_left]. rewrite Hrun1. auto.
Qed.

(** *** A trie without keys has no nodes *)

Lemma has_leaf rep s :
  inv_with rep s ->
  forall b q qd, heap s !! q = Some qd -> N * 8 - n_bits qd <= b ->
    exists l ld, heap s !! l = Some ld /\ n_left ld = None /\ n_right ld = None.
Proof.
  intros Hinv. pose proof Hinv as (_ & Hnodes & _).
  induction b as [|b IH]; intros q qd Hq Hb.
  - destruct (n_left qd) as [c|] eqn:Hl; [|destruct (n_right qd) as [c|] eqn:Hr; [|eauto]].
    + destruct (child_live N s rep q qd c (Hnodes q qd Hq) ltac:(auto)) as (cd & Hc & _ & Hlt).
      pose proof (ok_bits _ _ _ _ _ (Hnodes c cd Hc)). lia.
    + destruct (child_live N s rep q qd c (Hnodes q qd Hq) ltac:(auto)) as (cd & Hc & _ & Hlt).
      pose proof (ok_bits _ _ _ _ _ (Hnodes c cd Hc)). lia.
  - destruct (n_left qd) as [c|] eqn:Hl; [|destruct (n_right qd) as [c|] eqn:Hr; [|eauto]].
    + destruct (child_live N s rep q qd c (Hnodes q qd Hq) ltac:(auto)) as (cd & Hc & _ & Hlt).
      apply (IH c cd Hc). lia.
    + destruct (child_live N s rep q qd c (Hnodes q qd Hq) ltac:(auto)) as (cd & Hc & _ & Hlt).
      apply (IH c cd Hc). lia.
Qed.

Lemma no_keys_no_nodes s :
  inv s -> glue_full s -> (forall k, ~ stored s k) ->
  heap s = ∅ /\ root s = None /\ numNodes s = 0%Z.
Proof.
  intros [rep Hinv] Hg Hno.
  assert (He : heap s = ∅).
  { apply map_eq. intros q. rewrite lookup_empty.
    destruct (heap s !! q) as [qd|] eqn:Hq; [exfalso|reflexivity].
    destruct (has_leaf rep s Hinv (N * 8) q qd Hq ltac:(lia)) as (l & ld & Hl & H1 & H2).
    destruct (Nat.eq_dec (BitArray.bitCount (n_key ld)) 0) as [E|E].
    - destruct (Hg l ld Hl E) as [H _]. contradiction.
    - apply (Hno (n_key ld)). exists l, ld. split; [assumption|]. split; [exact E|].
      apply key_eq_refl. }
  split; [assumption|]. destruct Hinv as (Hroot & _ & Hnum). split.
  - destruct (root s) as [r|]; [|reflexivity].
    destruct Hroot as (rd & Hrd & _). rewrite He, lookup_empty in Hrd. discriminate.
  - rewrite Hnum. unfold live. rewrite He, map_size_empty. reflexivity.
Qed.

(** *** The scratch stack of [searchBest] *)

Lemma stack_ok_length (h : gmap nat Node) bound stack :
  stack_ok h bound stack -> length stack <= bound.
Proof.
  revert bound. induction stack as [|m rest IH]; intros bound; cbn; [lia|].
  intros (md & _ & _ & Hlt & Hrest). specialize (IH _ Hrest). lia.
Qed.

Lemma searchBest_stack_bound rep s key fuel r res st fin :
  inv_with rep s -> root s = Some r ->
  searchBest_loop fuel key (heap s) r [] = Some (res, st) ->
  searchBest_push (heap s) res st = Some fin ->
  length fin <= N * 8 + 1.
Proof.
  intros Hinv Hr Hloop Hpush. pose proof Hinv as (Hroot & Hnodes & _).
  rewrite Hr in Hroot. destruct Hroot as (rd & Hrd & _).
  destruct (searchBest_loop_sorted N s rep Hnodes key _ r rd [] res st fin Hrd I Hloop Hpush)
    as (bound & Hsorted).
  destruct fin as [|m rest]; [cbn; lia|]. cbn in Hsorted.
  destruct Hsorted as (md & Hm & _ & _ & Hrest).
  apply stack_ok_length in Hrest.
  pose proof (ok_bits _ _ _ _ _ (Hnodes m md Hm)). cbn [length]. lia.
Qed.

(** The walk of [searchBest] ends by its own test within [N * 8 + 1]
    rounds. *)
Lemma searchBest_walk_total rep s key r :
  inv_with rep s -> root s = Some r ->
  exists res st fin, searchBest_loop (max_depth N) key (heap s) r [] = Some (res, st) /\
                     searchBest_push (heap s) res st = Some fin.
Proof.
  intros Hinv Hr. pose proof Hinv as (Hroot & Hnodes & _).
  rewrite Hr in Hroot. destruct Hroot as (rd & Hrd & _).
  destruct (searchBest_loop_total N s rep Hnodes key (max_depth N) r rd [] Hrd)
    as (res & st & Hloop & [fin Hfin]).
  { unfold max_depth. lia. }
  exists res, st, fin. auto.
Qed.

End KeyFacts.

(** ** Facts about [clear] *)

Import BitArrayFacts.

Section ClearFacts.
Context {T : Type} (N : nat).
Local Abbreviation Node := (@Node T).
Local Abbreviation Trie := (@Trie T).
Local Abbreviation node_ok := (@node_ok T N).
Local Abbreviation inv_with := (@inv_with T N).

Implicit Types (s : Trie) (nd : Node) (h : gmap nat Node).

Section Loop.
Variables (rep : nat -> nat -> bool) (s0 : Trie).
Hypothesis Hinv : inv_with rep s0.

Lemma cl_nodes : forall p pd, heap s0 !! p = Some pd -> node_ok s0 rep p pd.
Proof using Hinv. now destruct Hinv as (_ & H & _). Qed.

Lemma forest_start r : root s0 = Some r -> forest (heap s0) (heap s0) [r].
Proof using Hinv.
  intros Hr. destruct Hinv as (Hroot & Hnodes & _). rewrite Hr in Hroot.
  destruct Hroot as (rd & Hrd & Hpar).
  split; [auto|]. split; [|split; [|split]].
  - intros q x c Hq Hc. destruct (child_live N s0 rep q x c (Hnodes q x Hq) Hc) as (cd & H & _).
    eauto.
  - intros q x Hq. destruct (n_parent x) as [par|] eqn:Hp.
    + right. destruct (parent_ok N s0 rep Hnodes q x par Hq Hp) as (pd & Hpd & _). eauto.
    + left. pose proof (ok_parent _ _ _ _ _ (Hnodes q x Hq)) as H. rewrite Hp, Hr in H.
      injection H as ->. now left.
  - intros q [<-|[]]. exists rd. split; [assumption|]. intros par E. congruence.
  - apply NoDup_singleton.
Qed.

(** Once nothing is pending, nothing is left. *)
Lemma forest_done h : forest (heap s0) h [] -> h = ∅.
Proof using Hinv.
  intros (F1 & _ & F3 & _ & _).
  assert (Hno : forall b q x, h !! q = Some x -> n_bits x <= b -> False).
  { induction b as [b IH] using lt_wf_ind. intros q x Hq Hb.
    destruct (F3 q x Hq) as [[]|(par & Hp & [pd Hpd])].
    destruct (parent_ok N s0 rep cl_nodes q x par (F1 q x Hq) Hp) as (pd' & Hpd' & Hlt & _).
    rewrite (F1 par pd Hpd) in Hpd'. injection Hpd' as <-.
    apply (IH (n_bits pd) ltac:(lia) par pd Hpd). lia. }
  apply map_eq. intros q. rewrite lookup_empty.
  destruct (h !! q) as [x|] eqn:Hq; [exfalso; eapply Hno; eauto|reflexivity].
Qed.

(** Deleting a pending node makes its children pending. *)
Lemma forest_step h p xd stack kids :
  forest (heap s0) h (p :: stack) -> h !! p = Some xd ->
  (forall c, In c kids <-> n_left xd = Some c \/ n_right xd = Some c) -> NoDup kids ->
  forest (heap s0) (delete p h) (kids ++ stack).
Proof using Hinv.
  intros (F1 & F2 & F3 & F4 & F5) Hp Hkids Hnd.
  pose proof (F1 p xd Hp) as Hp0.
  assert (Hkid : forall c, In c kids ->
            exists cd, h !! c = Some cd /\ n_parent cd = Some p /\ c <> p).
  { intros c Hc. apply Hkids in Hc.
    destruct (F2 p xd c Hp Hc) as [cd Hcd].
    destruct (child_live N s0 rep p xd c (cl_nodes p xd Hp0) Hc) as (cd' & Hcd' & Hpar & Hlt).
    rewrite (F1 c cd Hcd) in Hcd'. injection Hcd' as <-.
    exists cd. split; [assumption|]. split; [assumption|].
    intros ->. rewrite Hp in Hcd. injection Hcd as <-. lia. }
  assert (Hpp : forall par, n_parent xd = Some par -> h !! par = None).
  { destruct (F4 p ltac:(now left)) as (x & Hx & H). rewrite Hp in Hx. now injection Hx as <-. }
  inversion F5 as [|? ? Hnotin Hnd']; subst.
  split; [|split; [|split; [|split]]].
  - intros q x. rewrite lookup_delete. destruct (decide (p = q)); [discriminate|]. apply F1.
  - intros q x c. rewrite !lookup_delete. destruct (decide (p = q)) as [|Hne]; [discriminate|].
    intros Hq Hc. destruct (decide (p = c)) as [<-|_]; [|eapply F2; eauto].
    exfalso.
    destruct (child_live N s0 rep q x p (cl_nodes q x (F1 q x Hq)) Hc) as (pd' & Hpd' & Hpar & _).
    rewrite Hp0 in Hpd'. injection Hpd' as <-.
    rewrite (Hpp q Hpar) in Hq. discriminate.
  - intros q x. rewrite lookup_delete. destruct (decide (p = q)) as [|Hne]; [discriminate|].
    intros Hq. destruct (F3 q x Hq) as [[E|Hin]|(par & Hpar & Hlive)]; [contradiction| |].
    + left. apply in_or_app. now right.
    + destruct (decide (par = p)) as [->|Hnp].
      * left. apply in_or_app. left. apply Hkids.
        destruct (parent_ok N s0 rep cl_nodes q x p (F1 q x Hq) Hpar)
          as (pd' & Hpd' & _ & _ & Hside).
        rewrite Hp0 in Hpd'. injection Hpd' as <-.
        destruct Hside as [[H _]|[H _]]; auto.
      * right. exists par. split; [assumption|]. rewrite lookup_delete_ne by congruence.
        assumption.
  - intros q Hq. apply in_app_or in Hq. destruct Hq as [Hq|Hq].
    + destruct (Hkid q Hq) as (cd & Hcd & Hpar & Hne). exists cd.
      rewrite lookup_delete_ne by congruence. split; [assumption|].
      intros par E. rewrite Hpar in E. injection E as <-. apply lookup_delete_eq.
    + destruct (F4 q ltac:(now right)) as (x & Hx & Hnone).
      assert (q <> p) by (intros ->; apply Hnotin, list_elem_of_In; assumption).
      exists x. rewrite lookup_delete_ne by congruence. split; [assumption|].
      intros par E. rewrite lookup_delete. destruct (decide (p = par)); [reflexivity|auto].
  - apply NoDup_app. split; [assumption|]. split; [|assumption].
    intros c Hc%list_elem_of_In Hin%list_elem_of_In.
    destruct (Hkid c Hc) as (cd & Hcd & Hpar & _).
    destruct (F4 c ltac:(now right)) as (x & Hx & Hnone).
    rewrite Hcd in Hx. injection Hx as <-. rewrite (Hnone p Hpar) in Hp. discriminate.
Qed.

(** What the loop returns. *)
Lemma clear_loop_spec fuel : forall p stack s,
  forest (heap s0) (heap s) (p :: stack) -> base.size (heap s) < fuel ->
  exists s' ds,
    clear_loop fuel (Some p) stack s = Some s' /\
    heap s' = ∅ /\ root s' = root s /\ numNodes s' = numNodes s /\ next s' = next s /\
    deleted s' = ds ++ deleted s /\ NoDup ds /\
    forall q, In q ds <-> is_Some (heap s !! q).
Proof using Hinv.
  induction fuel as [|fuel IH]; intros p stack s HF Hfuel; [lia|].
  destruct HF as (F1 & F2 & F3 & F4 & F5).
  assert (HF : forest (heap s0) (heap s) (p :: stack)) by (repeat split; assumption).
  destruct (F4 p ltac:(now left)) as (xd & Hp & _).
  pose proof (F1 p xd Hp) as Hp0.
  cbn [clear_loop]. rewrite Hp. cbn [mbind option_bind].
  set (s1 := delete_node p s).
  assert (Hsize : base.size (heap s1) < fuel).
  { subst s1. cbn [heap delete_node]. rewrite (size_delete_live _ p xd Hp) in Hfuel. lia. }
  assert (Hlog : forall s' ds,
            heap s' = ∅ /\ root s' = root s1 /\ numNodes s' = numNodes s1 /\
            next s' = next s1 /\ deleted s' = ds ++ deleted s1 /\ NoDup ds /\
            (forall q, In q ds <-> is_Some (heap s1 !! q)) ->
            heap s' = ∅ /\ root s' = root s /\ numNodes s' = numNodes s /\
            next s' = next s /\ deleted s' = (ds ++ [p]) ++ deleted s /\
            NoDup (ds ++ [p]) /\
            forall q, In q (ds ++ [p]) <-> is_Some (heap s !! q)).
  { intros s' ds (H1 & H2 & H3 & H4 & H5 & H6 & H7). subst s1.
    cbn [heap root numNodes next deleted delete_node] in *.
    split; [assumption|]. split; [assumption|]. split; [assumption|]. split; [assumption|].
    split; [now rewrite <- app_assoc|]. split.
    - apply NoDup_app. split; [assumption|]. split; [|apply NoDup_singleton].
      intros q Hq%list_elem_of_In Hq'%list_elem_of_In. apply H7 in Hq.
      destruct Hq' as [<-|[]]. rewrite lookup_delete_eq in Hq. destruct Hq. discriminate.
    - intros q. rewrite in_app_iff, H7, lookup_delete. cbn.
      destruct (decide (p = q)) as [<-|Hne].
      + split; [eauto|]. intros _. right. now left.
      + split; [intros [H|[H|[]]]; [assumption|contradiction]|now left]. }
  assert (Hnext : forall kids node' stack',
            (forall c, In c kids <-> n_left xd = Some c \/ n_right xd = Some c) ->
            NoDup kids -> kids ++ stack = node' :: stack' ->
            exists s' ds,
              clear_loop fuel (Some node') stack' s1 = Some s' /\
              heap s' = ∅ /\ root s' = root s /\ numNodes s' = numNodes s /\
              next s' = next s /\ deleted s' = ds ++ deleted s /\ NoDup ds /\
              forall q, In q ds <-> is_Some (heap s !! q)).
  { intros kids node' stack' Hk Hnd E.
    pose proof (forest_step (heap s) p xd stack kids HF Hp Hk Hnd) as HF1. rewrite E in HF1.
    destruct (IH node' stack' s1 HF1 Hsize) as (s' & ds & Hrun & Hpost).
    exists s', (ds ++ [p]). split; [assumption|]. now apply Hlog. }
  destruct (n_left xd) as [l|] eqn:Hl; destruct (n_right xd) as [r|] eqn:Hr.
  - apply (Hnext [l; r]); [| |reflexivity].
    + intros c. cbn. split; [intros [<-|[<-|[]]]; auto|intros [[= ->]|[= ->]]; auto].
    + apply NoDup_cons. split; [|apply NoDup_singleton].
      intros E%list_elem_of_singleton. subst r.
      exact (left_right_distinct N s0 rep cl_nodes p xd l Hp0 Hl Hr).
  - apply (Hnext [l]); [| |reflexivity].
    + intros c. cbn. split; [intros [<-|[]]; auto|intros [[= ->]|[=]]; auto].
    + apply NoDup_singleton.
  - apply (Hnext [r]); [| |reflexivity].
    + intros c. cbn. split; [intros [<-|[]]; auto|intros [[=]|[= ->]]; auto].
    + apply NoDup_singleton.
  - destruct stack as [|q stack'].
    + pose proof (forest_step (heap s) p xd [] [] HF Hp) as HF1.
      assert (He : heap s1 = ∅).
      { apply forest_done. apply HF1; [|constructor].
        intros c. rewrite Hl, Hr. split; [intros []|intros [[=]|[=]]]. }
      exists s1, [p]. split; [destruct fuel; reflexivity|].
      apply (Hlog s1 []). repeat split; try reflexivity; try assumption.
      * constructor.
      * intros [].
      * intros [x Hx]. rewrite He, lookup_empty in Hx. discriminate.
    + apply (Hnext []); [| |reflexivity].
      * intros c. cbn. split; [intros []|intros [[=]|[=]]].
      * constructor.
Qed.

End Loop.

(** [clear] on a well-formed trie deletes every node once. *)
Lemma clear_spec s :
  inv N s ->
  exists s' ds,
    clear s = Some s' /\
    heap s' = ∅ /\ numNodes s' = 0%Z /\ root s' = root s /\ next s' = next s /\
    deleted s' = ds ++ deleted s /\ NoDup ds /\
    forall q, In q ds <-> is_Some (heap s !! q).
Proof.
  intros [rep Hinv]. unfold clear. destruct (root s) as [r|] eqn:Hr.
  - destruct (clear_loop_spec rep s Hinv (S (live s)) r [] s (forest_start rep s Hinv r Hr))
      as (s' & ds & Hrun & He & Hroot & _ & Hnext & Hdel & Hnd & Hin).
    { unfold live. lia. }
    rewrite Hrun. cbn [mbind option_bind]. exists (set_numNodes 0 s'), ds.
    cbn [heap root numNodes next deleted set_numNodes].
    split; [reflexivity|]. rewrite Hroot, Hr. auto 10.
  - destruct Hinv as (Hroot & _ & Hnum). rewrite Hr in Hroot.
    exists s, []. split; [reflexivity|]. split; [assumption|].
    split; [rewrite Hnum; unfold live; rewrite Hroot, map_size_empty; reflexivity|].
    split; [assumption|]. split; [reflexivity|]. split; [reflexivity|].
    split; [constructor|]. intros q. rewrite Hroot, lookup_empty. split; [intros []|].
    intros [x Hx]. discriminate.
Qed.

End ClearFacts.

(** ** Runs in which no pointer is deleted twice *)

Import BitArrayFacts.

Section Clean.
Context {T : Type} (N : nat) (data_init : T) (key_init_bytes : list Z).
Local Abbreviation Node := (@Node T).
Local Abbreviation Trie := (@Trie T).
Local Abbreviation op := (@op T).
Local Abbreviation inv_with := (@inv_with T N).
Local Abbreviation inv := (@inv T N).
Local Abbreviation lookupNode := (@lookupNode T N data_init key_init_bytes).
Local Abbreviation erase := (@erase T N key_init_bytes).
Local Abbreviation run_op := (@run_op T N data_init key_init_bytes).
Local Abbreviation run := (@run T N data_init key_init_bytes).

Implicit Types (s : Trie) (nd : Node) (key : BitArray.t).

Lemma tidy_BinaryTrie : tidy (@BinaryTrie T).
Proof. split; [constructor|]. intros q []. Qed.

(** [operator[]] and assignment delete nothing and allocate fresh nodes. *)
Lemma insert_op_tidy (o : op) s s' :
  is_insert o = true -> inv s -> wf_op N o -> tidy s -> run_op o s = Some s' -> tidy s'.
Proof.
  intros Hins Hinv Hwf [Hnd Hgone] Hrun.
  destruct (lookupNode_post N data_init key_init_bytes s (op_key o) Hinv Hwf)
    as (p & s1 & Hlook & Hpost).
  pose proof (lookupNode_fresh N data_init key_init_bytes s (op_key o) p s1 Hinv Hwf Hlook)
    as Hfresh.
  assert (H1 : tidy s1).
  { split; [now rewrite (ip_deleted _ _ _ _ _ Hpost)|].
    intros q Hq. rewrite (ip_deleted _ _ _ _ _ Hpost) in Hq.
    destruct (Hgone q Hq) as [Hn Hlt].
    pose proof (ip_next _ _ _ _ _ Hpost). split; [|lia].
    destruct (heap s1 !! q) as [x|] eqn:E; [|reflexivity].
    destruct (Hfresh q ltac:(eauto)) as [[y Hy]|Hge]; [congruence|lia]. }
  destruct o as [k|k v|k]; [| |discriminate]; cbn [op_key run_op] in *.
  - unfold index in Hrun. rewrite Hlook in Hrun. cbn in Hrun. now injection Hrun as <-.
  - unfold assign in Hrun. rewrite Hlook in Hrun. cbn in Hrun.
    apply store_inv_Some in Hrun. destruct Hrun as (pd & Hp & ->).
    destruct H1 as [Hnd1 Hgone1]. split; [exact Hnd1|].
    intros q Hq. cbn [deleted set_heap] in Hq. destruct (Hgone1 q Hq) as [Hn Hlt].
    split; [|exact Hlt]. cbn [heap set_heap].
    rewrite lookup_insert_ne by congruence. exact Hn.
Qed.

(** An [erase] that leaves a node in the trie deletes no pointer twice. *)
Lemma erase_tidy s key (r : result unit) s' :
  inv s -> BitArray.wf N key -> tidy s -> erase key s = Some (r, s') ->
  root s' <> None -> tidy s'.
Proof.
  intros Hinv Hkey [Hnd Hgone] He Hroot.
  destruct (erase_post N key_init_bytes s key r s' Hinv Hkey He)
    as [(_ & -> & _)|(-> & _ & Hpost)]; [now split|].
  destruct (erase_Ok_removeNode N key_init_bytes s key s' Hinv Hkey He)
    as (rep & p & pd & Hrep & Hp & Hrm).
  destruct (removeNode_deletes N key_init_bytes rep s p pd s' Hrep Hp Hrm)
    as (ds & Hds & _ & Hin & Hdup).
  pose proof Hrep as (_ & Hnodes & _).
  split.
  - rewrite Hds. apply NoDup_app. split; [now apply Hdup|]. split; [|exact Hnd].
    intros q Hq1 Hq2. apply list_elem_of_In in Hq1, Hq2.
    apply Hin in Hq1. destruct Hq1 as [[x Hx] _].
    destruct (Hgone q Hq2) as [Hn _]. congruence.
  - intros q Hq. rewrite Hds in Hq. apply in_app_or in Hq.
    rewrite (rp_next _ _ _ Hpost). destruct Hq as [Hq|Hq].
    + apply Hin in Hq. destruct Hq as [[x Hx] Hn]. split; [exact Hn|].
      exact (ok_fresh _ _ _ _ _ (Hnodes q x Hx)).
    + destruct (Hgone q Hq) as [Hn Hlt]. split; [|exact Hlt].
      destruct (heap s' !! q) as [x|] eqn:E; [|reflexivity].
      destruct (rp_dom _ _ _ Hpost q ltac:(eauto)) as [y Hy]. congruence.
Qed.

Lemma stored_root s k : inv s -> stored s k -> root s <> None.
Proof.
  intros [rep (Hroot & _)] (p & pd & Hp & _) E. rewrite E in Hroot.
  rewrite Hroot, lookup_empty in Hp. discriminate.
Qed.

(** A program on keys of at least one bit, none of whose erasures takes
    out the last key, runs to the end and deletes no pointer twice. *)
Lemma run_tidy (ops : list op) : forall s (K : BitArray.t -> Prop),
  inv s -> glue_full s -> tidy s ->
  Forall (fun o => wf_op N o /\ keyed_op o) ops ->
  (forall k, stored s k <-> K k) -> keeps_a_key K ops ->
  exists s', run ops s = Some s' /\ inv s' /\ glue_full s' /\ tidy s' /\
             forall k, stored s' k <-> fold_left keys_step ops K k.
Proof.
  induction ops as [|o ops IH]; intros s K Hinv Hg Ht Hall HK Hkeep.
  - exists s. cbn. auto.
  - inversion Hall as [|? ? [Hwf Hkd] Hrest]; subst.
    destruct Hkeep as [Hlast Hkeep].
    destruct (run_keys N data_init key_init_bytes [o] s K Hinv Hg
                ltac:(constructor; [split; assumption|constructor]) HK)
      as (s1 & Hrun1 & Hinv1 & Hg1 & HK1).
    cbn [run fold_left] in Hrun1, HK1.
    destruct (run_op o s) as [s1'|] eqn:Hop; [|discriminate].
    cbn in Hrun1. injection Hrun1 as ->.
    assert (Ht1 : tidy s1).
    { destruct (is_insert o) eqn:Hins.
      - exact (insert_op_tidy o s s1 Hins Hinv Hwf Ht Hop).
      - destruct o as [k0|k0 v0|k0]; try discriminate. cbn [op_key run_op] in *.
        destruct (erase k0 s) as [[r s2]|] eqn:He; [|discriminate].
        cbn in Hop. injection Hop as ->.
        destruct (erase_post N key_init_bytes s k0 r s1 Hinv Hwf He)
          as [(_ & -> & _)|(_ & Hst & _)]; [exact Ht|].
        apply (erase_tidy s k0 r s1 Hinv Hwf Ht He).
        destruct (Hlast eq_refl (proj1 (HK k0) Hst)) as [k' Hk'].
        apply (stored_root s1 k' Hinv1). now apply HK1. }
    destruct (IH s1 (keys_step K o) Hinv1 Hg1 Ht1 Hrest HK1 Hkeep) as (s' & Hrun & Hrest').
    exists s'. split; [|exact Hrest']. cbn [run]. rewrite Hop. exact Hrun.
Qed.

(** *** A trie with one key has one node *)

Lemma leaf_below rep s :
  inv_with rep s ->
  forall b q qd, heap s !! q = Some qd -> N * 8 - n_bits qd <= b ->
    exists l ld, heap s !! l = Some ld /\ n_left ld = None /\ n_right ld = None /\
                 n_bits qd <= n_bits ld /\ forall i, i < n_bits qd -> rep l i = rep q i.
Proof.
  intros Hinv. pose proof Hinv as (_ & Hnodes & _).
  assert (Hchild : forall q qd c, heap s !! q = Some qd ->
            n_left qd = Some c \/ n_right qd = Some c ->
            exists cd, heap s !! c = Some cd /\ n_bits qd < n_bits cd /\
                       forall i, i < n_bits qd -> rep c i = rep q i).
  { intros q qd c Hq [Hl|Hr].
    - pose proof (ok_left _ _ _ _ _ (Hnodes q qd Hq)) as H. rewrite Hl in H.
      destruct H as (cd & ? & _ & ? & ? & _). eauto.
    - pose proof (ok_right _ _ _ _ _ (Hnodes q qd Hq)) as H. rewrite Hr in H.
      destruct H as (cd & ? & _ & ? & ? & _). eauto. }
  induction b as [|b IH]; intros q qd Hq Hb.
  - destruct (n_left qd) as [c|] eqn:Hl; [|destruct (n_right qd) as [c|] eqn:Hr].
    + destruct (Hchild q qd c Hq ltac:(auto)) as (cd & Hc & Hlt & _).
      pose proof (ok_bits _ _ _ _ _ (Hnodes c cd Hc)). lia.
    + destruct (Hchild q qd c Hq ltac:(auto)) as (cd & Hc & Hlt & _).
      pose proof (ok_bits _ _ _ _ _ (Hnodes c cd Hc)). lia.
    + exists q, qd. auto.
  - assert (Hdown : forall c, n_left qd = Some c \/ n_right qd = Some c ->
              exists l ld, heap s !! l = Some ld /\ n_left ld = None /\ n_right ld = None /\
                n_bits qd <= n_bits ld /\ forall i, i < n_bits qd -> rep l i = rep q i).
    { intros c Hc. destruct (Hchild q qd c Hq Hc) as (cd & Hcd & Hlt & Hag).
      destruct (IH c cd Hcd ltac:(lia)) as (l & ld & Hl & H1 & H2 & Hle & Hag').
      exists l, ld. repeat (split; [assumption|]). split; [lia|].
      intros i Hi. rewrite Hag' by lia. apply Hag. exact Hi. }
    destruct (n_left qd) as [c|] eqn:Hl; [apply (Hdown c); auto|].
    destruct (n_right qd) as [c|] eqn:Hr; [apply (Hdown c); auto|].
    exists q, qd. auto.
Qed.

(** Below the child on side [b] of a node there is a data node whose key
    is longer than the node is deep and has bit [b] at that depth. *)
Lemma child_leaf_key rep s q qd c (b : bool) :
  inv_with rep s -> glue_full s -> heap s !! q = Some qd ->
  (if b then n_right qd else n_left qd) = Some c ->
  exists l ld, heap s !! l = Some ld /\ is_data ld /\
               n_bits qd < BitArray.bitCount (n_key ld) /\
               BitArray.get (n_key ld) (n_bits qd) = b.
Proof.
  intros Hinv Hg Hq Hc. pose proof Hinv as (_ & Hnodes & _).
  assert (Hcd : exists cd, heap s !! c = Some cd /\ n_bits qd < n_bits cd /\ rep c (n_bits qd) = b).
  { destruct b.
    - pose proof (ok_right _ _ _ _ _ (Hnodes q qd Hq)) as H. rewrite Hc in H.
      destruct H as (cd & ? & _ & ? & _ & ?). eauto.
    - pose proof (ok_left _ _ _ _ _ (Hnodes q qd Hq)) as H. rewrite Hc in H.
      destruct H as (cd & ? & _ & ? & _ & ?). eauto. }
  destruct Hcd as (cd & Hcd & Hlt & Hside).
  destruct (leaf_below rep s Hinv (N * 8) c cd Hcd ltac:(lia))
    as (l & ld & Hl & H1 & H2 & Hle & Hag).
  assert (Hd : is_data ld).
  { intros E. destruct (Hg l ld Hl E) as [H _]. contradiction. }
  destruct (ok_key _ _ _ _ _ (Hnodes l ld Hl)) as [E|(Hcnt & _ & Hbits)]; [contradiction|].
  exists l, ld. split; [assumption|]. split; [assumption|]. split; [lia|].
  rewrite Hbits by lia. rewrite Hag by lia. exact Hside.
Qed.

Lemma one_key_one_node s (k0 : BitArray.t) :
  inv s -> glue_full s -> stored s k0 -> (forall k, stored s k -> key_eq k0 k) ->
  exists r rd, root s = Some r /\ heap s = ({[r := rd]} : gmap nat Node) /\
               is_data rd /\ key_eq (n_key rd) k0 /\
               n_left rd = None /\ n_right rd = None /\ numNodes s = 1%Z.
Proof.
  intros [rep Hinv] Hg Hst Hone. pose proof Hinv as (Hroot & Hnodes & Hnum).
  destruct (root s) as [r|] eqn:Hr.
  2:{ destruct Hst as (p & pd & Hp & _). rewrite Hroot, lookup_empty in Hp. discriminate. }
  destruct Hroot as (rd & Hrd & Hpar).
  assert (Hsub : forall (b : bool) c, (if b then n_right rd else n_left rd) = Some c ->
            n_bits rd < BitArray.bitCount k0 /\ BitArray.get k0 (n_bits rd) = b).
  { intros b c Hc.
    destruct (child_leaf_key rep s r rd c b Hinv Hg Hrd Hc) as (l & ld & Hl & Hd & Hlt & Hbit).
    destruct (Hone (n_key ld)) as [Hcnt Hag].
    { exists l, ld. split; [assumption|]. split; [assumption|apply key_eq_refl]. }
    split; [lia|]. rewrite Hag by lia. exact Hbit. }
  assert (Hleaf : n_left rd = None /\ n_right rd = None).
  { destruct (Nat.eq_dec (BitArray.bitCount (n_key rd)) 0) as [E|E].
    - destruct (Hg r rd Hrd E) as [Hl Hrt].
      destruct (n_left rd) as [cl|] eqn:El; [|contradiction].
      destruct (n_right rd) as [cr|] eqn:Er; [|contradiction].
      destruct (Hsub false cl eq_refl) as [_ H1]. destruct (Hsub true cr eq_refl) as [_ H2]. congruence.
    - assert (Hlen : BitArray.bitCount k0 = n_bits rd).
      { destruct (Hone (n_key rd)) as [Hcnt _].
        { exists r, rd. split; [assumption|]. split; [exact E|apply key_eq_refl]. }
        destruct (ok_key _ _ _ _ _ (Hnodes r rd Hrd)) as [E0|(Hc & _)]; [contradiction|].
        congruence. }
      split.
      + destruct (n_left rd) as [c|] eqn:El; [|reflexivity].
        destruct (Hsub false c eq_refl). lia.
      + destruct (n_right rd) as [c|] eqn:Er; [|reflexivity].
        destruct (Hsub true c eq_refl). lia. }
  destruct Hleaf as [Hl Hrt].
  pose proof (root_leaf_alone N rep s r rd Hinv Hr Hrd Hl Hrt) as Halone.
  assert (Hheap : heap s = ({[r := rd]} : gmap nat Node)).
  { apply map_eq. intros q. destruct (decide (q = r)) as [->|Hne].
    - now rewrite lookup_singleton_eq.
    - rewrite lookup_singleton_ne by congruence.
      destruct (heap s !! q) as [x|] eqn:E; [|reflexivity].
      exfalso. apply Hne. eapply Halone; eauto. }
  assert (Hd : is_data rd).
  { intros E. destruct (Hg r rd Hrd E) as [H _]. contradiction. }
  exists r, rd. split; [reflexivity|]. split; [assumption|]. split; [assumption|].
  split.
  - apply key_eq_sym. apply Hone. exists r, rd.
    split; [assumption|]. split; [assumption|apply key_eq_refl].
  - split; [assumption|]. split; [assumption|].
    rewrite Hnum. unfold live. rewrite Hheap, map_size_singleton. reflexivity.
Qed.

End Clean.

(** ** Facts about [clear]: the scratch stack *)

Import BitArrayFacts.

Section ClearStack.
Context {T : Type} (N : nat).
Local Abbreviation Node := (@Node T).
Local Abbreviation Trie := (@Trie T).
Local Abbreviation inv_with := (@inv_with T N).

Implicit Types (s : Trie) (nd : Node) (h : gmap nat Node).

(** [clear_loop] is [clear_round] again and again, until no node is left
    to visit. *)
Lemma clear_loop_rounds fuel : forall (node : option ptr) (stack : list ptr) s,
  clear_loop fuel node stack s =
  match clear_rounds fuel node stack s with
  | Some (None, _, s') => Some s'
  | _ => None
  end.
Proof.
  induction fuel as [|fuel IH]; intros [p|] stack s; cbn [clear_loop clear_rounds];
    try reflexivity.
  unfold clear_round. destruct (heap s !! p) as [nd|]; cbn [mbind option_bind]; [|reflexivity].
  destruct (n_left nd) as [l|]; [apply IH|].
  destruct (n_right nd) as [r|]; [apply IH|].
  destruct stack as [|q stack']; apply IH.
Qed.

Lemma pend_ok_weaken h0 (b b' : nat) (stack : list ptr) :
  b <= b' -> pend_ok h0 b stack -> pend_ok h0 b' stack.
Proof.
  destruct stack as [|q rest]; [auto|]. cbn [pend_ok].
  intros Hle (qd & a & ad & H1 & H2 & H3 & H4 & H5). exists qd, a, ad.
  repeat (split; [assumption|]). split; [lia|assumption].
Qed.

Lemma pend_ok_length h0 (stack : list ptr) : forall b, pend_ok h0 b stack -> length stack <= b.
Proof.
  induction stack as [|q rest IH]; intros b; cbn [pend_ok length]; [lia|].
  intros (qd & a & ad & _ & _ & _ & Hlt & Hrest). specialize (IH _ Hrest). lia.
Qed.

Section Loop.
Variables (rep : nat -> nat -> bool) (s0 : Trie).
Hypothesis Hinv : inv_with rep s0.

(** However many rounds the loop has run, the scratch stack holds at most
    as many entries as the node to visit is deep. *)
Lemma clear_rounds_stack k : forall p pd stack s,
  forest (heap s0) (heap s) (p :: stack) -> heap s0 !! p = Some pd ->
  pend_ok (heap s0) (n_bits pd) stack ->
  forall node' stack' s',
    clear_rounds k (Some p) stack s = Some (node', stack', s') -> length stack' <= N * 8.
Proof using Hinv.
  pose proof (cl_nodes N rep s0 Hinv) as Hnodes.
  induction k as [|k IH]; intros p pd stack s HF Hp0 Hpend node' stack' s' Hrun.
  - cbn in Hrun. injection Hrun as _ <- _.
    pose proof (pend_ok_length _ _ _ Hpend). pose proof (ok_bits _ _ _ _ _ (Hnodes p pd Hp0)). lia.
  - cbn [clear_rounds] in Hrun. unfold clear_round in Hrun.
    pose proof HF as (F1 & F2 & F3 & F4 & F5).
    destruct (F4 p ltac:(now left)) as (xd & Hp & _).
    pose proof (F1 p xd Hp) as Hp0'. rewrite Hp0 in Hp0'. injection Hp0' as <-.
    rewrite Hp in Hrun. cbn [mbind option_bind] in Hrun.
    assert (Hchild : forall c, n_left pd = Some c \/ n_right pd = Some c ->
              exists cd, heap s0 !! c = Some cd /\ n_parent cd = Some p /\ n_bits pd < n_bits cd).
    { intros c Hc. exact (child_live N s0 rep p pd c (Hnodes p pd Hp0) Hc). }
    assert (Hnext : forall kids c cd stack1,
              (forall x, In x kids <-> n_left pd = Some x \/ n_right pd = Some x) ->
              NoDup kids -> kids ++ stack = c :: stack1 ->
              heap s0 !! c = Some cd -> pend_ok (heap s0) (n_bits cd) stack1 ->
              clear_rounds k (Some c) stack1 (delete_node p s) = Some (node', stack', s') ->
              length stack' <= N * 8).
    { intros kids c cd stack1 Hk Hnd E Hc Hpd1 Hrun1.
      pose proof (forest_step N rep s0 Hinv (heap s) p pd stack kids HF Hp Hk Hnd) as HF1.
      rewrite E in HF1. exact (IH c cd stack1 (delete_node p s) HF1 Hc Hpd1 _ _ _ Hrun1). }
    destruct (n_left pd) as [l|] eqn:Hl; destruct (n_right pd) as [r|] eqn:Hr.
    + destruct (Hchild l ltac:(auto)) as (ld & Hld & Hlp & Hlt).
      destruct (Hchild r ltac:(auto)) as (rd & Hrd & Hrp & _).
      apply (Hnext [l; r] l ld (r :: stack)); [| |reflexivity|assumption| |exact Hrun].
      * intros c. cbn. split; [intros [<-|[<-|[]]]; auto|intros [[= ->]|[= ->]]; auto].
      * apply NoDup_cons. split; [|apply NoDup_singleton].
        intros E%list_elem_of_singleton. subst r.
        exact (left_right_distinct N s0 rep Hnodes p pd l Hp0 Hl Hr).
      * cbn [pend_ok]. exists rd, p, pd. repeat (split; [assumption|]). exact Hpend.
    + destruct (Hchild l ltac:(auto)) as (ld & Hld & Hlp & Hlt).
      apply (Hnext [l] l ld stack); [| |reflexivity|assumption| |exact Hrun].
      * intros c. cbn. split; [intros [<-|[]]; auto|intros [[= ->]|[=]]; auto].
      * apply NoDup_singleton.
      * eapply pend_ok_weaken; [|exact Hpend]. lia.
    + destruct (Hchild r ltac:(auto)) as (rd & Hrd & Hrp & Hlt).
      apply (Hnext [r] r rd stack); [| |reflexivity|assumption| |exact Hrun].
      * intros c. cbn. split; [intros [<-|[]]; auto|intros [[=]|[= ->]]; auto].
      * apply NoDup_singleton.
      * eapply pend_ok_weaken; [|exact Hpend]. lia.
    + destruct stack as [|q stack1].
      * destruct k; cbn in Hrun; injection Hrun as _ <- _; cbn; lia.
      * cbn [pend_ok] in Hpend. destruct Hpend as (qd & a & ad & Hq & Hqa & Ha & Hlt & Hrest).
        destruct (parent_ok N s0 rep Hnodes q qd a Hq Hqa) as (ad' & Ha' & Hlt' & _).
        rewrite Ha in Ha'. injection Ha' as <-.
        apply (Hnext [] q qd stack1); [| |reflexivity|assumption| |exact Hrun].
        -- intros c. cbn. split; [intros []|intros [[=]|[=]]].
        -- constructor.
        -- eapply pend_ok_weaken; [|exact Hrest]. lia.
Qed.

End Loop.

(** On a well-formed trie the scratch stack of [clear] never holds more
    than [N * 8] entries. *)
Lemma clear_stack_bound s r k (node : option ptr) (stack : list ptr) s' :
  inv N s -> root s = Some r ->
  clear_rounds k (Some r) [] s = Some (node, stack, s') -> length stack <= N * 8.
Proof.
  intros [rep Hinv] Hr Hrun. pose proof Hinv as (Hroot & _).
  rewrite Hr in Hroot. destruct Hroot as (rd & Hrd & _).
  exact (clear_rounds_stack rep s Hinv k r rd [] s (forest_start N rep s Hinv r Hr) Hrd I
           node stack s' Hrun).
Qed.

End ClearStack.

(** ** Facts about the other members of [BitArray] *)

Module BitOpsFacts.
Import BitArray BitArrayFacts BitOps.

Lemma uchar_range (z : Z) : (0 <= uchar z < 256)%Z.
Proof. unfold uchar. apply Z.mod_pos_bound. lia. Qed.

Lemma uchar_bits (z k : Z) : (0 <= k < 8)%Z -> Z.testbit (uchar z) k = Z.testbit z k.
Proof. intros Hk. unfold uchar. change 256%Z with (2 ^ 8)%Z. apply Z.mod_pow2_bits_low. lia. Qed.

Lemma uchar_id (z : Z) : (0 <= z < 256)%Z -> uchar z = z.
Proof. intros Hz. unfold uchar. apply Z.mod_small. lia. Qed.

Lemma nth_insert (l : list Z) (n i : nat) (v : Z) :
  n < length l -> nth i (<[n := v]> l) 0%Z = if decide (i = n) then v else nth i l 0%Z.
Proof.
  intros Hn. rewrite !nth_lookup. destruct (decide (i = n)) as [->|Hne].
  - now rewrite list_lookup_insert_eq.
  - now rewrite list_lookup_insert_ne by congruence.
Qed.

Lemma getByteCount_div (nbits : nat) : getByteCount nbits = (nbits + 7) / 8.
Proof. unfold getByteCount. now rewrite Nat.shiftr_div_pow2. Qed.

Lemma getByteCount_wrap_small (nbits : nat) :
  (Z.of_nat nbits + 7 < 2 ^ 64)%Z -> getByteCount_wrap nbits = getByteCount nbits.
Proof.
  intros Hsmall. unfold getByteCount_wrap, size_t_wrap.
  rewrite Z.mod_small by lia. rewrite Z.shiftr_div_pow2 by lia.
  rewrite getByteCount_div. change (2 ^ 3)%Z with (Z.of_nat 8).
  replace (Z.of_nat nbits + 7)%Z with (Z.of_nat (nbits + 7)) by lia.
  rewrite <- (Nat2Z.inj_div (nbits + 7) 8). apply Nat2Z.id.
Qed.

Lemma getByteCount_gt (N nbits : nat) : N < getByteCount nbits <-> N * 8 < nbits.
Proof.
  rewrite getByteCount_div.
  pose proof (Nat.div_mod_eq (nbits + 7) 8).
  pose proof (Nat.mod_upper_bound (nbits + 7) 8 ltac:(lia)). lia.
Qed.

(** *** Loops over the bytes *)

Section ForEach.
Variable g : nat -> Z -> Z.
Let body (i : nat) (bs : list Z) : list Z := <[i := g i (nth i bs 0%Z)]> bs.

Lemma for_each_byte_length n : forall i bs, length (for_each_byte n i body bs) = length bs.
Proof.
  induction n as [|n IH]; intros i bs; [reflexivity|].
  cbn [for_each_byte]. rewrite IH. unfold body. apply length_insert.
Qed.

Lemma for_each_byte_nth n : forall i bs j,
  i + n <= length bs ->
  nth j (for_each_byte n i body bs) 0%Z =
    if decide (i <= j < i + n) then g j (nth j bs 0%Z) else nth j bs 0%Z.
Proof.
  induction n as [|n IH]; intros i bs j Hlen.
  - cbn [for_each_byte]. destruct (decide (i <= j < i + 0)); [lia|reflexivity].
  - cbn [for_each_byte]. rewrite IH by (unfold body; rewrite length_insert; lia).
    unfold body. rewrite nth_insert by lia.
    destruct (decide (i + 1 <= j < i + 1 + n)) as [H1|H1].
    + destruct (decide (j = i)) as [->|_]; [lia|]. destruct (decide (i <= j < i + S n)); [reflexivity|lia].
    + destruct (decide (j = i)) as [->|Hne].
      * destruct (decide (i <= i < i + S n)); [reflexivity|lia].
      * destruct (decide (i <= j < i + S n)); [lia|reflexivity].
Qed.

End ForEach.




(** *** Iterators *)






(** *** [strncmp] *)

Lemma strncmp_refl (a : list Z) (n : nat) : strncmp a a n = 0%Z.
Proof.
  revert a. induction n as [|n IH]; intros a; [reflexivity|].
  destruct a as [|x a]; [reflexivity|]. cbn [strncmp]. rewrite Z.eqb_refl.
  destruct (x =? 0)%Z; auto.
Qed.

Lemma strncmp_antisym (a b : list Z) (n : nat) : strncmp b a n = (- strncmp a b n)%Z.
Proof.
  revert a b. induction n as [|n IH]; intros a b; [reflexivity|].
  destruct a as [|x a], b as [|y b]; try reflexivity. cbn [strncmp].
  rewrite (Z.eqb_sym y x). destruct (Z.eqb_spec x y) as [->|Hne].
  - destruct (y =? 0)%Z; [reflexivity|apply IH].
  - lia.
Qed.

Lemma strncmp_trans (a b c : list Z) (n : nat) :
  (strncmp a b n < 0)%Z -> (strncmp b c n < 0)%Z -> (strncmp a c n < 0)%Z.
Proof.
  revert a b c. induction n as [|n IH]; intros a b c; [cbn; lia|].
  destruct a as [|x a], b as [|y b], c as [|z c]; cbn [strncmp]; try lia.
  repeat match goal with
         | |- context [(?u =? ?v)%Z] => destruct (Z.eqb_spec u v); subst
         end; try lia.
  apply IH.
Qed.

End BitOpsFacts.

(** ** Facts about [operator<<=] *)

Module ShiftFacts.
Import BitArray BitArrayFacts BitOps BitOpsFacts.

Section Down.
Variables (f : Z -> Z -> Z) (n : nat).
Let body : nat -> list Z -> list Z :=
  fun i bs => <[i := f (nth (i - n) bs 0%Z) (nth (i - n - 1) bs 0%Z)]> bs.

Lemma down_length lo k : forall bs, length (for_each_byte_down lo k body bs) = length bs.
Proof.
  induction k as [|k IH]; intros bs; [reflexivity|].
  cbn [for_each_byte_down]. rewrite IH. unfold body. apply length_insert.
Qed.

(** The loop runs downwards and reads at or below the index it writes, so
    every read sees a byte of the buffer the loop started with. *)
Lemma down_nth lo k : forall bs j,
  lo + k <= length bs ->
  nth j (for_each_byte_down lo k body bs) 0%Z =
    if decide (lo <= j < lo + k) then f (nth (j - n) bs 0%Z) (nth (j - n - 1) bs 0%Z)
    else nth j bs 0%Z.
Proof.
  induction k as [|k IH]; intros bs j Hlen.
  - cbn [for_each_byte_down]. destruct (decide (lo <= j < lo + 0)); [lia|reflexivity].
  - cbn [for_each_byte_down]. rewrite IH by (unfold body; rewrite length_insert; lia).
    unfold body. rewrite !nth_insert by lia.
    destruct (decide (lo <= j < lo + k)) as [Hin|Hout].
    + destruct (decide (lo <= j < lo + S k)); [|lia].
      destruct (decide (j - n = lo + k)); [lia|].
      destruct (decide (j - n - 1 = lo + k)); [lia|]. reflexivity.
    + destruct (decide (j = lo + k)) as [->|Hne].
      * destruct (decide (lo <= lo + k < lo + S k)); [reflexivity|lia].
      * destruct (decide (lo <= j < lo + S k)); [lia|reflexivity].
Qed.

End Down.

Lemma fill_zero_length (n : nat) (bs : list Z) : length (fill_zero n bs) = length bs.
Proof. unfold fill_zero. exact (for_each_byte_length (fun _ _ => 0%Z) n 0 bs). Qed.

Lemma fill_zero_nth (n : nat) (bs : list Z) (j : nat) :
  n <= length bs ->
  nth j (fill_zero n bs) 0%Z = if decide (j < n) then 0%Z else nth j bs 0%Z.
Proof.
  intros Hn. unfold fill_zero.
  pose proof (for_each_byte_nth (fun _ _ => 0%Z) n 0 bs j ltac:(lia)) as H.
  cbv beta in H. rewrite H.
  destruct (decide (0 <= j < 0 + n)), (decide (j < n)); try lia; reflexivity.
Qed.

(** [operator<<=] byte by byte. *)
Lemma shl_assign_bytes (N : nat) (a : t) (pos : nat) :
  length (bits a) = N -> 0 < pos -> pos <= N * 8 ->
  exists a', shl_assign N a pos = Some a' /\ bitCount a' = bitCount a /\
    length (bits a') = N /\
    forall i, i < N -> nth i (bits a') 0%Z = shl_byte (bits a) (pos / 8) (pos mod 8) i.
Proof.
  intros Hlen Hpos Hfit. unfold shl_assign, WORD_BITS.
  pose proof (Nat.div_mod_eq pos 8) as Hdm.
  pose proof (Nat.mod_upper_bound pos 8 ltac:(lia)) as Hm.
  destruct (Nat.eqb_spec pos 0) as [|_]; [lia|].
  destruct (Nat.eqb_spec N 0) as [|_]; [lia|].
  destruct (Nat.eqb_spec (pos mod 8) 0) as [Ho|Ho].
  - destruct (Nat.ltb_spec N (pos / 8)) as [|_]; [lia|].
    eexists. split; [reflexivity|]. cbn [bits bitCount]. split; [reflexivity|].
    pose proof (down_length (fun x _ => x) (pos / 8) (pos / 8) (N - pos / 8) (bits a)) as Hl.
    pose proof (down_nth (fun x _ => x) (pos / 8) (pos / 8) (N - pos / 8) (bits a)) as Hn.
    cbv beta in Hl, Hn. split.
    + now rewrite fill_zero_length, Hl.
    + intros i Hi. rewrite fill_zero_nth by (rewrite Hl; lia).
      unfold shl_byte. rewrite Ho. cbn [Nat.eqb].
      destruct (decide (i < pos / 8)) as [Hlt|Hge].
      * destruct (Nat.ltb_spec i (pos / 8)); [reflexivity|lia].
      * destruct (Nat.ltb_spec i (pos / 8)); [lia|].
        rewrite Hn by lia.
        destruct (decide (pos / 8 <= i < pos / 8 + (N - pos / 8))); [reflexivity|lia].
  - destruct (Nat.leb_spec N (pos / 8)) as [|Hn8]; [lia|].
    eexists. split; [reflexivity|]. cbn [bits bitCount]. split; [reflexivity|].
    pose (f := fun x y : Z =>
                uchar (Z.lor (Z.shiftl x (Z.of_nat (pos mod 8)))
                             (Z.shiftr y (Z.of_nat (8 - pos mod 8))))).
    pose proof (down_length f (pos / 8) (pos / 8 + 1) (N - (pos / 8 + 1)) (bits a)) as Hl.
    pose proof (down_nth f (pos / 8) (pos / 8 + 1) (N - (pos / 8 + 1)) (bits a)) as Hn.
    subst f. cbv beta in Hl, Hn. split.
    + now rewrite fill_zero_length, length_insert, Hl.
    + intros i Hi. rewrite fill_zero_nth by (rewrite length_insert, Hl; lia).
      unfold shl_byte. destruct (Nat.eqb_spec (pos mod 8) 0) as [|_]; [lia|].
      destruct (decide (i < pos / 8)) as [Hlt|Hge].
      * destruct (Nat.ltb_spec i (pos / 8)); [reflexivity|lia].
      * destruct (Nat.ltb_spec i (pos / 8)); [lia|].
        rewrite nth_insert by (rewrite Hl; lia).
        destruct (decide (i = pos / 8)) as [->|Hne].
        -- rewrite Nat.eqb_refl. rewrite Hn by lia.
           destruct (decide (pos / 8 + 1 <= 0 < pos / 8 + 1 + (N - (pos / 8 + 1)))); [lia|].
           reflexivity.
        -- destruct (Nat.eqb_spec i (pos / 8)); [lia|].
           rewrite Hn by lia.
           destruct (decide (pos / 8 + 1 <= i < pos / 8 + 1 + (N - (pos / 8 + 1)))); [|lia].
           reflexivity.
Qed.

(** *** The buffer as a number *)

Lemma nth_nil_Z (i : nat) : nth i (@nil Z) 0%Z = 0%Z.
Proof. now destruct i. Qed.

Lemma le_value_testbit (bs : list Z) :
  Forall (fun b => (0 <= b < 256)%Z) bs ->
  forall k, (0 <= k)%Z ->
    Z.testbit (le_value bs) k = Z.testbit (nth (Z.to_nat (k / 8)) bs 0%Z) (k mod 8).
Proof.
  induction 1 as [|b bs Hb Hall IH]; intros k Hk.
  - cbn [le_value]. now rewrite nth_nil_Z, !Z.bits_0.
  - cbn [le_value]. destruct (Z.lt_ge_cases k 8) as [Hlt|Hge].
    + rewrite Z.div_small, Z.mod_small by lia. cbn [Z.to_nat nth].
      rewrite <- (Z.mod_pow2_bits_low (b + 256 * le_value bs) 8 k) by lia.
      change (2 ^ 8)%Z with 256%Z.
      replace (b + 256 * le_value bs)%Z with (b + le_value bs * 256)%Z by lia.
      rewrite Z.mod_add by lia. now rewrite Z.mod_small by lia.
    + replace k with (k - 8 + 1 * 8)%Z at 2 3 by lia.
      rewrite Z.div_add, Z.mod_add by lia.
      assert (H0 : (0 <= (k - 8) / 8)%Z) by (apply Z.div_pos; lia).
      rewrite Z2Nat.inj_add by lia. change (Z.to_nat 1) with 1.
      rewrite Nat.add_1_r. cbn [nth]. rewrite <- IH by lia.
      replace k with (k - 8 + 8)%Z at 1 by lia.
      rewrite <- Z.div_pow2_bits by lia. change (2 ^ 8)%Z with 256%Z.
      replace (b + 256 * le_value bs)%Z with (b + le_value bs * 256)%Z by lia.
      rewrite Z.div_add by lia. now rewrite Z.div_small by lia.
Qed.

Lemma le_value_range (bs : list Z) :
  Forall (fun b => (0 <= b < 256)%Z) bs ->
  (0 <= le_value bs < 2 ^ Z.of_nat (length bs * 8))%Z.
Proof.
  induction 1 as [|b bs Hb Hall IH]; [cbn; lia|].
  cbn [le_value length]. replace (Z.of_nat (S (length bs) * 8)) with (8 + Z.of_nat (length bs * 8))%Z by lia.
  rewrite Z.pow_add_r by lia. change (2 ^ 8)%Z with 256%Z. nia.
Qed.

Lemma shl_byte_range (bs : list Z) (n o i : nat) :
  Forall (fun b => (0 <= b < 256)%Z) bs -> (0 <= shl_byte bs n o i < 256)%Z.
Proof.
  intros Hall. unfold shl_byte.
  destruct (i <? n); [lia|]. destruct (o =? 0).
  - destruct (Nat.lt_ge_cases (i - n) (length bs)) as [Hi|Hi].
    + rewrite Forall_forall in Hall. apply Hall, list_elem_of_In. now apply nth_In.
    + rewrite nth_overflow by lia. lia.
  - destruct (i =? n); apply uchar_range.
Qed.

Lemma nth_byte_range (bs : list Z) (i : nat) :
  Forall (fun b => (0 <= b < 256)%Z) bs -> (0 <= nth i bs 0 < 256)%Z.
Proof.
  intros Hall. destruct (Nat.lt_ge_cases i (length bs)) as [Hi|Hi].
  - rewrite Forall_forall in Hall. apply Hall, list_elem_of_In. now apply nth_In.
  - rewrite nth_overflow by lia. lia.
Qed.

(** Bit [j] of the byte left at [i] is bit [8 i + j - pos] of the number
    the buffer held. *)
Lemma shl_byte_testbit (bs : list Z) (n o i : nat) (j : Z) :
  Forall (fun b => (0 <= b < 256)%Z) bs -> o < 8 -> (0 <= j < 8)%Z ->
  Z.testbit (shl_byte bs n o i) j
  = Z.testbit (le_value bs) (8 * Z.of_nat i + j - Z.of_nat (n * 8 + o)).
Proof.
  intros Hall Ho Hj. unfold shl_byte.
  destruct (Nat.ltb_spec i n) as [Hlt|Hge].
  { rewrite Z.bits_0. symmetry. apply Z.testbit_neg_r. lia. }
  destruct (Nat.eqb_spec o 0) as [->|Ho0].
  { rewrite le_value_testbit by (assumption || lia).
    replace (8 * Z.of_nat i + j - Z.of_nat (n * 8 + 0))%Z
      with (j + Z.of_nat (i - n) * 8)%Z by lia.
    rewrite Z.div_add, Z.mod_add by lia.
    rewrite Z.div_small, Z.mod_small by lia. rewrite Z.add_0_l.
    now rewrite Nat2Z.id. }
  destruct (Nat.eqb_spec i n) as [->|Hne].
  { rewrite uchar_bits by lia. rewrite Z.shiftl_spec by lia.
    replace (8 * Z.of_nat n + j - Z.of_nat (n * 8 + o))%Z with (j - Z.of_nat o)%Z by lia.
    destruct (Z.lt_ge_cases (j - Z.of_nat o) 0) as [Hneg|Hpos].
    - now rewrite !Z.testbit_neg_r by lia.
    - rewrite (le_value_testbit bs Hall) by lia.
      rewrite Z.div_small, Z.mod_small by lia. reflexivity. }
  rewrite uchar_bits by lia. rewrite Z.lor_spec, Z.shiftl_spec, Z.shiftr_spec by lia.
  rewrite le_value_testbit by (assumption || lia).
  destruct (Z.lt_ge_cases (j - Z.of_nat o) 0) as [Hneg|Hpos].
  - rewrite (Z.testbit_neg_r _ (j - Z.of_nat o)) by lia. cbn [orb].
    replace (8 * Z.of_nat i + j - Z.of_nat (n * 8 + o))%Z
      with (j + Z.of_nat (8 - o) + Z.of_nat (i - n - 1) * 8)%Z by lia.
    rewrite Z.div_add, Z.mod_add by lia.
    rewrite Z.div_small, Z.mod_small by lia. rewrite Z.add_0_l.
    now rewrite Nat2Z.id.
  - rewrite (byte_high_bit (nth (i - n - 1) bs 0%Z)) by (try apply nth_byte_range; assumption || lia).
    rewrite orb_false_r.
    replace (8 * Z.of_nat i + j - Z.of_nat (n * 8 + o))%Z
      with (j - Z.of_nat o + Z.of_nat (i - n) * 8)%Z by lia.
    rewrite Z.div_add, Z.mod_add by lia.
    rewrite Z.div_small, Z.mod_small by lia. rewrite Z.add_0_l.
    now rewrite Nat2Z.id.
Qed.

(** [operator<<=] multiplies the number in the buffer by [2 ^ pos]. *)
Lemma shl_assign_value (N : nat) (a a' : t) (pos : nat) :
  wf N a -> 0 < pos -> pos <= N * 8 -> shl_assign N a pos = Some a' ->
  wf N a' /\
  le_value (bits a') = ((le_value (bits a) * 2 ^ Z.of_nat pos) mod 2 ^ Z.of_nat (N * 8))%Z.
Proof.
  intros (Hlen & Hall & Hcnt) Hpos Hfit Hshl.
  destruct (shl_assign_bytes N a pos Hlen Hpos Hfit) as (a1 & H1 & Hbc & Hl1 & Hnth).
  rewrite Hshl in H1. injection H1 as <-.
  pose proof (Nat.div_mod_eq pos 8) as Hdm.
  pose proof (Nat.mod_upper_bound pos 8 ltac:(lia)) as Hm.
  assert (Hall' : Forall (fun b => (0 <= b < 256)%Z) (bits a')).
  { apply List.Forall_forall. intros x Hx. apply (In_nth _ _ 0%Z) in Hx.
    destruct Hx as (i & Hi & <-). rewrite Hnth by lia. now apply shl_byte_range. }
  split; [split; [assumption|split; [assumption|lia]]|].
  apply Z.bits_inj'. intros k Hk.
  rewrite (le_value_testbit (bits a') Hall') by assumption.
  destruct (Z.lt_ge_cases k (Z.of_nat (N * 8))) as [Hlt|Hge].
  - rewrite Z.mod_pow2_bits_low by lia.
    rewrite <- Z.shiftl_mul_pow2 by lia. rewrite Z.shiftl_spec by assumption.
    pose proof (Z.div_mod k 8 ltac:(lia)) as Hkd.
    pose proof (Z.mod_pos_bound k 8 ltac:(lia)) as Hkm.
    assert (H0 : (0 <= k / 8)%Z) by (apply Z.div_pos; lia).
    rewrite Hnth by lia.
    rewrite (shl_byte_testbit (bits a) (pos / 8) (pos mod 8) _ (k mod 8) Hall Hm Hkm).
    f_equal. rewrite Z2Nat.id by assumption. lia.
  - rewrite Z.mod_pow2_bits_high by lia.
    rewrite nth_overflow; [apply Z.bits_0|].
    rewrite Hl1. apply Nat2Z.inj_le. rewrite Z2Nat.id by (apply Z.div_pos; lia).
    apply Z.div_le_lower_bound; lia.
Qed.

(** A shift by whole bytes moves the bits [pos] places towards the end of
    the array. *)
Lemma shl_assign_aligned (N : nat) (a a' : t) (pos k : nat) :
  length (bits a) = N -> 0 < pos -> pos <= N * 8 -> pos mod 8 = 0 ->
  shl_assign N a pos = Some a' -> k < N * 8 ->
  get a' k = if k <? pos then false else get a (k - pos).
Proof.
  intros Hlen Hpos Hfit Hal Hshl Hk.
  destruct (shl_assign_bytes N a pos Hlen Hpos Hfit) as (a1 & H1 & Hbc & Hl1 & Hnth).
  rewrite Hshl in H1. injection H1 as <-.
  pose proof (Nat.div_mod_eq pos 8) as Hdm.
  pose proof (Nat.div_mod_eq k 8) as Hkd.
  pose proof (Nat.mod_upper_bound k 8 ltac:(lia)) as Hkm.
  rewrite get_testbit. unfold byte. rewrite Hnth by lia.
  unfold shl_byte. rewrite Hal. cbn [Nat.eqb].
  destruct (Nat.ltb_spec (k / 8) (pos / 8)) as [Hlt|Hge].
  - destruct (Nat.ltb_spec k pos); [apply Z.bits_0|lia].
  - destruct (Nat.ltb_spec k pos); [lia|].
    rewrite get_testbit. unfold byte.
    replace ((k - pos) / 8) with (k / 8 - pos / 8).
    2:{ apply Nat.div_unique with (k mod 8); lia. }
    replace ((k - pos) mod 8) with (k mod 8).
    2:{ apply Nat.mod_unique with (k / 8 - pos / 8); lia. }
    reflexivity.
Qed.

(** Where [operator<<=] stays inside the buffer. *)
Lemma shl_assign_defined (N : nat) (a : t) (pos : nat) :
  0 < N -> (is_Some (shl_assign N a pos) <-> pos <= N * 8).
Proof.
  intros HN. unfold shl_assign, WORD_BITS.
  pose proof (Nat.div_mod_eq pos 8) as Hdm.
  pose proof (Nat.mod_upper_bound pos 8 ltac:(lia)) as Hm.
  destruct (Nat.eqb_spec pos 0) as [|_]; [split; [lia|eauto]|].
  destruct (Nat.eqb_spec N 0) as [|_]; [lia|].
  destruct (Nat.eqb_spec (pos mod 8) 0) as [Ho|Ho].
  - destruct (Nat.ltb_spec N (pos / 8)).
    + split; [intros [x Hx]; discriminate|lia].
    + split; [lia|eauto].
  - destruct (Nat.leb_spec N (pos / 8)).
    + split; [intros [x Hx]; discriminate|lia].
    + split; [lia|eauto].
Qed.

End ShiftFacts.

(** * The documented properties *)

Import BitArrayFacts.

Lemma size_t_wrap_le (n : nat) : (size_t_wrap (Z.of_nat n) <= Z.of_nat n)%Z.
Proof. unfold size_t_wrap. apply Z.mod_le; lia. Qed.

Lemma size_t_wrap_add_le (n d : nat) :
  (size_t_wrap (Z.of_nat (n + d)) <= size_t_wrap (Z.of_nat n) + Z.of_nat d)%Z.
Proof.
  unfold size_t_wrap. rewrite Nat2Z.inj_add, <- Zplus_mod_idemp_l.
  apply Z.mod_le; [|lia].
  pose proof (Z.mod_pos_bound (Z.of_nat n) (2 ^ 64) ltac:(lia)). lia.
Qed.

(** ** bitarray.h *)

(** C4: for arrays [a] and [b] of [N] bytes and a limit of at most [N * 8],
    [a.firstDifferentBit(b, limit)] is some [d <= limit] such that [a] and [b]
    agree on every bit below [d], and [d] is the limit or [a] and [b] differ
    at bit [d]. *)
Theorem firstDifferentBit_correct (N : nat) (a b : BitArray.t) (limit : nat) :
  BitArray.wf N a -> BitArray.wf N b -> limit <= N * 8 ->
  BitArray.firstDifferentBit a b limit <= limit /\
  (forall i, i < BitArray.firstDifferentBit a b limit -> BitArray.get a i = BitArray.get b i) /\
  (BitArray.firstDifferentBit a b limit = limit \/
   BitArray.get a (BitArray.firstDifferentBit a b limit)
   <> BitArray.get b (BitArray.firstDifferentBit a b limit)).
Proof.
  intros Ha Hb _. exact (firstDifferentBit_spec N a b limit Ha Hb).
Qed.

Lemma firstDifferentBit_correct_witness :
  BitArray.wf 4 (V4.addr 10 1 2 3) /\ BitArray.wf 4 (V4.prefix 10 1 3 0 24) /\ 32 <= 4 * 8 /\
  BitArray.firstDifferentBit (V4.addr 10 1 2 3) (V4.prefix 10 1 3 0 24) 32 <= 32.
Proof.
  assert (Ha : BitArray.wf 4 (V4.addr 10 1 2 3)) by (unfold BitArray.wf; simpl; wf_solve).
  assert (Hb : BitArray.wf 4 (V4.prefix 10 1 3 0 24)) by (unfold BitArray.wf; simpl; wf_solve).
  assert (Hl : 32 <= 4 * 8) by (simpl; lia).
  split; [exact Ha|]. split; [exact Hb|]. split; [exact Hl|].
  exact (proj1 (firstDifferentBit_correct 4 _ _ 32 Ha Hb Hl)).
Defined.

(** C5: for arrays [a] and [b] and every [nbits], [a.compareBits(b, nbits)]
    is true exactly when both arrays hold at least [nbits] bits and their
    first [nbits] bits are the same, whatever the bits stored after them. *)
Theorem compareBits_correct (N : nat) (a b : BitArray.t) (nbits : nat) :
  BitArray.wf N a -> BitArray.wf N b ->
  (BitArray.compareBits a b nbits = true <->
   nbits <= BitArray.size a /\ nbits <= BitArray.size b /\
   forall i, i < nbits -> BitArray.get a i = BitArray.get b i).
Proof.
  intros Ha Hb. exact (compareBits_spec N a b nbits Ha Hb).
Qed.

Lemma compareBits_correct_witness :
  BitArray.wf 4 (V4.addr 10 1 2 3) /\ BitArray.wf 4 (V4.prefix 10 1 0 0 16) /\
  (BitArray.compareBits (V4.addr 10 1 2 3) (V4.prefix 10 1 0 0 16) 12 = true <->
   12 <= BitArray.size (V4.addr 10 1 2 3) /\ 12 <= BitArray.size (V4.prefix 10 1 0 0 16) /\
   forall i, i < 12 ->
     BitArray.get (V4.addr 10 1 2 3) i = BitArray.get (V4.prefix 10 1 0 0 16) i).
Proof.
  assert (Ha : BitArray.wf 4 (V4.addr 10 1 2 3)) by (unfold BitArray.wf; simpl; wf_solve).
  assert (Hb : BitArray.wf 4 (V4.prefix 10 1 0 0 16)) by (unfold BitArray.wf; simpl; wf_solve).
  split; [exact Ha|]. split; [exact Hb|].
  exact (compareBits_correct 4 _ _ 12 Ha Hb).
Defined.

(** C9: [operator<] is not the order "by length, then by bytes":
    [10.0.0.1/32] and [10.0.0.2/32] have the same length and the bytes of the
    first are smaller, but [strncmp] stops at the zero byte they share and
    [operator<] answers false. *)
Theorem lt_stops_at_zero_byte :
  BitArray.bitCount (V4.addr 10 0 0 1) = BitArray.bitCount (V4.addr 10 0 0 2) /\
  BitArray.bytes_lex_lt (BitArray.bits (V4.addr 10 0 0 1)) (BitArray.bits (V4.addr 10 0 0 2))
    (BitArray.getByteCount 32) = true /\
  BitArray.lt (V4.addr 10 0 0 1) (V4.addr 10 0 0 2) = false /\
  BitArray.lt (V4.addr 10 0 0 2) (V4.addr 10 0 0 1) = false /\
  BitArray.eqb (V4.addr 10 0 0 1) (V4.addr 10 0 0 2) = false.
Proof. repeat split. Qed.

(** ** bintrie.h *)

Section TrieClaims.
Context {T : Type} (N : nat) (data_init : T) (key_init_bytes : list Z).
Local Abbreviation Trie := (@Trie T).
Local Abbreviation op := (@op T).
Local Abbreviation index := (@index T N data_init key_init_bytes).
Local Abbreviation at_ := (@at_ T N).
Local Abbreviation best := (@best T N).
Local Abbreviation erase := (@erase T N key_init_bytes).
Local Abbreviation run := (@run T N data_init key_init_bytes).
Local Abbreviation reachable := (@reachable T N data_init key_init_bytes).

(** C6: [erase(key)] throws exactly when no data node holds [key], and then
    the trie is left as it was: same nodes, same links, same [size()]. *)
Theorem erase_out_of_range_iff (s s' : Trie) (key : BitArray.t) :
  reachable s -> BitArray.wf N key ->
  (erase key s = Some (out_of_range, s') <-> ~ stored s key /\ s' = s).
Proof.
  intros Hreach Hkey. pose proof (reachable_inv N data_init key_init_bytes s Hreach) as Hinv.
  split.
  - intros He.
    destruct (erase_post N key_init_bytes s key _ s' Hinv Hkey He)
      as [(_ & -> & Hns)|(Hr & _)]; [auto|discriminate].
  - intros [Hns ->]. now apply erase_missing.
Qed.

(** C8: [operator[]] allocates at most two nodes, so the node count and
    [size()] grow by at most two; [erase] allocates nothing; and after a
    program of insertions the number of live nodes is at most twice the number
    of different keys inserted.  ([at] and [best] return a node and no new
    trie: they only read.) *)
Theorem allocation_bounds (s : Trie) (key : BitArray.t) (ops : list op) :
  reachable s -> BitArray.wf N key ->
  Forall (fun o => is_insert o = true /\ wf_op N o) ops ->
  (exists p s', index key s = Some (Ok p, s') /\
     live s <= live s' <= live s + 2 /\ (size s' <= size s + 2)%Z /\
     forall q, is_Some (heap s !! q) -> is_Some (heap s' !! q)) /\
  (forall r s', erase key s = Some (r, s') ->
     next s' = next s /\ live s' <= live s /\
     forall q, is_Some (heap s' !! q) -> is_Some (heap s !! q)) /\
  (exists sE, run ops BinaryTrie = Some sE /\
     live sE <= 2 * distinct (map op_key ops) /\
     (size sE <= 2 * Z.of_nat (distinct (map op_key ops)))%Z).
Proof.
  intros Hreach Hkey Hops.
  pose proof (reachable_inv N data_init key_init_bytes s Hreach) as Hinv.
  split; [|split].
  - destruct (lookupNode_post N data_init key_init_bytes s key Hinv Hkey)
      as (p & s1 & Hlook & Hpost).
    exists p, s1. unfold index. rewrite Hlook. split; [reflexivity|].
    pose proof (ip_live_le N s s1 key p Hpost) as Hlive.
    split; [assumption|]. split.
    + destruct Hinv as (rep & _ & _ & Hn). destruct (ip_inv _ _ _ _ _ Hpost) as (rep1 & _ & _ & Hn1).
      unfold size. rewrite Hn, Hn1.
      replace (live s1) with (live s + (live s1 - live s)) by lia.
      etransitivity; [apply size_t_wrap_add_le|]. lia.
    + intros q [qd Hq].
      destruct (ip_old _ _ _ _ _ Hpost q qd Hq) as (qd' & Hq' & _). eauto.
  - intros r s' He.
    destruct (erase_post N key_init_bytes s key r s' Hinv Hkey He)
      as [(_ & -> & _)|(_ & _ & Hpost)]; [auto|].
    split; [exact (rp_next _ _ _ Hpost)|].
    split; [exact (rp_live _ _ _ Hpost)|exact (rp_dom _ _ _ Hpost)].
  - destruct (run_insert_live N data_init key_init_bytes ops [] BinaryTrie
                (inv_BinaryTrie N) Hops) as (sE & Hrun & Hle).
    + constructor.
    + intros k [].
    + exists sE. split; [assumption|].
      assert (Hl : live sE <= 2 * distinct (map op_key ops)).
      { unfold distinct. unfold live in Hle at 2. cbn [heap BinaryTrie] in Hle.
        rewrite map_size_empty in Hle. lia. }
      split; [assumption|].
      assert (HinvE : inv N sE).
      { eapply run_inv; [apply inv_BinaryTrie| |exact Hrun].
        eapply Forall_impl; [exact Hops|]. now intros o [_ H]. }
      destruct HinvE as (repE & _ & _ & Hn). unfold size. rewrite Hn.
      pose proof (size_t_wrap_le (live sE)). lia.
Qed.

End TrieClaims.

(** ** The properties on the IPv4 table *)

Lemma table_ok : Forall (fun o => is_insert o = true /\ wf_op V4.N o) V4.table.
Proof. unfold V4.table, wf_op, BitArray.wf. simpl. wf_solve. Qed.

Lemma table_edits_ok : Forall (fun o => wf_op V4.N o /\ keyed_op o) V4.table_edits.
Proof. unfold V4.table_edits, V4.table, wf_op, keyed_op, BitArray.wf. simpl. wf_solve. Qed.

Lemma loaded_reachable : reachable V4.N 0%Z [0; 0; 0; 0]%Z V4.loaded.
Proof.
  exists V4.table. split.
  - eapply Forall_impl; [exact table_ok|]. now intros o [_ H].
  - vm_compute. reflexivity.
Qed.

Lemma addr_wf (a b c d : Z) :
  (0 <= a < 256)%Z -> (0 <= b < 256)%Z -> (0 <= c < 256)%Z -> (0 <= d < 256)%Z ->
  forall len, len <= 32 -> BitArray.wf V4.N (V4.prefix a b c d len).
Proof. intros Ha Hb Hc Hd len Hlen. unfold BitArray.wf. simpl. wf_solve. Qed.

(** C1: [best] does not return the longest stored prefix when that prefix
    is the default route: [0.0.0.0/0] was inserted, it is a prefix of every
    address, and [best] throws.  ([lookupNode] makes the node with the
    constructor of data nodes, but an empty key is also what marks a glue
    node, and [searchBest] skips it.) *)
Theorem best_misses_default_route :
  exists s, V4.run4 [OpAssign V4.default_route 7%Z] BinaryTrie = Some s /\
            BitArray.wf V4.N V4.default_route /\
            is_prefix V4.default_route (V4.addr 10 1 2 3) /\
            best V4.N (V4.addr 10 1 2 3) s = Some out_of_range.
Proof.
  eexists. split; [vm_compute; reflexivity|]. split; [apply addr_wf; lia|].
  split; [split; [simpl; lia|intros i Hi; simpl in Hi; lia]|].
  vm_compute. reflexivity.
Qed.

(** C2: [at(k)] right after [operator[](k)] does not find the node when
    [k] is the default route: [operator[]] returns a node for [0.0.0.0/0]
    and [at] throws.  ([searchExact] takes the node, whose key is empty, for
    a glue node.) *)
Theorem at_misses_default_route :
  exists p s',
    BitArray.wf V4.N V4.default_route /\
    index V4.N 0%Z [0; 0; 0; 0]%Z V4.default_route BinaryTrie = Some (Ok p, s') /\
    at_ V4.N V4.default_route s' = Some out_of_range.
Proof.
  exists 1. eexists. split; [apply addr_wf; lia|]. split; vm_compute; reflexivity.
Qed.

(** C3: a node with an empty key can have fewer than two children: after
    the default route is inserted, the root has an empty key and no child
    (a leaf that is no data node); and once it has one child, erasing that
    child writes through a null pointer in [removeNode]. *)
Theorem default_route_glue_without_children :
  exists s nd,
    V4.run4 [OpIndex V4.default_route] BinaryTrie = Some s /\
    heap s !! 1 = Some nd /\ BitArray.empty (n_key nd) = true /\
    n_left nd = None /\ n_right nd = None /\
    V4.run4 [OpIndex V4.default_route; OpIndex (V4.prefix 10 0 0 0 8);
             OpErase (V4.prefix 10 0 0 0 8)] BinaryTrie = None.
Proof.
  eexists. eexists. split; [vm_compute; reflexivity|].
  split; [vm_compute; reflexivity|]. repeat split.
Qed.

Lemma erase_out_of_range_iff_witness :
  reachable V4.N 0%Z [0; 0; 0; 0]%Z V4.loaded /\
  BitArray.wf V4.N (V4.prefix 10 2 0 0 16) /\
  (erase V4.N [0; 0; 0; 0]%Z (V4.prefix 10 2 0 0 16) V4.loaded = Some (out_of_range, V4.loaded)
   <-> ~ stored V4.loaded (V4.prefix 10 2 0 0 16) /\ V4.loaded = V4.loaded).
Proof.
  assert (Hk : BitArray.wf V4.N (V4.prefix 10 2 0 0 16)) by (apply addr_wf; lia).
  split; [exact loaded_reachable|]. split; [exact Hk|].
  exact (erase_out_of_range_iff V4.N 0%Z [0; 0; 0; 0]%Z V4.loaded V4.loaded
           (V4.prefix 10 2 0 0 16) loaded_reachable Hk).
Defined.

(** C7: erasing the only node of a trie passes it to [delete] twice. *)
Theorem erase_last_node_deletes_twice :
  exists s',
    at_ V4.N (V4.prefix 10 0 0 0 8) V4.single = Some (Ok 1) /\
    deleted V4.single = [] /\
    erase V4.N [0; 0; 0; 0]%Z (V4.prefix 10 0 0 0 8) V4.single = Some (Ok tt, s') /\
    root s' = None /\ size s' = 0%Z /\
    deleted s' = [1; 1].
Proof.
  eexists. split; [vm_compute; reflexivity|]. split; [vm_compute; reflexivity|].
  split; [vm_compute; reflexivity|]. repeat split.
Qed.

Lemma allocation_bounds_witness :
  reachable V4.N 0%Z [0; 0; 0; 0]%Z V4.loaded /\
  BitArray.wf V4.N (V4.prefix 10 2 0 0 16) /\
  Forall (fun o => is_insert o = true /\ wf_op V4.N o) V4.table /\
  exists sE, V4.run4 V4.table BinaryTrie = Some sE /\
             live sE <= 2 * distinct (map op_key V4.table).
Proof.
  assert (Hk : BitArray.wf V4.N (V4.prefix 10 2 0 0 16)) by (apply addr_wf; lia).
  split; [exact loaded_reachable|]. split; [exact Hk|]. split; [exact table_ok|].
  destruct (allocation_bounds V4.N 0%Z [0; 0; 0; 0]%Z V4.loaded (V4.prefix 10 2 0 0 16)
              V4.table loaded_reachable Hk table_ok) as (_ & _ & sE & Hrun & Hle & _).
  exists sE. split; assumption.
Defined.

(** C10: [clear()] frees the nodes and resets the counter, and leaves
    [root] pointing at the freed root: [empty()] is false, and the next
    [clear()] (the destructor's) reads the freed node. *)
Theorem clear_leaves_root :
  exists s',
    clear V4.single = Some s' /\
    size s' = 0%Z /\ live s' = 0 /\ deleted s' = [1] /\
    root s' = Some 1 /\ empty s' = false /\
    clear s' = None.
Proof.
  eexists. split; [vm_compute; reflexivity|]. repeat split.
Qed.

(** ** The scenarios of the documentation *)

Example scenario_table :
  V4.answer V4.loaded (V4.addr 10 1 2 3) = Some (Some 102%Z) /\
  V4.answer V4.loaded (V4.addr 10 1 3 4) = Some (Some 101%Z) /\
  V4.answer V4.loaded (V4.addr 10 2 0 1) = Some (Some 100%Z) /\
  V4.answer V4.loaded (V4.addr 11 0 0 1) = Some None /\
  V4.answer V4.loaded (V4.addr 192 168 1 1) = Some (Some 200%Z).
Proof. repeat split; vm_compute; reflexivity. Qed.

Example scenario_replacement :
  exists s, V4.run4 V4.table_edits BinaryTrie = Some s /\
            V4.answer s (V4.addr 10 1 2 3) = Some (Some 111%Z) /\ size s = 3%Z.
Proof. eexists. split; [vm_compute; reflexivity|]. split; vm_compute; reflexivity. Qed.

(** * Further properties of bitarray.h *)

Section BitArrayExtras.
Import BitArray BitArrayFacts BitOps BitOpsFacts.

(** X1: [BitArray(bits, nbits)] throws exactly when [nbits] is more than
    the [N * 8] bits of the buffer; otherwise the new array is well formed,
    holds [nbits] bits, and its first [nbits] bits are those of the bytes
    it was given. *)
Theorem construct_round_trip (N : nat) (init buf : list Z) (nbits : nat) :
  length init = N ->
  Forall (fun b => (0 <= b < 256)%Z) init -> Forall (fun b => (0 <= b < 256)%Z) buf ->
  (Z.of_nat nbits + 7 < 2 ^ 64)%Z ->
  getByteCount nbits <= length buf ->
  (construct N init buf nbits = None <-> N * 8 < nbits) /\
  forall a, construct N init buf nbits = Some a ->
    wf N a /\ size a = nbits /\
    forall i, i < nbits -> get a i = get (mk buf nbits) i.
Proof.
  intros Hinit Hri Hrb Hsmall Hbuf. unfold construct.
  rewrite (getByteCount_wrap_small nbits Hsmall).
  destruct (Nat.ltb_spec N (getByteCount nbits)) as [Hlt|Hge].
  - split; [split; [intros _; now apply getByteCount_gt|reflexivity]|discriminate].
  - assert (Hfit : ~ N * 8 < nbits) by (rewrite <- getByteCount_gt; lia).
    split; [split; [discriminate|intros H; contradiction]|].
    intros a [= <-]. split; [|split; [reflexivity|]].
    + split; [|split]; cbn [bits bitCount]; [| |lia].
      * rewrite length_app, length_take_le, length_drop by lia. lia.
      * apply Forall_app. split; [now apply Forall_take|now apply Forall_drop].
    + intros i Hi. rewrite !get_testbit. unfold byte. cbn [bits]. f_equal.
      assert (Hi8 : i / 8 < getByteCount nbits).
      { rewrite getByteCount_div. apply Nat.Div0.div_lt_upper_bound.
        pose proof (Nat.div_mod_eq (nbits + 7) 8).
        pose proof (Nat.mod_upper_bound (nbits + 7) 8 ltac:(lia)). lia. }
      rewrite app_nth1 by (rewrite length_take_le; lia).
      rewrite nth_firstn. destruct (Nat.ltb_spec (i / 8) (getByteCount nbits)); [reflexivity|lia].
Qed.

Lemma set_mask (o : nat) :
  o < 8 ->
  uchar (Z.shiftr (Z.shiftl 1 (Z.of_nat (WORD_BITS - 1))) (Z.of_nat o)) = (2 ^ (7 - Z.of_nat o))%Z.
Proof.
  intros Ho. unfold WORD_BITS. change (Z.of_nat (8 - 1)) with 7%Z.
  rewrite Z.shiftl_1_l, Z.shiftr_div_pow2 by lia.
  rewrite <- Z.pow_sub_r by lia. apply uchar_id.
  split; [apply Z.pow_nonneg; lia|].
  change 256%Z with (2 ^ 8)%Z. apply Z.pow_lt_mono_r; lia.
Qed.

(** X2: after [a[pos] = x] with [pos] inside the buffer, bit [pos] reads
    [x], every other bit reads what it read before, and the array is as long
    and as well formed as it was. *)
Theorem set_then_get (N : nat) (a : t) (pos : nat) (x : bool) :
  wf N a -> pos < N * 8 ->
  wf N (set a pos x) /\ size (set a pos x) = size a /\
  get (set a pos x) pos = x /\
  forall i, i <> pos -> get (set a pos x) i = get a i.
Proof.
  intros (Hlen & Hall & Hcnt) Hpos.
  assert (Hn : pos / 8 < length (bits a))
    by (rewrite Hlen; apply Nat.Div0.div_lt_upper_bound; lia).
  pose proof (Nat.mod_upper_bound pos 8 ltac:(lia)) as Ho.
  assert (Hbyte : forall j, byte (set a pos x) j =
            if decide (j = pos / 8)
            then (if x then uchar (Z.lor (byte a (pos / 8)) (2 ^ (7 - Z.of_nat (pos mod 8))))
                  else uchar (Z.land (byte a (pos / 8))
                                (Z.lnot (2 ^ (7 - Z.of_nat (pos mod 8))))))
            else byte a j).
  { intros j. unfold byte at 1, set. cbv zeta. cbn [bits].
    change (pos / WORD_BITS) with (pos / 8). change (pos mod WORD_BITS) with (pos mod 8).
    rewrite nth_insert by assumption. rewrite (set_mask (pos mod 8) Ho). reflexivity. }
  split; [|split; [reflexivity|split]].
  - split; [|split]; unfold set; cbn [bits bitCount]; [| |assumption].
    + now rewrite length_insert.
    + apply Forall_insert; [assumption|]. destruct x; apply uchar_range.
  - rewrite get_testbit, Hbyte. destruct (decide (pos / 8 = pos / 8)); [|contradiction].
    destruct x; rewrite uchar_bits by lia.
    + rewrite Z.lor_spec, Z.pow2_bits_true by lia. apply orb_true_r.
    + rewrite Z.land_spec, Z.lnot_spec, Z.pow2_bits_true by lia. apply andb_false_r.
  - intros i Hne. rewrite !get_testbit, Hbyte.
    destruct (decide (i / 8 = pos / 8)) as [E|_]; [|reflexivity].
    pose proof (Nat.mod_upper_bound i 8 ltac:(lia)) as Hoi.
    assert (Hk : i mod 8 <> pos mod 8).
    { intros E'. apply Hne. rewrite (Nat.div_mod_eq i 8), (Nat.div_mod_eq pos 8). congruence. }
    rewrite E. destruct x; rewrite uchar_bits by lia.
    + rewrite Z.lor_spec, Z.pow2_bits_false by lia. apply orb_false_r.
    + rewrite Z.land_spec, Z.lnot_spec, Z.pow2_bits_false by lia. apply andb_true_r.
Qed.

(** X3: on well-formed arrays [operator==] is an equivalence relation, and
    [operator!=] is its complement; bits stored beyond [size()] play no
    part. *)
Theorem eqb_equivalence (N : nat) (a b c : t) :
  wf N a -> wf N b -> wf N c ->
  eqb a a = true /\
  eqb a b = eqb b a /\
  (eqb a b = true -> eqb b c = true -> eqb a c = true) /\
  (eqb a b = true <-> size a = size b /\ forall i, i < size a -> get a i = get b i) /\
  neqb a b = negb (eqb a b).
Proof.
  intros Ha Hb Hc.
  assert (Hspec : forall u v, wf N u -> wf N v ->
            (eqb u v = true <-> size u = size v /\ forall i, i < size u -> get u i = get v i)).
  { intros u v Hu Hv. unfold eqb, size.
    destruct (Nat.eqb_spec (bitCount u) (bitCount v)) as [E|E].
    - rewrite (compareBits_spec N u v _ Hu Hv). unfold agree. split.
      + intros (_ & _ & H). auto.
      + intros [_ H]. repeat split; [lia|lia|assumption].
    - split; [discriminate|]. intros [E' _]. contradiction. }
  split; [apply (Hspec a a Ha Ha); auto|]. split; [|split; [|split; [apply Hspec; assumption|reflexivity]]].
  - destruct (eqb a b) eqn:E1; destruct (eqb b a) eqn:E2; try reflexivity.
    + apply (Hspec a b Ha Hb) in E1. destruct E1 as [Es Hag].
      assert (eqb b a = true); [|congruence].
      apply (Hspec b a Hb Ha). split; [congruence|]. intros i Hi. symmetry. apply Hag. lia.
    + apply (Hspec b a Hb Ha) in E2. destruct E2 as [Es Hag].
      assert (eqb a b = true); [|congruence].
      apply (Hspec a b Ha Hb). split; [congruence|]. intros i Hi. symmetry. apply Hag. lia.
  - intros E1 E2. apply (Hspec a b Ha Hb) in E1. apply (Hspec b c Hb Hc) in E2.
    destruct E1 as [Es1 H1], E2 as [Es2 H2]. apply (Hspec a c Ha Hc).
    split; [congruence|]. intros i Hi. rewrite H1 by assumption. apply H2. lia.
Qed.

(** X4: [operator<] is a strict order (never [a < a], and transitive) that
    puts the shorter array first; [operator>=] is its complement; and
    [operator<=], which the code computes as [operator>], does not hold
    between an array and itself. *)
Theorem lt_strict_order (a b c : t) :
  lt a a = false /\
  (lt a b = true -> lt b a = false) /\
  (lt a b = true -> lt b c = true -> lt a c = true) /\
  (size a < size b -> lt a b = true /\ lt b a = false) /\
  ge a b = negb (lt a b) /\
  le a a = false /\ (le a b = true -> lt a b = false).
Proof.
  assert (Hirr : forall u, lt u u = false).
  { intros u. unfold lt. rewrite Nat.ltb_irrefl, strncmp_refl. reflexivity. }
  assert (Hasym : forall u v, lt u v = true -> lt v u = false).
  { intros u v. unfold lt.
    destruct (Nat.ltb_spec (bitCount u) (bitCount v)) as [H1|H1];
      destruct (Nat.ltb_spec (bitCount v) (bitCount u)) as [H2|H2]; try lia; try discriminate;
      try reflexivity.
    replace (bitCount v) with (bitCount u) by lia.
    rewrite (strncmp_antisym (bits u) (bits v)).
    destruct (Z.ltb_spec (strncmp (bits u) (bits v) (getByteCount (bitCount u))) 0);
      [|destruct (_ <? _)%Z; discriminate].
    intros _. destruct (Z.ltb_spec (- strncmp (bits u) (bits v) (getByteCount (bitCount u))) 0);
      [lia|]. destruct (_ <? _)%Z; reflexivity. }
  split; [apply Hirr|]. split; [apply Hasym|]. split; [|split; [|split; [reflexivity|split]]].
  - unfold lt.
    destruct (Nat.ltb_spec (bitCount a) (bitCount b)) as [H1|H1];
      destruct (Nat.ltb_spec (bitCount b) (bitCount c)) as [H2|H2];
      destruct (Nat.ltb_spec (bitCount a) (bitCount c)) as [H3|H3]; try reflexivity; try lia;
      destruct (Nat.ltb_spec (bitCount b) (bitCount a)) as [H4|H4]; try discriminate;
      destruct (Nat.ltb_spec (bitCount c) (bitCount b)) as [H5|H5]; try discriminate; try lia.
    destruct (Nat.ltb_spec (bitCount c) (bitCount a)) as [H6|H6]; [lia|].
    replace (bitCount b) with (bitCount a) by lia.
    destruct (Z.ltb_spec (strncmp (bits a) (bits b) (getByteCount (bitCount a))) 0) as [L1|L1];
      [|destruct (_ <? _)%Z; discriminate].
    destruct (Z.ltb_spec (strncmp (bits b) (bits c) (getByteCount (bitCount a))) 0) as [L2|L2];
      [|destruct (_ <? _)%Z; discriminate].
    intros _ _. pose proof (strncmp_trans _ _ _ _ L1 L2) as L3.
    destruct (Z.ltb_spec (strncmp (bits a) (bits c) (getByteCount (bitCount a))) 0); [reflexivity|lia].
  - unfold size. intros Hs.
    assert (H : lt a b = true).
    { unfold lt. destruct (Nat.ltb_spec (bitCount a) (bitCount b)); [reflexivity|lia]. }
    split; [assumption|now apply Hasym].
  - unfold le, gt. apply Hirr.
  - unfold le, gt. apply Hasym.
Qed.


(** X19: inside the buffer the iterator arithmetic is arithmetic on bit
    positions: [it + i] (for [i] of either sign) stands [i] bits further and keeps its offset
    inside a byte, [++] and [--] are [+ 1] and [- 1], [-=] undoes [+=], the
    difference of two iterators is the difference of their positions, and
    [==] and [<] compare positions. *)
Theorem iterator_arithmetic (N : nat) (it other : IteratorBase) (i : Z) :
  it_valid it -> it_valid other ->
  (Z.of_nat N * 8 < 2 ^ 62)%Z ->
  (0 <= it_pos it <= Z.of_nat N * 8)%Z -> (0 <= it_pos other <= Z.of_nat N * 8)%Z ->
  (0 <= it_pos it + i <= Z.of_nat N * 8)%Z ->
  it_valid (incr it i) /\ it_pos (incr it i) = (it_pos it + i)%Z /\
  bumpUp it = incr it 1 /\ bumpDown it = incr it (-1) /\
  it_minus (it_plus it i) i = it /\
  diff it other = (it_pos it - it_pos other)%Z /\
  (it_eqb it other = true <-> it_pos it = it_pos other) /\
  (it_ltb it other = true <-> (it_pos it < it_pos other)%Z).
Proof.
  intros Hv Ho _ _ _ _. unfold it_valid in *.
  assert (Hincr : forall x j, (0 <= it_offset x < 8)%Z ->
            (0 <= it_offset (incr x j) < 8)%Z /\ it_pos (incr x j) = (it_pos x + j)%Z).
  { intros x j Hx. unfold incr, it_pos, WORD_BITS. cbv zeta. change (Z.of_nat 8) with 8%Z.
    pose proof (Z.quot_rem' (j + it_offset x) 8) as Hqr.
    destruct (Z.ltb_spec (Z.rem (j + it_offset x) 8) 0) as [Hneg|Hpos]; cbn [it_p it_offset].
    - assert (-8 < Z.rem (j + it_offset x) 8)%Z.
      { destruct (Z.le_gt_cases 0 (j + it_offset x)) as [H0|H0].
        - pose proof (Z.rem_bound_pos (j + it_offset x) 8 H0 ltac:(lia)). lia.
        - pose proof (Z.rem_bound_pos_neg (j + it_offset x) 8 ltac:(lia) ltac:(lia)). lia. }
      rewrite uchar_id by lia. lia.
    - assert (Z.rem (j + it_offset x) 8 < 8)%Z.
      { destruct (Z.le_gt_cases 0 (j + it_offset x)) as [H0|H0].
        - pose proof (Z.rem_bound_pos (j + it_offset x) 8 H0 ltac:(lia)). lia.
        - pose proof (Z.rem_bound_pos_neg (j + it_offset x) 8 ltac:(lia) ltac:(lia)). lia. }
      rewrite uchar_id by lia. lia. }
  assert (Hext : forall x y, (0 <= it_offset x < 8)%Z -> (0 <= it_offset y < 8)%Z ->
            it_pos x = it_pos y -> x = y).
  { intros [p1 o1] [p2 o2]. unfold it_pos. cbn. intros H1 H2 E.
    assert (p1 = p2) by lia. assert (o1 = o2) by lia. congruence. }
  destruct (Hincr it i Hv) as [Hvi Hpi].
  split; [exact Hvi|]. split; [exact Hpi|]. split; [|split; [|split; [|split; [|split]]]].
  - apply Hext.
    + unfold bumpUp, WORD_BITS. change (Z.of_nat 8 - 1)%Z with 7%Z.
      destruct (Z.eqb_spec (it_offset it) 7); cbn [it_offset]; [lia|].
      rewrite uchar_id by lia. lia.
    + apply Hincr, Hv.
    + rewrite (proj2 (Hincr it 1%Z Hv)). unfold bumpUp, it_pos, WORD_BITS.
      change (Z.of_nat 8 - 1)%Z with 7%Z.
      destruct (Z.eqb_spec (it_offset it) 7); cbn [it_p it_offset]; [lia|].
      rewrite uchar_id by lia. lia.
  - apply Hext.
    + unfold bumpDown, WORD_BITS. change (Z.of_nat 8 - 1)%Z with 7%Z.
      destruct (Z.eqb_spec (it_offset it) 0); cbn [it_offset]; [lia|].
      rewrite uchar_id by lia. lia.
    + apply Hincr, Hv.
    + rewrite (proj2 (Hincr it (-1)%Z Hv)). unfold bumpDown, it_pos, WORD_BITS.
      change (Z.of_nat 8 - 1)%Z with 7%Z.
      destruct (Z.eqb_spec (it_offset it) 0); cbn [it_p it_offset]; [lia|].
      rewrite uchar_id by lia. lia.
  - unfold it_minus, it_plus. apply Hext; [apply Hincr, Hvi|exact Hv|].
    rewrite (proj2 (Hincr _ (- i)%Z Hvi)), Hpi. lia.
  - unfold diff, it_pos, WORD_BITS. change (Z.of_nat 8) with 8%Z. lia.
  - unfold it_eqb, it_pos. rewrite andb_true_iff, !Z.eqb_eq. lia.
  - unfold it_ltb, it_pos. rewrite orb_true_iff, andb_true_iff, Z.eqb_eq, !Z.ltb_lt. lia.
Qed.


(** X22: [operator<<=(pos)] stays inside the buffer exactly when [pos] is
    at most [N * 8].  It then keeps [size()], and multiplies the number the
    buffer holds, byte 0 read as the least significant, by [2 ^ pos] modulo
    [2 ^ (N * 8)]; a shift by whole bytes clears the first [pos] bits and
    moves every other bit [pos] places towards the end of the array. *)
Theorem shl_assign_shifts (N : nat) (a : t) (pos : nat) :
  wf N a -> 0 < N ->
  (is_Some (shl_assign N a pos) <-> pos <= N * 8) /\
  forall a', shl_assign N a pos = Some a' ->
    wf N a' /\ size a' = size a /\
    le_value (bits a') = ((le_value (bits a) * 2 ^ Z.of_nat pos) mod 2 ^ Z.of_nat (N * 8))%Z /\
    (pos mod 8 = 0 -> forall k, k < N * 8 ->
       get a' k = if k <? pos then false else get a (k - pos)).
Proof.
  intros Hwf HN. split; [now apply ShiftFacts.shl_assign_defined|].
  intros a' Hshl.
  assert (Hfit : pos <= N * 8).
  { apply (ShiftFacts.shl_assign_defined N a pos HN). eauto. }
  destruct (Nat.eq_dec pos 0) as [->|Hpos].
  - cbn in Hshl. injection Hshl as <-.
    split; [assumption|]. split; [reflexivity|]. split.
    + destruct Hwf as (Hlen & Hall & _).
      pose proof (ShiftFacts.le_value_range (bits a) Hall) as Hr. rewrite Hlen in Hr.
      change (2 ^ Z.of_nat 0)%Z with 1%Z. rewrite Z.mul_1_r.
      symmetry. apply Z.mod_small. exact Hr.
    + intros _ k _. cbn [Nat.ltb Nat.leb]. now rewrite Nat.sub_0_r.
  - destruct (ShiftFacts.shl_assign_value N a a' pos Hwf ltac:(lia) Hfit Hshl) as [Hwf' Hval].
    split; [assumption|]. split; [|split; [assumption|]].
    + destruct Hwf as (Hlen & _).
      destruct (ShiftFacts.shl_assign_bytes N a pos Hlen ltac:(lia) Hfit) as (a1 & H1 & Hbc & _).
      rewrite Hshl in H1. injection H1 as <-. exact Hbc.
    + intros Hal k Hk. destruct Hwf as (Hlen & _).
      exact (ShiftFacts.shl_assign_aligned N a a' pos k Hlen ltac:(lia) Hfit Hal Hshl Hk).
Qed.

End BitArrayExtras.

(** ** The properties on concrete arrays *)

Lemma construct_round_trip_witness :
  length [0; 0; 0; 0]%Z = 4 /\
  Forall (fun b => (0 <= b < 256)%Z) [0; 0; 0; 0]%Z /\
  Forall (fun b => (0 <= b < 256)%Z) [10; 1; 2; 3]%Z /\
  (Z.of_nat 24 + 7 < 2 ^ 64)%Z /\
  BitArray.getByteCount 24 <= length [10; 1; 2; 3]%Z /\
  (BitOps.construct 4 [0; 0; 0; 0]%Z [10; 1; 2; 3]%Z 24 = None <-> 4 * 8 < 24).
Proof.
  assert (H1 : length [0; 0; 0; 0]%Z = 4) by reflexivity.
  assert (H2 : Forall (fun b => (0 <= b < 256)%Z) [0; 0; 0; 0]%Z) by wf_solve.
  assert (H3 : Forall (fun b => (0 <= b < 256)%Z) [10; 1; 2; 3]%Z) by wf_solve.
  assert (H4 : (Z.of_nat 24 + 7 < 2 ^ 64)%Z) by (vm_compute; reflexivity).
  assert (H5 : BitArray.getByteCount 24 <= length [10; 1; 2; 3]%Z) by (vm_compute; lia).
  repeat (split; [assumption|]).
  exact (proj1 (construct_round_trip 4 _ _ 24 H1 H2 H3 H4 H5)).
Defined.

Lemma set_then_get_witness :
  BitArray.wf 4 (V4.prefix 10 0 0 0 8) /\ 9 < 4 * 8 /\
  BitArray.get (BitOps.set (V4.prefix 10 0 0 0 8) 9 true) 9 = true.
Proof.
  assert (Ha : BitArray.wf 4 (V4.prefix 10 0 0 0 8)) by (apply addr_wf; lia).
  assert (Hp : 9 < 4 * 8) by (simpl; lia).
  split; [exact Ha|]. split; [exact Hp|].
  exact (proj1 (proj2 (proj2 (set_then_get 4 _ 9 true Ha Hp)))).
Defined.

Lemma eqb_equivalence_witness :
  BitArray.wf 4 (V4.prefix 10 1 2 3 16) /\ BitArray.wf 4 (V4.prefix 10 1 0 0 16) /\
  BitArray.wf 4 (V4.prefix 10 1 255 255 16) /\
  BitArray.eqb (V4.prefix 10 1 2 3 16) (V4.prefix 10 1 2 3 16) = true.
Proof.
  assert (Ha : BitArray.wf 4 (V4.prefix 10 1 2 3 16)) by (apply addr_wf; lia).
  assert (Hb : BitArray.wf 4 (V4.prefix 10 1 0 0 16)) by (apply addr_wf; lia).
  assert (Hc : BitArray.wf 4 (V4.prefix 10 1 255 255 16)) by (apply addr_wf; lia).
  repeat (split; [assumption|]).
  exact (proj1 (eqb_equivalence 4 _ _ _ Ha Hb Hc)).
Defined.


Lemma iterator_arithmetic_witness :
  BitOps.it_valid (BitOps.mkIter 1 6) /\ BitOps.it_valid (BitOps.mkIter 0 3) /\
  (Z.of_nat 4 * 8 < 2 ^ 62)%Z /\
  (0 <= BitOps.it_pos (BitOps.mkIter 1 6) <= Z.of_nat 4 * 8)%Z /\
  (0 <= BitOps.it_pos (BitOps.mkIter 0 3) <= Z.of_nat 4 * 8)%Z /\
  (0 <= BitOps.it_pos (BitOps.mkIter 1 6) + -11 <= Z.of_nat 4 * 8)%Z /\
  BitOps.it_pos (BitOps.incr (BitOps.mkIter 1 6) (-11)) = (BitOps.it_pos (BitOps.mkIter 1 6) + -11)%Z.
Proof.
  assert (H1 : BitOps.it_valid (BitOps.mkIter 1 6)) by (unfold BitOps.it_valid; simpl; lia).
  assert (H2 : BitOps.it_valid (BitOps.mkIter 0 3)) by (unfold BitOps.it_valid; simpl; lia).
  assert (H3 : (Z.of_nat 4 * 8 < 2 ^ 62)%Z) by (vm_compute; reflexivity).
  assert (H4 : (0 <= BitOps.it_pos (BitOps.mkIter 1 6) <= Z.of_nat 4 * 8)%Z)
    by (unfold BitOps.it_pos; simpl; lia).
  assert (H5 : (0 <= BitOps.it_pos (BitOps.mkIter 0 3) <= Z.of_nat 4 * 8)%Z)
    by (unfold BitOps.it_pos; simpl; lia).
  assert (H6 : (0 <= BitOps.it_pos (BitOps.mkIter 1 6) + -11 <= Z.of_nat 4 * 8)%Z)
    by (unfold BitOps.it_pos; simpl; lia).
  repeat (split; [assumption|]).
  exact (proj1 (proj2 (iterator_arithmetic 4 _ _ (-11) H1 H2 H3 H4 H5 H6))).
Defined.


Lemma shl_assign_shifts_witness :
  BitArray.wf 4 (V4.addr 10 1 2 3) /\ 0 < 4 /\
  (is_Some (BitOps.shl_assign 4 (V4.addr 10 1 2 3) 12) <-> 12 <= 4 * 8).
Proof.
  assert (Ha : BitArray.wf 4 (V4.addr 10 1 2 3)) by (apply addr_wf; lia).
  assert (HN : 0 < 4) by lia.
  split; [exact Ha|]. split; [exact HN|].
  exact (proj1 (shl_assign_shifts 4 (V4.addr 10 1 2 3) 12 Ha HN)).
Defined.

(** * Further properties of bintrie.h *)

Section TrieExtras.
Context {T : Type} (N : nat) (data_init : T) (key_init_bytes : list Z).
Local Abbreviation Trie := (@Trie T).
Local Abbreviation op := (@op T).
Local Abbreviation index := (@index T N data_init key_init_bytes).
Local Abbreviation assign := (@assign T N data_init key_init_bytes).
Local Abbreviation at_ := (@at_ T N).
Local Abbreviation best := (@best T N).
Local Abbreviation erase := (@erase T N key_init_bytes).
Local Abbreviation run := (@run T N data_init key_init_bytes).
Local Abbreviation reachable := (@reachable T N data_init key_init_bytes).
Local Abbreviation inv := (@inv T N).

Lemma keyed_programs_inv (ops : list op) :
  Forall (fun o => wf_op N o /\ keyed_op o) ops -> Forall (wf_op N) ops.
Proof. intros H. eapply Forall_impl; [exact H|]. now intros o [Hw _]. Qed.

(** X6: in a reachable trie [at(key)] returns node [p] exactly when [p] is
    a data node whose key has the length and the bits of [key], and throws
    exactly when no data node holds [key]. *)
Theorem at_finds_the_key_node (s : Trie) (key : BitArray.t) :
  reachable s -> BitArray.wf N key ->
  (forall p, at_ key s = Some (Ok p) <->
     exists nd, heap s !! p = Some nd /\ is_data nd /\ key_eq (n_key nd) key) /\
  (at_ key s = Some out_of_range <-> ~ stored s key).
Proof.
  intros Hreach Hkey.
  destruct (reachable_inv N data_init key_init_bytes s Hreach) as [rep Hinv].
  unfold at_. split.
  - intros p. split.
    + destruct (searchExact N key s) as [[p'|]|] eqn:Hse; cbn; try discriminate.
      intros [= ->]. exact (searchExact_sound N rep s key p Hinv Hkey Hse).
    + intros (nd & Hp & Hd & Hk).
      now rewrite (searchExact_complete N rep s key p nd Hinv Hkey Hp Hd Hk).
  - split.
    + destruct (searchExact N key s) as [[p'|]|] eqn:Hse; cbn; try discriminate.
      intros _ (p & nd & Hp & Hd & Hk).
      rewrite (searchExact_complete N rep s key p nd Hinv Hkey Hp Hd Hk) in Hse. discriminate.
    + intros Hns.
      now rewrite (not_stored_searchExact N s key (ex_intro _ rep Hinv) Hkey Hns).
Qed.

(** X7: in a reachable trie no two data nodes hold the same key. *)
Theorem stored_keys_unique (s : Trie) (p q : ptr) (pd qd : @Node T) :
  reachable s ->
  heap s !! p = Some pd -> heap s !! q = Some qd -> is_data pd -> is_data qd ->
  key_eq (n_key pd) (n_key qd) -> p = q.
Proof.
  intros Hreach. destruct (reachable_inv N data_init key_init_bytes s Hreach) as [rep Hinv].
  apply (data_key_unique N rep s p pd q qd Hinv).
Qed.

(** X8: when [at(key)] finds a node, [operator[](key)] returns that node
    and leaves the trie exactly as it was: no node is made, none changes. *)
Theorem index_of_stored_key_changes_nothing (s : Trie) (key : BitArray.t) (p : ptr) :
  reachable s -> BitArray.wf N key -> at_ key s = Some (Ok p) ->
  index key s = Some (Ok p, s).
Proof.
  intros Hreach Hkey Hat.
  destruct (reachable_inv N data_init key_init_bytes s Hreach) as [rep Hinv].
  apply (at_Ok_node N s key p (ex_intro _ rep Hinv) Hkey) in Hat.
  destruct Hat as (nd & Hp & Hd & Hk). unfold index.
  now rewrite (lookupNode_stored N data_init key_init_bytes rep s key p nd Hinv Hkey Hp Hd Hk).
Qed.

(** X9: [operator[]] keeps every reference valid: a node that [at] found
    before is found by [at] after, with the same payload. *)
Theorem index_keeps_references (s s' : Trie) (key k' : BitArray.t) (p q : ptr) :
  reachable s -> BitArray.wf N key -> BitArray.wf N k' ->
  index key s = Some (Ok p, s') -> at_ k' s = Some (Ok q) ->
  at_ k' s' = Some (Ok q) /\ deref s' q = deref s q.
Proof.
  intros Hreach Hkey Hk' Hidx Hat.
  pose proof (reachable_inv N data_init key_init_bytes s Hreach) as Hinv.
  apply (at_Ok_node N s k' q Hinv Hk') in Hat.
  destruct Hat as (qd & Hq & Hd & Hk).
  destruct (lookupNode_post N data_init key_init_bytes s key Hinv Hkey)
    as (p1 & s1 & Hlook & Hpost).
  unfold index in Hidx. rewrite Hlook in Hidx. injection Hidx as -> ->.
  destruct (ip_old _ _ _ _ _ Hpost q qd Hq) as (qd' & Hq' & _ & Hdat & _ & _ & Hkey').
  destruct Hkey' as [E|[_ E]]; [|unfold is_data in Hd; contradiction].
  destruct (ip_inv _ _ _ _ _ Hpost) as [rep1 Hinv1]. split.
  - unfold at_. rewrite (searchExact_complete N rep1 s' k' q qd' Hinv1 Hk' Hq').
    + reflexivity.
    + unfold is_data. now rewrite E.
    + now rewrite E.
  - unfold deref. rewrite Hq, Hq'. cbn. now rewrite Hdat.
Qed.

(** X10: after [trie[key] = v] for a key of at least one bit, [at(key)]
    reads [v], and every other key reads what it read before. *)
Theorem assign_then_at (s : Trie) (key : BitArray.t) (v : T) :
  reachable s -> BitArray.wf N key -> BitArray.size key <> 0 ->
  exists s' p,
    assign key v s = Some s' /\ at_ key s' = Some (Ok p) /\ deref s' p = Some v /\
    forall k' v', BitArray.wf N k' -> ~ key_eq key k' ->
      ((exists q, at_ k' s' = Some (Ok q) /\ deref s' q = Some v') <->
       (exists q, at_ k' s = Some (Ok q) /\ deref s q = Some v')).
Proof.
  intros Hreach Hkey Hlen.
  pose proof (reachable_inv N data_init key_init_bytes s Hreach) as Hinv.
  destruct (assign_holds N data_init key_init_bytes s key v Hinv Hkey Hlen)
    as (s2 & p0 & Has & Hinv2 & _ & _ & Hh).
  assert (Hv : holds s2 key v) by (apply Hh; left; split; [apply key_eq_refl|reflexivity]).
  apply (holds_at N s2 key v Hinv2 Hkey) in Hv. destruct Hv as (p & Hat & Hde).
  exists s2, p. split; [assumption|]. split; [assumption|]. split; [assumption|].
  intros k' v' Hk' Hne.
  rewrite <- (holds_at N s2 k' v' Hinv2 Hk'), <- (holds_at N s k' v' Hinv Hk'), Hh. tauto.
Qed.

(** X11: when [erase(key)] returns, [at(key)] throws afterwards, and every
    other key reads what it read before. *)
Theorem erase_removes_only_the_key (s s' : Trie) (key : BitArray.t) :
  reachable s -> BitArray.wf N key -> erase key s = Some (Ok tt, s') ->
  at_ key s' = Some out_of_range /\
  forall k' v', BitArray.wf N k' -> ~ key_eq key k' ->
    ((exists q, at_ k' s' = Some (Ok q) /\ deref s' q = Some v') <->
     (exists q, at_ k' s = Some (Ok q) /\ deref s q = Some v')).
Proof.
  intros Hreach Hkey He.
  pose proof (reachable_inv N data_init key_init_bytes s Hreach) as Hinv.
  assert (Hinv' : inv s').
  { destruct (erase_post N key_init_bytes s key _ s' Hinv Hkey He)
      as [(Hr & _)|(_ & _ & Hpost)]; [discriminate|exact (rp_inv _ _ _ Hpost)]. }
  split.
  - unfold at_. rewrite (not_stored_searchExact N s' key Hinv' Hkey); [reflexivity|].
    intros Hst. apply (erase_stored_iff N key_init_bytes s key _ s' Hinv Hkey He) in Hst.
    destruct Hst as [_ Hne]. apply Hne, key_eq_refl.
  - intros k' v' Hk' Hne.
    rewrite <- (holds_at N s' k' v' Hinv' Hk'), <- (holds_at N s k' v' Hinv Hk').
    rewrite (erase_holds N key_init_bytes s key _ s' Hinv Hkey He). tauto.
Qed.

(** X12: a program of insertions and erasures on keys of at least one bit,
    none of whose erasures takes out the last key of the trie, runs to the
    end without a read through a null or freed pointer and passes no pointer
    to [delete] twice; the keys the trie then holds are those the program
    leaves: inserted at some point and not erased since. *)
Theorem keys_follow_the_program (ops : list op) :
  Forall (fun o => wf_op N o /\ keyed_op o) ops ->
  keeps_a_key (fun _ => False) ops ->
  exists s, run ops BinaryTrie = Some s /\ NoDup (deleted s) /\
            forall k, stored s k <-> keys_after ops k.
Proof.
  intros Hops Hkeep.
  destruct (run_tidy N data_init key_init_bytes ops BinaryTrie (fun _ => False)
              (inv_BinaryTrie N) glue_full_BinaryTrie tidy_BinaryTrie Hops)
    as (s & Hrun & _ & _ & [Hnd _] & HK); [|exact Hkeep|].
  { intros k. split; [apply not_stored_BinaryTrie|intros []]. }
  exists s. split; [assumption|]. split; [exact Hnd|exact HK].
Qed.

(** X13: a program of [trie[k] = v] and [erase(k)] on keys of at least one
    bit, none of whose erasures takes out the last key, runs to the end,
    passes no pointer to [delete] twice, and leaves a map: [at(k)] reads [v]
    exactly when the last assignment to [k] wrote [v] and no [erase(k)] came
    after it. *)
Theorem payloads_follow_the_program (ops : list op) :
  Forall (fun o => wf_op N o /\ keyed_op o /\ is_update o = true) ops ->
  keeps_a_key (fun _ => False) ops ->
  exists s, run ops BinaryTrie = Some s /\ NoDup (deleted s) /\
    forall k v, BitArray.wf N k ->
      ((exists p, at_ k s = Some (Ok p) /\ deref s p = Some v) <-> vals_after ops k v).
Proof.
  intros Hops Hkeep.
  destruct (run_vals N data_init key_init_bytes ops BinaryTrie (fun _ _ => False)
              (inv_BinaryTrie N) glue_full_BinaryTrie Hops) as (s & Hrun & Hinv & _ & HR).
  { intros k v. split; [|intros []]. intros (p & pd & Hp & _).
    cbn [heap BinaryTrie] in Hp. now rewrite lookup_empty in Hp. }
  destruct (run_tidy N data_init key_init_bytes ops BinaryTrie (fun _ => False)
              (inv_BinaryTrie N) glue_full_BinaryTrie tidy_BinaryTrie)
    as (s1 & Hrun1 & _ & _ & [Hnd _] & _); [| |exact Hkeep|].
  { eapply Forall_impl; [exact Hops|]. intros o (H1 & H2 & _). auto. }
  { intros k. split; [apply not_stored_BinaryTrie|intros []]. }
  rewrite Hrun in Hrun1. injection Hrun1 as <-.
  exists s. split; [assumption|]. split; [exact Hnd|]. intros k v Hk.
  rewrite <- (holds_at N s k v Hinv Hk). apply HR.
Qed.

Lemma keys_inserts (ins : list op) : forall (K : BitArray.t -> Prop) k,
  Forall (fun o => is_insert o = true) ins ->
  (fold_left keys_step ins K k <-> K k \/ exists o, In o ins /\ key_eq (op_key o) k).
Proof.
  induction ins as [|o ins IH]; intros K k Hall; cbn [fold_left].
  - split; [auto|]. intros [H|(o & [] & _)]. assumption.
  - inversion Hall as [|? ? Ho Hrest]; subst. rewrite (IH _ _ Hrest).
    unfold keys_step at 1. rewrite Ho. split.
    + intros [[H1|H1]|(o' & Hin & H1)]; [now left|right; exists o; cbn; auto|].
      right. exists o'. cbn. auto.
    + intros [H1|(o' & [<-|Hin] & H1)]; [now left; left|now left; right|].
      right. eauto.
Qed.

Lemma keys_erases (es : list BitArray.t) : forall (K : BitArray.t -> Prop) k,
  fold_left keys_step (map (@OpErase T) es) K k <->
  K k /\ forall e, In e es -> ~ key_eq e k.
Proof.
  induction es as [|e es IH]; intros K k; cbn [map fold_left].
  - split; [intros H; split; [assumption|intros e []]|tauto].
  - rewrite IH. unfold keys_step at 1. cbn [is_insert op_key]. split.
    + intros [[H1 H2] H3]. split; [assumption|]. intros e' [<-|Hin]; auto.
    + intros [H1 H2]. split; [split; [assumption|]|]; intros; apply H2; cbn; auto.
Qed.

Lemma keeps_inserts (ins : list op) : forall (K : BitArray.t -> Prop),
  Forall (fun o => is_insert o = true) ins -> keeps_a_key K ins.
Proof.
  induction ins as [|o ins IH]; intros K Hall; cbn [keeps_a_key]; [exact I|].
  inversion Hall as [|? ? Ho Hrest]; subst. split; [congruence|now apply IH].
Qed.

Lemma keeps_erases (es : list BitArray.t) (k0 : BitArray.t) : forall (K : BitArray.t -> Prop),
  K k0 -> (forall e, In e es -> ~ key_eq e k0) -> keeps_a_key K (map (@OpErase T) es).
Proof.
  induction es as [|e es IH]; intros K H0 Hes; cbn [map keeps_a_key]; [exact I|].
  assert (H1 : keys_step K (@OpErase T e) k0).
  { unfold keys_step. cbn [is_insert op_key]. split; [exact H0|]. apply Hes. now left. }
  split; [intros _ _; now exists k0|].
  apply IH; [exact H1|]. intros e' He'. apply Hes. now right.
Qed.

Lemma keeps_app (a b : list op) : forall (K : BitArray.t -> Prop),
  keeps_a_key K a -> keeps_a_key (fold_left keys_step a K) b -> keeps_a_key K (a ++ b).
Proof.
  induction a as [|o a IH]; intros K Ha Hb; cbn [app fold_left keeps_a_key] in *; [exact Hb|].
  destruct Ha as [H1 H2]. split; [exact H1|]. now apply IH.
Qed.

(** X14: insertions followed by an erasure of every inserted key but one
    (keys of at least one bit, erased in any order) run to the end, pass no
    pointer to [delete] twice, and leave one node: the root, a leaf that
    holds the key that was kept; [size()] is 1 and no glue node is left. *)
Theorem erase_all_but_one_leaves_one_node
    (ins : list op) (es : list BitArray.t) (k0 : BitArray.t) :
  Forall (fun o => is_insert o = true /\ wf_op N o /\ keyed_op o) ins ->
  Forall (fun e => BitArray.wf N e /\ BitArray.bitCount e <> 0) es ->
  (exists o, In o ins /\ key_eq (op_key o) k0) ->
  (forall e, In e es -> ~ key_eq e k0) ->
  (forall o, In o ins -> key_eq (op_key o) k0 \/ exists e, In e es /\ key_eq e (op_key o)) ->
  exists s r rd,
    run (ins ++ map (@OpErase T) es) BinaryTrie = Some s /\ NoDup (deleted s) /\
    root s = Some r /\ heap s = ({[r := rd]} : gmap nat (@Node T)) /\
    key_eq (n_key rd) k0 /\ n_left rd = None /\ n_right rd = None /\
    size s = 1%Z /\ empty s = false.
Proof.
  intros Hins Hes (o0 & Ho0 & Hk0) Hkept Hcover.
  assert (Hall : Forall (fun o => wf_op N o /\ keyed_op o) (ins ++ map (@OpErase T) es)).
  { apply Forall_app. split.
    - eapply Forall_impl; [exact Hins|]. intros o (_ & H1 & H2). auto.
    - apply Forall_map. eapply Forall_impl; [exact Hes|]. intros e [H1 H2]. split; assumption. }
  assert (Hi : Forall (fun o => is_insert o = true) ins).
  { eapply Forall_impl; [exact Hins|]. now intros o [H _]. }
  assert (Hkeep : keeps_a_key (fun _ => False) (ins ++ map (@OpErase T) es)).
  { apply keeps_app; [now apply keeps_inserts|].
    apply (keeps_erases es k0); [|exact Hkept].
    apply keys_inserts; [exact Hi|]. right. now exists o0. }
  destruct (run_tidy N data_init key_init_bytes _ BinaryTrie (fun _ => False)
              (inv_BinaryTrie N) glue_full_BinaryTrie tidy_BinaryTrie Hall)
    as (s & Hrun & Hinv & Hg & [Hnd _] & HK); [|exact Hkeep|].
  { intros k. split; [apply not_stored_BinaryTrie|intros []]. }
  assert (Hkeys : forall k, stored s k <->
            (exists o, In o ins /\ key_eq (op_key o) k) /\ forall e, In e es -> ~ key_eq e k).
  { intros k. rewrite HK, fold_left_app, keys_erases, (keys_inserts ins _ k Hi). tauto. }
  destruct (one_key_one_node N s k0 Hinv Hg) as (r & rd & Hr & Hheap & _ & Hkr & Hl & Hrt & Hnum).
  { apply Hkeys. split; [now exists o0|exact Hkept]. }
  { intros k Hk. apply Hkeys in Hk. destruct Hk as [(o & Ho & Hok) Hne].
    destruct (Hcover o Ho) as [H1|(e & He & Hek)].
    - eapply key_eq_trans; [apply key_eq_sym; exact H1|exact Hok].
    - exfalso. apply (Hne e He). eapply key_eq_trans; eauto. }
  exists s, r, rd. split; [assumption|]. split; [assumption|]. split; [assumption|].
  split; [assumption|]. split; [assumption|]. split; [assumption|]. split; [assumption|].
  split; [exact Hnum|]. unfold empty. rewrite Hr. reflexivity.
Qed.

(** X15: in a reachable trie [size()] is the number of nodes (data and
    glue, modulo [2^64]), and [empty()] is true exactly when there is no
    node. *)
Theorem size_counts_nodes (s : Trie) :
  reachable s ->
  size s = size_t_wrap (Z.of_nat (live s)) /\
  (empty s = true <-> heap s = ∅) /\
  (empty s = true -> size s = 0%Z).
Proof.
  intros Hreach. destruct (reachable_inv N data_init key_init_bytes s Hreach)
    as (rep & Hroot & _ & Hnum).
  split; [exact Hnum|]. unfold empty, size.
  assert (Hiff : bool_decide (root s = None) = true <-> heap s = ∅).
  { rewrite bool_decide_eq_true. split.
    - intros E. now rewrite E in Hroot.
    - intros E. destruct (root s) as [r|]; [|reflexivity].
      destruct Hroot as (rd & Hrd & _). rewrite E, lookup_empty in Hrd. discriminate. }
  split; [exact Hiff|]. intros E. apply Hiff in E.
  rewrite Hnum. unfold live. rewrite E, map_size_empty. reflexivity.
Qed.

(** X16: on a reachable trie the walk of [searchBest] ends by its own test
    within [N * 8 + 1] rounds; and however many rounds it takes, the walk
    and the push after it leave at most [N * 8 + 1] nodes on the scratch
    stack, the room the array [stack[N * 8 + 1]] has. *)
Theorem searchBest_stack_fits (s : Trie) (key : BitArray.t) (r : ptr) :
  reachable s -> root s = Some r ->
  (exists node stack pushed,
     searchBest_loop (max_depth N) key (heap s) r [] = Some (node, stack) /\
     searchBest_push (heap s) node stack = Some pushed) /\
  forall fuel node stack pushed,
    searchBest_loop fuel key (heap s) r [] = Some (node, stack) ->
    searchBest_push (heap s) node stack = Some pushed ->
    length pushed <= N * 8 + 1.
Proof.
  intros Hreach Hr.
  destruct (reachable_inv N data_init key_init_bytes s Hreach) as [rep Hinv].
  split; [exact (searchBest_walk_total N rep s key r Hinv Hr)|].
  intros fuel node stack pushed Hloop Hpush.
  exact (searchBest_stack_bound N rep s key fuel r node stack pushed Hinv Hr Hloop Hpush).
Qed.

(** X17: [clear()] on a reachable trie passes every node to [delete]
    exactly once and no other pointer, leaves no node and [size()] 0, and
    does not touch [root]. *)
Theorem clear_deletes_every_node_once (s : Trie) :
  reachable s ->
  exists s' ds,
    clear s = Some s' /\
    heap s' = ∅ /\ size s' = 0%Z /\ root s' = root s /\
    deleted s' = ds ++ deleted s /\ NoDup ds /\
    forall q, In q ds <-> is_Some (heap s !! q).
Proof.
  intros Hreach. pose proof (reachable_inv N data_init key_init_bytes s Hreach) as Hinv.
  destruct (clear_spec N s Hinv) as (s' & ds & H1 & H2 & H3 & H4 & _ & H5 & H6 & H7).
  exists s', ds. auto 10.
Qed.

(** X18: in every reachable trie, also after erasures, [best(q)] returns
    the data node with the longest key that is a prefix of [q], and throws
    exactly when no data node's key is a prefix of [q]. *)
Theorem best_longest_stored_prefix (s : Trie) (q : BitArray.t) :
  reachable s -> BitArray.wf N q ->
  exists r, best q s = Some r /\
    (r = out_of_range <->
     forall d dd, heap s !! d = Some dd -> is_data dd -> ~ is_prefix (n_key dd) q) /\
    forall p, r = Ok p ->
      exists pd, heap s !! p = Some pd /\ is_data pd /\ is_prefix (n_key pd) q /\
        forall d dd, heap s !! d = Some dd -> is_data dd -> is_prefix (n_key dd) q ->
                     BitArray.size (n_key dd) <= BitArray.size (n_key pd).
Proof.
  intros Hreach Hq. destruct (reachable_inv N data_init key_init_bytes s Hreach) as [rep Hinv].
  destruct (searchBest_spec N rep s q Hinv Hq) as (res & Hres & Hspec).
  unfold best. rewrite Hres. cbn [mbind option_bind]. destruct res as [m|].
  - exists (Ok m). split; [reflexivity|]. destruct Hspec as (md & Hm & Hd & Hpre & Hmax).
    split.
    + split; [discriminate|]. intros Hno. exfalso. exact (Hno m md Hm Hd Hpre).
    + intros p [= <-]. exists md. auto.
  - exists out_of_range. split; [reflexivity|]. split; [tauto|]. intros p [=].
Qed.

(** X21: a successful [erase] passes to [delete] exactly the nodes it takes
    out of the trie, at most two of them, and passes one pointer twice
    exactly when it empties the trie. *)
Theorem erase_deletes_what_it_removes (s s' : Trie) (key : BitArray.t) :
  reachable s -> BitArray.wf N key -> erase key s = Some (Ok tt, s') ->
  exists ds, deleted s' = ds ++ deleted s /\ length ds <= 2 /\
    (forall q, In q ds <-> is_Some (heap s !! q) /\ heap s' !! q = None) /\
    (NoDup ds <-> empty s' = false).
Proof.
  intros Hreach Hkey He.
  pose proof (reachable_inv N data_init key_init_bytes s Hreach) as Hinv.
  destruct (erase_Ok_removeNode N key_init_bytes s key s' Hinv Hkey He)
    as (rep & p & pd & Hrep & Hp & Hrm).
  destruct (removeNode_deletes N key_init_bytes rep s p pd s' Hrep Hp Hrm)
    as (ds & Hds & Hlen & Hin & Hnd).
  exists ds. split; [assumption|]. split; [assumption|]. split; [assumption|].
  rewrite Hnd. unfold empty. rewrite bool_decide_eq_false. reflexivity.
Qed.

(** X23: in a trie built from the empty trie by insertions, [best]
    returns the node whose key is the longest of the inserted keys of at
    least one bit that are a prefix of the query, and throws exactly when no
    inserted key of at least one bit is a prefix of the query. *)
Theorem best_returns_longest_inserted_prefix (ops : list op) (q : BitArray.t) :
  Forall (fun o => is_insert o = true /\ wf_op N o) ops ->
  BitArray.wf N q ->
  exists s r,
    run ops BinaryTrie = Some s /\ best q s = Some r /\
    (r = out_of_range <-> forall k, inserted ops k -> ~ is_prefix k q) /\
    forall p, r = Ok p ->
      exists pd, heap s !! p = Some pd /\ deref s p = Some (n_data pd) /\
                 inserted ops (n_key pd) /\ is_prefix (n_key pd) q /\
                 forall k, inserted ops k -> is_prefix k q ->
                           BitArray.size k <= BitArray.size (n_key pd).
Proof.
  intros Hops Hq.
  destruct (run_insert_stored N data_init key_init_bytes ops BinaryTrie
              (inv_BinaryTrie N) Hops) as (s & Hrun & [rep Hinv] & Hst).
  assert (Hins : forall k, inserted ops k <-> stored s k).
  { intros k. rewrite Hst. split; [auto|]. intros [H|H]; [|assumption].
    now apply not_stored_BinaryTrie in H. }
  destruct (searchBest_spec N rep s q Hinv Hq) as (res & Hres & Hspec).
  exists s. unfold best. rewrite Hres. cbn [mbind option_bind].
  destruct res as [m|].
  - destruct Hspec as (md & Hm & Hd & Hpre & Hmax).
    assert (Hmi : inserted ops (n_key md)).
    { apply Hins. exists m, md. split; [assumption|]. split; [assumption|apply key_eq_refl]. }
    exists (Ok m). split; [assumption|]. split; [reflexivity|]. split.
    + split; [discriminate|]. intros Hno. exfalso. exact (Hno _ Hmi Hpre).
    + intros p [= <-]. exists md. split; [assumption|].
      split; [unfold deref; now rewrite Hm|]. split; [assumption|]. split; [assumption|].
      intros k Hk Hkq. apply Hins in Hk. destruct Hk as (d & dd & Hdd & Hdata & Hke).
      destruct Hke as [Hc Hag]. unfold BitArray.size. rewrite <- Hc.
      apply (Hmax d dd Hdd Hdata).
      apply (key_eq_prefix k); [|assumption]. apply key_eq_sym. now split.
  - exists out_of_range. split; [assumption|]. split; [reflexivity|]. split.
    + split; [|reflexivity]. intros _ k Hk Hkq.
      apply Hins in Hk. destruct Hk as (d & dd & Hdd & Hdata & Hke).
      apply (Hspec d dd Hdd Hdata).
      apply (key_eq_prefix k); [|assumption]. now apply key_eq_sym.
    + intros p [=].
Qed.

(** X24: for a key of at least one bit, [at(k)] right after
    [operator[](k)] returns the reference [operator[]] returned: the same
    node, also after payloads were written through references. *)
Theorem at_after_index_same_node (s : Trie) (key : BitArray.t) :
  reachable s -> BitArray.wf N key -> BitArray.size key <> 0 ->
  exists p s',
    index key s = Some (Ok p, s') /\ is_Some (heap s' !! p) /\
    at_ key s' = Some (Ok p) /\
    forall s'', data_eq s' s'' -> at_ key s'' = Some (Ok p).
Proof.
  intros Hreach Hkey Hlen. pose proof (reachable_inv N data_init key_init_bytes s Hreach) as Hinv.
  destruct (lookupNode_post N data_init key_init_bytes s key Hinv Hkey)
    as (p & s1 & Hlook & Hpost).
  exists p, s1. unfold index. rewrite Hlook. split; [reflexivity|].
  destruct (ip_result _ _ _ _ _ Hpost) as (pd & Hp & Hbits & Heq).
  split; [eauto|].
  assert (Hd : is_data pd).
  { unfold is_data. destruct Heq as [E _]. unfold BitArray.size in Hlen. congruence. }
  assert (Hat : forall s2, data_eq s1 s2 -> at_ key s2 = Some (Ok p)).
  { intros s2 Heq2. destruct (ip_inv _ _ _ _ _ Hpost) as [rep Hinv1].
    pose proof (data_eq_inv_with N s1 s2 Heq2 rep Hinv1) as Hinv2.
    destruct Heq2 as (_ & _ & _ & _ & Hfwd & _).
    destruct (Hfwd p pd Hp) as (pd2 & Hp2 & _ & _ & _ & Ek & _).
    unfold at_.
    rewrite (searchExact_complete N rep s2 key p pd2 Hinv2 Hkey Hp2).
    - reflexivity.
    - unfold is_data. now rewrite Ek.
    - now rewrite Ek. }
  split; [apply Hat, data_eq_refl|exact Hat].
Qed.

(** X25: a trie reached from the empty trie by insertions and erasures of
    keys of at least one bit has no glue node with fewer than two children;
    and such a program, when none of its erasures takes out the last key,
    runs to the end and passes no pointer to [delete] twice. *)
Theorem glue_nodes_have_two_children (ops : list op) :
  Forall (fun o => wf_op N o /\ keyed_op o) ops ->
  (forall s, run ops BinaryTrie = Some s ->
     forall p nd, heap s !! p = Some nd -> BitArray.empty (n_key nd) = true ->
                  n_left nd <> None /\ n_right nd <> None) /\
  (keeps_a_key (fun _ => False) ops ->
   exists s, run ops BinaryTrie = Some s /\ NoDup (deleted s)).
Proof.
  intros Hops. split.
  - intros s Hs p nd Hp He.
    destruct (run_glue N data_init key_init_bytes ops BinaryTrie (inv_BinaryTrie N)
                glue_full_BinaryTrie Hops) as (s1 & Hrun & _ & Hg).
    rewrite Hs in Hrun. injection Hrun as <-.
    apply (Hg p nd Hp). unfold BitArray.empty in He. now apply Nat.eqb_eq in He.
  - intros Hkeep.
    destruct (run_tidy N data_init key_init_bytes ops BinaryTrie (fun _ => False)
                (inv_BinaryTrie N) glue_full_BinaryTrie tidy_BinaryTrie Hops)
      as (s & Hrun & _ & _ & [Hnd _] & _); [|exact Hkeep|].
    { intros k. split; [apply not_stored_BinaryTrie|intros []]. }
    exists s. split; assumption.
Qed.

(** X26: the loop of [clear] is its round run again and again, and on a
    reachable trie its scratch stack never holds more than [N * 8] entries,
    however many rounds have run: the array [stack[N * 8 + 1]] does not
    overflow. *)
Theorem clear_stack_fits (s : Trie) (r : ptr) :
  reachable s -> root s = Some r ->
  (forall fuel,
     clear_loop fuel (Some r) [] s =
     match clear_rounds fuel (Some r) [] s with
     | Some (None, _, s') => Some s'
     | _ => None
     end) /\
  forall k node stack s',
    clear_rounds k (Some r) [] s = Some (node, stack, s') -> length stack <= N * 8.
Proof.
  intros Hreach Hr.
  pose proof (reachable_inv N data_init key_init_bytes s Hreach) as Hinv.
  split; [intros fuel; apply clear_loop_rounds|].
  intros k node stack s' Hrun.
  exact (clear_stack_bound N s r k node stack s' Hinv Hr Hrun).
Qed.

End TrieExtras.

(** ** The properties on the IPv4 table *)

Lemma single_reachable : reachable V4.N 0%Z [0; 0; 0; 0]%Z V4.single.
Proof.
  exists [OpAssign (V4.prefix 10 0 0 0 8) 100%Z]. split.
  - unfold wf_op, BitArray.wf. simpl. wf_solve.
  - vm_compute. reflexivity.
Qed.

Lemma table_updates_ok :
  Forall (fun o => wf_op V4.N o /\ keyed_op o /\ is_update o = true) V4.table_edits.
Proof.
  unfold V4.table_edits, V4.table, wf_op, keyed_op, BitArray.wf. simpl. wf_solve.
Qed.

Lemma at_finds_the_key_node_witness :
  reachable V4.N 0%Z [0; 0; 0; 0]%Z V4.loaded /\
  BitArray.wf V4.N (V4.prefix 10 1 0 0 16) /\
  (at_ V4.N (V4.prefix 10 1 0 0 16) V4.loaded = Some out_of_range
   <-> ~ stored V4.loaded (V4.prefix 10 1 0 0 16)).
Proof.
  assert (Hk : BitArray.wf V4.N (V4.prefix 10 1 0 0 16)) by (apply addr_wf; lia).
  split; [exact loaded_reachable|]. split; [exact Hk|].
  exact (proj2 (at_finds_the_key_node V4.N 0%Z [0; 0; 0; 0]%Z V4.loaded _
                  loaded_reachable Hk)).
Defined.

Lemma stored_keys_unique_witness :
  reachable V4.N 0%Z [0; 0; 0; 0]%Z V4.single /\
  heap V4.single !! 1 = Some (mkNode None None None 100%Z (V4.prefix 10 0 0 0 8) 8) /\
  is_data (mkNode None None None 100%Z (V4.prefix 10 0 0 0 8) 8) /\
  key_eq (V4.prefix 10 0 0 0 8) (V4.prefix 10 0 0 0 8) /\
  1 = 1.
Proof.
  assert (Hn : heap V4.single !! 1 = Some (mkNode None None None 100%Z (V4.prefix 10 0 0 0 8) 8))
    by (vm_compute; reflexivity).
  assert (Hd : is_data (mkNode None None None 100%Z (V4.prefix 10 0 0 0 8) 8))
    by (unfold is_data; simpl; lia).
  assert (Hk : key_eq (V4.prefix 10 0 0 0 8) (V4.prefix 10 0 0 0 8)) by apply key_eq_refl.
  split; [exact single_reachable|]. split; [exact Hn|]. split; [exact Hd|]. split; [exact Hk|].
  exact (stored_keys_unique V4.N 0%Z [0; 0; 0; 0]%Z V4.single 1 1 _ _
           single_reachable Hn Hn Hd Hd Hk).
Defined.

Lemma index_of_stored_key_changes_nothing_witness :
  reachable V4.N 0%Z [0; 0; 0; 0]%Z V4.loaded /\
  BitArray.wf V4.N (V4.prefix 10 1 0 0 16) /\
  at_ V4.N (V4.prefix 10 1 0 0 16) V4.loaded = Some (Ok 2) /\
  index V4.N 0%Z [0; 0; 0; 0]%Z (V4.prefix 10 1 0 0 16) V4.loaded = Some (Ok 2, V4.loaded).
Proof.
  assert (Hk : BitArray.wf V4.N (V4.prefix 10 1 0 0 16)) by (apply addr_wf; lia).
  assert (Hat : at_ V4.N (V4.prefix 10 1 0 0 16) V4.loaded = Some (Ok 2))
    by (vm_compute; reflexivity).
  split; [exact loaded_reachable|]. split; [exact Hk|]. split; [exact Hat|].
  exact (index_of_stored_key_changes_nothing V4.N 0%Z [0; 0; 0; 0]%Z V4.loaded _ 2
           loaded_reachable Hk Hat).
Defined.

Lemma index_keeps_references_witness :
  reachable V4.N 0%Z [0; 0; 0; 0]%Z V4.loaded /\
  BitArray.wf V4.N (V4.prefix 10 1 0 0 16) /\ BitArray.wf V4.N (V4.prefix 10 0 0 0 8) /\
  index V4.N 0%Z [0; 0; 0; 0]%Z (V4.prefix 10 1 0 0 16) V4.loaded = Some (Ok 2, V4.loaded) /\
  at_ V4.N (V4.prefix 10 0 0 0 8) V4.loaded = Some (Ok 1) /\
  at_ V4.N (V4.prefix 10 0 0 0 8) V4.loaded = Some (Ok 1).
Proof.
  assert (Hk : BitArray.wf V4.N (V4.prefix 10 1 0 0 16)) by (apply addr_wf; lia).
  assert (Hk' : BitArray.wf V4.N (V4.prefix 10 0 0 0 8)) by (apply addr_wf; lia).
  assert (Hi : index V4.N 0%Z [0; 0; 0; 0]%Z (V4.prefix 10 1 0 0 16) V4.loaded
               = Some (Ok 2, V4.loaded)) by (vm_compute; reflexivity).
  assert (Hat : at_ V4.N (V4.prefix 10 0 0 0 8) V4.loaded = Some (Ok 1))
    by (vm_compute; reflexivity).
  split; [exact loaded_reachable|]. split; [exact Hk|]. split; [exact Hk'|].
  split; [exact Hi|]. split; [exact Hat|].
  exact (proj1 (index_keeps_references V4.N 0%Z [0; 0; 0; 0]%Z V4.loaded V4.loaded _ _ 2 1
                  loaded_reachable Hk Hk' Hi Hat)).
Defined.

Lemma assign_then_at_witness :
  reachable V4.N 0%Z [0; 0; 0; 0]%Z V4.loaded /\
  BitArray.wf V4.N (V4.prefix 10 2 0 0 16) /\ BitArray.size (V4.prefix 10 2 0 0 16) <> 0 /\
  exists s' p,
    assign V4.N 0%Z [0; 0; 0; 0]%Z (V4.prefix 10 2 0 0 16) 300%Z V4.loaded = Some s' /\
    at_ V4.N (V4.prefix 10 2 0 0 16) s' = Some (Ok p) /\ deref s' p = Some 300%Z.
Proof.
  assert (Hk : BitArray.wf V4.N (V4.prefix 10 2 0 0 16)) by (apply addr_wf; lia).
  assert (Hn : BitArray.size (V4.prefix 10 2 0 0 16) <> 0) by (simpl; lia).
  split; [exact loaded_reachable|]. split; [exact Hk|]. split; [exact Hn|].
  destruct (assign_then_at V4.N 0%Z [0; 0; 0; 0]%Z V4.loaded _ 300%Z loaded_reachable Hk Hn)
    as (s' & p & H1 & H2 & H3 & _).
  exists s', p. auto.
Defined.

Lemma erase_removes_only_the_key_witness :
  reachable V4.N 0%Z [0; 0; 0; 0]%Z V4.loaded /\
  BitArray.wf V4.N (V4.prefix 10 1 2 0 24) /\
  erase V4.N [0; 0; 0; 0]%Z (V4.prefix 10 1 2 0 24) V4.loaded = Some (Ok tt, loaded_less) /\
  at_ V4.N (V4.prefix 10 1 2 0 24) loaded_less = Some out_of_range.
Proof.
  assert (Hk : BitArray.wf V4.N (V4.prefix 10 1 2 0 24)) by (apply addr_wf; lia).
  assert (He : erase V4.N [0; 0; 0; 0]%Z (V4.prefix 10 1 2 0 24) V4.loaded
               = Some (Ok tt, loaded_less)) by (vm_compute; reflexivity).
  split; [exact loaded_reachable|]. split; [exact Hk|]. split; [exact He|].
  exact (proj1 (erase_removes_only_the_key V4.N 0%Z [0; 0; 0; 0]%Z V4.loaded loaded_less _
                  loaded_reachable Hk He)).
Defined.

Lemma table_edits_keeps_a_key : keeps_a_key (fun _ => False) V4.table_edits.
Proof.
  assert (Hfar : forall a b c len,
            ~ key_eq (V4.prefix 10 a b c len) (V4.prefix 192 168 0 0 16)).
  { intros a b c len [Hc Hag]. cbn in Hc. subst len.
    specialize (Hag 0 ltac:(cbn; lia)). vm_compute in Hag. discriminate. }
  unfold V4.table_edits, V4.table. cbn [app keeps_a_key].
  repeat split; try (intros [=]; fail); intros _ _;
    exists (V4.prefix 192 168 0 0 16); unfold keys_step; cbn [is_insert op_key];
    repeat split; try apply Hfar; auto 10 using key_eq_refl.
Qed.

Lemma keys_follow_the_program_witness :
  Forall (fun o => wf_op V4.N o /\ keyed_op o) V4.table_edits /\
  keeps_a_key (fun _ => False) V4.table_edits /\
  exists s, V4.run4 V4.table_edits BinaryTrie = Some s /\ NoDup (deleted s) /\
            forall k, stored s k <-> keys_after V4.table_edits k.
Proof.
  split; [exact table_edits_ok|]. split; [exact table_edits_keeps_a_key|].
  exact (keys_follow_the_program V4.N 0%Z [0; 0; 0; 0]%Z V4.table_edits
           table_edits_ok table_edits_keeps_a_key).
Defined.

Lemma payloads_follow_the_program_witness :
  Forall (fun o => wf_op V4.N o /\ keyed_op o /\ is_update o = true) V4.table_edits /\
  keeps_a_key (fun _ => False) V4.table_edits /\
  exists s, V4.run4 V4.table_edits BinaryTrie = Some s /\ NoDup (deleted s) /\
    forall k v, BitArray.wf V4.N k ->
      ((exists p, at_ V4.N k s = Some (Ok p) /\ deref s p = Some v)
       <-> vals_after V4.table_edits k v).
Proof.
  split; [exact table_updates_ok|]. split; [exact table_edits_keeps_a_key|].
  exact (payloads_follow_the_program V4.N 0%Z [0; 0; 0; 0]%Z V4.table_edits
           table_updates_ok table_edits_keeps_a_key).
Defined.

Lemma erase_all_but_one_leaves_one_node_witness :
  Forall (fun o => is_insert o = true /\ wf_op V4.N o /\ keyed_op o) V4.table /\
  Forall (fun e => BitArray.wf V4.N e /\ BitArray.bitCount e <> 0) table_rest /\
  (exists o, In o V4.table /\ key_eq (op_key o) (V4.prefix 10 0 0 0 8)) /\
  (forall e, In e table_rest -> ~ key_eq e (V4.prefix 10 0 0 0 8)) /\
  (forall o, In o V4.table ->
     key_eq (op_key o) (V4.prefix 10 0 0 0 8) \/
     exists e, In e table_rest /\ key_eq e (op_key o)) /\
  exists s r rd,
    V4.run4 (V4.table ++ map (@OpErase Z) table_rest) BinaryTrie = Some s /\
    NoDup (deleted s) /\
    root s = Some r /\ heap s = ({[r := rd]} : gmap nat (@Node Z)) /\
    key_eq (n_key rd) (V4.prefix 10 0 0 0 8) /\ n_left rd = None /\ n_right rd = None /\
    size s = 1%Z /\ empty s = false.
Proof.
  assert (H1 : Forall (fun o => is_insert o = true /\ wf_op V4.N o /\ keyed_op o) V4.table)
    by (unfold V4.table, wf_op, keyed_op, BitArray.wf; simpl; wf_solve).
  assert (H2 : Forall (fun e => BitArray.wf V4.N e /\ BitArray.bitCount e <> 0) table_rest)
    by (unfold table_rest, BitArray.wf; simpl; wf_solve).
  assert (H3 : exists o, In o V4.table /\ key_eq (op_key o) (V4.prefix 10 0 0 0 8)).
  { eexists. split; [left; reflexivity|apply key_eq_refl]. }
  assert (H4 : forall e, In e table_rest -> ~ key_eq e (V4.prefix 10 0 0 0 8)).
  { intros e He [Hc _]. unfold table_rest in He. cbn [In] in He.
    destruct He as [<-|[<-|[<-|[]]]]; cbn in Hc; discriminate. }
  assert (H5 : forall o, In o V4.table ->
            key_eq (op_key o) (V4.prefix 10 0 0 0 8) \/
            exists e, In e table_rest /\ key_eq e (op_key o)).
  { intros o Ho. unfold V4.table in Ho. cbn [In] in Ho.
    destruct Ho as [<-|[<-|[<-|[<-|[]]]]]; cbn [op_key];
      [left; apply key_eq_refl| | |]; right; eexists;
      (split; [|apply key_eq_refl]); unfold table_rest; cbn [In]; auto. }
  split; [exact H1|]. split; [exact H2|]. split; [exact H3|]. split; [exact H4|].
  split; [exact H5|].
  exact (erase_all_but_one_leaves_one_node V4.N 0%Z [0; 0; 0; 0]%Z V4.table table_rest
           (V4.prefix 10 0 0 0 8) H1 H2 H3 H4 H5).
Defined.

Lemma size_counts_nodes_witness :
  reachable V4.N 0%Z [0; 0; 0; 0]%Z V4.loaded /\
  size V4.loaded = size_t_wrap (Z.of_nat (live V4.loaded)).
Proof.
  split; [exact loaded_reachable|].
  exact (proj1 (size_counts_nodes V4.N 0%Z [0; 0; 0; 0]%Z V4.loaded loaded_reachable)).
Defined.

Lemma searchBest_stack_fits_witness :
  reachable V4.N 0%Z [0; 0; 0; 0]%Z V4.loaded /\ root V4.loaded = Some 5 /\
  (exists node stack pushed,
     searchBest_loop (max_depth V4.N) (V4.addr 10 1 2 3) (heap V4.loaded) 5 []
       = Some (node, stack) /\
     searchBest_push (heap V4.loaded) node stack = Some pushed) /\
  forall fuel node stack pushed,
    searchBest_loop fuel (V4.addr 10 1 2 3) (heap V4.loaded) 5 [] = Some (node, stack) ->
    searchBest_push (heap V4.loaded) node stack = Some pushed ->
    length pushed <= V4.N * 8 + 1.
Proof.
  assert (Hr : root V4.loaded = Some 5) by (vm_compute; reflexivity).
  split; [exact loaded_reachable|]. split; [exact Hr|].
  exact (searchBest_stack_fits V4.N 0%Z [0; 0; 0; 0]%Z V4.loaded (V4.addr 10 1 2 3) 5
           loaded_reachable Hr).
Defined.

Lemma clear_deletes_every_node_once_witness :
  reachable V4.N 0%Z [0; 0; 0; 0]%Z V4.loaded /\
  exists s' ds, clear V4.loaded = Some s' /\ heap s' = ∅ /\
                deleted s' = ds ++ deleted V4.loaded /\ NoDup ds.
Proof.
  split; [exact loaded_reachable|].
  destruct (clear_deletes_every_node_once V4.N 0%Z [0; 0; 0; 0]%Z V4.loaded loaded_reachable)
    as (s' & ds & H1 & H2 & _ & _ & H5 & H6 & _).
  exists s', ds. auto.
Defined.

Lemma best_longest_stored_prefix_witness :
  reachable V4.N 0%Z [0; 0; 0; 0]%Z V4.loaded /\ BitArray.wf V4.N (V4.addr 10 1 3 4) /\
  exists r, best V4.N (V4.addr 10 1 3 4) V4.loaded = Some r.
Proof.
  assert (Hq : BitArray.wf V4.N (V4.addr 10 1 3 4)) by (apply addr_wf; lia).
  split; [exact loaded_reachable|]. split; [exact Hq|].
  destruct (best_longest_stored_prefix V4.N 0%Z [0; 0; 0; 0]%Z V4.loaded _ loaded_reachable Hq)
    as (r & Hr & _).
  now exists r.
Defined.

Lemma erase_deletes_what_it_removes_witness :
  reachable V4.N 0%Z [0; 0; 0; 0]%Z V4.loaded /\
  BitArray.wf V4.N (V4.prefix 10 1 2 0 24) /\
  erase V4.N [0; 0; 0; 0]%Z (V4.prefix 10 1 2 0 24) V4.loaded = Some (Ok tt, loaded_less) /\
  exists ds, deleted loaded_less = ds ++ deleted V4.loaded /\ length ds <= 2 /\
    (forall q, In q ds <-> is_Some (heap V4.loaded !! q) /\ heap loaded_less !! q = None) /\
    (NoDup ds <-> empty loaded_less = false).
Proof.
  assert (Hk : BitArray.wf V4.N (V4.prefix 10 1 2 0 24)) by (apply addr_wf; lia).
  assert (He : erase V4.N [0; 0; 0; 0]%Z (V4.prefix 10 1 2 0 24) V4.loaded
               = Some (Ok tt, loaded_less)) by (vm_compute; reflexivity).
  split; [exact loaded_reachable|]. split; [exact Hk|]. split; [exact He|].
  exact (erase_deletes_what_it_removes V4.N 0%Z [0; 0; 0; 0]%Z V4.loaded loaded_less _
           loaded_reachable Hk He).
Defined.

Lemma best_returns_longest_inserted_prefix_witness :
  Forall (fun o => is_insert o = true /\ wf_op V4.N o) V4.table /\
  BitArray.wf V4.N (V4.addr 10 1 2 3) /\
  exists s r, V4.run4 V4.table BinaryTrie = Some s /\
              best V4.N (V4.addr 10 1 2 3) s = Some r.
Proof.
  assert (Hq : BitArray.wf V4.N (V4.addr 10 1 2 3)) by (apply addr_wf; lia).
  split; [exact table_ok|]. split; [exact Hq|].
  destruct (best_returns_longest_inserted_prefix V4.N 0%Z [0; 0; 0; 0]%Z V4.table
              (V4.addr 10 1 2 3) table_ok Hq) as (s & r & Hrun & Hbest & _).
  exists s, r. split; assumption.
Defined.

Lemma at_after_index_same_node_witness :
  reachable V4.N 0%Z [0; 0; 0; 0]%Z V4.loaded /\
  BitArray.wf V4.N (V4.prefix 10 2 0 0 16) /\
  BitArray.size (V4.prefix 10 2 0 0 16) <> 0 /\
  exists p s', index V4.N 0%Z [0; 0; 0; 0]%Z (V4.prefix 10 2 0 0 16) V4.loaded = Some (Ok p, s') /\
               at_ V4.N (V4.prefix 10 2 0 0 16) s' = Some (Ok p).
Proof.
  assert (Hk : BitArray.wf V4.N (V4.prefix 10 2 0 0 16)) by (apply addr_wf; lia).
  assert (Hn : BitArray.size (V4.prefix 10 2 0 0 16) <> 0) by (simpl; lia).
  split; [exact loaded_reachable|]. split; [exact Hk|]. split; [exact Hn|].
  destruct (at_after_index_same_node V4.N 0%Z [0; 0; 0; 0]%Z V4.loaded
              (V4.prefix 10 2 0 0 16) loaded_reachable Hk Hn) as (p & s' & Hi & _ & Hat & _).
  exists p, s'. split; assumption.
Defined.

Lemma glue_nodes_have_two_children_witness :
  Forall (fun o => wf_op V4.N o /\ keyed_op o) V4.table_edits /\
  keeps_a_key (fun _ => False) V4.table_edits /\
  exists s, V4.run4 V4.table_edits BinaryTrie = Some s /\ NoDup (deleted s).
Proof.
  split; [exact table_edits_ok|]. split; [exact table_edits_keeps_a_key|].
  exact (proj2 (glue_nodes_have_two_children V4.N 0%Z [0; 0; 0; 0]%Z V4.table_edits
                  table_edits_ok) table_edits_keeps_a_key).
Defined.

Lemma clear_stack_fits_witness :
  reachable V4.N 0%Z [0; 0; 0; 0]%Z V4.loaded /\ root V4.loaded = Some 5 /\
  forall k node stack s',
    clear_rounds k (Some 5) [] V4.loaded = Some (node, stack, s') ->
    length stack <= V4.N * 8.
Proof.
  assert (Hr : root V4.loaded = Some 5) by (vm_compute; reflexivity).
  split; [exact loaded_reachable|]. split; [exact Hr|].
  exact (proj2 (clear_stack_fits V4.N 0%Z [0; 0; 0; 0]%Z V4.loaded 5 loaded_reachable Hr)).
Defined.
